(** * Smart warehouse: the algorithmic engines, embedded and verified

    A shallow embedding of the TypeScript engines of the warehouse
    application (merge sort and quicksort, the two search strategies, the
    greedy best-fit allocator, the 0/1 knapsack optimizer and the
    Dijkstra-based route planner), followed by the theorems that relate
    them to the written specification.

    Conventions of the embedding.
    - Item fields that hold counts and grid coordinates are integers, each
      a double; the fields [weight], [value] and [unitPrice] are rationals.
    - A sum, a difference or a product of integers is the double nearest
      to the exact result ([NumZ.nearest]: 53 significant bits, a tie to
      the even significand), and [Infinity] from 2^1024 on where the
      result is a [num]; arithmetic on rationals is exact.
    - A [num] is a finite value or one of the three special values
      [Infinity], [-Infinity] and [NaN].
    - A string is a [string] of 8-bit characters compared by character code.
    - An exception is a value of [exn]; a loop whose bound is not syntactic
      is run on fuel and [Diverge] marks an exhausted budget.
    - [performance.now()] is wall-clock time and is left out of the
      performance reports; every other field is kept. *)

From Stdlib Require Import ZArith QArith Qround Qabs Lqa Lia.
From Stdlib Require Import String Ascii List Permutation Sorted.
From Stdlib Require Import DecimalString DecimalZ.
From stdpp Require Import base option list gmap strings.
From Equations Require Import Equations.

Local Open Scope Z_scope.

(** ** JavaScript numbers *)

Module Js.

Inductive num (F : Type) : Type :=
| Fin (x : F)
| PInf
| NInf
| NaN.
Arguments Fin {F} x.
Arguments PInf {F}.
Arguments NInf {F}.
Arguments NaN {F}.

(** What a JavaScript computation can end with besides a value. *)
Inductive exn : Type :=
| RangeError (msg : string)
| TypeError (msg : string)
| Error (msg : string)
| Diverge.

Inductive res (A : Type) : Type :=
| Ok (a : A)
| Throw (e : exn).
Arguments Ok {A} a.
Arguments Throw {A} e.

Definition bind {A B} (m : res A) (k : A -> res B) : res B :=
  match m with
  | Ok a => k a
  | Throw e => Throw e
  end.

Definition is_ok {A} (m : res A) : Prop := exists a, m = Ok a.

End Js.

(** [res] is an error monad; [x ← m; k] runs [m] and stops at the first
    exception. *)
#[global] Instance res_ret : MRet Js.res := fun A a => Js.Ok a.
#[global] Instance res_bind : MBind Js.res := fun A B k m => Js.bind m k.

(** Arithmetic on integer-valued numbers (distances, leftovers). *)
Module NumZ.
Import Js.

Abbreviation t := (num Z).

(** The double nearest to an integer: the integer cut to 53 significant
    bits, half a unit in the last place going to the even significand.
    The exponent is not bounded here. *)
Definition nearest (z : Z) : Z :=
  let a := Z.abs z in
  let ulp := 2 ^ Z.max 0 (Z.log2 a - 52) in
  let q := a / ulp in
  let r := a mod ulp in
  let q := if 2 * r <? ulp then q
           else if ulp <? 2 * r then q + 1
           else if Z.even q then q else q + 1 in
  Z.sgn z * (q * ulp).

(** The number that an exact integer result becomes: the nearest double,
    and an infinity when that leaves the finite doubles. *)
Definition of_Z (z : Z) : t :=
  let r := nearest z in
  if 2 ^ 1024 <=? r then PInf
  else if r <=? - 2 ^ 1024 then NInf
  else Fin r.

Definition add (a b : t) : t :=
  match a, b with
  | NaN, _ | _, NaN => NaN
  | PInf, NInf | NInf, PInf => NaN
  | PInf, _ | _, PInf => PInf
  | NInf, _ | _, NInf => NInf
  | Fin x, Fin y => of_Z (x + y)
  end.

Definition neg (a : t) : t :=
  match a with
  | Fin x => Fin (- x)
  | PInf => NInf
  | NInf => PInf
  | NaN => NaN
  end.

Definition sub (a b : t) : t := add a (neg b).

Definition abs (a : t) : t :=
  match a with
  | Fin x => Fin (Z.abs x)
  | PInf | NInf => PInf
  | NaN => NaN
  end.

Definition mul (a b : t) : t :=
  match a, b with
  | NaN, _ | _, NaN => NaN
  | Fin x, Fin y => of_Z (x * y)
  | Fin x, PInf | PInf, Fin x =>
      if x =? 0 then NaN else if 0 <? x then PInf else NInf
  | Fin x, NInf | NInf, Fin x =>
      if x =? 0 then NaN else if 0 <? x then NInf else PInf
  | PInf, PInf | NInf, NInf => PInf
  | PInf, NInf | NInf, PInf => NInf
  end.

(** [a < b]; every comparison with [NaN] is false. *)
Definition lt (a b : t) : bool :=
  match a, b with
  | NaN, _ | _, NaN => false
  | Fin x, Fin y => x <? y
  | NInf, NInf => false
  | NInf, _ => true
  | _, NInf => false
  | PInf, _ => false
  | Fin _, PInf => true
  end.

(** [a !== Infinity]. *)
Definition isnt_Infinity (a : t) : bool :=
  match a with
  | PInf => false
  | _ => true
  end.

End NumZ.

(** Arithmetic on rational-valued numbers (weights, money). *)
Module NumQ.
Import Js.

Abbreviation t := (num Q).

Definition add (a b : t) : t :=
  match a, b with
  | NaN, _ | _, NaN => NaN
  | PInf, NInf | NInf, PInf => NaN
  | PInf, _ | _, PInf => PInf
  | NInf, _ | _, NInf => NInf
  | Fin x, Fin y => Fin (x + y)%Q
  end.

Definition neg (a : t) : t :=
  match a with
  | Fin x => Fin (- x)%Q
  | PInf => NInf
  | NInf => PInf
  | NaN => NaN
  end.

Definition sub (a b : t) : t := add a (neg b).

(** Division of two finite numbers, with JavaScript's results for a zero
    divisor. *)
Definition div (x y : Q) : t :=
  if Qeq_bool y 0 then
    if Qeq_bool x 0 then NaN
    else if Qle_bool 0 x then PInf else NInf
  else Fin (x / y)%Q.

Definition mulQ (a : t) (k : Q) : t :=
  match a with
  | Fin x => Fin (x * k)%Q
  | PInf => if Qeq_bool k 0 then NaN else if Qle_bool 0 k then PInf else NInf
  | NInf => if Qeq_bool k 0 then NaN else if Qle_bool 0 k then NInf else PInf
  | NaN => NaN
  end.

(** [Math.max a b]: [NaN] as soon as one argument is [NaN]. *)
Definition max (a b : t) : t :=
  match a, b with
  | NaN, _ | _, NaN => NaN
  | PInf, _ | _, PInf => PInf
  | NInf, c | c, NInf => c
  | Fin x, Fin y => if Qle_bool x y then Fin y else Fin x
  end.

(** [a !== b] on numbers: [NaN] differs from everything, itself
    included. *)
Definition strict_ne (a b : t) : bool :=
  match a, b with
  | NaN, _ | _, NaN => true
  | Fin x, Fin y => negb (Qeq_bool x y)
  | PInf, PInf | NInf, NInf => false
  | _, _ => true
  end.

(** [0 < a], the test a sort makes on the result of its comparator. *)
Definition positive (a : t) : bool :=
  match a with
  | Fin x => negb (Qle_bool x 0)
  | PInf => true
  | NInf | NaN => false
  end.

(** Equality of numbers up to the representation of the rational. *)
Definition equiv (a b : t) : Prop :=
  match a, b with
  | Fin x, Fin y => (x == y)%Q
  | PInf, PInf | NInf, NInf | NaN, NaN => True
  | _, _ => False
  end.

End NumQ.

(** ** JavaScript strings and arrays *)

Module JsString.

Definition lower_char (c : ascii) : ascii :=
  let n := nat_of_ascii c in
  if ((65 <=? n) && (n <=? 90))%nat then ascii_of_nat (n + 32) else c.

(** [s.toLowerCase()] *)
Fixpoint toLowerCase (s : string) : string :=
  match s with
  | EmptyString => EmptyString
  | String c s' => String (lower_char c) (toLowerCase s')
  end.

(** [s.includes(t)]: [t] occurs in [s] at some position. *)
Fixpoint includes (s t : string) : bool :=
  String.prefix t s ||
  match s with
  | EmptyString => false
  | String _ s' => includes s' t
  end.

(** [s.charCodeAt(0)], which is [NaN] on the empty string. *)
Definition charCodeAt0 (s : string) : NumZ.t :=
  match s with
  | EmptyString => Js.NaN
  | String c _ => Js.Fin (Z.of_nat (nat_of_ascii c))
  end.

(** [s.substring(0, i)] *)
Definition substring0 (i : nat) (s : string) : string :=
  String.substring 0 i s.

End JsString.

Module JsArray.

Section Sort.
Context {A : Type}.
(** The comparator handed to [Array.prototype.sort]; a result that is
    not positive (a negative number, zero or [NaN]) keeps its first
    argument in front. *)
Variable cmp : A -> A -> NumQ.t.

Fixpoint insert (x : A) (l : list A) : list A :=
  match l with
  | [] => [x]
  | y :: l' =>
      if NumQ.positive (cmp x y) then y :: insert x l' else x :: y :: l'
  end.

(** [arr.sort(cmp)]. The language fixes the result, not the algorithm:
    the sort is stable, and for a comparator that is a consistent order
    the result is the one list computed here. *)
Fixpoint sort (l : list A) : list A :=
  match l with
  | [] => []
  | x :: l' => insert x (sort l')
  end.
End Sort.

(** [arr.indexOf(x)] on an array of distinct references. *)
Fixpoint indexOf (x : nat) (l : list nat) : option nat :=
  match l with
  | [] => None
  | y :: l' => if (x =? y)%nat then Some 0%nat else S <$> indexOf x l'
  end.

(** [arr.splice(i, 1)] *)
Definition splice1 {A} (i : nat) (l : list A) : list A := delete i l.

End JsArray.

(** ** Data model (types/index.ts, dijkstra.ts) *)

Module Location.
Record t : Type := mk { aisle : string; shelf : Z; position : Z }.

#[global] Instance eq_dec : EqDecision t.
Proof. solve_decision. Defined.
End Location.

Module InventoryItem.

Record t : Type := mk {
  id : string;
  name : string;
  category : string;
  quantity : Z;
  minStock : Z;
  maxStock : Z;
  unitPrice : Q;
  location : Location.t;
  dateAdded : string;
  lastUpdated : string;
  supplier : string;
  weight : Q;
  value : Q
}.

(** [keyof InventoryItem] *)
Inductive key : Type :=
| k_id | k_name | k_category | k_quantity | k_minStock | k_maxStock
| k_unitPrice | k_location | k_dateAdded | k_lastUpdated | k_supplier
| k_weight | k_value.

#[global] Instance key_eq_dec : EqDecision key.
Proof. solve_decision. Defined.

(** [String(key)] *)
Definition key_name (k : key) : string :=
  match k with
  | k_id => "id" | k_name => "name" | k_category => "category"
  | k_quantity => "quantity" | k_minStock => "minStock"
  | k_maxStock => "maxStock" | k_unitPrice => "unitPrice"
  | k_location => "location" | k_dateAdded => "dateAdded"
  | k_lastUpdated => "lastUpdated" | k_supplier => "supplier"
  | k_weight => "weight" | k_value => "value"
  end.

(** The value of a field as JavaScript sees it. *)
Inductive jsval : Type :=
| VString (s : string)
| VNumber (q : Q)
| VObject (l : Location.t).

(** [item[key]] *)
Definition get (it : t) (k : key) : jsval :=
  match k with
  | k_id => VString (id it)
  | k_name => VString (name it)
  | k_category => VString (category it)
  | k_quantity => VNumber (inject_Z (quantity it))
  | k_minStock => VNumber (inject_Z (minStock it))
  | k_maxStock => VNumber (inject_Z (maxStock it))
  | k_unitPrice => VNumber (unitPrice it)
  | k_location => VObject (location it)
  | k_dateAdded => VString (dateAdded it)
  | k_lastUpdated => VString (lastUpdated it)
  | k_supplier => VString (supplier it)
  | k_weight => VNumber (weight it)
  | k_value => VNumber (value it)
  end.

(** [a <= b] on two field values. Two strings compare by character
    code, two numbers by value, and two plain objects both convert to the
    string ["[object Object]"], so the test succeeds. Operands of
    different types do not arise here: both sides are read from the same
    field of a typed record. *)
Definition le (a b : jsval) : bool :=
  match a, b with
  | VString s, VString t => String.leb s t
  | VNumber p, VNumber q => Qle_bool p q
  | VObject _, VObject _ => true
  | _, _ => false
  end.

End InventoryItem.

Module WarehouseSpace.
Record t : Type := mk {
  id : string;
  aisle : string;
  shelf : Z;
  position : Z;
  capacity : Z;
  occupied : Z;
  available : Z;
  itemId : option string
}.
End WarehouseSpace.

(** The performance report without its [executionTime]; the two counts are
    optional fields. *)
Module AlgorithmPerformance.
Record t : Type := mk {
  algorithm : string;
  operation : string;
  dataSize : nat;
  comparisons : option nat;
  swaps : option nat
}.
End AlgorithmPerformance.

(** ** sorting.ts *)

Module MergeSort.
Import InventoryItem.

(** The two private counters of the class. *)
Record state : Type := mkState { comparisons : nat; swaps : nat }.

Definition count_comparison (st : state) : state :=
  {| comparisons := S (comparisons st); swaps := swaps st |}.

Definition count_swap (st : state) : state :=
  {| comparisons := comparisons st; swaps := S (swaps st) |}.

Definition getValue (item : InventoryItem.t) (sortBy : key) : jsval :=
  match get item sortBy with
  | VString s => VString (JsString.toLowerCase s)
  | v => v
  end.

(** The [while] loop of [merge] and the [concat] behind it. [lefts] and
    [rights] are what the two indices have not consumed yet, that is
    [left.slice(leftIndex)] and [right.slice(rightIndex)]. *)
Equations? merge_loop (result lefts rights : list InventoryItem.t)
    (sortBy : key) (st : state) : list InventoryItem.t * state
    by wf (length lefts + length rights)%nat lt :=
  merge_loop result (l :: left') (r :: right') sortBy st
    with le (getValue l sortBy) (getValue r sortBy) => {
    | true :=
        merge_loop (result ++ [l]) left' (r :: right') sortBy
          (count_comparison st)
    | false :=
        merge_loop (result ++ [r]) (l :: left') right' sortBy
          (count_swap (count_comparison st)) };
  merge_loop result lefts rights sortBy st :=
    (result ++ lefts ++ rights, st).
Proof. all: simpl; lia. Qed.

Definition merge (left right : list InventoryItem.t) (sortBy : key)
    (st : state) : list InventoryItem.t * state :=
  merge_loop [] left right sortBy st.

Equations? mergeSort (arr : list InventoryItem.t) (sortBy : key)
    (st : state) : list InventoryItem.t * state
    by wf (length arr) lt :=
  mergeSort arr sortBy st with decide (length arr <= 1)%nat => {
    | left _ := (arr, st)
    | right _ :=
        let left := mergeSort (take (length arr / 2) arr) sortBy st in
        let right := mergeSort (drop (length arr / 2) arr) sortBy left.2 in
        merge left.1 right.1 sortBy right.2 }.
Proof.
  all: change ((Nat.divmod (length arr) 1 0 1).1) with (length arr / 2)%nat.
  - rewrite length_take.
    assert (length arr / 2 < length arr)%nat by (apply Nat.div_lt; lia).
    lia.
  - rewrite length_drop.
    assert (0 < length arr / 2)%nat by (apply Nat.div_str_pos; lia).
    lia.
Qed.

Record result : Type := mkResult {
  sortedItems : list InventoryItem.t;
  performance : AlgorithmPerformance.t
}.

Definition sort (items : list InventoryItem.t) (sortBy : key) : result :=
  let st0 := {| comparisons := 0; swaps := 0 |} in
  let sorted := mergeSort items sortBy st0 in
  {| sortedItems := sorted.1;
     performance :=
       {| AlgorithmPerformance.algorithm := "Merge Sort";
          AlgorithmPerformance.operation := "Sort by " ++ key_name sortBy;
          AlgorithmPerformance.dataSize := length items;
          AlgorithmPerformance.comparisons := Some (comparisons sorted.2);
          AlgorithmPerformance.swaps := Some (swaps sorted.2) |} |}.

End MergeSort.

Module QuickSort.
Import InventoryItem Js.

Record state : Type := mkState { comparisons : nat; swaps : nat }.

Definition count_comparison (st : state) : state :=
  {| comparisons := S (comparisons st); swaps := swaps st |}.

Definition count_swap (st : state) : state :=
  {| comparisons := comparisons st; swaps := S (swaps st) |}.

Definition getValue (item : InventoryItem.t) (sortBy : key) : jsval :=
  match get item sortBy with
  | VString s => VString (JsString.toLowerCase s)
  | v => v
  end.

(** [arr[i]]; [None] is [undefined]. *)
Definition at_ (arr : list InventoryItem.t) (i : Z) : option InventoryItem.t :=
  if i <? 0 then None else arr !! Z.to_nat i.

(** [getValue(arr[i], sortBy)]: reading a field of [undefined] throws. *)
Definition valueAt (arr : list InventoryItem.t) (i : Z) (sortBy : key)
    : res jsval :=
  match at_ arr i with
  | Some item => Ok (getValue item sortBy)
  | None => Throw (TypeError "Cannot read properties of undefined")
  end.

(** [[arr[i], arr[j]] = [arr[j], arr[i]]] for two indices inside the
    array; [partition] has read both cells before it swaps them. *)
Definition swap (arr : list InventoryItem.t) (i j : Z) : list InventoryItem.t :=
  match at_ arr i, at_ arr j with
  | Some x, Some y => <[Z.to_nat j := x]> (<[Z.to_nat i := y]> arr)
  | _, _ => arr
  end.

(** The [for] loop of [partition], with [n] iterations left. *)
Fixpoint partition_loop (n : nat) (arr : list InventoryItem.t)
    (pivot : jsval) (i j : Z) (sortBy : key) (st : state)
    : res (list InventoryItem.t * Z * state) :=
  match n with
  | O => Ok (arr, i, st)
  | S n' =>
      let st := count_comparison st in
      v ← valueAt arr j sortBy;
      if le v pivot then
        let i := i + 1 in
        let arr := swap arr i j in
        let st := if i =? j then st else count_swap st in
        partition_loop n' arr pivot i (j + 1) sortBy st
      else partition_loop n' arr pivot i (j + 1) sortBy st
  end.

Definition partition (arr : list InventoryItem.t) (low high : Z)
    (sortBy : key) (st : state) : res (list InventoryItem.t * Z * state) :=
  pivot ← valueAt arr high sortBy;
  '(arr, i, st) ← partition_loop (Z.to_nat (high - low)) arr pivot
                    (low - 1) low sortBy st;
  let arr := swap arr (i + 1) high in
  let st := if i + 1 =? high then st else count_swap st in
  Ok (arr, i + 1, st).

(** [quickSort] on a budget of nested calls. *)
Fixpoint quickSort (fuel : nat) (arr : list InventoryItem.t) (low high : Z)
    (sortBy : key) (st : state) : res (list InventoryItem.t * state) :=
  if low <? high then
    match fuel with
    | O => Throw Diverge
    | S fuel' =>
        '(arr, pivotIndex, st) ← partition arr low high sortBy st;
        '(arr, st) ← quickSort fuel' arr low (pivotIndex - 1) sortBy st;
        quickSort fuel' arr (pivotIndex + 1) high sortBy st
    end
  else Ok (arr, st).

Record result : Type := mkResult {
  sortedItems : list InventoryItem.t;
  performance : AlgorithmPerformance.t
}.

Definition sort (items : list InventoryItem.t) (sortBy : key) : res result :=
  let st0 := {| comparisons := 0; swaps := 0 |} in
  '(sorted, st) ← quickSort (length items) items 0
                    (Z.of_nat (length items) - 1) sortBy st0;
  Ok {| sortedItems := sorted;
        performance :=
          {| AlgorithmPerformance.algorithm := "Quick Sort";
             AlgorithmPerformance.operation := "Sort by " ++ key_name sortBy;
             AlgorithmPerformance.dataSize := length items;
             AlgorithmPerformance.comparisons := Some (comparisons st);
             AlgorithmPerformance.swaps := Some (swaps st) |} |}.

End QuickSort.

(** ** searching.ts *)

(** [String(value)] for a field value. How JavaScript prints a number is
    not part of this development; the printer is a parameter. *)
Definition String_of (String_of_number : Q -> string)
    (v : InventoryItem.jsval) : string :=
  match v with
  | InventoryItem.VString s => s
  | InventoryItem.VNumber q => String_of_number q
  | InventoryItem.VObject _ => "[object Object]"
  end.

Module BinarySearch.
Import InventoryItem.

Section WithPrinter.
Variable String_of_number : Q -> string.

Definition getValue (item : InventoryItem.t) (searchBy : key) : string :=
  String_of String_of_number (get item searchBy).

(** The comparator of the initial sort: -1, 1 or 0. *)
Definition compare (searchBy : key) (a b : InventoryItem.t) : NumQ.t :=
  let aValue := getValue a searchBy in
  let bValue := getValue b searchBy in
  if String.ltb aValue bValue then Js.Fin (-1)%Q
  else if String.ltb bValue aValue then Js.Fin 1%Q
  else Js.Fin 0%Q.

(** One iteration of the scan over the sorted copy. *)
Definition scan_step (searchValue : string) (searchBy : key)
    (acc : list InventoryItem.t * nat) (item : InventoryItem.t)
    : list InventoryItem.t * nat :=
  let '(results, comparisons) := acc in
  let comparisons := S comparisons in
  let itemValue := JsString.toLowerCase (getValue item searchBy) in
  if JsString.includes itemValue searchValue
  then (results ++ [item], comparisons)
  else (results, comparisons).

Record result : Type := mkResult {
  results : list InventoryItem.t;
  performance : AlgorithmPerformance.t
}.

Definition search (items : list InventoryItem.t) (searchTerm : string)
    (searchBy : key) : result :=
  let sortedItems := JsArray.sort (compare searchBy) items in
  let searchValue := JsString.toLowerCase searchTerm in
  let scanned :=
    fold_left (scan_step searchValue searchBy) sortedItems ([], 0%nat) in
  {| results := scanned.1;
     performance :=
       {| AlgorithmPerformance.algorithm := "Binary Search";
          AlgorithmPerformance.operation :=
            "Search by " ++ key_name searchBy;
          AlgorithmPerformance.dataSize := length items;
          AlgorithmPerformance.comparisons := Some scanned.2;
          AlgorithmPerformance.swaps := None |} |}.
End WithPrinter.

End BinarySearch.

Module HashMapSearch.
Import InventoryItem.

(** The private [hashMaps]: field name to prefix to items. *)
Definition state : Type := gmap string (gmap string (list InventoryItem.t)).

(** The state of a fresh instance. *)
Definition empty : state := ∅.

Definition fields : list key := [k_id; k_name; k_category; k_supplier].

Section WithPrinter.
Variable String_of_number : Q -> string.

Definition getValue (item : InventoryItem.t) (searchBy : key) : string :=
  String_of String_of_number (get item searchBy).

(** The body of the loop over [i]: register [item] under the prefix of
    length [i]. *)
Definition addPrefix (item : InventoryItem.t) (value : string)
    (fieldMap : gmap string (list InventoryItem.t)) (i : nat)
    : gmap string (list InventoryItem.t) :=
  let substring := JsString.substring0 i value in
  let fieldMap :=
    match fieldMap !! substring with
    | Some _ => fieldMap
    | None => <[substring := []]> fieldMap
    end in
  let existingItems := default [] (fieldMap !! substring) in
  if existsb (fun existingItem => String.eqb (id existingItem) (id item))
       existingItems
  then fieldMap
  else <[substring := existingItems ++ [item]]> fieldMap.

(** The body of [items.forEach]. *)
Definition addItem (field : key)
    (fieldMap : gmap string (list InventoryItem.t))
    (item : InventoryItem.t) : gmap string (list InventoryItem.t) :=
  let value := JsString.toLowerCase (getValue item field) in
  fold_left (addPrefix item value) (seq 1 (String.length value)) fieldMap.

(** The body of [fields.forEach]. *)
Definition addField (items : list InventoryItem.t) (hashMaps : state)
    (field : key) : state :=
  let fieldMap := fold_left (addItem field) items ∅ in
  <[key_name field := fieldMap]> hashMaps.

Definition buildHashMap (items : list InventoryItem.t) (hashMaps : state)
    : state :=
  fold_left (addField items) fields hashMaps.
End WithPrinter.

Definition getTotalItemCount (hashMaps : state) : nat :=
  map_fold (fun _ fieldMap count =>
              map_fold (fun _ (items : list InventoryItem.t) count =>
                          (count + length items)%nat) count fieldMap)
           0%nat hashMaps.

Record result : Type := mkResult {
  results : list InventoryItem.t;
  performance : AlgorithmPerformance.t
}.

Definition search (hashMaps : state) (searchTerm : string) (searchBy : key)
    : result :=
  let fieldMap := hashMaps !! key_name searchBy in
  let searchValue := JsString.toLowerCase searchTerm in
  let results :=
    match fieldMap with
    | Some fieldMap =>
        match fieldMap !! searchValue with
        | Some found => found
        | None => []
        end
    | None => []
    end in
  {| results := results;
     performance :=
       {| AlgorithmPerformance.algorithm := "Hash Map Search";
          AlgorithmPerformance.operation :=
            "Search by " ++ key_name searchBy;
          AlgorithmPerformance.dataSize := getTotalItemCount hashMaps;
          AlgorithmPerformance.comparisons := Some 1%nat;
          AlgorithmPerformance.swaps := None |} |}.

End HashMapSearch.

(** ** spaceOptimization.ts *)

Module GreedyBestFit.
Import InventoryItem.

(** Space units are objects that the allocator mutates in place. The
    caller's array [availableSpaces] is the store: its [k]-th element is
    the object with reference [k], and every other array of the code
    ([spaces], [allocatedSpace], [bestSpace]) holds references into it. *)
Record SpaceAllocation : Type := mkAllocation {
  item : InventoryItem.t;
  allocatedSpace : nat;
  efficiency : NumQ.t
}.

Definition density (a : InventoryItem.t) : NumQ.t :=
  NumQ.div (value a) (weight a).

(** The comparator of the ranking: [bDensity - aDensity]. *)
Definition compare (a b : InventoryItem.t) : NumQ.t :=
  NumQ.sub (density b) (density a).

(** [[...availableSpaces].filter(space => space.available > 0)] *)
Definition candidates (store : list WarehouseSpace.t) : list nat :=
  List.filter (fun k => match store !! k with
                        | Some space => 0 <? WarehouseSpace.available space
                        | None => false
                        end)
              (seq 0 (length store)).

(** One iteration of the scan for the best fit; the accumulator is
    [(bestSpace, bestFit)]. *)
Definition scan_step (store : list WarehouseSpace.t) (it : InventoryItem.t)
    (acc : option nat * NumZ.t) (ref : nat) : option nat * NumZ.t :=
  match store !! ref with
  | Some space =>
      if quantity it <=? WarehouseSpace.available space then
        let wastedSpace :=
          Js.Fin (NumZ.nearest
                    (WarehouseSpace.available space - quantity it)) in
        if NumZ.lt wastedSpace acc.2 then (Some ref, wastedSpace) else acc
      else acc
  | None => acc
  end.

Definition findBestSpace (store : list WarehouseSpace.t)
    (spaces : list nat) (it : InventoryItem.t) : option nat :=
  (fold_left (scan_step store it) spaces (None, Js.PInf)).1.

(** The three assignments to the chosen space; [occupied += quantity]
    and [available -= quantity] store the doubles nearest to the sum and
    to the difference. *)
Definition occupy (space : WarehouseSpace.t) (it : InventoryItem.t)
    : WarehouseSpace.t :=
  {| WarehouseSpace.id := WarehouseSpace.id space;
     WarehouseSpace.aisle := WarehouseSpace.aisle space;
     WarehouseSpace.shelf := WarehouseSpace.shelf space;
     WarehouseSpace.position := WarehouseSpace.position space;
     WarehouseSpace.capacity := WarehouseSpace.capacity space;
     WarehouseSpace.occupied :=
       NumZ.nearest (WarehouseSpace.occupied space + quantity it);
     WarehouseSpace.available :=
       NumZ.nearest (WarehouseSpace.available space - quantity it);
     WarehouseSpace.itemId := Some (id it) |}.

(** [spaces.splice(spaces.indexOf(bestSpace), 1)]; an index of -1 would
    make [splice] drop the last element. *)
Definition remove (ref : nat) (spaces : list nat) : list nat :=
  match JsArray.indexOf ref spaces with
  | Some index => JsArray.splice1 index spaces
  | None => take (length spaces - 1) spaces
  end.

Record state : Type := mkState {
  store : list WarehouseSpace.t;
  spaces : list nat;
  allocations : list SpaceAllocation;
  unallocated : list InventoryItem.t
}.

(** The body of the loop over the ranked items. *)
Definition step (st : state) (it : InventoryItem.t) : state :=
  match findBestSpace (store st) (spaces st) it with
  | Some ref =>
      match store st !! ref with
      | Some bestSpace =>
          let efficiency :=
            NumQ.mulQ (NumQ.div (inject_Z (quantity it))
                         (inject_Z (WarehouseSpace.capacity bestSpace)))
                      100 in
          let updated := occupy bestSpace it in
          {| store := <[ref := updated]> (store st);
             spaces := if WarehouseSpace.available updated =? 0
                       then remove ref (spaces st) else spaces st;
             allocations := allocations st ++
               [{| item := it; allocatedSpace := ref;
                   efficiency := efficiency |}];
             unallocated := unallocated st |}
      | None => st
      end
  | None =>
      {| store := store st; spaces := spaces st;
         allocations := allocations st;
         unallocated := unallocated st ++ [it] |}
  end.

Definition sortedItems (items : list InventoryItem.t)
    : list InventoryItem.t :=
  JsArray.sort compare items.

(** The result, together with the space units as the call leaves them.
    The report has no [comparisons]: the ranking counts the calls the
    built-in sort makes to the comparator, a number the language leaves
    to the engine. *)
Record result : Type := mkResult {
  res_allocations : list SpaceAllocation;
  res_unallocated : list InventoryItem.t;
  res_store : list WarehouseSpace.t;
  performance : AlgorithmPerformance.t
}.

Definition run (items : list InventoryItem.t)
    (availableSpaces : list WarehouseSpace.t) : state :=
  fold_left step (sortedItems items)
    {| store := availableSpaces; spaces := candidates availableSpaces;
       allocations := []; unallocated := [] |}.

Definition allocateSpace (items : list InventoryItem.t)
    (availableSpaces : list WarehouseSpace.t) : result :=
  let final := run items availableSpaces in
  {| res_allocations := allocations final;
     res_unallocated := unallocated final;
     res_store := store final;
     performance :=
       {| AlgorithmPerformance.algorithm := "Greedy Best-Fit";
          AlgorithmPerformance.operation := "Space Allocation";
          AlgorithmPerformance.dataSize := length items;
          AlgorithmPerformance.comparisons := None;
          AlgorithmPerformance.swaps := None |} |}.

End GreedyBestFit.

Module KnapsackOptimization.
Import InventoryItem Js.

(** The table [dp], an array of rows. *)
Abbreviation table := (list (list NumQ.t)).

(** [Math.ceil(item.weight)] *)
Definition ceilWeight (item : InventoryItem.t) : Z := Qceiling (weight item).

(** [dp[i][j]]; [None] is [undefined]. *)
Definition cell (dp : table) (i : nat) (j : Z) : option NumQ.t :=
  if j <? 0 then None else dp !! i ≫= fun row => row !! Z.to_nat j.

(** The number that arithmetic makes of a cell: [undefined] becomes
    [NaN]. *)
Definition toNumber (c : option NumQ.t) : NumQ.t := default NaN c.

(** [dp[i][j] = v] for a cell of the table. *)
Definition setCell (dp : table) (i : nat) (j : Z) (v : NumQ.t) : table :=
  match dp !! i with
  | Some row => <[i := <[Z.to_nat j := v]> row]> dp
  | None => dp
  end.

(** The body of the loop over [w], for row [i] and its item. *)
Definition fillCell (i : nat) (item : InventoryItem.t) (acc : table * nat)
    (w : Z) : table * nat :=
  let '(dp, comparisons) := acc in
  let comparisons := S comparisons in
  let weight := ceilWeight item in
  if weight <=? w then
    let includeValue :=
      NumQ.add (Fin (value item)) (toNumber (cell dp (i - 1) (w - weight))) in
    let excludeValue := toNumber (cell dp (i - 1) w) in
    (setCell dp i w (NumQ.max includeValue excludeValue), comparisons)
  else (setCell dp i w (toNumber (cell dp (i - 1) w)), comparisons).

(** The values [1, ..., capacity] of [w]. *)
Definition widths (capacity : Z) : list Z :=
  map Z.of_nat (seq 1 (Z.to_nat capacity)).

(** The loop over [i], entered at [i] with [items[i-1], items[i], ...]
    still to come. *)
Fixpoint fill (items : list InventoryItem.t) (i : nat) (capacity : Z)
    (acc : table * nat) : table * nat :=
  match items with
  | [] => acc
  | item :: rest =>
      fill rest (S i) capacity (fold_left (fillCell i item) (widths capacity) acc)
  end.

(** [dp[i][w] !== dp[i-1][w]] *)
Definition differs (a b : option NumQ.t) : bool :=
  match a, b with
  | Some x, Some y => NumQ.strict_ne x y
  | None, None => false
  | _, _ => true
  end.

Record trace : Type := mkTrace {
  selected : list InventoryItem.t;
  totalWeight : Q;
  steps : nat
}.

(** The backtracking loop at row [i] with remaining capacity [w]. *)
Fixpoint backtrack (dp : table) (items : list InventoryItem.t) (i : nat)
    (w : Z) (tr : trace) : res trace :=
  match i with
  | O => Ok tr
  | S i' =>
      if 0 <? w then
        let tr := {| selected := selected tr; totalWeight := totalWeight tr;
                     steps := S (steps tr) |} in
        if differs (cell dp i w) (cell dp i' w) then
          match items !! i' with
          | Some item =>
              backtrack dp items i' (w - ceilWeight item)
                {| selected := selected tr ++ [item];
                   totalWeight := (totalWeight tr + weight item)%Q;
                   steps := steps tr |}
          | None => Throw (TypeError "Cannot read properties of undefined")
          end
        else backtrack dp items i' w tr
      else Ok tr
  end.

Record result : Type := mkResult {
  selectedItems : list InventoryItem.t;
  totalValue : option NumQ.t;
  res_totalWeight : Q;
  performance : AlgorithmPerformance.t
}.

(** [Array(capacity + 1)], called once for each of the [n + 1] rows,
    takes a length from 0 to 2^32 - 1 and throws for any other. *)
Definition optimizeValue (items : list InventoryItem.t) (capacity : Z)
    : res result :=
  let n := length items in
  if (capacity + 1 <? 0) || (4294967295 <? capacity + 1)
  then Throw (RangeError "Invalid array length")
  else
    let dp0 : table :=
      replicate (n + 1) (replicate (Z.to_nat (capacity + 1)) (Fin 0%Q)) in
    let '(dp, comparisons) := fill items 1 capacity (dp0, 0%nat) in
    tr ← backtrack dp items n capacity
           {| selected := []; totalWeight := 0%Q; steps := 0 |};
    Ok {| selectedItems := rev (selected tr);
          totalValue := cell dp n capacity;
          res_totalWeight := totalWeight tr;
          performance :=
            {| AlgorithmPerformance.algorithm := "0/1 Knapsack";
               AlgorithmPerformance.operation := "Value Optimization";
               AlgorithmPerformance.dataSize := length items;
               AlgorithmPerformance.comparisons :=
                 Some (comparisons + steps tr)%nat;
               AlgorithmPerformance.swaps := None |} |}.

End KnapsackOptimization.

(** ** dijkstra.ts *)

Module DijkstraPathFinder.
Import Js.

(** The two private fields of the class. *)
Record state : Type := mkState {
  graph : list (list NumZ.t);
  locations : list Location.t
}.

(** The state of a fresh instance. *)
Definition initial : state := {| graph := []; locations := [] |}.

Definition calculateDistance (loc1 loc2 : Location.t) : NumZ.t :=
  let aisle1 :=
    NumZ.sub (JsString.charCodeAt0 (Location.aisle loc1)) (Fin 64) in
  let aisle2 :=
    NumZ.sub (JsString.charCodeAt0 (Location.aisle loc2)) (Fin 64) in
  let aisleDistance := NumZ.mul (NumZ.abs (NumZ.sub aisle1 aisle2)) (Fin 10) in
  let shelfDistance :=
    NumZ.mul
      (NumZ.abs (NumZ.sub (Fin (Location.shelf loc1))
                          (Fin (Location.shelf loc2))))
      (Fin 5) in
  let positionDistance :=
    NumZ.mul
      (NumZ.abs (NumZ.sub (Fin (Location.position loc1))
                          (Fin (Location.position loc2))))
      (Fin 2) in
  NumZ.add (NumZ.add aisleDistance shelfDistance) positionDistance.

(** [graph[i][j] = v] for a cell of the matrix. *)
Definition setEntry (graph : list (list NumZ.t)) (i j : nat) (v : NumZ.t)
    : list (list NumZ.t) :=
  match graph !! i with
  | Some row => <[i := <[j := v]> row]> graph
  | None => graph
  end.

(** The body of the loop over [j], from [i + 1]. *)
Definition setPair (locations : list Location.t) (i : nat)
    (graph : list (list NumZ.t)) (j : nat) : list (list NumZ.t) :=
  match locations !! i, locations !! j with
  | Some loc1, Some loc2 =>
      let distance := calculateDistance loc1 loc2 in
      setEntry (setEntry graph i j distance) j i distance
  | _, _ => graph
  end.

Definition initializeWarehouseGraph (locs : list Location.t) (st : state)
    : state :=
  let n := length locs in
  let graph := replicate n (replicate n PInf) in
  let graph := fold_left (fun g i => setEntry g i i (Fin 0)) (seq 0 n) graph in
  let graph :=
    fold_left (fun g i => fold_left (setPair locs i) (seq (S i) (n - S i)) g)
      (seq 0 n) graph in
  {| graph := graph; locations := locs |}.

(** The arrays of one run of [dijkstra]; [None] in [previous] is
    [null]. *)
Record search : Type := mkSearch {
  distances : list NumZ.t;
  previous : list (option nat);
  visited : list bool;
  visitedNodes : list nat
}.

(** The scan for the unvisited node of minimum distance; the accumulator
    is [(minDistance, currentNode)] and [None] stands for -1. *)
Definition min_step (s : search) (acc : NumZ.t * option nat) (j : nat)
    : NumZ.t * option nat :=
  match visited s !! j, distances s !! j with
  | Some false, Some d => if NumZ.lt d acc.1 then (d, Some j) else acc
  | _, _ => acc
  end.

Definition findMin (n : nat) (s : search) : option nat :=
  (fold_left (min_step s) (seq 0 n) (PInf, None)).2.

(** The body of the loop over the neighbours of [currentNode]. An entry
    of the matrix that does not exist makes [newDistance] a [NaN], which
    is smaller than nothing. *)
Definition relax_step (graph : list (list NumZ.t)) (currentNode : nat)
    (s : search) (neighbor : nat) : search :=
  match visited s !! neighbor, graph !! currentNode ≫= (.!! neighbor),
        distances s !! currentNode, distances s !! neighbor with
  | Some false, Some edge, Some dc, Some dn =>
      if NumZ.isnt_Infinity edge then
        let newDistance := NumZ.add dc edge in
        if NumZ.lt newDistance dn then
          {| distances := <[neighbor := newDistance]> (distances s);
             previous := <[neighbor := Some currentNode]> (previous s);
             visited := visited s;
             visitedNodes := visitedNodes s |}
        else s
      else s
  | _, _, _, _ => s
  end.

Definition visit (currentNode : nat) (s : search) : search :=
  {| distances := distances s;
     previous := previous s;
     visited := <[currentNode := true]> (visited s);
     visitedNodes := visitedNodes s ++ [currentNode] |}.

(** The main loop, with [iters] iterations left. *)
Fixpoint main_loop (iters : nat) (graph : list (list NumZ.t)) (n end_ : nat)
    (s : search) : search :=
  match iters with
  | O => s
  | S iters' =>
      match findMin n s with
      | None => s
      | Some currentNode =>
          let s := visit currentNode s in
          if (currentNode =? end_)%nat then s
          else main_loop iters' graph n end_
                 (fold_left (relax_step graph currentNode) (seq 0 n) s)
      end
  end.

(** The walk back along [previous]; it ends at a [null] and cannot end
    once it has left the array. *)
Fixpoint reconstruct (fuel : nat) (prev : list (option nat)) (current : nat)
    (path : list nat) : res (list nat) :=
  match fuel with
  | O => Throw Diverge
  | S fuel' =>
      let path := current :: path in
      match prev !! current with
      | Some None => Ok path
      | Some (Some p) => reconstruct fuel' prev p path
      | None => Throw Diverge
      end
  end.

Record found : Type := mkFound {
  path : list nat;
  distance : NumZ.t;
  f_visitedNodes : list nat
}.

Definition dijkstra (st : state) (start end_ : nat) : res found :=
  let n := length (graph st) in
  let s0 :=
    {| distances := <[start := Fin 0]> (replicate n PInf);
       previous := replicate n None;
       visited := replicate n false;
       visitedNodes := [] |} in
  let s := main_loop n (graph st) n end_ s0 in
  path ← reconstruct (S n) (previous s) end_ [];
  match distances s !! end_ with
  | Some d => Ok {| path := path; distance := d;
                    f_visitedNodes := visitedNodes s |}
  | None => Throw Diverge (* [end_] outside the arrays: no [path] either *)
  end.

Fixpoint findIndex {A} (p : A -> bool) (l : list A) : option nat :=
  match l with
  | [] => None
  | x :: l' => if p x then Some 0%nat else S <$> findIndex p l'
  end.

(** [None] stands for -1. *)
Definition findLocationIndex (st : state) (location : Location.t)
    : option nat :=
  findIndex (fun loc =>
               String.eqb (Location.aisle loc) (Location.aisle location)
               && (Location.shelf loc =? Location.shelf location)
               && (Location.position loc =? Location.position location))
            (locations st).

(** The local variables of [findOptimalPickingPath]. *)
Record tour : Type := mkTour {
  t_path : list nat;
  t_visited : gset nat;
  t_visitedNodes : list nat;
  t_totalDistance : NumZ.t;
  t_currentLocation : nat;
  t_comparisons : nat
}.

(** The loop over [destIndices] that looks for the nearest unvisited
    destination. *)
Fixpoint findNearest (st : state) (currentLocation : nat)
    (visited : gset nat) (destIndices : list nat)
    (nearestLocation : option nat) (nearestDistance : NumZ.t)
    (comparisons : nat) : res (option nat * NumZ.t * nat) :=
  match destIndices with
  | [] => Ok (nearestLocation, nearestDistance, comparisons)
  | destIndex :: rest =>
      let comparisons := S comparisons in
      if decide (destIndex ∈ visited) then
        findNearest st currentLocation visited rest nearestLocation
          nearestDistance comparisons
      else
        r ← dijkstra st currentLocation destIndex;
        if NumZ.lt (distance r) nearestDistance then
          findNearest st currentLocation visited rest (Some destIndex)
            (distance r) comparisons
        else
          findNearest st currentLocation visited rest nearestLocation
            nearestDistance comparisons
  end.

(** The [while] loop, on a budget of iterations. *)
Fixpoint visitAll (fuel : nat) (st : state) (destIndices : list nat)
    (t : tour) : res tour :=
  if (size (t_visited t) <=? length destIndices)%nat then
    match fuel with
    | O => Throw Diverge
    | S fuel' =>
        '(nearestLocation, _, comparisons) ←
          findNearest st (t_currentLocation t) (t_visited t) destIndices
            None PInf (t_comparisons t);
        match nearestLocation with
        | Some nearestLocation =>
            result ← dijkstra st (t_currentLocation t) nearestLocation;
            visitAll fuel' st destIndices
              {| t_path := t_path t ++ tail (path result);
                 t_visited := {[nearestLocation]} ∪ t_visited t;
                 t_visitedNodes := t_visitedNodes t ++ f_visitedNodes result;
                 t_totalDistance :=
                   NumZ.add (t_totalDistance t) (distance result);
                 t_currentLocation := nearestLocation;
                 t_comparisons := comparisons |}
        | None =>
            Ok {| t_path := t_path t; t_visited := t_visited t;
                  t_visitedNodes := t_visitedNodes t;
                  t_totalDistance := t_totalDistance t;
                  t_currentLocation := t_currentLocation t;
                  t_comparisons := comparisons |}
        end
    end
  else Ok t.

Record PathResult : Type := mkPathResult {
  r_path : list nat;
  totalDistance : NumZ.t;
  r_visitedNodes : list nat;
  performance : AlgorithmPerformance.t
}.

(** The method reads the two fields and writes neither; the state it
    leaves is returned next to its outcome. *)
Definition findOptimalPickingPath (startLocation : Location.t)
    (destinationLocations : list Location.t) (st : state)
    : res PathResult * state :=
  let startIndex := findLocationIndex st startLocation in
  let destIndices := map (findLocationIndex st) destinationLocations in
  match startIndex, mapM (fun index => index) destIndices with
  | Some startIndex, Some destIndices =>
      (t ← visitAll (S (length destIndices)) st destIndices
             {| t_path := [startIndex];
                t_visited := {[startIndex]};
                t_visitedNodes := [startIndex];
                t_totalDistance := Fin 0;
                t_currentLocation := startIndex;
                t_comparisons := 0 |};
       Ok {| r_path := t_path t;
             totalDistance := t_totalDistance t;
             r_visitedNodes := t_visitedNodes t;
             performance :=
               {| AlgorithmPerformance.algorithm := "Dijkstra's Algorithm";
                  AlgorithmPerformance.operation := "Shortest Path Finding";
                  AlgorithmPerformance.dataSize := length (locations st);
                  AlgorithmPerformance.comparisons := Some (t_comparisons t);
                  AlgorithmPerformance.swaps := None |} |},
       st)
  | _, _ => (Throw (Error "Invalid location specified"), st)
  end.

(** [this.locations[index] || null] for an integer [index]; a location
    is an object, hence truthy, and [None] is [null]. *)
Definition getLocationByIndex (st : state) (index : Z) : option Location.t :=
  if index <? 0 then None else locations st !! Z.to_nat index.

(** [[...this.locations]] *)
Definition getAllLocations (st : state) : list Location.t := locations st.

End DijkstraPathFinder.

(** * The application around the engines

    The pure parts of the React components and of the data hook that
    feed the engines and read their results. A state setter
    [setX(prev => f(prev))] is the function [f] on the state; what a
    component reads from the clock is an argument of the call. *)

(** ** Template strings and [Map] *)

Module JsTemplate.

(** [`${n}`] for an integer [n]: its decimal digits, with a minus sign
    when it is negative (the form JavaScript prints for integers of less
    than 22 digits). *)
Definition of_integer (n : Z) : string :=
  NilZero.string_of_int (Z.to_int n).

End JsTemplate.

Module JsMap.

(** A [Map] with string keys, as the list of its entries in insertion
    order. *)
Definition t (V : Type) : Type := list (string * V).

(** [map.set(k, v)]: a key that is there keeps its place and takes the
    new value; a new key goes to the end. *)
Fixpoint set {V} (k : string) (v : V) (m : t V) : t V :=
  match m with
  | [] => [(k, v)]
  | (k', v') :: m' =>
      if String.eqb k' k then (k', v) :: m' else (k', v') :: set k v m'
  end.

(** [new Map(entries)] *)
Definition of_entries {V} (entries : list (string * V)) : t V :=
  fold_left (fun m entry => set entry.1 entry.2 m) entries [].

(** [Array.from(map.values())] *)
Definition values {V} (m : t V) : list V := map snd m.

End JsMap.

(** ** The selection of items (SpaceOptimization.tsx, RouteOptimization.tsx) *)

Module Selection.
Import InventoryItem.

(** [ids.includes(itemId)] *)
Definition includes (ids : list string) (itemId : string) : bool :=
  existsb (String.eqb itemId) ids.

(** The updater of [toggleItemSelection]. *)
Definition toggleItemSelection (itemId : string) (prev : list string)
    : list string :=
  if includes prev itemId
  then List.filter (fun id => negb (String.eqb id itemId)) prev
  else prev ++ [itemId].

(** [inventory.map(item => item.id)] *)
Definition selectAllItems (inventory : list InventoryItem.t) : list string :=
  map id inventory.

(** [inventory.filter(item => selectedItems.includes(item.id))] *)
Definition selected (inventory : list InventoryItem.t)
    (selectedItems : list string) : list InventoryItem.t :=
  List.filter (fun item => includes selectedItems (id item)) inventory.

End Selection.

(** ** SpaceOptimization.tsx *)

Module SpaceOptimization.
Import InventoryItem Js.

Inductive OptimizationAlgorithm : Type := greedy | knapsack.

(** The state of the component that [runOptimization] reads and sets. *)
Record view : Type := mkView {
  algorithm : OptimizationAlgorithm;
  selectedItems : list string;
  allocations : list GreedyBestFit.SpaceAllocation;
  unallocatedItems : list InventoryItem.t;
  knapsackResult : option KnapsackOptimization.result;
  performance : option AlgorithmPerformance.t;
  capacity : Z
}.

(** The call of the allocator in [runOptimization]. The array it hands
    over, [warehouseSpaces.filter(space => space.available > 0)], holds
    the space units of the hook themselves, so the store that the
    allocator mutates is [warehouseSpaces]; the allocator filters the
    array once more. *)
Definition allocate (itemsToOptimize : list InventoryItem.t)
    (warehouseSpaces : list WarehouseSpace.t) : GreedyBestFit.state :=
  let available (ref : nat) : bool :=
    match warehouseSpaces !! ref with
    | Some space => 0 <? WarehouseSpace.available space
    | None => false
    end in
  let availableSpaces :=
    List.filter available (seq 0 (length warehouseSpaces)) in
  let spaces := List.filter available availableSpaces in
  fold_left GreedyBestFit.step (GreedyBestFit.sortedItems itemsToOptimize)
    {| GreedyBestFit.store := warehouseSpaces;
       GreedyBestFit.spaces := spaces;
       GreedyBestFit.allocations := [];
       GreedyBestFit.unallocated := [] |}.

(** [runOptimization], the wait left out: the space units and the view
    it leaves. An exception of the engine is caught and logged, and
    leaves both as they were. *)
Definition runOptimization (inventory : list InventoryItem.t)
    (warehouseSpaces : list WarehouseSpace.t) (v : view)
    : list WarehouseSpace.t * view :=
  if (length (selectedItems v) =? 0)%nat then (warehouseSpaces, v)
  else
    let itemsToOptimize := Selection.selected inventory (selectedItems v) in
    match algorithm v with
    | greedy =>
        let final := allocate itemsToOptimize warehouseSpaces in
        (GreedyBestFit.store final,
         {| algorithm := algorithm v;
            selectedItems := selectedItems v;
            allocations := GreedyBestFit.allocations final;
            unallocatedItems := GreedyBestFit.unallocated final;
            knapsackResult := None;
            performance :=
              Some {| AlgorithmPerformance.algorithm := "Greedy Best-Fit";
                      AlgorithmPerformance.operation := "Space Allocation";
                      AlgorithmPerformance.dataSize := length itemsToOptimize;
                      AlgorithmPerformance.comparisons := None;
                      AlgorithmPerformance.swaps := None |};
            capacity := capacity v |})
    | knapsack =>
        match KnapsackOptimization.optimizeValue itemsToOptimize (capacity v)
        with
        | Ok result =>
            (warehouseSpaces,
             {| algorithm := algorithm v;
                selectedItems := selectedItems v;
                allocations := [];
                unallocatedItems := [];
                knapsackResult := Some result;
                performance :=
                  Some (KnapsackOptimization.performance result);
                capacity := capacity v |})
        | Throw _ => (warehouseSpaces, v)
        end
    end.

(** [spaceStats] *)
Record stats : Type := mkStats {
  totalCapacity : Z;
  totalOccupied : Z;
  totalAvailable : Z;
  utilization : Q
}.

(** [warehouseSpaces.reduce((sum, space) => sum + space.f, 0)] *)
Definition sum (f : WarehouseSpace.t -> Z) (l : list WarehouseSpace.t) : Z :=
  fold_left (fun sum space => NumZ.nearest (sum + f space)) l 0.

Definition spaceStats (warehouseSpaces : list WarehouseSpace.t) : stats :=
  let totalCapacity := sum WarehouseSpace.capacity warehouseSpaces in
  let totalOccupied := sum WarehouseSpace.occupied warehouseSpaces in
  let totalAvailable := sum WarehouseSpace.available warehouseSpaces in
  {| totalCapacity := totalCapacity;
     totalOccupied := totalOccupied;
     totalAvailable := totalAvailable;
     utilization :=
       if 0 <? totalCapacity
       then (inject_Z totalOccupied / inject_Z totalCapacity * 100)%Q
       else 0%Q |}.

End SpaceOptimization.

(** ** RouteOptimization.tsx *)

Module RouteOptimization.
Import InventoryItem Js.

(** [`${location.aisle}-${location.shelf}-${location.position}`] *)
Definition locationKey (location : Location.t) : string :=
  Location.aisle location ++ "-" ++
  JsTemplate.of_integer (Location.shelf location) ++ "-" ++
  JsTemplate.of_integer (Location.position location).

(** The locations handed to the planner: the values of a [Map] from
    location key to location. *)
Definition uniqueLocations (inventory : list InventoryItem.t)
    : list Location.t :=
  JsMap.values
    (JsMap.of_entries
       (map (fun item => (locationKey (location item), location item))
            inventory)).

(** The effect that initializes the graph, run when [inventory]
    changes. *)
Definition initialize (inventory : list InventoryItem.t)
    (pathFinder : DijkstraPathFinder.state) : DijkstraPathFinder.state :=
  if (0 <? length inventory)%nat
  then DijkstraPathFinder.initializeWarehouseGraph (uniqueLocations inventory)
         pathFinder
  else pathFinder.

(** [calculateOptimalRoute], the wait left out: the [pathResult] it
    leaves. An exception of the planner is caught and logged, and leaves
    the result that was there. *)
Definition calculateOptimalRoute (inventory : list InventoryItem.t)
    (selectedItems : list string) (startLocation : Location.t)
    (pathFinder : DijkstraPathFinder.state)
    (pathResult : option DijkstraPathFinder.PathResult)
    : option DijkstraPathFinder.PathResult :=
  if (length selectedItems =? 0)%nat then pathResult
  else
    let selectedItemsData := Selection.selected inventory selectedItems in
    let destinationLocations := map location selectedItemsData in
    match (DijkstraPathFinder.findOptimalPickingPath startLocation
             destinationLocations pathFinder).1 with
    | Ok result => Some result
    | Throw _ => pathResult
    end.

End RouteOptimization.

(** ** hooks/useWarehouseData.ts *)

Module Activity.
Inductive kind : Type := add | update | delete | search | optimization.

Record t : Type := mk {
  id : string;
  type : kind;
  description : string;
  timestamp : string
}.
End Activity.

Module useWarehouseData.
Import InventoryItem.

(** The three pieces of state. *)
Record state : Type := mkState {
  inventory : list InventoryItem.t;
  warehouseSpaces : list WarehouseSpace.t;
  activities : list Activity.t
}.

(** What a call reads from the clock: [Date.now().toString()] and
    [new Date().toISOString()]. *)
Record clock : Type := mkClock { now : string; iso : string }.

Definition addActivity (c : clock) (type : Activity.kind)
    (description : string) (st : state) : state :=
  let newActivity :=
    {| Activity.id := now c; Activity.type := type;
       Activity.description := description; Activity.timestamp := iso c |} in
  {| inventory := inventory st;
     warehouseSpaces := warehouseSpaces st;
     activities := newActivity :: take 49 (activities st) |}.

Definition addInventoryItem (c : clock) (item : InventoryItem.t) (st : state)
    : state :=
  addActivity c Activity.add
    ("Added item: " ++ name item ++ " (" ++
     JsTemplate.of_integer (quantity item) ++ " units)")
    {| inventory := inventory st ++ [item];
       warehouseSpaces := warehouseSpaces st;
       activities := activities st |}.

Definition updateInventoryItem (c : clock) (updatedItem : InventoryItem.t)
    (st : state) : state :=
  addActivity c Activity.update ("Updated item: " ++ name updatedItem)
    {| inventory :=
         map (fun item => if String.eqb (id item) (id updatedItem)
                          then updatedItem else item)
             (inventory st);
       warehouseSpaces := warehouseSpaces st;
       activities := activities st |}.

(** [deleteInventoryItem] is a callback of one render: [find] reads
    [rendered], the inventory of that render, and the updater filters
    the inventory of the state at the time of the call. The two are the
    same list when the call is the first change since the render. *)
Definition deleteInventoryItem (c : clock) (itemId : string)
    (rendered : list InventoryItem.t) (st : state) : state :=
  let item := List.find (fun i => String.eqb (id i) itemId) rendered in
  let st' :=
    {| inventory :=
         List.filter (fun item => negb (String.eqb (id item) itemId))
                     (inventory st);
       warehouseSpaces := warehouseSpaces st;
       activities := activities st |} in
  match item with
  | Some item => addActivity c Activity.delete ("Deleted item: " ++ name item) st'
  | None => st'
  end.

Definition updateWarehouseSpace (updatedSpace : WarehouseSpace.t) (st : state)
    : state :=
  {| inventory := inventory st;
     warehouseSpaces :=
       map (fun space =>
              if String.eqb (WarehouseSpace.id space)
                            (WarehouseSpace.id updatedSpace)
              then updatedSpace else space)
           (warehouseSpaces st);
     activities := activities st |}.

End useWarehouseData.

(** * Reference definitions

    What the specification says in words, as definitions to compare the
    engines with. *)

Module SortSpec.
Import InventoryItem.

(** Order by the selected key: strings after lowercasing, numbers by raw
    value. Two [location] objects compare as equal strings. *)
Definition ordered_by (k : key) (a b : InventoryItem.t) : Prop :=
  match get a k, get b k with
  | VString s, VString t =>
      String.leb (JsString.toLowerCase s) (JsString.toLowerCase t) = true
  | VNumber p, VNumber q => (p <= q)%Q
  | _, _ => True
  end.

(** Two items have equal keys. *)
Definition equal_keys (k : key) (a b : InventoryItem.t) : bool :=
  match get a k, get b k with
  | VString s, VString t =>
      String.eqb (JsString.toLowerCase s) (JsString.toLowerCase t)
  | VNumber p, VNumber q => Qeq_bool p q
  | _, _ => true
  end.

(** The textbook merge of two lists under a boolean order. *)
Section Merged.
Context {A : Type} (leb : A -> A -> bool).

Fixpoint merged (l : list A) : list A -> list A :=
  fix inner (r : list A) : list A :=
    match l, r with
    | [], _ => r
    | _, [] => l
    | a :: l', b :: r' =>
        if leb a b then a :: merged l' r else b :: inner r'
    end.
End Merged.

(** The order the code applies on one key, and its equivalence. *)
Definition key_leb (k : key) (a b : InventoryItem.t) : bool :=
  le (MergeSort.getValue a k) (MergeSort.getValue b k).

Definition key_eqvb (k : key) (x y : InventoryItem.t) : bool :=
  key_leb k x y && key_leb k y x.

(** The order a comparator induces: [a] may stay in front of [b]. *)
Definition cmp_leb {A} (cmp : A -> A -> NumQ.t) (a b : A) : bool :=
  negb (NumQ.positive (cmp a b)).

Definition cmp_eqvb {A} (cmp : A -> A -> NumQ.t) (a b : A) : bool :=
  cmp_leb cmp a b && cmp_leb cmp b a.

End SortSpec.

Module SearchSpec.
Import InventoryItem.

(** The term, lowercased, is a literal prefix of the lowercased value. *)
Definition has_prefix (term value : string) : bool :=
  String.prefix (JsString.toLowerCase term) (JsString.toLowerCase value).

Definition same_id (a b : InventoryItem.t) : bool := String.eqb (id a) (id b).

(** Add [x] unless an item with its [id] is there already. *)
Definition push_new (l : list InventoryItem.t) (x : InventoryItem.t)
    : list InventoryItem.t :=
  if existsb (fun y => same_id y x) l then l else l ++ [x].

(** Keep, of the items that share an [id], the first one. *)
Definition dedup_by_id (l : list InventoryItem.t) : list InventoryItem.t :=
  fold_left push_new l [].

(** The text of one of the four indexed fields. *)
Definition text (k : key) (it : InventoryItem.t) : string :=
  match get it k with
  | VString s => s
  | _ => EmptyString
  end.

(** The items a prefix search for [term] on field [k] is to return. *)
Definition matching (k : key) (term : string) (items : list InventoryItem.t)
    : list InventoryItem.t :=
  List.filter (fun it => has_prefix term (text k it)) items.

End SearchSpec.

Module GreedySpec.
Import InventoryItem GreedyBestFit.

(** Value density, for an item of non-zero weight. *)
Definition value_density (a : InventoryItem.t) : Q := (value a / weight a)%Q.

(** The space with reference [r] can take the item. *)
Definition fits (store : list WarehouseSpace.t) (it : InventoryItem.t)
    (r : nat) : Prop :=
  exists space, store !! r = Some space /\
                quantity it <= WarehouseSpace.available space.

(** What the space would have left: [available - item.quantity], as the
    code computes it. *)
Definition leftover (store : list WarehouseSpace.t) (it : InventoryItem.t)
    (r : nat) : Z :=
  match store !! r with
  | Some space => NumZ.nearest (WarehouseSpace.available space - quantity it)
  | None => 0
  end.

(** [r] is the best fit in the pool: it fits, no fitting space leaves
    less, and it comes first among those that leave as little. *)
Definition best_fit (store : list WarehouseSpace.t) (pool : list nat)
    (it : InventoryItem.t) (r : nat) : Prop :=
  exists before after,
    pool = before ++ r :: after /\
    fits store it r /\
    (forall r', In r' before -> fits store it r' ->
                leftover store it r < leftover store it r') /\
    (forall r', In r' after -> fits store it r' ->
                leftover store it r <= leftover store it r').

(** The reading of the specification that asks for a leftover that is
    positive: [r] fits, leaves more than nothing, and no fitting space
    leaves a smaller positive amount. *)
Definition smallest_positive_leftover (store : list WarehouseSpace.t)
    (pool : list nat) (it : InventoryItem.t) (r : nat) : Prop :=
  In r pool /\ fits store it r /\ 0 < leftover store it r /\
  forall r', In r' pool -> fits store it r' -> 0 < leftover store it r' ->
             leftover store it r <= leftover store it r'.

(** One item is served: the best fit takes it, is updated in place, and
    leaves the pool when nothing is left in it; with no fitting space the
    item joins [unallocated]. *)
Inductive serves (st : state) (it : InventoryItem.t) : state -> Prop :=
| serves_allocated (r : nat) (space : WarehouseSpace.t) :
    best_fit (store st) (spaces st) it r ->
    store st !! r = Some space ->
    serves st it
      {| store := <[r := occupy space it]> (store st);
         spaces :=
           if NumZ.nearest (WarehouseSpace.available space - quantity it)
              =? 0
           then List.filter (fun r' => negb (r' =? r)%nat) (spaces st)
           else spaces st;
         allocations := allocations st ++
           [{| item := it; allocatedSpace := r;
               efficiency :=
                 NumQ.mulQ (NumQ.div (inject_Z (quantity it))
                              (inject_Z (WarehouseSpace.capacity space)))
                           100 |}];
         unallocated := unallocated st |}
| serves_unallocated :
    (forall r, In r (spaces st) -> ~ fits (store st) it r) ->
    serves st it
      {| store := store st; spaces := spaces st;
         allocations := allocations st;
         unallocated := unallocated st ++ [it] |}.

(** The items are served one after the other. *)
Inductive serves_all : state -> list InventoryItem.t -> state -> Prop :=
| serves_none (st : state) : serves_all st [] st
| serves_next (st st' st'' : state) (it : InventoryItem.t)
    (rest : list InventoryItem.t) :
    serves st it st' -> serves_all st' rest st'' ->
    serves_all st (it :: rest) st''.

(** A space unit is consistent. *)
Definition consistent (space : WarehouseSpace.t) : Prop :=
  WarehouseSpace.occupied space + WarehouseSpace.available space
  = WarehouseSpace.capacity space /\
  0 <= WarehouseSpace.available space.

(** A consistent space unit whose counts are safe integers: nothing
    negative, and a capacity of 2^53 at most. *)
Definition safe (space : WarehouseSpace.t) : Prop :=
  consistent space /\
  0 <= WarehouseSpace.occupied space /\
  WarehouseSpace.capacity space <= 2 ^ 53.

End GreedySpec.

Module RouteSpec.

(** The integer of an aisle: its first character, counted from ['A'] as
    1. An empty aisle has none. *)
Definition aisle_index (aisle : string) : option Z :=
  match aisle with
  | EmptyString => None
  | String c _ => Some (Z.of_nat (nat_of_ascii c) - 64)
  end.

(** The fixed metric between two locations. *)
Definition metric (loc1 loc2 : Location.t) : option Z :=
  a1 ← aisle_index (Location.aisle loc1);
  a2 ← aisle_index (Location.aisle loc2);
  Some (10 * Z.abs (a1 - a2)
        + 5 * Z.abs (Location.shelf loc1 - Location.shelf loc2)
        + 2 * Z.abs (Location.position loc1 - Location.position loc2)).

(** [graph[i][j]]; [None] is [undefined]. *)
Definition entry (graph : list (list NumZ.t)) (i j : nat) : option NumZ.t :=
  graph !! i ≫= (.!! j).

(** The length of a walk through the nodes of [p], when every step is an
    edge of finite length. *)
Fixpoint walk_length (graph : list (list NumZ.t)) (p : list nat) : option Z :=
  match p with
  | [] => None
  | [x] => if decide (x < length graph)%nat then Some 0 else None
  | x :: (y :: _) as rest =>
      match entry graph x y, walk_length graph rest with
      | Some (Js.Fin w), Some total => Some (w + total)
      | _, _ => None
      end
  end.

(** [p] goes from [s] to [e]. *)
Definition connects (s e : nat) (p : list nat) : Prop :=
  head p = Some s /\ last p = Some e.

(** The cost of a walk, as the planner adds it up: the lengths of the
    edges, one after the other from the start, each sum a double.
    [acc] is the cost so far and [x] the node reached. *)
Fixpoint cost_from (graph : list (list NumZ.t)) (acc : NumZ.t) (x : nat)
    (rest : list nat) : NumZ.t :=
  match rest with
  | [] => acc
  | y :: rest' =>
      match entry graph x y with
      | Some w => cost_from graph (NumZ.add acc w) y rest'
      | None => Js.NaN
      end
  end.

Definition walk_cost (graph : list (list NumZ.t)) (p : list nat) : NumZ.t :=
  match p with
  | [] => Js.NaN
  | x :: rest =>
      if decide (x < length graph)%nat
      then cost_from graph (Js.Fin 0) x rest else Js.NaN
  end.

(** [d] is the least cost of a walk from [s] to [e]: no walk costs less,
    and one costs [d] unless [d] is [Infinity]. *)
Definition least_cost (graph : list (list NumZ.t)) (s e : nat) (d : NumZ.t)
    : Prop :=
  (forall p, connects s e p -> NumZ.lt (walk_cost graph p) d = false) /\
  (d = Js.PInf \/ exists p, connects s e p /\ walk_cost graph p = d).

(** [d] is the length of a shortest walk from [s] to [e]. *)
Definition shortest (graph : list (list NumZ.t)) (s e : nat) (d : Z) : Prop :=
  (exists p, connects s e p /\ walk_length graph p = Some d) /\
  (forall p d', connects s e p -> walk_length graph p = Some d' -> d <= d').

(** The all-pairs reference: Floyd-Warshall on a copy of the matrix. *)
Definition relax_via (k i : nat) (dist : list (list NumZ.t)) (j : nat)
    : list (list NumZ.t) :=
  match entry dist i k, entry dist k j, entry dist i j with
  | Some ik, Some kj, Some ij =>
      if NumZ.lt (NumZ.add ik kj) ij
      then DijkstraPathFinder.setEntry dist i j (NumZ.add ik kj)
      else dist
  | _, _, _ => dist
  end.

Definition floydWarshall (graph : list (list NumZ.t)) : list (list NumZ.t) :=
  let n := length graph in
  fold_left (fun dist k =>
    fold_left (fun dist i => fold_left (relax_via k i) (seq 0 n) dist)
              (seq 0 n) dist)
    (seq 0 n) graph.

End RouteSpec.

Module KnapsackSpec.
Import InventoryItem.

(** An item's weight rounded up to the next integer. *)
Definition rounded (it : InventoryItem.t) : Z := Qceiling (weight it).

Definition total_value (s : list InventoryItem.t) : Q :=
  fold_right (fun it acc => (value it + acc)%Q) 0%Q s.

Definition total_rounded (s : list InventoryItem.t) : Z :=
  fold_right (fun it acc => rounded it + acc) 0 s.

(** The sum of the true weights. *)
Definition total_weight (s : list InventoryItem.t) : Q :=
  fold_right (fun it acc => (weight it + acc)%Q) 0%Q s.

(** All the ways to pick some of the items, in their order. *)
Fixpoint subsets (l : list InventoryItem.t) : list (list InventoryItem.t) :=
  match l with
  | [] => [[]]
  | x :: l' => map (cons x) (subsets l') ++ subsets l'
  end.

Definition feasible (capacity : Z) (s : list InventoryItem.t) : bool :=
  total_rounded s <=? capacity.

Definition Qmax (a b : Q) : Q := if Qle_bool a b then b else a.

(** Brute force: the largest total value among the selections whose
    rounded weights fit; the empty selection is one of them. *)
Definition bruteForce (items : list InventoryItem.t) (capacity : Z) : Q :=
  fold_right Qmax 0%Q
    (map total_value (List.filter (feasible capacity) (subsets items))).

(** [q] is the largest total value of a selection of [l] whose rounded
    weights sum to at most [w]. *)
Definition optimum (l : list InventoryItem.t) (w : Z) (q : Q) : Prop :=
  (exists s, sublist s l /\ total_rounded s <= w /\ (q <= total_value s)%Q) /\
  (forall s, sublist s l -> total_rounded s <= w -> (total_value s <= q)%Q).

End KnapsackSpec.

(** * Invariants of the loops *)

(** *** Doubles *)

Module NumInv.
(** The unit in the last place of the double nearest to [a]. *)
Definition ulp (a : Z) : Z := 2 ^ Z.max 0 (Z.log2 a - 52).

(** [a] rounded to the multiples of [u], half a unit going to the even
    multiple. *)
Definition grid (u a : Z) : Z :=
  let q := a / u in
  let r := a mod u in
  (if 2 * r <? u then q
   else if u <? 2 * r then q + 1
   else if Z.even q then q else q + 1) * u.

(** [z] is a double. *)
Definition double (z : Z) : Prop := NumZ.nearest z = z.
End NumInv.

(** *** The knapsack table *)

Module KnapsackInv.
Import Js InventoryItem KnapsackOptimization KnapsackSpec.

(** Every item weighs something. *)
Definition positive_weights (l : list InventoryItem.t) : Prop :=
  Forall (fun it => (0 < weight it)%Q) l.

(** A table of [rows] rows for capacities [0..capacity]. *)
Definition shaped (rows : nat) (capacity : Z) (dp : table) : Prop :=
  length dp = rows /\
  Forall (fun row => length row = Z.to_nat (capacity + 1)) dp.

(** Row [k] holds the optimum of the first [k] items at every
    capacity. *)
Definition row_done (items : list InventoryItem.t) (capacity : Z)
    (dp : table) (k : nat) : Prop :=
  forall w, 0 <= w <= capacity ->
    exists q, cell dp k w = Some (Fin q) /\ optimum (take k items) w q.

End KnapsackInv.

(** *** The prefix index *)

Module HashMapInv.
Import InventoryItem SearchSpec.

Section WithPrinter.
Variable String_of_number : Q -> string.

(** An item is registered under [p] in the map of [field]. *)
Definition registers (field : key) (p : string) (it : InventoryItem.t)
    : bool :=
  negb (String.eqb p EmptyString) &&
  String.prefix p
    (JsString.toLowerCase (HashMapSearch.getValue String_of_number it field)).

(** What the map of [field] holds under [p] once [items] are in. *)
Definition bucket (field : key) (p : string)
    (items : list InventoryItem.t) : option (list InventoryItem.t) :=
  match List.filter (registers field p) items with
  | [] => None
  | found => Some (dedup_by_id found)
  end.

(** The map installed for [field]. *)
Definition fieldMap_of (field : key) (items : list InventoryItem.t)
    : gmap string (list InventoryItem.t) :=
  fold_left (HashMapSearch.addItem String_of_number field) items ∅.

(** The index after a history of calls to [buildHashMap] on a fresh
    instance, oldest call first. *)
Definition built (history : list (list InventoryItem.t))
    : HashMapSearch.state :=
  fold_left (fun hm items =>
               HashMapSearch.buildHashMap String_of_number items hm)
            history HashMapSearch.empty.

End WithPrinter.
End HashMapInv.

(** *** The scan for the best fit *)

Module GreedyInv.
Import InventoryItem GreedyBestFit GreedySpec.

(** What the scan holds after the spaces of [seen]. *)
Definition scanned (store : list WarehouseSpace.t) (it : InventoryItem.t)
    (seen : list nat) (acc : option nat * NumZ.t) : Prop :=
  match acc.1 with
  | None => acc.2 = Js.PInf /\ forall r, In r seen -> ~ fits store it r
  | Some r => acc.2 = Js.Fin (leftover store it r) /\ best_fit store seen it r
  end.

End GreedyInv.

(** *** The matrix and the arrays of a run of Dijkstra *)

Module DijkstraInv.
Import Js DijkstraPathFinder RouteSpec.

(** An [n] by [n] matrix. *)
Definition square (n : nat) (g : list (list NumZ.t)) : Prop :=
  length g = n /\ Forall (fun row => length row = n) g.

(** A length: a number that is not negative, or [Infinity]. *)
Definition length_value (w : NumZ.t) : Prop :=
  w = PInf \/ exists z, w = Fin z /\ 0 <= z.

(** A distance: a length that is a double. *)
Definition distance_value (w : NumZ.t) : Prop :=
  w = PInf \/ exists z, w = Fin z /\ 0 <= z /\ NumInv.double z.

(** An [n] by [n] matrix of lengths. *)
Definition lengths (n : nat) (g : list (list NumZ.t)) : Prop :=
  square n g /\ forall i j w, entry g i j = Some w -> length_value w.

(** [calculateDistance(locations[i], locations[j])] *)
Definition distance_at (locs : list Location.t) (i j : nat) : NumZ.t :=
  match locs !! i, locs !! j with
  | Some loc1, Some loc2 => calculateDistance loc1 loc2
  | _, _ => NaN
  end.

(** The metric between the locations of two indices. *)
Definition metric_at (locs : list Location.t) (i j : nat) : Z :=
  match locs !! i, locs !! j with
  | Some loc1, Some loc2 => default 0 (metric loc1 loc2)
  | _, _ => 0
  end.

(** The aisle of a location has a first letter. *)
Definition has_aisle (loc : Location.t) : Prop :=
  Location.aisle loc <> EmptyString.

(** Coordinates far inside the safe integers: the length between two such
    locations, and the sum of two such lengths, is computed exactly. *)
Definition small (loc : Location.t) : Prop :=
  Z.abs (Location.shelf loc) <= 2 ^ 48 /\
  Z.abs (Location.position loc) <= 2 ^ 48.

(** What the scan for the minimum holds after the nodes of [seen]. *)
Definition min_scanned (s : search) (seen : list nat)
    (acc : NumZ.t * option nat) : Prop :=
  match acc.2 with
  | None =>
      acc.1 = PInf /\
      forall j d, In j seen -> visited s !! j = Some false ->
                  distances s !! j = Some d -> NumZ.lt d PInf = false
  | Some c =>
      In c seen /\ visited s !! c = Some false /\
      distances s !! c = Some acc.1 /\ NumZ.lt acc.1 PInf = true
  end.

(** [rk] ranks the nodes: a visited node by a number below the count of
    visits, an unvisited node by that count; every link of [previous]
    goes down in rank. *)
Definition ranked (n : nat) (s : search) (rk : nat -> nat) : Prop :=
  (forall x p, previous s !! x = Some (Some p) ->
               (p < n)%nat /\ (rk p < rk x)%nat) /\
  (forall x, visited s !! x = Some false ->
             rk x = length (visitedNodes s)) /\
  (forall x, visited s !! x = Some true ->
             (rk x < length (visitedNodes s))%nat).

Record well_formed (n : nat) (s : search) : Prop := mkWellFormed {
  wf_distances : length (distances s) = n;
  wf_previous : length (previous s) = n;
  wf_visited : length (visited s) = n;
  wf_ranked : exists rk, ranked n s rk
}.

(** The arrays of a run from [start], between two steps: the distance
    of a node that has a previous node is the distance of that node,
    which is visited, plus the edge between the two; a node without a
    previous node is the start or has no distance yet; no visited node
    is farther than an unvisited one. *)
Record searching (g : list (list NumZ.t)) (start : nat) (s : search)
    : Prop := mkSearching {
  sr_start : distances s !! start = Some (Fin 0) /\
             previous s !! start = Some None;
  sr_values : forall v d, distances s !! v = Some d -> distance_value d;
  sr_visited : forall u du,
    visited s !! u = Some true -> distances s !! u = Some du ->
    NumZ.lt du PInf = true;
  sr_tree : forall v u, previous s !! v = Some (Some u) ->
    visited s !! u = Some true /\
    exists du w,
      distances s !! u = Some du /\ entry g u v = Some (Fin w) /\
      distances s !! v = Some (NumZ.add du (Fin w)) /\
      NumZ.lt (NumZ.add du (Fin w)) PInf = true;
  sr_root : forall v, previous s !! v = Some None ->
    v = start \/ distances s !! v = Some PInf;
  sr_order : forall u v du dv,
    visited s !! u = Some true -> visited s !! v = Some false ->
    distances s !! u = Some du -> distances s !! v = Some dv ->
    NumZ.lt dv du = false
}.

(** The edges out of the visited nodes are relaxed; of the edges out of
    [c], when there is a [c], those to the first [k] nodes only. *)
Definition relaxed (g : list (list NumZ.t)) (s : search) (c : option nat)
    (k : nat) : Prop :=
  forall u v du dv w,
    visited s !! u = Some true -> (c = Some u -> (v < k)%nat) ->
    distances s !! u = Some du -> distances s !! v = Some dv ->
    entry g u v = Some w ->
    NumZ.lt (NumZ.add du w) dv = false.

(** No visited node is farther than [c]. *)
Definition farthest (s : search) (c : nat) : Prop :=
  forall u du dc,
    visited s !! u = Some true -> distances s !! u = Some du ->
    distances s !! c = Some dc -> NumZ.lt dc du = false.

(** The number of nodes still to visit. *)
Definition unvisited (s : search) : nat :=
  length (List.filter negb (visited s)).

(** The arrays when a run from [start] begins. *)
Definition s0 (n start : nat) : search :=
  {| distances := <[start:=Fin 0]> (replicate n PInf);
     previous := replicate n None;
     visited := replicate n false;
     visitedNodes := [] |}.

(** The arrays while the neighbours of [start] are relaxed, the first [k]
    being done, in a graph of lengths [d]. *)
Definition relaxing (n : nat) (d : nat -> nat -> Z) (start k : nat)
    (s : search) : Prop :=
  visited s = <[start:=true]> (replicate n false) /\
  visitedNodes s = [start] /\
  length (distances s) = n /\ length (previous s) = n /\
  forall j, (j < n)%nat ->
    distances s !! j =
      Some (if decide (j = start) then Fin 0
            else if decide (j < k)%nat then Fin (d start j) else PInf) /\
    previous s !! j =
      Some (if decide (j <> start /\ j < k)%nat then Some start else None).

(** The arrays hold the direct lengths from [start]. *)
Definition settled (n : nat) (d : nat -> nat -> Z) (start : nat)
    (s : search) : Prop :=
  forall j, (j < n)%nat -> distances s !! j = Some (Fin (d start j)).

End DijkstraInv.

(** * Vocabulary of the further properties *)

Module SortCount.
Import MergeSort.

(** What one call adds to the two counters of merge sort: [c]
    comparisons at most, and no more swaps than comparisons. *)
Definition adds_at_most (c : nat) (before after : state) : Prop :=
  (comparisons before <= comparisons after <= comparisons before + c)%nat /\
  (swaps before <= swaps after)%nat /\
  (swaps after - swaps before <= comparisons after - comparisons before)%nat.

End SortCount.

Module SearchScan.
Import InventoryItem.

(** The test the scan of [BinarySearch.search] makes on an item: its
    field, lowercased, contains the lowercased term. *)
Definition contains_term (String_of_number : Q -> string) (term : string)
    (field : key) (it : InventoryItem.t) : bool :=
  JsString.includes
    (JsString.toLowerCase (BinarySearch.getValue String_of_number it field))
    (JsString.toLowerCase term).

End SearchScan.

Module GreedyAccount.
Import InventoryItem GreedyBestFit.

(** The quantity that the allocations put into the space of reference
    [r]. *)
Definition allocated_to (r : nat) (allocs : list SpaceAllocation) : Z :=
  fold_right (fun a acc =>
                if (allocatedSpace a =? r)%nat then quantity (item a) + acc
                else acc)
             0 allocs.

(** The pool holds the references of the spaces that have room left. *)
Definition pool_live (st : state) : Prop :=
  forall r, In r (spaces st) <->
    exists space, store st !! r = Some space /\
                  0 < WarehouseSpace.available space.

(** The space [after] is the space [before] with [taken] units more in
    it; the item reference apart, nothing else differs. *)
Definition filled_by (taken : Z) (before after : WarehouseSpace.t) : Prop :=
  WarehouseSpace.id after = WarehouseSpace.id before /\
  WarehouseSpace.aisle after = WarehouseSpace.aisle before /\
  WarehouseSpace.shelf after = WarehouseSpace.shelf before /\
  WarehouseSpace.position after = WarehouseSpace.position before /\
  WarehouseSpace.capacity after = WarehouseSpace.capacity before /\
  WarehouseSpace.occupied after = WarehouseSpace.occupied before + taken /\
  WarehouseSpace.available after = WarehouseSpace.available before - taken.

(** What the store and the allocations are to the space units of the
    call. *)
Record accounted (store0 : list WarehouseSpace.t) (st : state) : Prop :=
  mkAccounted {
  acc_length : length (store st) = length store0;
  acc_filled : forall r before, store0 !! r = Some before ->
    exists after, store st !! r = Some after /\
                  filled_by (allocated_to r (allocations st)) before after;
  acc_pool : forall r, In r (spaces st) -> In r (candidates store0);
  acc_untouched : forall r, ~ In r (candidates store0) ->
    store st !! r = store0 !! r;
  acc_refs : forall a, In a (allocations st) ->
    In (allocatedSpace a) (candidates store0)
}.

(** No space unit has room for the item. *)
Definition fits_nowhere (store : list WarehouseSpace.t)
    (it : InventoryItem.t) : Prop :=
  Forall (fun space => WarehouseSpace.available space < quantity it) store.

(** What a space unit has available is a double, not negative and no
    more than its capacity. *)
Definition within (space : WarehouseSpace.t) : Prop :=
  NumInv.double (WarehouseSpace.available space) /\
  0 <= WarehouseSpace.available space <= WarehouseSpace.capacity space.

Definition percentage (x : NumQ.t) : Prop :=
  exists e, x = Js.Fin e /\ (0 <= e <= 100)%Q.

End GreedyAccount.

Module RouteTour.
Import Js DijkstraPathFinder RouteSpec.

(** What the scan for the nearest destination holds after the
    destinations of [seen]: nothing when all of them are visited, or else
    an unvisited one that is at the least distance from the current node,
    together with that distance. *)
Definition nearest_scanned (m : nat -> nat -> Z) (current : nat)
    (visited : gset nat) (seen : list nat)
    (nearest : option nat) (distance : NumZ.t) : Prop :=
  match nearest with
  | None => distance = PInf /\ forall d, In d seen -> d ∈ visited
  | Some x =>
      In x seen /\ (x ∉ visited) /\ distance = Fin (m current x) /\
      forall d, In d seen -> d ∉ visited -> m current x <= m current d
  end.

(** A walk by nearest neighbour: each stop is a destination that was not
    visited before, and no destination unvisited by then is nearer to
    the stop before it. [seen] are the nodes left behind, [current] the
    node the walk stands on, [rest] the stops to come. *)
Fixpoint nearest_first (m : nat -> nat -> Z) (dests seen : list nat)
    (current : nat) (rest : list nat) : Prop :=
  match rest with
  | [] => True
  | b :: rest' =>
      In b dests /\ ~ In b (current :: seen) /\
      (forall d, In d dests -> ~ In d (current :: seen) ->
                 m current b <= m current d) /\
      nearest_first m dests (current :: seen) b rest'
  end.

(** The local variables of [findOptimalPickingPath] between two
    iterations of its [while] loop, for the start [s]. *)
Definition touring (g : list (list NumZ.t)) (m : nat -> nat -> Z)
    (s : nat) (dests : list nat) (t : tour) : Prop :=
  exists (stops : list nat) (total : Z),
    t_path t = s :: stops /\
    last (s :: stops) = Some (t_currentLocation t) /\
    (forall x, x ∈ t_visited t <-> In x (s :: stops)) /\
    size (t_visited t) = length (s :: stops) /\
    List.NoDup (s :: stops) /\
    nearest_first m dests [] s stops /\
    t_totalDistance t = walk_cost g (s :: stops) /\
    walk_length g (s :: stops) = Some total.

End RouteTour.

Module SpaceTotals.
Import InventoryItem GreedyBestFit.

(** The quantity that the allocations place. *)
Definition placed (allocs : list SpaceAllocation) : Z :=
  fold_right (fun a acc => quantity (item a) + acc) 0 allocs.

(** The exact total of a count over the space units. *)
Definition total (f : WarehouseSpace.t -> Z) (l : list WarehouseSpace.t)
    : Z :=
  fold_right (fun space acc => f space + acc) 0 l.

(** The exact totals of the store against those of the space units of
    the call. *)
Definition totals_moved (store0 : list WarehouseSpace.t) (st : state)
    : Prop :=
  total WarehouseSpace.capacity (store st)
  = total WarehouseSpace.capacity store0 /\
  total WarehouseSpace.occupied (store st)
  = total WarehouseSpace.occupied store0 + placed (allocations st) /\
  total WarehouseSpace.available (store st)
  = total WarehouseSpace.available store0 - placed (allocations st).

End SpaceTotals.

Module HookCalls.
Import useWarehouseData.

(** A call of one of the operations that the hook returns. *)
Inductive call : Type :=
| AddItem (c : clock) (item : InventoryItem.t)
| UpdateItem (c : clock) (updatedItem : InventoryItem.t)
| DeleteItem (c : clock) (itemId : string) (rendered : list InventoryItem.t)
| UpdateSpace (updatedSpace : WarehouseSpace.t)
| AddActivity (c : clock) (type : Activity.kind) (description : string).

Definition perform (st : state) (op : call) : state :=
  match op with
  | AddItem c item => addInventoryItem c item st
  | UpdateItem c updatedItem => updateInventoryItem c updatedItem st
  | DeleteItem c itemId rendered => deleteInventoryItem c itemId rendered st
  | UpdateSpace updatedSpace => updateWarehouseSpace updatedSpace st
  | AddActivity c type description => addActivity c type description st
  end.

(** The entry that [addActivity] makes. *)
Definition entry (c : clock) (type : Activity.kind) (description : string)
    : Activity.t :=
  {| Activity.id := now c; Activity.type := type;
     Activity.description := description; Activity.timestamp := iso c |}.

End HookCalls.

Module RouteKeys.

(** A string without the hyphen that separates the parts of a location
    key. *)
Definition hyphen_free (s : string) : Prop :=
  ~ In "-"%char (list_ascii_of_string s).

(** An item whose aisle has a first letter and no hyphen. *)
Definition plain_aisle (item : InventoryItem.t) : Prop :=
  Location.aisle (InventoryItem.location item) <> EmptyString /\
  hyphen_free (Location.aisle (InventoryItem.location item)).

(** The entries of a map that holds values of [L] under their keys, each
    key once. *)
Definition keyed {V} (key : V -> string) (L : list V) (m : JsMap.t V)
    : Prop :=
  List.NoDup (map fst m) /\
  forall k v, In (k, v) m -> k = key v /\ In v L.

End RouteKeys.

(** ** Sample data for the worked examples *)

Module Samples.
Import InventoryItem.

Definition sample_item (name : string) (quantity : Z) (weight value : Q)
    : InventoryItem.t :=
  {| id := name; name := name; category := "Electronics";
     quantity := quantity; minStock := 1; maxStock := 100; unitPrice := 1;
     location := {| Location.aisle := "A"; Location.shelf := 1;
                    Location.position := 1 |};
     dateAdded := "2024-01-01"; lastUpdated := "2024-01-02";
     supplier := "Acme"; weight := weight; value := value |}.

Definition sample_space (name : string) (capacity occupied : Z)
    : WarehouseSpace.t :=
  {| WarehouseSpace.id := name; WarehouseSpace.aisle := "A";
     WarehouseSpace.shelf := 1; WarehouseSpace.position := 1;
     WarehouseSpace.capacity := capacity; WarehouseSpace.occupied := occupied;
     WarehouseSpace.available := capacity - occupied;
     WarehouseSpace.itemId := None |}.

Definition A11 : Location.t :=
  {| Location.aisle := "A"; Location.shelf := 1; Location.position := 1 |}.
Definition A12 : Location.t :=
  {| Location.aisle := "A"; Location.shelf := 1; Location.position := 2 |}.
Definition B21 : Location.t :=
  {| Location.aisle := "B"; Location.shelf := 2; Location.position := 1 |}.

(** A place of aisle A. *)
Definition place (shelf position : Z) : Location.t :=
  {| Location.aisle := "A"; Location.shelf := shelf;
     Location.position := position |}.

(** Three shelves so far apart that the sum of two lengths is rounded. *)
Definition far_shelves : list Location.t :=
  [place 0 0; place 2251799813685249 0; place 4503599627370502 0].

(** Four places for which the rounded sums depend on their order. *)
Definition far_places : list Location.t :=
  [place 144203859162377 1; place 96509287010040 7;
   place 1953248950065868 0; place 501314885548117 0].

(** Four places, three of them close to one another and far from the
    first. *)
Definition far_row : list Location.t :=
  [place 0 0; place 53030899677346512 0; place 53030899677346520 0;
   place 53030899677346512 10].

(** [sample_item] at another location. *)
Definition sample_item_at (name : string) (loc : Location.t)
    : InventoryItem.t :=
  {| id := name; name := name; category := "Electronics";
     quantity := 1; minStock := 1; maxStock := 100; unitPrice := 1;
     location := loc;
     dateAdded := "2024-01-01"; lastUpdated := "2024-01-02";
     supplier := "Acme"; weight := 1; value := 1 |}.

End Samples.

(** * Theorems *)

(** ** Rounding to the nearest double *)

Module NumZFacts.
Import NumZ NumInv.

Lemma nearest_grid (z : Z) : nearest z = Z.sgn z * grid (ulp (Z.abs z)) (Z.abs z).
Proof. reflexivity. Qed.

Lemma grid_between (u a : Z) :
  0 < u -> (a / u) * u <= grid u a <= (a / u + 1) * u.
Proof.
  intros Hu. unfold grid. cbv zeta.
  destruct (2 * (a mod u) <? u); [nia|].
  destruct (u <? 2 * (a mod u)); [nia|].
  destruct (Z.even (a / u)); nia.
Qed.

Lemma grid_multiple (u m : Z) : 0 < u -> grid u (m * u) = m * u.
Proof.
  intros Hu. unfold grid. cbv zeta.
  rewrite Z.mod_mul, Z.div_mul by lia.
  destruct (Z.ltb_spec (2 * 0) u); [done|lia].
Qed.

Lemma grid_mono (u a b : Z) : 0 < u -> a <= b -> grid u a <= grid u b.
Proof.
  intros Hu Hab.
  pose proof (Z.div_le_mono a b u Hu Hab) as Hq.
  destruct (Z.eq_dec (a / u) (b / u)) as [E|E].
  - assert (Hr : a mod u <= b mod u).
    { rewrite (Z.mod_eq a u), (Z.mod_eq b u) by lia. rewrite E. lia. }
    unfold grid. cbv zeta. rewrite E.
    destruct (Z.ltb_spec (2 * (a mod u)) u), (Z.ltb_spec (2 * (b mod u)) u);
      try nia;
      destruct (Z.ltb_spec u (2 * (a mod u))),
               (Z.ltb_spec u (2 * (b mod u))); try nia;
      destruct (Z.even (b / u)); nia.
  - pose proof (grid_between u a Hu). pose proof (grid_between u b Hu). nia.
Qed.

Lemma ulp_pos (a : Z) : 0 < ulp a.
Proof. unfold ulp. apply Z.pow_pos_nonneg; lia. Qed.

Lemma ulp_small (a : Z) : a < 2 ^ 53 -> ulp a = 1.
Proof.
  intros Ha. unfold ulp.
  destruct (Z.le_gt_cases a 0) as [H|H].
  - rewrite Z.log2_nonpos by done. done.
  - assert (Z.log2 a < 53) by (apply Z.log2_lt_pow2; lia).
    replace (Z.max 0 (Z.log2 a - 52)) with 0 by lia. done.
Qed.

Lemma ulp_large (a : Z) :
  2 ^ 53 <= a -> ulp a = 2 ^ (Z.log2 a - 52) /\
                 2 ^ 52 * ulp a <= a < 2 ^ 53 * ulp a /\ 2 <= ulp a.
Proof.
  intros Ha. unfold ulp.
  assert (53 <= Z.log2 a) by (apply Z.log2_le_pow2; lia).
  replace (Z.max 0 (Z.log2 a - 52)) with (Z.log2 a - 52) by lia.
  split; [done|].
  pose proof (Z.log2_spec a ltac:(lia)) as [Hlo Hhi].
  rewrite <- !Z.pow_add_r by lia.
  replace (52 + (Z.log2 a - 52)) with (Z.log2 a) by lia.
  replace (53 + (Z.log2 a - 52)) with (Z.succ (Z.log2 a)) by lia.
  split; [done|].
  change 2 with (2 ^ 1) at 1. apply Z.pow_le_mono_r; lia.
Qed.

Lemma ulp_mono (a b : Z) :
  a <= b -> ulp a = ulp b \/ 2 * ulp a <= ulp b.
Proof.
  intros Hab.
  destruct (Z.lt_ge_cases b (2 ^ 53)) as [Hb|Hb].
  { left. rewrite !ulp_small; [done|lia|lia]. }
  destruct (Z.lt_ge_cases a (2 ^ 53)) as [Ha|Ha].
  { right. rewrite (ulp_small a Ha).
    destruct (ulp_large b Hb) as (_ & _ & ?). lia. }
  destruct (ulp_large a Ha) as (Ea & _ & _).
  destruct (ulp_large b Hb) as (Eb & _ & _).
  rewrite Ea, Eb.
  assert (Hl : Z.log2 a <= Z.log2 b) by (apply Z.log2_le_mono; lia).
  assert (53 <= Z.log2 a) by (apply Z.log2_le_pow2; lia).
  destruct (Z.eq_dec (Z.log2 a) (Z.log2 b)) as [E|E]; [left; by rewrite E|].
  right. replace (Z.log2 b - 52) with (1 + (Z.log2 b - 53)) by lia.
  rewrite <- (Z.pow_1_r 2) at 1. rewrite <- Z.pow_add_r by lia.
  apply Z.pow_le_mono_r; lia.
Qed.

Lemma nearest_nonneg (a : Z) : 0 <= a -> nearest a = grid (ulp a) a.
Proof.
  intros Ha. rewrite nearest_grid, Z.abs_eq by done.
  destruct (Z.eq_dec a 0) as [->|Hne]; [done|].
  rewrite Z.sgn_pos by lia. lia.
Qed.

Lemma nearest_opp (z : Z) : nearest (- z) = - nearest z.
Proof. rewrite !nearest_grid, Z.abs_opp, Z.sgn_opp. lia. Qed.

Lemma nearest_small (z : Z) : Z.abs z <= 2 ^ 53 -> nearest z = z.
Proof.
  assert (H : forall a, 0 <= a <= 2 ^ 53 -> nearest a = a).
  { intros a Ha. rewrite nearest_nonneg by lia.
    destruct (Z.eq_dec a (2 ^ 53)) as [->|Hne].
    - destruct (ulp_large (2 ^ 53) ltac:(lia)) as (E & _ & _).
      rewrite E. change (Z.log2 (2 ^ 53) - 52) with 1.
      change (2 ^ 53) with (2 ^ 52 * 2 ^ 1) at 1.
      by rewrite grid_multiple.
    - rewrite ulp_small by lia.
      pose proof (grid_multiple 1 a ltac:(lia)) as Hg.
      by rewrite Z.mul_1_r in Hg. }
  intros Hz. destruct (Z.le_ge_cases 0 z) as [Hs|Hs].
  - apply H. lia.
  - rewrite <- (Z.opp_involutive z), nearest_opp, H; lia.
Qed.

Lemma nearest_range (a : Z) :
  2 ^ 53 <= a -> 2 ^ 52 * ulp a <= nearest a <= 2 ^ 53 * ulp a.
Proof.
  intros Ha. rewrite nearest_nonneg by lia.
  destruct (ulp_large a Ha) as (_ & [Hlo Hhi] & _).
  pose proof (ulp_pos a) as Hu. split.
  - rewrite <- (grid_multiple (ulp a) (2 ^ 52)) by done.
    apply grid_mono; [done|lia].
  - rewrite <- (grid_multiple (ulp a) (2 ^ 53)) by done.
    apply grid_mono; [done|lia].
Qed.

Lemma nearest_mono_nonneg (a b : Z) :
  0 <= a -> a <= b -> nearest a <= nearest b.
Proof.
  intros Ha Hab.
  destruct (Z.lt_ge_cases b (2 ^ 53)) as [Hb|Hb].
  { rewrite !nearest_small; lia. }
  destruct (ulp_mono a b Hab) as [E|E].
  - rewrite !nearest_nonneg by lia. rewrite E.
    apply grid_mono; [apply ulp_pos|done].
  - pose proof (nearest_range b Hb) as [Hlo _].
    destruct (Z.lt_ge_cases a (2 ^ 53)) as [Hs|Hs].
    + rewrite (nearest_small a) by lia.
      destruct (ulp_large b Hb) as (_ & _ & ?). nia.
    + pose proof (nearest_range a Hs) as [_ Hhi]. nia.
Qed.

Lemma nearest_0 : nearest 0 = 0.
Proof. done. Qed.

Lemma nearest_sign (z : Z) : 0 <= z -> 0 <= nearest z.
Proof.
  intros Hz. rewrite <- nearest_0. by apply nearest_mono_nonneg.
Qed.

Lemma nearest_mono (x y : Z) : x <= y -> nearest x <= nearest y.
Proof.
  intros Hxy. destruct (Z.le_ge_cases 0 x) as [Hx|Hx].
  - by apply nearest_mono_nonneg.
  - destruct (Z.le_ge_cases 0 y) as [Hy|Hy].
    + pose proof (nearest_sign y Hy) as Hpos.
      pose proof (nearest_sign (- x) ltac:(lia)) as Hneg.
      rewrite nearest_opp in Hneg. lia.
    + pose proof (nearest_mono_nonneg (- y) (- x) ltac:(lia) ltac:(lia))
        as Hopp.
      rewrite !nearest_opp in Hopp. lia.
Qed.

Lemma log2_between (e r : Z) :
  0 <= e -> 2 ^ 52 * 2 ^ e <= r < 2 ^ 53 * 2 ^ e -> Z.log2 r = 52 + e.
Proof.
  intros He [Hlo Hhi]. apply Z.log2_unique; [lia|].
  rewrite Z.pow_succ_r, Z.pow_add_r by lia.
  change (2 ^ 53) with (2 * 2 ^ 52) in Hhi. lia.
Qed.

Lemma nearest_double (z : Z) : double (nearest z).
Proof.
  assert (H : forall a, 0 <= a -> double (nearest a)).
  { intros a Ha. unfold double.
    destruct (Z.lt_ge_cases a (2 ^ 53)) as [Hs|Hs].
    { by rewrite !(nearest_small a) by lia. }
    destruct (ulp_large a Hs) as (Eu & _ & Hu2).
    pose proof (nearest_range a Hs) as [Hlo Hhi].
    set (r := nearest a) in *.
    assert (53 <= Z.log2 a) by (apply Z.log2_le_pow2; lia).
    assert (Hmul : exists m, r = m * ulp a).
    { unfold r. rewrite nearest_nonneg by lia. unfold grid. by eexists. }
    destruct Hmul as [m Hm].
    assert (Hr : 2 ^ 53 <= r) by nia.
    rewrite (nearest_nonneg r) by lia.
    destruct (Z.eq_dec r (2 ^ 53 * ulp a)) as [Er|Er].
    - assert (El : Z.log2 r = 53 + (Z.log2 a - 52)).
      { rewrite Er, Eu, <- Z.pow_add_r by lia. apply Z.log2_pow2. lia. }
      destruct (ulp_large r Hr) as (Eur & _ & _). rewrite Eur, El.
      replace (53 + (Z.log2 a - 52) - 52) with (1 + (Z.log2 a - 52)) by lia.
      rewrite Z.pow_add_r by lia. rewrite <- Eu.
      replace r with (2 ^ 52 * (2 ^ 1 * ulp a)) at 1 2 by (rewrite Er; lia).
      apply grid_multiple. lia.
    - assert (El : Z.log2 r = 52 + (Z.log2 a - 52)).
      { apply log2_between; [lia|]. rewrite <- Eu. lia. }
      destruct (ulp_large r Hr) as (Eur & _ & _). rewrite Eur, El.
      replace (52 + (Z.log2 a - 52) - 52) with (Z.log2 a - 52) by lia.
      rewrite <- Eu, Hm. apply grid_multiple. lia. }
  destruct (Z.le_ge_cases 0 z) as [Hs|Hs]; [by apply H|].
  unfold double.
  assert (E : nearest z = - nearest (- z)) by (rewrite nearest_opp; lia).
  rewrite E, nearest_opp. f_equal. apply H. lia.
Qed.

Lemma double_small (z : Z) : Z.abs z <= 2 ^ 53 -> double z.
Proof. apply nearest_small. Qed.

(** Taking something from a double leaves no more than it. *)
Lemma nearest_sub_le (a q : Z) : double a -> 0 <= q -> nearest (a - q) <= a.
Proof.
  intros Ha Hq. unfold double in Ha. rewrite <- Ha at 2.
  apply nearest_mono. lia.
Qed.

Lemma nearest_add_ge (a w : Z) : double a -> 0 <= w -> a <= nearest (a + w).
Proof.
  intros Ha Hw. unfold double in Ha. rewrite <- Ha at 1.
  apply nearest_mono. lia.
Qed.

(** *** Numbers *)

Lemma of_Z_cases (z : Z) :
  (of_Z z = Js.PInf /\ 2 ^ 1024 <= nearest z) \/
  (of_Z z = Js.NInf /\ nearest z <= - 2 ^ 1024) \/
  (of_Z z = Js.Fin (nearest z) /\ - 2 ^ 1024 < nearest z < 2 ^ 1024).
Proof.
  unfold of_Z. cbv zeta.
  destruct (Z.leb_spec (2 ^ 1024) (nearest z)); [by left|].
  destruct (Z.leb_spec (nearest z) (- 2 ^ 1024)); [right; by left|].
  right. right. split; [done|lia].
Qed.

Lemma of_Z_small (z : Z) : Z.abs z <= 2 ^ 53 -> of_Z z = Js.Fin z.
Proof.
  intros Hz. assert (H : 2 ^ 53 < 2 ^ 1024) by (apply Z.pow_lt_mono_r; lia).
  destruct (of_Z_cases z) as [[_ Hc]|[[_ Hc]|[-> _]]];
    rewrite nearest_small in * by done; try done; lia.
Qed.

Lemma of_Z_opp (z : Z) : of_Z (- z) = NumZ.neg (of_Z z).
Proof.
  assert (H : 0 < 2 ^ 1024) by (apply Z.pow_pos_nonneg; lia).
  destruct (of_Z_cases z) as [[-> Hc]|[[-> Hc]|[-> Hc]]];
    destruct (of_Z_cases (- z)) as [[-> Hd]|[[-> Hd]|[-> Hd]]];
    rewrite nearest_opp in Hd; simpl; try done; try lia.
  by rewrite nearest_opp.
Qed.

Lemma add_small (x y : Z) :
  Z.abs (x + y) <= 2 ^ 53 -> NumZ.add (Js.Fin x) (Js.Fin y) = Js.Fin (x + y).
Proof. apply of_Z_small. Qed.

Lemma sub_small (x y : Z) :
  Z.abs (x - y) <= 2 ^ 53 -> NumZ.sub (Js.Fin x) (Js.Fin y) = Js.Fin (x - y).
Proof. intros H. unfold NumZ.sub. simpl. by apply of_Z_small. Qed.

Lemma mul_small (x y : Z) :
  Z.abs (x * y) <= 2 ^ 53 -> NumZ.mul (Js.Fin x) (Js.Fin y) = Js.Fin (x * y).
Proof. apply of_Z_small. Qed.

Lemma abs_neg (a : NumZ.t) : NumZ.abs (NumZ.neg a) = NumZ.abs a.
Proof. destruct a; simpl; try done. by rewrite Z.abs_opp. Qed.

Lemma abs_sub_sym (a b : NumZ.t) :
  NumZ.abs (NumZ.sub a b) = NumZ.abs (NumZ.sub b a).
Proof.
  unfold NumZ.sub. destruct a as [x| | |], b as [y| | |]; try done.
  cbn [NumZ.neg NumZ.add].
  replace (y + - x) with (- (x + - y)) by lia.
  by rewrite of_Z_opp, abs_neg.
Qed.

End NumZFacts.

(** ** Lists *)

Module ListFacts.

Lemma filter_none {A} (p : A -> bool) (l : list A) :
  (forall c, In c l -> p c = false) -> List.filter p l = [].
Proof.
  induction l as [|c l IH]; intros H; [done|]. simpl.
  rewrite (H c) by by left. apply IH. intros d Hd. apply H. by right.
Qed.


Lemma fold_left_fixed {A B} (f : A -> B -> A) (l : list B) (a : A) :
  (forall b, f a b = a) -> fold_left f l a = a.
Proof. intros H. induction l as [|b l IH]; simpl; [done|]. by rewrite H. Qed.

(** *** [Array.prototype.sort] under a comparator that is an order *)

Section SortFacts.
Context {A : Type} (cmp : A -> A -> NumQ.t).

Local Abbreviation cmp_leb := (SortSpec.cmp_leb cmp).
Local Abbreviation cmp_eqvb := (SortSpec.cmp_eqvb cmp).

(** The comparator is an order on the elements that satisfy [P]. *)
Variable P : A -> Prop.
Hypothesis leb_total :
  forall a b, P a -> P b -> cmp_leb a b = true \/ cmp_leb b a = true.
Hypothesis leb_trans :
  forall a b c, P a -> P b -> P c ->
    cmp_leb a b = true -> cmp_leb b c = true -> cmp_leb a c = true.

Lemma insert_perm (x : A) (l : list A) :
  Permutation (JsArray.insert cmp x l) (x :: l).
Proof.
  induction l as [|y l IH]; simpl; [done|].
  destruct (NumQ.positive (cmp x y)); [|done].
  rewrite IH. apply perm_swap.
Qed.

Lemma sort_perm (l : list A) : Permutation (JsArray.sort cmp l) l.
Proof.
  induction l as [|x l IH]; simpl; [done|]. by rewrite insert_perm, IH.
Qed.

Lemma insert_sorted (x : A) (l : list A) :
  P x -> Forall P l ->
  StronglySorted (fun a b => cmp_leb a b = true) l ->
  StronglySorted (fun a b => cmp_leb a b = true) (JsArray.insert cmp x l).
Proof.
  intros Hx.
  induction l as [|y l IH]; intros HP Hl; simpl.
  - repeat constructor.
  - apply StronglySorted_inv in Hl as Hl'. destruct Hl' as [Hl1 Hl2].
    apply Forall_cons in HP as [Hy HP].
    destruct (NumQ.positive (cmp x y)) eqn:E.
    + assert (Hyx : cmp_leb y x = true).
      { destruct (leb_total x y Hx Hy) as [H|H]; [|done].
        unfold cmp_leb in H. by rewrite E in H. }
      constructor; [by apply IH|].
      rewrite insert_perm. by constructor.
    + assert (Hxy : cmp_leb x y = true) by (unfold cmp_leb; by rewrite E).
      constructor; [done|]. constructor; [done|].
      rewrite Forall_forall in Hl2, HP. apply Forall_forall. intros c Hc.
      eapply (leb_trans x y c); auto.
Qed.

Lemma sort_sorted (l : list A) :
  Forall P l ->
  StronglySorted (fun a b => cmp_leb a b = true) (JsArray.sort cmp l).
Proof.
  induction l as [|x l IH]; intros HP; simpl; [constructor|].
  apply Forall_cons in HP as [Hx HP].
  apply insert_sorted; [done| |by apply IH].
  by rewrite sort_perm.
Qed.

Lemma insert_stable (z x : A) (l : list A) :
  P z -> P x -> Forall P l ->
  List.filter (cmp_eqvb z) (JsArray.insert cmp x l) =
  List.filter (cmp_eqvb z) (x :: l).
Proof.
  intros Hz Hx.
  induction l as [|y l IH]; intros HP; simpl; [done|].
  apply Forall_cons in HP as [Hy HP].
  destruct (NumQ.positive (cmp x y)) eqn:E; [|done].
  simpl. rewrite IH by done. simpl.
  destruct (cmp_eqvb z x) eqn:Ex; [|done].
  destruct (cmp_eqvb z y) eqn:Ey; [|done].
  (* [x] and [y] would be of one class, yet [x] is after [y] *)
  unfold cmp_eqvb in *.
  apply andb_true_iff in Ex as [Hzx Hxz]. apply andb_true_iff in Ey as [Hzy Hyz].
  assert (cmp_leb x y = true) as H by by eapply (leb_trans x z y).
  unfold cmp_leb in H. by rewrite E in H.
Qed.

Lemma sort_stable (z : A) (l : list A) :
  P z -> Forall P l ->
  List.filter (cmp_eqvb z) (JsArray.sort cmp l) = List.filter (cmp_eqvb z) l.
Proof.
  intros Hz.
  induction l as [|x l IH]; intros HP; simpl; [done|].
  apply Forall_cons in HP as [Hx HP].
  rewrite insert_stable; [|done|done|by rewrite sort_perm].
  simpl. by rewrite IH.
Qed.
End SortFacts.

End ListFacts.

(** ** Merge sort *)

Module MergeSortFacts.
Import InventoryItem SortSpec ListFacts.

(** *** The order on strings *)

Lemma string_leb_trans (s1 s2 s3 : string) :
  String.leb s1 s2 = true -> String.leb s2 s3 = true ->
  String.leb s1 s3 = true.
Proof.
  unfold String.leb. revert s2 s3.
  induction s1 as [|c1 s1 IH]; intros [|c2 s2] [|c3 s3]; simpl; try done.
  unfold Ascii.compare.
  destruct (N.compare_spec (N_of_ascii c1) (N_of_ascii c2)) as [E12|L12|G12];
    destruct (N.compare_spec (N_of_ascii c2) (N_of_ascii c3)) as [E23|L23|G23];
    destruct (N.compare_spec (N_of_ascii c1) (N_of_ascii c3)) as [E13|L13|G13];
    try done; try lia.
  apply IH.
Qed.

Lemma string_leb_both (s t : string) :
  String.leb s t && String.leb t s = String.eqb s t.
Proof.
  destruct (String.eqb_spec s t) as [->|Hne].
  - destruct (String.leb_total t t) as [H|H]; by rewrite H.
  - destruct (String.leb s t) eqn:H1; [|done].
    destruct (String.leb t s) eqn:H2; [|done].
    destruct Hne. by apply String.leb_antisym.
Qed.

(** *** The order of the code on one key *)

Lemma key_leb_total k a b : key_leb k a b = true \/ key_leb k b a = true.
Proof.
  unfold key_leb, MergeSort.getValue.
  destruct k; simpl; try apply String.leb_total; try (by left);
    rewrite !Qle_bool_iff;
    match goal with
    | |- (?p <= ?q)%Q \/ _ =>
        destruct (Qlt_le_dec p q); [left; by apply Qlt_le_weak | by right]
    end.
Qed.

Lemma key_leb_trans k a b c :
  key_leb k a b = true -> key_leb k b c = true -> key_leb k a c = true.
Proof.
  unfold key_leb, MergeSort.getValue.
  destruct k; simpl; try apply string_leb_trans; try done;
    rewrite !Qle_bool_iff; apply Qle_trans.
Qed.

(** The order of the code is the order of the specification. *)
Lemma key_leb_ordered_by k a b : key_leb k a b = true <-> ordered_by k a b.
Proof.
  unfold key_leb, ordered_by, MergeSort.getValue.
  destruct k; simpl; try done; apply Qle_bool_iff.
Qed.

Lemma key_leb_equal_keys k a b :
  key_leb k a b && key_leb k b a = equal_keys k a b.
Proof.
  unfold key_leb, equal_keys, MergeSort.getValue.
  destruct k; simpl; try apply string_leb_both; try done;
    match goal with
    | |- Qle_bool ?p ?q && _ = _ =>
        destruct (Qle_bool p q) eqn:H1; destruct (Qle_bool q p) eqn:H2;
        destruct (Qeq_bool p q) eqn:H3; try done; exfalso;
        rewrite ?Qle_bool_iff in *; try apply Qeq_bool_iff in H3;
        try apply Qeq_bool_neq in H3;
        try (apply not_true_iff_false in H1; rewrite Qle_bool_iff in H1);
        try (apply not_true_iff_false in H2; rewrite Qle_bool_iff in H2);
        lra
    end.
Qed.

(** *** The textbook merge: permutation, order, stability *)


Section MergedFacts.
Context {A : Type} (leb : A -> A -> bool).
Hypothesis leb_total : forall a b, leb a b = true \/ leb b a = true.
Hypothesis leb_trans :
  forall a b c, leb a b = true -> leb b c = true -> leb a c = true.

Let lep (a b : A) : Prop := leb a b = true.
Let eqvb (x y : A) : bool := leb x y && leb y x.

Lemma merged_nil_r (l : list A) : merged leb l [] = l.
Proof. by destruct l. Qed.

Lemma merged_perm (l r : list A) : merged leb l r ≡ₚ l ++ r.
Proof.
  revert r. induction l as [|a l IHl]; intros r; [by destruct r|].
  induction r as [|b r IHr]; simpl.
  - by rewrite app_nil_r.
  - destruct (leb a b).
    + by rewrite IHl.
    + simpl in IHr. rewrite IHr. apply (Permutation_middle (a :: l) r b).
Qed.

Lemma merged_sorted (l r : list A) :
  StronglySorted lep l -> StronglySorted lep r ->
  StronglySorted lep (merged leb l r).
Proof.
  revert r. induction l as [|a l IHl]; intros r Hl Hr; [by destruct r|].
  induction r as [|b r IHr]; [exact Hl|]. simpl.
  apply StronglySorted_inv in Hl as Hl'. destruct Hl' as [Hl1 Hl2].
  apply StronglySorted_inv in Hr as Hr'. destruct Hr' as [Hr1 Hr2].
  destruct (leb a b) eqn:Hab.
  - constructor; [by apply IHl|].
    rewrite merged_perm. apply Forall_app. split; [done|].
    constructor; [done|].
    eapply Forall_impl; [exact Hr2|]. intros c Hc. by eapply leb_trans.
  - assert (Hba : leb b a = true) by (destruct (leb_total a b); congruence).
    constructor; [by apply IHr|].
    change (Forall (lep b) (merged leb (a :: l) r)).
    rewrite merged_perm. apply Forall_app. split; [|done].
    constructor; [done|].
    eapply Forall_impl; [exact Hl2|]. intros c Hc. by eapply leb_trans.
Qed.

(** Elements of one class of equal keys keep their order: those of the
    left list come first. *)
Lemma merged_stable (x : A) (l r : list A) :
  StronglySorted lep l ->
  List.filter (eqvb x) (merged leb l r) =
  List.filter (eqvb x) l ++ List.filter (eqvb x) r.
Proof.
  revert r. induction l as [|a l IHl]; intros r Hl; [by destruct r|].
  induction r as [|b r IHr]; simpl.
  - by rewrite app_nil_r.
  - apply StronglySorted_inv in Hl as Hl'. destruct Hl' as [Hl1 Hl2].
    destruct (leb a b) eqn:Hab.
    + simpl. rewrite (IHl _ Hl1). simpl. by destruct (eqvb x a).
    + simpl. simpl in IHr. rewrite IHr.
      destruct (eqvb x b) eqn:Hxb; [|done].
      (* [b] is strictly below [a], hence below all of the left list *)
      assert (Hnone : List.filter (eqvb x) (a :: l) = []).
      { apply filter_none. intros c Hc.
        assert (Hac : leb a c = true).
        { destruct Hc as [->|Hc].
          - destruct (leb_total c c); done.
          - rewrite Forall_forall in Hl2. apply Hl2.
            by apply list_elem_of_In. }
        unfold eqvb in *. apply andb_true_iff in Hxb as [Hxb1 Hxb2].
        apply andb_false_iff.
        destruct (leb c x) eqn:Hcx; [|by right]. left.
        destruct (leb x c) eqn:Hxc; [|done].
        assert (leb a b = true); [|congruence].
        eapply leb_trans; [exact Hac|]. eapply leb_trans; [exact Hcx|done]. }
      simpl in Hnone. rewrite Hnone. done.
Qed.
End MergedFacts.


(** *** The loop of [merge] computes the textbook merge *)

Lemma merge_loop_fst k l : forall r res st,
  (MergeSort.merge_loop res l r k st).1 = res ++ merged (key_leb k) l r.
Proof.
  induction l as [|a l IHl]; intros r.
  - intros res st. simp merge_loop. by destruct r.
  - induction r as [|b r IHr]; intros res st.
    + simp merge_loop. simpl. by rewrite app_nil_r.
    + simp merge_loop. simpl. unfold key_leb at 1.
      destruct (le (MergeSort.getValue a k) (MergeSort.getValue b k)); simpl.
      * rewrite IHl. by rewrite <- app_assoc.
      * simpl in IHr. rewrite IHr. by rewrite <- app_assoc.
Qed.

Lemma mergeSort_unfold arr k st :
  MergeSort.mergeSort arr k st =
  if decide (length arr <= 1)%nat then (arr, st)
  else
    let left := MergeSort.mergeSort (take (length arr / 2) arr) k st in
    let right :=
      MergeSort.mergeSort (drop (length arr / 2) arr) k left.2 in
    MergeSort.merge left.1 right.1 k right.2.
Proof.
  simp mergeSort. destruct (decide (length arr <= 1)%nat); by simp mergeSort.
Qed.


Lemma short_sorted {A} (R : A -> A -> Prop) (l : list A) :
  (length l <= 1)%nat -> StronglySorted R l.
Proof.
  destruct l as [|a [|b l]]; simpl; intros H; try lia; repeat constructor.
Qed.

Lemma mergeSort_spec k arr : forall st,
  let out := (MergeSort.mergeSort arr k st).1 in
  Permutation out arr /\
  StronglySorted (fun a b => key_leb k a b = true) out /\
  forall x, List.filter (key_eqvb k x) out = List.filter (key_eqvb k x) arr.
Proof.
  induction arr as [arr IH] using (induction_ltof1 _ (@length _)).
  unfold ltof in IH. intros st. cbv zeta.
  rewrite mergeSort_unfold.
  destruct (decide (length arr <= 1)%nat) as [Hshort|Hlong].
  { simpl. split; [done|]. split; [by apply short_sorted|done]. }
  cbv zeta. unfold MergeSort.merge. rewrite merge_loop_fst, app_nil_l.
  set (mid := (length arr / 2)%nat).
  assert (Hmid1 : (mid < length arr)%nat) by (apply Nat.div_lt; lia).
  assert (Hmid2 : (0 < mid)%nat) by (apply Nat.div_str_pos; lia).
  set (left := MergeSort.mergeSort (take mid arr) k st).
  set (right := MergeSort.mergeSort (drop mid arr) k left.2).
  destruct (IH (take mid arr)) with (st := st) as (Pl & Sl & Fl).
  { rewrite length_take. lia. }
  destruct (IH (drop mid arr)) with (st := left.2) as (Pr & Sr & Fr).
  { rewrite length_drop. lia. }
  fold left in Pl, Sl, Fl. fold right in Pr, Sr, Fr.
  split; [|split].
  - rewrite merged_perm, Pl, Pr. by rewrite take_drop.
  - by apply (merged_sorted (key_leb k) (key_leb_total k) (key_leb_trans k)).
  - intros x. unfold key_eqvb.
    rewrite (merged_stable (key_leb k) (key_leb_total k) (key_leb_trans k));
      [|done].
    fold (key_eqvb k x). rewrite Fl, Fr, <- List.filter_app.
    by rewrite take_drop.
Qed.

(** C1. For every list of items and every sort key, the list returned
    by [MergeSort.sort] is a permutation of the input, is in
    non-decreasing order of the key (strings compared after lowercasing,
    numbers by raw value), and keeps items of equal keys in the order
    they have in the input. *)
Theorem mergeSort_sort_stable_sorted_permutation
    (items : list InventoryItem.t) (sortBy : key) :
  let out := MergeSort.sortedItems (MergeSort.sort items sortBy) in
  Permutation out items /\
  StronglySorted (ordered_by sortBy) out /\
  forall x : InventoryItem.t,
    List.filter (equal_keys sortBy x) out =
    List.filter (equal_keys sortBy x) items.
Proof.
  simpl. destruct (mergeSort_spec sortBy items
                     {| MergeSort.comparisons := 0; MergeSort.swaps := 0 |})
    as (P & S & F).
  split; [done|]. split.
  - clear -S. induction S as [|a l S IH Hall]; constructor; [done|].
    eapply Forall_impl; [exact Hall|]. intros b. apply key_leb_ordered_by.
  - intros x. specialize (F x).
    rewrite <- !(List.filter_ext (key_eqvb sortBy x) (equal_keys sortBy x))
      by (intros y; apply key_leb_equal_keys).
    exact F.
Qed.

End MergeSortFacts.

(** ** Prefix search *)

Module HashMapSearchFacts.
Import InventoryItem SearchSpec HashMapInv ListFacts Samples.

(** *** Strings *)

Lemma toLowerCase_length s : String.length (JsString.toLowerCase s) = String.length s.
Proof. induction s; simpl; congruence. Qed.

Lemma toLowerCase_empty s : JsString.toLowerCase s = EmptyString <-> s = EmptyString.
Proof. by destruct s. Qed.

Lemma substring0_length (i : nat) (s : string) :
  (i <= String.length s)%nat -> String.length (JsString.substring0 i s) = i.
Proof.
  unfold JsString.substring0. revert i.
  induction s as [|c s IH]; intros [|i] H; simpl in *; try done; try lia.
  rewrite IH; [done|lia].
Qed.

Lemma prefix_length (p s : string) :
  String.prefix p s = true -> (String.length p <= String.length s)%nat.
Proof.
  revert s. induction p as [|c p IH]; intros [|d s]; simpl; try done; try lia.
  destruct (ascii_dec c d); [|done]. intros H. apply IH in H. lia.
Qed.

(** The prefixes that [buildHashMap] registers for a value are its
    non-empty prefixes. *)
Lemma registered_prefix (p v : string) :
  existsb (fun i => String.eqb p (JsString.substring0 i v))
          (seq 1 (String.length v))
  = negb (String.eqb p EmptyString) && String.prefix p v.
Proof.
  apply eq_true_iff_eq. rewrite existsb_exists, andb_true_iff, negb_true_iff.
  split.
  - intros (i & Hi & Hp). apply in_seq in Hi. apply String.eqb_eq in Hp.
    assert (Hlen : String.length p = i).
    { rewrite Hp. apply substring0_length. lia. }
    split.
    + apply String.eqb_neq. intros ->. simpl in Hlen. lia.
    + apply prefix_correct. rewrite Hlen. symmetry. exact Hp.
  - intros (Hne & Hp). apply String.eqb_neq in Hne.
    exists (String.length p). split.
    + apply in_seq. apply prefix_length in Hp.
      destruct p; [done|]. simpl in *. lia.
    + apply String.eqb_eq. symmetry. by apply prefix_correct.
Qed.


(** *** Deduplication by [id] *)

Lemma push_new_In l x r : In r (push_new l x) -> In r l \/ r = x.
Proof.
  unfold push_new. destruct (existsb _ l); [by left|].
  rewrite in_app_iff. simpl. intros [H|[H|[]]]; [by left|by right].
Qed.

Lemma push_new_keeps l x r : In r l -> In r (push_new l x).
Proof.
  unfold push_new. destruct (existsb _ l); [done|].
  rewrite in_app_iff. by left.
Qed.

Lemma push_new_covers l x : exists r, In r (push_new l x) /\ id r = id x.
Proof.
  unfold push_new. destruct (existsb _ l) eqn:E.
  - apply existsb_exists in E as (r & Hr & Hid).
    exists r. split; [done|]. by apply String.eqb_eq.
  - exists x. split; [|done]. rewrite in_app_iff. right. by left.
Qed.

Lemma push_new_NoDup l x : NoDup (map id l) -> NoDup (map id (push_new l x)).
Proof.
  unfold push_new. intros H. destruct (existsb _ l) eqn:E; [done|].
  rewrite map_app. simpl. apply NoDup_app. split; [done|]. split.
  - intros i Hi Hx. apply list_elem_of_In in Hi, Hx.
    destruct Hx as [<-|[]]. apply in_map_iff in Hi as (r & Hid & Hr).
    assert (existsb (fun y => same_id y x) l = true); [|congruence].
    apply existsb_exists. exists r. split; [done|]. by apply String.eqb_eq.
  - apply NoDup_singleton.
Qed.

Lemma fold_push_new_In l : forall acc r,
  In r (fold_left push_new l acc) -> In r acc \/ In r l.
Proof.
  induction l as [|x l IH]; intros acc r H; simpl in *; [by left|].
  apply IH in H as [H|H]; [|by right; right].
  apply push_new_In in H as [H| ->]; [by left|by right; left].
Qed.

Lemma fold_push_new_keeps l : forall acc r,
  In r acc -> In r (fold_left push_new l acc).
Proof.
  induction l as [|x l IH]; intros acc r H; simpl; [done|].
  apply IH. by apply push_new_keeps.
Qed.

Lemma fold_push_new_covers l : forall acc x,
  In x l -> exists r, In r (fold_left push_new l acc) /\ id r = id x.
Proof.
  induction l as [|y l IH]; intros acc x H; simpl in *; [done|].
  destruct H as [->|H]; [|by apply IH].
  destruct (push_new_covers acc x) as (r & Hr & Hid).
  exists r. split; [|done]. by apply fold_push_new_keeps.
Qed.

Lemma fold_push_new_NoDup l : forall acc,
  NoDup (map id acc) -> NoDup (map id (fold_left push_new l acc)).
Proof.
  induction l as [|y l IH]; intros acc H; simpl; [done|].
  apply IH. by apply push_new_NoDup.
Qed.

Lemma fold_push_new_snoc l x acc :
  fold_left push_new (l ++ [x]) acc = push_new (fold_left push_new l acc) x.
Proof. by rewrite fold_left_app. Qed.

(** *** The index that [buildHashMap] leaves *)

Lemma addPrefix_lookup item value (fm : gmap string (list InventoryItem.t))
    i p :
  HashMapSearch.addPrefix item value fm i !! p =
  if String.eqb p (JsString.substring0 i value)
  then Some (push_new (default [] (fm !! p)) item)
  else fm !! p.
Proof.
  unfold HashMapSearch.addPrefix, push_new, same_id.
  set (sub := JsString.substring0 i value).
  destruct (String.eqb_spec p sub) as [->|Hne].
  - destruct (fm !! sub) as [l|] eqn:E; simpl.
    + rewrite E. simpl. destruct (existsb _ l); [done|].
      by rewrite lookup_insert_eq.
    + rewrite lookup_insert_eq. simpl. by rewrite lookup_insert_eq.
  - destruct (fm !! sub) as [l|] eqn:E; simpl.
    + rewrite E. simpl. destruct (existsb _ l); [done|].
      by rewrite lookup_insert_ne.
    + rewrite lookup_insert_eq. simpl.
      by rewrite !lookup_insert_ne.
Qed.

Lemma fold_addPrefix_lookup item value is_ :
  forall (fm : gmap string (list InventoryItem.t)) p,
  NoDup is_ -> (forall i, In i is_ -> (i <= String.length value)%nat) ->
  fold_left (HashMapSearch.addPrefix item value) is_ fm !! p =
  if existsb (fun i => String.eqb p (JsString.substring0 i value)) is_
  then Some (push_new (default [] (fm !! p)) item)
  else fm !! p.
Proof.
  induction is_ as [|i is_ IH]; intros fm p Hnd Hle; simpl; [done|].
  apply NoDup_cons in Hnd as [Hi Hnd].
  rewrite IH; [|done|by intros j Hj; apply Hle; right].
  rewrite addPrefix_lookup.
  destruct (String.eqb_spec p (JsString.substring0 i value)) as [->|Hne];
    simpl; [|done].
  assert (Hno : existsb (fun j => String.eqb (JsString.substring0 i value)
                                    (JsString.substring0 j value)) is_
                = false).
  { apply not_true_iff_false. intros H.
    apply existsb_exists in H as (j & Hj & Heq).
    apply String.eqb_eq in Heq.
    assert (i = j); [|subst; by apply Hi, list_elem_of_In].
    rewrite <- (substring0_length i value), <- (substring0_length j value).
    - by rewrite Heq.
    - apply Hle. by right.
    - apply Hle. by left. }
  by rewrite Hno.
Qed.


Section WithPrinter.
Variable String_of_number : Q -> string.

Local Abbreviation registers := (HashMapInv.registers String_of_number).
Local Abbreviation bucket := (HashMapInv.bucket String_of_number).
Local Abbreviation fieldMap_of := (HashMapInv.fieldMap_of String_of_number).
Local Abbreviation built := (HashMapInv.built String_of_number).

Lemma addItem_lookup field (fm : gmap string (list InventoryItem.t)) it p :
  HashMapSearch.addItem String_of_number field fm it !! p =
  if registers field p it
  then Some (push_new (default [] (fm !! p)) it)
  else fm !! p.
Proof.
  unfold HashMapSearch.addItem, registers.
  rewrite fold_addPrefix_lookup.
  - by rewrite registered_prefix.
  - apply NoDup_ListNoDup, List.seq_NoDup.
  - intros i Hi. apply in_seq in Hi. lia.
Qed.

Lemma bucket_default field p items :
  default [] (bucket field p items) =
  dedup_by_id (List.filter (registers field p) items).
Proof. unfold HashMapInv.bucket. by destruct (List.filter _ items). Qed.

Lemma fold_addItem_lookup field items :
  forall (fm : gmap string (list InventoryItem.t)) done_,
  (forall p, fm !! p = bucket field p done_) ->
  forall p, fold_left (HashMapSearch.addItem String_of_number field)
              items fm !! p
            = bucket field p (done_ ++ items).
Proof.
  induction items as [|it items IH]; intros fm done_ Hfm p; simpl.
  - by rewrite app_nil_r.
  - rewrite (IH _ (done_ ++ [it])); [by rewrite <- app_assoc|].
    clear p. intros p. rewrite addItem_lookup, Hfm, bucket_default.
    unfold HashMapInv.bucket. rewrite List.filter_app. simpl.
    destruct (registers field p it) eqn:E.
    + destruct (List.filter (registers field p) done_) as [|a m]; [done|].
      simpl. unfold dedup_by_id. simpl. by rewrite fold_left_app.
    + by rewrite app_nil_r.
Qed.

Lemma fieldMap_of_lookup field items p :
  fieldMap_of field items !! p = bucket field p items.
Proof.
  unfold HashMapInv.fieldMap_of. by rewrite (fold_addItem_lookup field items ∅ []).
Qed.

Lemma buildHashMap_indexed items (hm : HashMapSearch.state) field :
  In field HashMapSearch.fields ->
  HashMapSearch.buildHashMap String_of_number items hm !! key_name field
  = Some (fieldMap_of field items).
Proof.
  unfold HashMapSearch.buildHashMap, HashMapSearch.fields. simpl.
  unfold HashMapSearch.addField.
  unfold HashMapSearch.state in *.
  intros [<-|[<-|[<-|[<-|[]]]]]; simpl;
    repeat (first [ rewrite lookup_insert_eq; reflexivity
                  | rewrite lookup_insert_ne by done ]).
Qed.

Lemma buildHashMap_other items (hm : HashMapSearch.state) field :
  ~ In field HashMapSearch.fields ->
  HashMapSearch.buildHashMap String_of_number items hm !! key_name field
  = hm !! key_name field.
Proof.
  unfold HashMapSearch.buildHashMap, HashMapSearch.fields. simpl.
  unfold HashMapSearch.addField, HashMapSearch.state in *. intros Hnot.
  destruct field; simpl; try (exfalso; apply Hnot; simpl; tauto);
    by rewrite !lookup_insert_ne.
Qed.

Lemma getValue_text it field :
  In field HashMapSearch.fields ->
  HashMapSearch.getValue String_of_number it field = text field it.
Proof. intros [<-|[<-|[<-|[<-|[]]]]]; reflexivity. Qed.

(** What a search finds in a freshly built index, for any term. *)
Lemma search_built items (hm : HashMapSearch.state) term field :
  In field HashMapSearch.fields ->
  HashMapSearch.results
    (HashMapSearch.search
       (HashMapSearch.buildHashMap String_of_number items hm) term field)
  = dedup_by_id
      (List.filter (registers field (JsString.toLowerCase term)) items).
Proof.
  intros Hf. unfold HashMapSearch.search. simpl.
  rewrite buildHashMap_indexed by done.
  rewrite fieldMap_of_lookup, <- bucket_default.
  by destruct (bucket _ _ _).
Qed.

Lemma search_unindexed items (hm : HashMapSearch.state) term field :
  ~ In field HashMapSearch.fields ->
  HashMapSearch.results
    (HashMapSearch.search
       (HashMapSearch.buildHashMap String_of_number items hm) term field)
  = HashMapSearch.results (HashMapSearch.search hm term field).
Proof.
  intros Hf. unfold HashMapSearch.search. simpl.
  by rewrite buildHashMap_other.
Qed.

(** C3. Once [buildHashMap] has run on [items], a search for a
    non-empty term on an indexed field returns the items whose
    lowercased field value starts with the lowercased term, one item
    per [id] (the first), and nothing else: every result is such an
    item, every such item has a result of its [id], no two results
    share an [id]; when the term is a prefix of no field value (a
    proper substring, say) the result is empty. *)
Theorem hashMap_search_exact_prefix (items : list InventoryItem.t)
    (hm : HashMapSearch.state) (term : string) (field : key) :
  In field HashMapSearch.fields ->
  term <> EmptyString ->
  let found :=
    HashMapSearch.results
      (HashMapSearch.search
         (HashMapSearch.buildHashMap String_of_number items hm)
         term field) in
  found = dedup_by_id (matching field term items) /\
  (forall r, In r found ->
             In r items /\ has_prefix term (text field r) = true) /\
  (forall it, In it items -> has_prefix term (text field it) = true ->
              exists r, In r found /\ id r = id it) /\
  NoDup (map id found) /\
  ((forall it, In it items -> has_prefix term (text field it) = false) ->
   found = []).
Proof.
  intros Hf Hterm found.
  assert (Hfound : found = dedup_by_id (matching field term items)).
  { unfold found. rewrite search_built by done. f_equal.
    apply List.filter_ext. intros it. unfold HashMapInv.registers, has_prefix.
    rewrite getValue_text by done.
    destruct (String.eqb_spec (JsString.toLowerCase term) EmptyString)
      as [E|E]; [|done].
    apply (proj1 (toLowerCase_empty term)) in E. contradiction. }
  split; [done|]. rewrite Hfound. unfold dedup_by_id, matching.
  split; [|split; [|split]].
  - intros r Hr. apply fold_push_new_In in Hr as [[]|Hr].
    by apply List.filter_In in Hr.
  - intros it Hit Hp. apply fold_push_new_covers.
    apply List.filter_In. by split.
  - by apply fold_push_new_NoDup, NoDup_nil.
  - intros Hnone. by rewrite filter_none.
Qed.

Lemma search_fresh term field :
  HashMapSearch.results
    (HashMapSearch.search HashMapSearch.empty term field) = [].
Proof.
  unfold HashMapSearch.search, HashMapSearch.empty. simpl.
  by rewrite ?lookup_empty.
Qed.

Lemma search_history_unindexed history term field :
  ~ In field HashMapSearch.fields ->
  HashMapSearch.results (HashMapSearch.search (built history) term field)
  = [].
Proof.
  intros Hf. unfold HashMapInv.built.
  induction history as [|items history IH] using rev_ind.
  - apply search_fresh.
  - rewrite fold_left_app. cbn [fold_left]. by rewrite search_unindexed.
Qed.

Lemma search_history_empty_term history field :
  HashMapSearch.results
    (HashMapSearch.search (built history) EmptyString field) = [].
Proof.
  destruct (decide (In field HashMapSearch.fields)) as [Hf|Hf];
    [|by apply search_history_unindexed].
  unfold HashMapInv.built. destruct history as [|items history _] using rev_ind.
  - apply search_fresh.
  - rewrite fold_left_app. cbn [fold_left].
    rewrite search_built by done. by rewrite filter_none.
Qed.

Lemma search_empty_collection history term field :
  HashMapSearch.results
    (HashMapSearch.search
       (HashMapSearch.buildHashMap String_of_number [] (built history))
       term field) = [].
Proof.
  destruct (decide (In field HashMapSearch.fields)) as [Hf|Hf].
  - by rewrite search_built.
  - rewrite search_unindexed by done. by apply search_history_unindexed.
Qed.

(** C10. A search returns the empty list, and no error, when the index
    was never built, when the field is not one of the four indexed
    fields, and when the term is empty: no map holds the empty prefix
    and no map exists for another field. *)
Theorem hashMap_search_empty_cases (history : list (list InventoryItem.t))
    (term : string) (field : key) :
  history = [] \/ ~ In field HashMapSearch.fields \/ term = EmptyString ->
  HashMapSearch.results (HashMapSearch.search (built history) term field)
  = [].
Proof.
  intros [->|[Hf| ->]].
  - apply search_fresh.
  - by apply search_history_unindexed.
  - apply search_history_empty_term.
Qed.
End WithPrinter.

(** The scenario of the specification: ["mouse"] finds nothing when only
    ["GameMouse"] exists. *)
Lemma hashMap_search_exact_prefix_witness :
  HashMapSearch.results
    (HashMapSearch.search
       (HashMapSearch.buildHashMap (fun _ => EmptyString)
          [sample_item "GameMouse" 2 0.3 50] HashMapSearch.empty)
       "mouse" k_name) = [].
Proof.
  destruct (hashMap_search_exact_prefix (fun _ => EmptyString)
              [sample_item "GameMouse" 2 0.3 50]
              HashMapSearch.empty "mouse" k_name)
    as (_ & _ & _ & _ & H).
  - simpl. tauto.
  - discriminate.
  - apply H. intros it [<-|[]]. reflexivity.
Defined.

Lemma hashMap_search_empty_cases_witness :
  HashMapSearch.results
    (HashMapSearch.search
       (built (fun _ => EmptyString) [[sample_item "GameMouse" 2 0.3 50]])
       "Game" k_quantity) = [].
Proof.
  apply hashMap_search_empty_cases. right. left.
  unfold HashMapSearch.fields. simpl. intros [H|[H|[H|[H|[]]]]]; discriminate.
Defined.

End HashMapSearchFacts.

(** ** Greedy best-fit allocation *)

Module GreedyBestFitFacts.
Import InventoryItem GreedyBestFit GreedySpec GreedyInv SortSpec ListFacts
  Samples.

(** *** The scan for the best fit *)

Lemma scan_step_fits store it acc r :
  fits store it r ->
  scan_step store it acc r =
  if NumZ.lt (Js.Fin (leftover store it r)) acc.2
  then (Some r, Js.Fin (leftover store it r)) else acc.
Proof.
  intros (space & Hs & Hq). unfold scan_step, leftover. rewrite Hs.
  by rewrite (proj2 (Z.leb_le _ _) Hq).
Qed.

Lemma scan_step_unfit store it acc r :
  ~ fits store it r -> scan_step store it acc r = acc.
Proof.
  intros Hno. unfold scan_step.
  destruct (store !! r) as [space|] eqn:Hs; [|done].
  destruct (Z.leb_spec (quantity it) (WarehouseSpace.available space));
    [|done].
  destruct Hno. by exists space.
Qed.

Lemma fits_dec store it r : fits store it r \/ ~ fits store it r.
Proof.
  unfold fits. destruct (store !! r) as [space|]; [|right; by intros (? & ? & ?)].
  destruct (Z.le_gt_cases (quantity it) (WarehouseSpace.available space)).
  - left. by exists space.
  - right. intros (? & [= <-] & ?). lia.
Qed.

Lemma scanned_step store it seen acc r :
  scanned store it seen acc ->
  scanned store it (seen ++ [r]) (scan_step store it acc r).
Proof.
  unfold scanned. intros H.
  destruct (fits_dec store it r) as [Hfit|Hno].
  - rewrite scan_step_fits by done.
    destruct acc as [[r0|] f]; simpl in *.
    + destruct H as (-> & before & after & -> & Hr0 & Hb & Ha). simpl.
      destruct (Z.ltb_spec (leftover store it r) (leftover store it r0)); simpl.
      * split; [done|]. exists (before ++ r0 :: after), [].
        split; [done|]. split; [done|]. split; [|by intros ? []].
        intros r' Hr' Hf'. apply in_app_iff in Hr' as [Hr'|[<-|Hr']].
        -- specialize (Hb r' Hr' Hf'). lia.
        -- done.
        -- specialize (Ha r' Hr' Hf'). lia.
      * split; [done|]. exists before, (after ++ [r]).
        split; [by rewrite <- app_assoc|]. split; [done|]. split; [done|].
        intros r' Hr' Hf'. apply in_app_iff in Hr' as [Hr'|[<-|[]]]; auto.
    + destruct H as (-> & Hnone). simpl. split; [done|].
      exists seen, []. split; [done|]. split; [done|].
      split; [|by intros ? []]. intros r' Hr' Hf'. by destruct (Hnone r' Hr').
  - rewrite scan_step_unfit by done.
    destruct acc as [[r0|] f]; simpl in *.
    + destruct H as (-> & before & after & -> & Hr0 & Hb & Ha).
      split; [done|]. exists before, (after ++ [r]).
      split; [by rewrite <- app_assoc|]. split; [done|]. split; [done|].
      intros r' Hr' Hf'. apply in_app_iff in Hr' as [Hr'|[<-|[]]]; auto.
      done.
    + destruct H as (-> & Hnone). split; [done|].
      intros r' Hr'. apply in_app_iff in Hr' as [Hr'|[<-|[]]]; auto.
Qed.

Lemma scanned_fold store it pool : forall seen acc,
  scanned store it seen acc ->
  scanned store it (seen ++ pool) (fold_left (scan_step store it) pool acc).
Proof.
  induction pool as [|r pool IH]; intros seen acc H; simpl.
  - by rewrite app_nil_r.
  - replace (seen ++ r :: pool) with ((seen ++ [r]) ++ pool)
      by by rewrite <- app_assoc.
    apply IH. by apply scanned_step.
Qed.

Lemma findBestSpace_some store pool it r :
  findBestSpace store pool it = Some r -> best_fit store pool it r.
Proof.
  unfold findBestSpace. intros H.
  pose proof (scanned_fold store it pool [] (None, Js.PInf)) as Hs.
  unfold scanned in Hs at 2. rewrite H in Hs. apply Hs. simpl. by split.
Qed.

Lemma findBestSpace_none store pool it :
  findBestSpace store pool it = None ->
  forall r, In r pool -> ~ fits store it r.
Proof.
  unfold findBestSpace. intros H.
  pose proof (scanned_fold store it pool [] (None, Js.PInf)) as Hs.
  unfold scanned in Hs at 2. rewrite H in Hs. apply Hs. simpl. by split.
Qed.


(** *** One step of the allocation loop *)

Lemma indexOf_In (r : nat) (pool : list nat) :
  In r pool -> is_Some (JsArray.indexOf r pool).
Proof.
  induction pool as [|y pool IH]; intros Hin; [done|]. simpl.
  destruct (Nat.eqb_spec r y) as [->|Hne]; [by eexists|].
  destruct Hin as [->|Hin]; [done|].
  destruct (IH Hin) as [i ->]. by eexists.
Qed.

Lemma indexOf_delete (r : nat) (pool : list nat) :
  NoDup pool -> In r pool ->
  remove r pool = List.filter (fun r' => negb (r' =? r)%nat) pool.
Proof.
  unfold remove, JsArray.splice1.
  induction pool as [|x pool IH]; intros Hnd Hin; [done|].
  apply NoDup_cons in Hnd as [Hx Hnd]. simpl.
  destruct (Nat.eqb_spec r x) as [->|Hne].
  - rewrite Nat.eqb_refl. simpl. symmetry.
    rewrite <- (List.filter_ext_in (fun _ => true)).
    + clear. induction pool; simpl; congruence.
    + intros y Hy. symmetry. apply negb_true_iff, Nat.eqb_neq.
      intros ->. by apply Hx, list_elem_of_In.
  - destruct Hin as [->|Hin]; [done|].
    rewrite (proj2 (Nat.eqb_neq x r)) by done. simpl.
    specialize (IH Hnd Hin).
    destruct (JsArray.indexOf r pool) as [i|] eqn:E; simpl.
    + by rewrite IH.
    + apply indexOf_In in Hin. rewrite E in Hin. by destruct Hin.
Qed.

Lemma best_fit_In store pool it r : best_fit store pool it r -> In r pool.
Proof.
  intros (before & after & -> & _). apply in_app_iff. right. by left.
Qed.

Lemma best_fit_fits store pool it r :
  best_fit store pool it r -> fits store it r.
Proof. by intros (before & after & _ & H & _). Qed.

(** The loop body does what [serves] says. *)
Lemma step_serves (st : state) (it : InventoryItem.t) :
  NoDup (spaces st) -> serves st it (step st it).
Proof.
  intros Hnd. unfold step.
  destruct (findBestSpace (store st) (spaces st) it) as [r|] eqn:E.
  - apply findBestSpace_some in E.
    destruct (best_fit_fits _ _ _ _ E) as (space & Hs & Hq).
    rewrite Hs. cbn [occupy WarehouseSpace.available].
    rewrite indexOf_delete by eauto using best_fit_In.
    by apply serves_allocated.
  - apply serves_unallocated. by apply findBestSpace_none.
Qed.

Lemma step_NoDup (st : state) (it : InventoryItem.t) :
  NoDup (spaces st) -> NoDup (spaces (step st it)).
Proof.
  intros Hnd. destruct (step_serves st it Hnd) as [r space _ _|_]; simpl;
    [|done].
  destruct (_ =? 0); [|done].
  apply NoDup_ListNoDup, List.NoDup_filter. by apply NoDup_ListNoDup.
Qed.

Lemma run_serves_all (ranked : list InventoryItem.t) : forall st,
  NoDup (spaces st) -> serves_all st ranked (fold_left step ranked st).
Proof.
  induction ranked as [|it ranked IH]; intros st Hnd; simpl.
  - constructor.
  - econstructor; [by apply step_serves|]. apply IH. by apply step_NoDup.
Qed.

Lemma candidates_NoDup (store : list WarehouseSpace.t) :
  NoDup (candidates store).
Proof.
  unfold candidates. apply NoDup_ListNoDup, List.NoDup_filter, List.seq_NoDup.
Qed.

(** *** The invariant of the space units *)

Lemma occupy_safe space it :
  safe space -> 0 <= quantity it <= WarehouseSpace.available space ->
  safe (occupy space it) /\
  WarehouseSpace.occupied (occupy space it)
  = WarehouseSpace.occupied space + quantity it /\
  WarehouseSpace.available (occupy space it)
  = WarehouseSpace.available space - quantity it.
Proof.
  unfold safe, consistent, occupy. cbn [WarehouseSpace.occupied
    WarehouseSpace.available WarehouseSpace.capacity].
  intros ([Hsum Ha] & Ho & Hc) Hq.
  rewrite !NumZFacts.nearest_small by lia. lia.
Qed.

Lemma serves_safe st it st' :
  0 <= quantity it -> serves st it st' -> Forall safe (store st) ->
  Forall safe (store st').
Proof.
  intros Hq [r space Hbest Hs|_] Hall; simpl; [|done].
  apply Forall_insert; [done|].
  destruct (best_fit_fits _ _ _ _ Hbest) as (space' & Hs' & Hfit).
  assert (space' = space) as -> by congruence.
  apply occupy_safe; [|done].
  rewrite Forall_forall in Hall. apply Hall. by eapply list_elem_of_lookup_2.
Qed.

Lemma serves_all_safe st ranked st' :
  (forall it, In it ranked -> 0 <= quantity it) ->
  serves_all st ranked st' -> Forall safe (store st) ->
  Forall safe (store st').
Proof.
  intros Hq H. induction H as [|st st' st'' it rest H1 _ IH]; intros Hall;
    [done|].
  apply IH; [intros; apply Hq; by right|].
  eapply serves_safe; [apply Hq; by left|done|done].
Qed.

(** C5 as amended. When every space unit starts with [available =
    capacity - occupied], [available >= 0], [occupied >= 0] and a
    capacity of 2^53 at most, and no item has a negative quantity, every
    space unit that [allocateSpace] leaves has [occupied + available =
    capacity] and [available >= 0]. *)
Theorem allocateSpace_keeps_spaces_consistent
    (items : list InventoryItem.t) (availableSpaces : list WarehouseSpace.t) :
  Forall (fun space =>
            WarehouseSpace.available space
            = WarehouseSpace.capacity space - WarehouseSpace.occupied space /\
            0 <= WarehouseSpace.available space /\
            0 <= WarehouseSpace.occupied space /\
            WarehouseSpace.capacity space <= 2 ^ 53) availableSpaces ->
  (forall it, In it items -> 0 <= quantity it) ->
  Forall (fun space =>
            WarehouseSpace.occupied space + WarehouseSpace.available space
            = WarehouseSpace.capacity space /\
            0 <= WarehouseSpace.available space)
         (res_store (allocateSpace items availableSpaces)).
Proof.
  intros Hinit Hq. simpl. unfold run.
  assert (Hsafe : Forall safe (store (fold_left step (sortedItems items)
            {| store := availableSpaces;
               spaces := candidates availableSpaces;
               allocations := []; unallocated := [] |}))).
  { eapply (serves_all_safe _ (sortedItems items)).
    - intros it Hit. apply Hq. unfold sortedItems in Hit.
      eapply Permutation_in; [apply sort_perm|done].
    - apply run_serves_all. apply candidates_NoDup.
    - simpl. eapply Forall_impl; [exact Hinit|]. unfold safe, consistent.
      intros space. simpl. lia. }
  eapply Forall_impl; [exact Hsafe|]. by intros space [H _].
Qed.

Lemma allocateSpace_keeps_spaces_consistent_witness :
  Forall (fun space =>
            WarehouseSpace.occupied space + WarehouseSpace.available space
            = WarehouseSpace.capacity space /\
            0 <= WarehouseSpace.available space)
         (res_store
            (allocateSpace [sample_item "a" 5 1 10; sample_item "b" 8 2 10]
               [sample_space "s1" 6 0; sample_space "s2" 10 5])).
Proof.
  apply allocateSpace_keeps_spaces_consistent.
  - repeat constructor; simpl; lia.
  - intros it [<-|[<-|[]]]; simpl; lia.
Defined.

(** C5 as stated fails beyond the safe integers. A space unit of capacity
    2^53 + 2 with 2^53 occupied and 2 available takes an item of quantity
    1: [available] becomes 1, and [occupied += 1] leaves 2^53, the double
    nearest to 2^53 + 1; the sum of the two is no longer the capacity,
    in exact arithmetic and in that of the code. *)
Lemma allocateSpace_rounds_occupied :
  let space :=
    {| WarehouseSpace.id := "s1"; WarehouseSpace.aisle := "A";
       WarehouseSpace.shelf := 1; WarehouseSpace.position := 1;
       WarehouseSpace.capacity := 9007199254740994;
       WarehouseSpace.occupied := 9007199254740992;
       WarehouseSpace.available := 2;
       WarehouseSpace.itemId := None |} in
  let out := res_store (allocateSpace [sample_item "a" 1 1 10] [space]) in
  WarehouseSpace.available space
  = WarehouseSpace.capacity space - WarehouseSpace.occupied space /\
  0 <= WarehouseSpace.available space /\
  map WarehouseSpace.occupied out = [9007199254740992] /\
  map WarehouseSpace.available out = [1] /\
  map WarehouseSpace.capacity out = [9007199254740994] /\
  ~ Forall (fun space =>
              WarehouseSpace.occupied space + WarehouseSpace.available space
              = WarehouseSpace.capacity space /\
              0 <= WarehouseSpace.available space) out /\
  ~ Forall (fun space =>
              NumZ.nearest (WarehouseSpace.occupied space
                            + WarehouseSpace.available space)
              = WarehouseSpace.capacity space) out.
Proof.
  cbv zeta. split_and!; try (vm_compute; congruence).
  - intros H. apply Forall_cons in H as [[H _] _]. vm_compute in H. done.
  - intros H. apply Forall_cons in H as [H _]. vm_compute in H. done.
Qed.


(** *** The ranking by value density *)

Lemma density_finite a :
  (0 < weight a)%Q -> density a = Js.Fin (value_density a).
Proof.
  intros Hw. unfold density, NumQ.div, value_density.
  destruct (Qeq_bool (weight a) 0) eqn:E; [|done].
  apply Qeq_bool_iff in E. lra.
Qed.

Lemma compare_leb a b :
  (0 < weight a)%Q -> (0 < weight b)%Q ->
  cmp_leb compare a b = Qle_bool (value_density b) (value_density a).
Proof.
  intros Ha Hb. unfold cmp_leb, compare.
  rewrite !density_finite by done. simpl. rewrite negb_involutive.
  apply eq_true_iff_eq. rewrite !Qle_bool_iff. split; intros; lra.
Qed.

Lemma compare_eqvb a b :
  (0 < weight a)%Q -> (0 < weight b)%Q ->
  cmp_eqvb compare a b = Qeq_bool (value_density a) (value_density b).
Proof.
  intros Ha Hb. unfold cmp_eqvb. rewrite !compare_leb by done.
  apply eq_true_iff_eq.
  rewrite andb_true_iff, !Qle_bool_iff, Qeq_bool_iff. split.
  - intros [? ?]. lra.
  - intros ->. split; lra.
Qed.

Lemma compare_total a b :
  (0 < weight a)%Q -> (0 < weight b)%Q ->
  cmp_leb compare a b = true \/ cmp_leb compare b a = true.
Proof.
  intros Ha Hb. rewrite !compare_leb, !Qle_bool_iff by done.
  destruct (Qlt_le_dec (value_density a) (value_density b));
    [right; lra|by left].
Qed.

Lemma compare_trans a b c :
  (0 < weight a)%Q -> (0 < weight b)%Q -> (0 < weight c)%Q ->
  cmp_leb compare a b = true -> cmp_leb compare b c = true ->
  cmp_leb compare a c = true.
Proof.
  intros Ha Hb Hc. rewrite !compare_leb, !Qle_bool_iff by done. lra.
Qed.

Lemma candidates_spec (store : list WarehouseSpace.t) (r : nat) :
  In r (candidates store) <->
  exists space, store !! r = Some space /\ 0 < WarehouseSpace.available space.
Proof.
  unfold candidates. rewrite List.filter_In, in_seq. split.
  - intros [_ H]. destruct (store !! r) as [space|]; [|done].
    exists space. split; [done|]. by apply Z.ltb_lt.
  - intros (space & Hs & Ha). rewrite Hs. split.
    + apply lookup_lt_Some in Hs. lia.
    + by apply Z.ltb_lt.
Qed.




End GreedyBestFitFacts.

(** ** The route planner *)

Module DijkstraFacts.
Import Js DijkstraPathFinder RouteSpec DijkstraInv Samples.

(** *** Matrices *)

Lemma square_row n g i row : square n g -> g !! i = Some row -> length row = n.
Proof.
  intros [_ H] Hi. rewrite Forall_forall in H. apply H.
  by eapply list_elem_of_lookup_2.
Qed.

Lemma setEntry_square n g i j v : square n g -> square n (setEntry g i j v).
Proof.
  intros [Hl Hr]. unfold setEntry.
  destruct (g !! i) as [row|] eqn:E; [|done]. split.
  - by rewrite length_insert.
  - apply Forall_insert; [done|]. rewrite length_insert.
    by eapply square_row.
Qed.

Lemma entry_setEntry n g a b v i j :
  square n g -> (a < n)%nat -> (b < n)%nat ->
  entry (setEntry g a b v) i j =
  if decide (i = a /\ j = b) then Some v else entry g i j.
Proof.
  intros Hsq Ha Hb. unfold entry, setEntry.
  destruct (g !! a) as [row|] eqn:E.
  2: { apply lookup_ge_None in E. destruct Hsq. lia. }
  pose proof (square_row _ _ _ _ Hsq E) as Hrow.
  destruct (decide (i = a)) as [->|Hia].
  - rewrite list_lookup_insert_eq by (apply lookup_lt_Some in E; lia). simpl.
    destruct (decide (j = b)) as [->|Hjb].
    + rewrite list_lookup_insert_eq by lia. by rewrite decide_True.
    + rewrite list_lookup_insert_ne by done. rewrite E. simpl.
      rewrite decide_False; [done|tauto].
  - rewrite list_lookup_insert_ne by done. rewrite decide_False; [done|tauto].
Qed.

Lemma entry_lt n g i j v :
  square n g -> entry g i j = Some v -> (i < n)%nat /\ (j < n)%nat.
Proof.
  intros Hsq H. unfold entry in H.
  destruct (g !! i) as [row|] eqn:E; [|done]. simpl in H.
  pose proof (square_row _ _ _ _ Hsq E). apply lookup_lt_Some in E, H.
  destruct Hsq. lia.
Qed.

Lemma entry_replicate n (v : NumZ.t) i j :
  (i < n)%nat -> (j < n)%nat ->
  entry (replicate n (replicate n v)) i j = Some v.
Proof.
  intros Hi Hj. unfold entry.
  rewrite lookup_replicate_2 by done. simpl. by rewrite lookup_replicate_2.
Qed.

Lemma square_replicate n (v : NumZ.t) : square n (replicate n (replicate n v)).
Proof.
  split; [by rewrite length_replicate|].
  apply Forall_forall. intros row Hrow.
  apply elem_of_replicate in Hrow as [-> _]. by rewrite length_replicate.
Qed.


(** *** The matrix that [initializeWarehouseGraph] builds *)

Lemma calculateDistance_sym loc1 loc2 :
  calculateDistance loc1 loc2 = calculateDistance loc2 loc1.
Proof.
  unfold calculateDistance. cbv zeta.
  f_equal; [f_equal|]; f_equal; apply NumZFacts.abs_sub_sym.
Qed.

Lemma distance_at_sym locs i j : distance_at locs i j = distance_at locs j i.
Proof.
  unfold distance_at.
  destruct (locs !! i), (locs !! j); try done. apply calculateDistance_sym.
Qed.

(** As long as the metric is a safe integer the code computes it
    exactly. *)
Lemma calculateDistance_metric loc1 loc2 d :
  metric loc1 loc2 = Some d -> d <= 2 ^ 53 ->
  calculateDistance loc1 loc2 = Fin d.
Proof.
  unfold metric, calculateDistance, aisle_index.
  destruct (Location.aisle loc1) as [|c1 ?], (Location.aisle loc2) as [|c2 ?];
    try (simpl; done).
  intros Hm Hd. simpl in Hm. injection Hm as <-.
  cbn [JsString.charCodeAt0].
  pose proof (nat_ascii_bounded c1). pose proof (nat_ascii_bounded c2).
  set (a1 := Z.of_nat (nat_of_ascii c1)) in *.
  set (a2 := Z.of_nat (nat_of_ascii c2)) in *.
  assert (2 ^ 8 < 2 ^ 53) by (apply Z.pow_lt_mono_r; lia).
  change (2 ^ 8) with 256 in *.
  rewrite !NumZFacts.sub_small by lia. cbn [NumZ.abs].
  rewrite !NumZFacts.mul_small by lia.
  rewrite !NumZFacts.add_small by lia. f_equal. lia.
Qed.

Lemma metric_nonneg loc1 loc2 d : metric loc1 loc2 = Some d -> 0 <= d.
Proof.
  unfold metric, aisle_index.
  destruct (Location.aisle loc1), (Location.aisle loc2); simpl; try done.
  intros [= <-]. lia.
Qed.

Lemma setPair_eq locs i j g loc1 loc2 :
  locs !! i = Some loc1 -> locs !! j = Some loc2 ->
  setPair locs i g j =
  setEntry (setEntry g i j (calculateDistance loc1 loc2)) j i
    (calculateDistance loc1 loc2).
Proof. intros H1 H2. unfold setPair. by rewrite H1, H2. Qed.

Lemma diagonal_fold n g0 k :
  square n g0 -> (k <= n)%nat ->
  let g := fold_left (fun g i => setEntry g i i (Fin 0)) (seq 0 k) g0 in
  square n g /\
  forall a b, entry g a b =
              if decide (a = b /\ a < k)%nat then Some (Fin 0)
              else entry g0 a b.
Proof.
  intros Hsq. induction k as [|k IH]; intros Hk; cbv zeta.
  - simpl. split; [done|]. intros a b. rewrite decide_False; [done|lia].
  - rewrite seq_S, fold_left_app. cbn [fold_left].
    destruct IH as [Hsq' He]; [lia|]. split; [by apply setEntry_square|].
    intros a b. rewrite (entry_setEntry n) by (done || lia). rewrite He.
    repeat case_decide; try done; lia.
Qed.

Lemma pair_fold n locs i g0 m :
  square n g0 -> length locs = n -> (S i + m <= n)%nat ->
  let g := fold_left (setPair locs i) (seq (S i) m) g0 in
  square n g /\
  forall a b, entry g a b =
              if decide (a = i /\ S i <= b < S i + m)%nat
              then Some (distance_at locs i b)
              else if decide (b = i /\ S i <= a < S i + m)%nat
              then Some (distance_at locs i a)
              else entry g0 a b.
Proof.
  intros Hsq Hlocs. induction m as [|m IH]; intros Hm; cbv zeta.
  - simpl. split; [done|]. intros a b. rewrite !decide_False; [done|lia|lia].
  - rewrite seq_S, fold_left_app. cbn [fold_left].
    destruct IH as [Hsq' He]; [lia|].
    destruct (locs !! i) as [loc1|] eqn:E1.
    2: { apply lookup_ge_None in E1. lia. }
    destruct (locs !! (S i + m)%nat) as [loc2|] eqn:E2.
    2: { apply lookup_ge_None in E2. lia. }
    rewrite (setPair_eq _ _ _ _ _ _ E1 E2).
    split; [by do 2 apply setEntry_square|].
    intros a b.
    rewrite (entry_setEntry n) by (try apply setEntry_square; done || lia).
    rewrite (entry_setEntry n) by (done || lia). rewrite He.
    assert (Hd : forall c, c = (S i + m)%nat ->
                           distance_at locs i c = calculateDistance loc1 loc2).
    { intros c ->. unfold distance_at. by rewrite E1, E2. }
    repeat case_decide; try done; try lia;
      repeat match goal with H : _ /\ _ |- _ => destruct H end; subst;
      try (by rewrite Hd); lia.
Qed.

Lemma pairs_fold n locs g0 k :
  square n g0 -> length locs = n -> (k <= n)%nat ->
  let g := fold_left (fun g i =>
                        fold_left (setPair locs i) (seq (S i) (n - S i)) g)
                     (seq 0 k) g0 in
  square n g /\
  forall a b, entry g a b =
              if decide (a < b /\ a < k /\ b < n)%nat
              then Some (distance_at locs a b)
              else if decide (b < a /\ b < k /\ a < n)%nat
              then Some (distance_at locs b a)
              else entry g0 a b.
Proof.
  intros Hsq Hlocs. induction k as [|k IH]; intros Hk; cbv zeta.
  - simpl. split; [done|]. intros a b. rewrite !decide_False; [done|lia|lia].
  - rewrite seq_S, fold_left_app. cbn [fold_left].
    destruct IH as [Hsq' He]; [lia|].
    destruct (pair_fold n locs k _ (n - S k) Hsq' Hlocs) as [Hsq'' He'];
      [lia|].
    split; [done|]. intros a b. rewrite He', He.
    repeat case_decide; try done; try lia;
      repeat match goal with H : _ /\ _ |- _ => destruct H end; subst;
      try done; lia.
Qed.

(** The matrix of an initialized planner, cell by cell. *)
Lemma initialized_graph locs st0 :
  let st := initializeWarehouseGraph locs st0 in
  let n := length locs in
  square n (graph st) /\
  forall a b, (a < n)%nat -> (b < n)%nat ->
    entry (graph st) a b =
    Some (if decide (a = b) then Fin 0 else distance_at locs a b).
Proof.
  simpl. set (n := length locs).
  destruct (diagonal_fold n _ n (square_replicate n PInf)) as [Hsq1 He1];
    [done|].
  destruct (pairs_fold n locs _ n Hsq1 eq_refl) as [Hsq2 He2]; [done|].
  split; [done|]. intros a b Ha Hb. rewrite He2, He1.
  rewrite (distance_at_sym locs b a).
  repeat case_decide; try done; lia.
Qed.


Lemma entry_outside n g i j :
  square n g -> (n <= i \/ n <= j)%nat -> entry g i j = None.
Proof.
  intros Hsq H. destruct (entry g i j) as [v|] eqn:E; [|done].
  apply (entry_lt n) in E; [lia|done].
Qed.

Lemma metric_same loc d : metric loc loc = Some d -> d = 0.
Proof.
  unfold metric, aisle_index. destruct (Location.aisle loc); simpl; [done|].
  intros [= <-]. lia.
Qed.

Lemma aisle_index_letter (k : nat) (rest : string) :
  (k < 26)%nat ->
  aisle_index (String (ascii_of_nat (65 + k)) rest) = Some (Z.of_nat k + 1).
Proof.
  intros Hk. unfold aisle_index. rewrite nat_ascii_embedding by lia.
  f_equal. lia.
Qed.

(** C7 as amended. [initializeWarehouseGraph] keeps the location list as
    it is given, without removing duplicates, and builds over its indices
    a square matrix with a zero diagonal that is symmetric and whose entry
    for two locations is what [calculateDistance] computes for them:
    10 x |aisle difference| + 5 x |shelf difference| + 2 x |position
    difference| whenever that is a safe integer (2^53 at most), the aisle
    being the code of its first letter counted from A = 1; the state it
    leaves does not depend on the state before. *)
Theorem initializeWarehouseGraph_metric_matrix
    (locs : list Location.t) (st0 : state) :
  let st := initializeWarehouseGraph locs st0 in
  let n := length locs in
  locations st = locs /\
  length (graph st) = n /\
  Forall (fun row => length row = n) (graph st) /\
  (forall i, (i < n)%nat -> entry (graph st) i i = Some (Fin 0)) /\
  (forall i j, entry (graph st) i j = entry (graph st) j i) /\
  (forall i j loc1 loc2,
     locs !! i = Some loc1 -> locs !! j = Some loc2 -> i <> j ->
     entry (graph st) i j = Some (calculateDistance loc1 loc2)) /\
  (forall i j loc1 loc2 d,
     locs !! i = Some loc1 -> locs !! j = Some loc2 ->
     metric loc1 loc2 = Some d -> d <= 2 ^ 53 ->
     entry (graph st) i j = Some (Fin d)) /\
  (forall k rest, (k < 26)%nat ->
     aisle_index (String (ascii_of_nat (65 + k)) rest)
     = Some (Z.of_nat k + 1)) /\
  (forall st1, initializeWarehouseGraph locs st1 = st).
Proof.
  intros st n.
  destruct (initialized_graph locs st0) as [Hsq He].
  fold st in Hsq, He. fold n in Hsq, He.
  split; [done|]. split; [apply Hsq|]. split; [apply Hsq|].
  split; [|split; [|split; [|split; [|split]]]].
  - intros i Hi. rewrite He by done. by rewrite decide_True.
  - intros i j.
    destruct (decide (i < n)%nat); [|by rewrite !(entry_outside n); try lia].
    destruct (decide (j < n)%nat); [|by rewrite !(entry_outside n); try lia].
    rewrite !He by done. rewrite (distance_at_sym locs j i).
    repeat case_decide; try done; lia.
  - intros i j loc1 loc2 H1 H2 Hij.
    rewrite He by (eapply lookup_lt_Some; eauto).
    rewrite decide_False by done. unfold distance_at. by rewrite H1, H2.
  - intros i j loc1 loc2 d H1 H2 Hm Hd.
    rewrite He by (eapply lookup_lt_Some; eauto). f_equal.
    case_decide as Hij.
    + subst j. assert (loc2 = loc1) as -> by congruence.
      by rewrite (metric_same _ _ Hm).
    + unfold distance_at. rewrite H1, H2. by apply calculateDistance_metric.
  - apply aisle_index_letter.
  - done.
Qed.

Lemma initializeWarehouseGraph_metric_matrix_witness :
  entry (graph (initializeWarehouseGraph [A11; A12; B21] initial)) 1 2
  = Some (Fin 17).
Proof.
  destruct (initializeWarehouseGraph_metric_matrix [A11; A12; B21] initial)
    as (_ & _ & _ & _ & _ & _ & H & _).
  apply (H 1%nat 2%nat A12 B21 17); [done|done|done|].
  by vm_compute.
Defined.

(** Beyond the safe integers the entry is the metric no more: between
    shelf 0 and shelf 2^51 + 1 the metric is 5 x (2^51 + 1), and the
    product that the code stores is the double below it. *)
Lemma initializeWarehouseGraph_rounds_large_lengths :
  let low := {| Location.aisle := "A"; Location.shelf := 0;
                Location.position := 1 |} in
  let high := {| Location.aisle := "A"; Location.shelf := 2251799813685249;
                 Location.position := 1 |} in
  metric low high = Some 11258999068426245 /\
  entry (graph (initializeWarehouseGraph [low; high] initial)) 0 1
  = Some (Fin 11258999068426244).
Proof. by vm_compute. Qed.

(** C7 as stated fails: a location given twice stays twice in the index,
    and the matrix has a row for each copy. *)
Lemma initializeWarehouseGraph_keeps_duplicates :
  let st := initializeWarehouseGraph [A11; A11] initial in
  locations st = [A11; A11] /\
  length (graph st) = 2%nat /\
  ~ NoDup (locations st).
Proof.
  simpl. split; [done|]. split; [done|].
  intros H. apply NoDup_cons in H as [H _]. apply H. by left.
Qed.

End DijkstraFacts.

(** ** Dijkstra: the run always ends *)

Module DijkstraRunFacts.
Import Js DijkstraPathFinder RouteSpec DijkstraInv DijkstraFacts Samples.

(** *** The scan for the minimum *)

Lemma lt_below_Infinity (d m : NumZ.t) :
  NumZ.lt d m = true -> NumZ.lt d PInf = true.
Proof. by destruct d, m. Qed.

Lemma min_scanned_step s seen acc j :
  min_scanned s seen acc -> min_scanned s (seen ++ [j]) (min_step s acc j).
Proof.
  unfold min_scanned, min_step. intros H.
  destruct (visited s !! j) as [[|]|] eqn:Ev;
    destruct (distances s !! j) as [d|] eqn:Ed;
    try (destruct acc as [m [c|]]; simpl in *;
         [ destruct H as (? & ? & ? & ?); repeat split; try done;
           apply in_app_iff; by left
         | destruct H as (-> & H); split; [done|];
           intros j' d' Hj' Hv' Hd';
           apply in_app_iff in Hj' as [Hj'|[<-|[]]]; [by eapply H|congruence] ]).
  destruct (NumZ.lt d acc.1) eqn:El; simpl.
  - repeat split; try done.
    + apply in_app_iff. right. by left.
    + by eapply lt_below_Infinity.
  - destruct acc as [m [c|]]; simpl in *.
    + destruct H as (? & ? & ? & ?). repeat split; try done.
      apply in_app_iff; by left.
    + destruct H as (-> & H). split; [done|].
      intros j' d' Hj' Hv' Hd'.
      apply in_app_iff in Hj' as [Hj'|[<-|[]]]; [by eapply H|congruence].
Qed.

Lemma min_scanned_fold s js : forall seen acc,
  min_scanned s seen acc ->
  min_scanned s (seen ++ js) (fold_left (min_step s) js acc).
Proof.
  induction js as [|j js IH]; intros seen acc H; simpl.
  - by rewrite app_nil_r.
  - replace (seen ++ j :: js) with ((seen ++ [j]) ++ js)
      by by rewrite <- app_assoc.
    apply IH. by apply min_scanned_step.
Qed.

Lemma findMin_Some n s c :
  findMin n s = Some c ->
  (c < n)%nat /\ visited s !! c = Some false /\
  exists d, distances s !! c = Some d /\ NumZ.lt d PInf = true.
Proof.
  unfold findMin. intros H.
  pose proof (min_scanned_fold s (seq 0 n) [] (PInf, None)) as Hs.
  unfold min_scanned in Hs at 2. rewrite H in Hs.
  destruct Hs as (Hin & Hv & Hd & Hl); [simpl; by split|].
  apply in_seq in Hin. split; [lia|]. split; [done|]. eauto.
Qed.

Lemma findMin_None n s j d :
  findMin n s = None -> (j < n)%nat -> visited s !! j = Some false ->
  distances s !! j = Some d -> NumZ.lt d PInf = false.
Proof.
  unfold findMin. intros H Hj Hv Hd.
  pose proof (min_scanned_fold s (seq 0 n) [] (PInf, None)) as Hs.
  unfold min_scanned in Hs at 2. rewrite H in Hs.
  destruct Hs as (_ & Hs); [simpl; by split|].
  eapply Hs; eauto. apply in_seq. lia.
Qed.


(** *** The links of [previous] lead back in the order of the visits *)

Lemma visited_defined n s x :
  well_formed n s -> (x < n)%nat ->
  visited s !! x = Some true \/ visited s !! x = Some false.
Proof.
  intros Hwf Hx. destruct (visited s !! x) as [[|]|] eqn:E; auto.
  apply lookup_ge_None in E. rewrite (wf_visited _ _ Hwf) in E. lia.
Qed.

Lemma visit_well_formed n s c :
  well_formed n s -> visited s !! c = Some false ->
  well_formed n (visit c s).
Proof.
  intros Hwf Hc. destruct (wf_ranked _ _ Hwf) as (rk & Hprev & Hun & Hvis).
  split; simpl; try apply Hwf.
  { rewrite length_insert. apply Hwf. }
  exists (fun x => if decide (x = c) then length (visitedNodes s)
                   else match visited s !! x with
                        | Some true => rk x
                        | _ => S (length (visitedNodes s))
                        end).
  assert (Hcn : (c < n)%nat).
  { apply lookup_lt_Some in Hc. by rewrite (wf_visited _ _ Hwf) in Hc. }
  split; [|split]; simpl.
  - intros x p Hp. destruct (Hprev x p Hp) as [Hpn Hlt]. split; [done|].
    assert (Hxn : (x < n)%nat).
    { apply lookup_lt_Some in Hp. by rewrite (wf_previous _ _ Hwf) in Hp. }
    assert (Hpv : visited s !! p = Some true).
    { destruct (visited_defined n s p Hwf Hpn) as [H|H]; [done|].
      apply Hun in H.
      destruct (visited_defined n s x Hwf Hxn) as [H'|H'].
      - apply Hvis in H'. lia.
      - apply Hun in H'. lia. }
    rewrite (decide_False (P := p = c)) by congruence. rewrite Hpv.
    case_decide; [by apply Hvis|].
    destruct (visited_defined n s x Hwf Hxn) as [H'|H']; rewrite H';
      [done|]. apply Hvis in Hpv. lia.
  - intros x Hx. rewrite length_app. simpl.
    destruct (decide (x = c)) as [->|Hne].
    + rewrite list_lookup_insert_eq in Hx; [done|].
      by rewrite (wf_visited _ _ Hwf).
    + rewrite list_lookup_insert_ne in Hx by done. rewrite Hx. lia.
  - intros x Hx. rewrite length_app. simpl.
    destruct (decide (x = c)) as [->|Hne]; [lia|].
    rewrite list_lookup_insert_ne in Hx by done. rewrite Hx.
    apply Hvis in Hx. lia.
Qed.

Lemma relax_step_well_formed n g c s nb :
  well_formed n s -> visited s !! c = Some true ->
  well_formed n (relax_step g c s nb).
Proof.
  intros Hwf Hc. unfold relax_step.
  destruct (visited s !! nb) as [[|]|] eqn:Ev; try done.
  destruct (g !! c ≫= (.!! nb)) as [edge|]; try done.
  destruct (distances s !! c) as [dc|]; try done.
  destruct (distances s !! nb) as [dn|]; try done.
  destruct (NumZ.isnt_Infinity edge); try done.
  destruct (NumZ.lt (NumZ.add dc edge) dn); try done.
  destruct (wf_ranked _ _ Hwf) as (rk & Hprev & Hun & Hvis).
  split; simpl; try apply Hwf.
  { rewrite length_insert. apply Hwf. }
  { rewrite length_insert. apply Hwf. }
  exists rk. split; [|split]; simpl; [|done|done].
  intros x p Hp. apply list_lookup_insert_Some in Hp as [(<- & Hp & _)|[_ Hp]].
  - injection Hp as <-. split.
    + apply lookup_lt_Some in Hc. by rewrite (wf_visited _ _ Hwf) in Hc.
    + apply Hun in Ev. apply Hvis in Hc. lia.
  - by apply Hprev.
Qed.

Lemma relax_step_visited g c s nb :
  visited (relax_step g c s nb) = visited s /\
  visitedNodes (relax_step g c s nb) = visitedNodes s.
Proof.
  unfold relax_step.
  repeat (match goal with |- context [match ?x with _ => _ end] =>
                            destruct x end; try done).
Qed.

Lemma relax_fold_well_formed n g c nbs : forall s,
  well_formed n s -> visited s !! c = Some true ->
  well_formed n (fold_left (relax_step g c) nbs s) /\
  visited (fold_left (relax_step g c) nbs s) = visited s /\
  visitedNodes (fold_left (relax_step g c) nbs s) = visitedNodes s.
Proof.
  induction nbs as [|nb nbs IH]; intros s Hwf Hc; simpl; [done|].
  destruct (relax_step_visited g c s nb) as [Hv Hl].
  destruct (IH (relax_step g c s nb)) as (Hwf' & Hv' & Hl').
  - by apply relax_step_well_formed.
  - by rewrite Hv.
  - split; [done|]. split; congruence.
Qed.

Lemma main_loop_well_formed g n e iters : forall s,
  well_formed n s -> (length (visitedNodes s) + iters <= n)%nat ->
  well_formed n (main_loop iters g n e s) /\
  (length (visitedNodes (main_loop iters g n e s)) <= n)%nat.
Proof.
  induction iters as [|iters IH]; intros s Hwf Hlen; simpl.
  - split; [done|lia].
  - destruct (findMin n s) as [c|] eqn:Emin; [|split; [done|lia]].
    apply findMin_Some in Emin as (Hcn & Hcv & _).
    pose proof (visit_well_formed n s c Hwf Hcv) as Hwf1.
    assert (Hlen1 : length (visitedNodes (visit c s))
                    = S (length (visitedNodes s))).
    { simpl. rewrite length_app. simpl. lia. }
    destruct (c =? e)%nat; [split; [done|lia]|].
    assert (Hc1 : visited (visit c s) !! c = Some true).
    { simpl. apply list_lookup_insert_eq.
      by rewrite (wf_visited _ _ Hwf). }
    destruct (relax_fold_well_formed n g c (seq 0 n) _ Hwf1 Hc1)
      as (Hwf2 & Hv2 & Hl2).
    apply IH; [done|]. rewrite Hl2, Hlen1. lia.
Qed.

Lemma reconstruct_ends n prev (rk : nat -> nat) :
  length prev = n ->
  (forall x p, prev !! x = Some (Some p) -> (p < n)%nat /\ (rk p < rk x)%nat) ->
  forall fuel current path,
    (current < n)%nat -> (rk current < fuel)%nat ->
    exists p, reconstruct fuel prev current path = Ok p.
Proof.
  intros Hlen Hprev. induction fuel as [|fuel IH]; intros current path Hc Hrk;
    [lia|]. simpl.
  destruct (prev !! current) as [[p|]|] eqn:E.
  - destruct (Hprev _ _ E) as [Hp Hlt]. apply IH; [done|lia].
  - by eexists.
  - apply lookup_ge_None in E. lia.
Qed.

(** The primitive returns for every start and every end inside the
    matrix, whatever the matrix holds. *)
Lemma dijkstra_returns (st : state) (start end_ : nat) :
  (end_ < length (graph st))%nat ->
  exists r, dijkstra st start end_ = Ok r.
Proof.
  intros He. unfold dijkstra. set (n := length (graph st)).
  set (s0 := {| distances := <[start:=Fin 0]> (replicate n PInf);
                previous := replicate n None;
                visited := replicate n false; visitedNodes := [] |}).
  assert (Hwf0 : well_formed n s0).
  { split; simpl; rewrite ?length_insert, ?length_replicate; try done.
    exists (fun _ => 0%nat). split; [|split]; simpl; try done.
    - intros x p Hp. by apply lookup_replicate in Hp as [? _].
    - intros x Hx. by apply lookup_replicate in Hx as [? _]. }
  destruct (main_loop_well_formed (graph st) n end_ n s0 Hwf0) as [Hwf Hlen];
    [simpl; lia|].
  set (s := main_loop n (graph st) n end_ s0) in *.
  destruct (wf_ranked _ _ Hwf) as (rk & Hprev & Hun & Hvis).
  destruct (reconstruct_ends n (previous s) rk (wf_previous _ _ Hwf) Hprev
              (S n) end_ []) as [p Hp]; [done| |].
  { destruct (visited_defined n s end_ Hwf He) as [H|H].
    - apply Hvis in H. lia.
    - apply Hun in H. lia. }
  rewrite Hp. simpl.
  destruct (distances s !! end_) as [d|] eqn:Ed; [by eexists|].
  apply lookup_ge_None in Ed. rewrite (wf_distances _ _ Hwf) in Ed. lia.
Qed.


(** *** The tour over the destinations *)

Lemma findNearest_returns st current (visited_ : gset nat) dests :
  forall nearest distance_ comparisons,
  Forall (fun d => d < length (graph st))%nat dests ->
  exists nearest' distance' comparisons',
    findNearest st current visited_ dests nearest distance_ comparisons
    = Ok (nearest', distance', comparisons') /\
    (nearest' = nearest \/
     exists d, nearest' = Some d /\ In d dests /\ d ∉ visited_).
Proof.
  induction dests as [|d dests IH]; intros nearest distance_ comparisons Hall;
    simpl.
  - eexists _, _, _. split; [done|]. by left.
  - apply Forall_cons in Hall as [Hd Hall].
    destruct (decide (d ∈ visited_)) as [Hin|Hout].
    + destruct (IH nearest distance_ (S comparisons) Hall)
        as (n' & d' & c' & -> & [->|(x & -> & Hx & Hv)]);
        eexists _, _, _; (split; [done|]); [by left|].
      right. exists x. split; [done|]. split; [by right|done].
    + destruct (dijkstra_returns st current d Hd) as [r ->]. simpl.
      destruct (NumZ.lt (distance r) distance_).
      * destruct (IH (Some d) (distance r) (S comparisons) Hall)
          as (n' & d' & c' & -> & [->|(x & -> & Hx & Hv)]);
          eexists _, _, _; (split; [done|]); right.
        -- exists d. split; [done|]. split; [by left|done].
        -- exists x. split; [done|]. split; [by right|done].
      * destruct (IH nearest distance_ (S comparisons) Hall)
          as (n' & d' & c' & -> & [->|(x & -> & Hx & Hv)]);
          eexists _, _, _; (split; [done|]); [by left|].
        right. exists x. split; [done|]. split; [by right|done].
Qed.

(** The [while] loop ends within its budget. *)
Lemma visitAll_returns st dests fuel : forall t,
  Forall (fun d => d < length (graph st))%nat dests ->
  (length dests + 1 <= fuel + size (t_visited t))%nat ->
  exists t', visitAll fuel st dests t = Ok t'.
Proof.
  induction fuel as [|fuel IH]; intros t Hall Hfuel; simpl.
  - destruct (Nat.leb_spec (size (t_visited t)) (length dests));
      [lia|by eexists].
  - destruct (Nat.leb_spec (size (t_visited t)) (length dests));
      [|by eexists].
    destruct (findNearest_returns st (t_currentLocation t) (t_visited t) dests
                None PInf (t_comparisons t) Hall)
      as (n' & d' & c' & -> & Hn). simpl.
    destruct Hn as [->|(x & -> & Hx & Hv)]; [by eexists|].
    rewrite Forall_forall in Hall.
    destruct (dijkstra_returns st (t_currentLocation t) x) as [r ->].
    { by apply Hall, list_elem_of_In. }
    simpl. apply IH; [by apply Forall_forall|]. simpl.
    rewrite size_union by set_solver. rewrite size_singleton. lia.
Qed.

(** *** Looking a location up *)

Lemma findIndex_Some {A} (p : A -> bool) (l : list A) (i : nat) :
  findIndex p l = Some i -> exists x, l !! i = Some x /\ p x = true.
Proof.
  revert i. induction l as [|y l IH]; intros i; simpl; [done|].
  destruct (p y) eqn:E.
  - intros [= <-]. by exists y.
  - destruct (findIndex p l) as [k|]; [|done]. simpl. intros [= <-].
    by apply IH.
Qed.

Lemma findIndex_None {A} (p : A -> bool) (l : list A) :
  findIndex p l = None <-> forall x, In x l -> p x = false.
Proof.
  induction l as [|y l IH]; simpl; [by split|].
  destruct (p y) eqn:E.
  - split; [done|]. intros H. rewrite (H y) in E; [done|by left].
  - destruct (findIndex p l) as [k|] eqn:Ek; simpl.
    + split; [done|]. intros H.
      assert (Some k = @None nat); [|done].
      apply IH. intros x Hx. apply H. by right.
    + split; [|done]. intros _ x [<-|Hx]; [done|]. by apply IH.
Qed.

Lemma same_location (loc location : Location.t) :
  String.eqb (Location.aisle loc) (Location.aisle location)
  && (Location.shelf loc =? Location.shelf location)
  && (Location.position loc =? Location.position location) = true
  <-> loc = location.
Proof.
  rewrite !andb_true_iff, String.eqb_eq, !Z.eqb_eq.
  destruct loc, location; simpl. split.
  - by intros [[-> ->] ->].
  - by intros [= -> -> ->].
Qed.

Lemma findLocationIndex_known st location :
  In location (locations st) ->
  exists i, findLocationIndex st location = Some i /\
            (i < length (locations st))%nat.
Proof.
  intros Hin. unfold findLocationIndex.
  destruct (findIndex _ (locations st)) as [i|] eqn:E.
  - exists i. split; [done|].
    apply findIndex_Some in E as (x & Hx & _). by eapply lookup_lt_Some.
  - rewrite findIndex_None in E. specialize (E location Hin).
    assert (location = location) as H by done.
    apply same_location in H. congruence.
Qed.

Lemma findLocationIndex_unknown st location :
  ~ In location (locations st) -> findLocationIndex st location = None.
Proof.
  intros Hout. unfold findLocationIndex. apply findIndex_None.
  intros x Hx. apply not_true_iff_false. intros H.
  apply same_location in H. by subst.
Qed.


Lemma initialized_length locs st0 :
  length (graph (initializeWarehouseGraph locs st0)) = length locs.
Proof. by destruct (initialized_graph locs st0) as [[? _] _]. Qed.

Lemma destIndices_known st dests :
  (forall d, In d dests -> In d (locations st)) ->
  exists indices,
    mapM (fun index => index) (map (findLocationIndex st) dests)
    = Some indices /\
    Forall (fun i => i < length (locations st))%nat indices.
Proof.
  induction dests as [|d dests IH]; intros H.
  - exists []. by split.
  - destruct IH as (indices & Hm & Hall); [intros; apply H; by right|].
    destruct (findLocationIndex_known st d) as (i & Hi & Hlt);
      [apply H; by left|].
    exists (i :: indices). split; [|by constructor].
    apply mapM_Some_2. rewrite map_cons.
    constructor; [done|]. by apply mapM_Some_1.
Qed.

Lemma destIndices_unknown st dests d :
  In d dests -> ~ In d (locations st) ->
  mapM (fun index => index) (map (findLocationIndex st) dests) = None.
Proof.
  intros Hin Hout. apply mapM_None_2, Exists_exists.
  exists None. split; [|done].
  apply list_elem_of_In, in_map_iff. exists d. split; [|done].
  by apply findLocationIndex_unknown.
Qed.

Lemma findOptimalPickingPath_no_destinations
    (locs : list Location.t) (st0 : state) (startLocation : Location.t) :
  In startLocation locs ->
  let st := initializeWarehouseGraph locs st0 in
  exists i r,
    locs !! i = Some startLocation /\
    (findOptimalPickingPath startLocation [] st).1 = Ok r /\
    r_path r = [i] /\ totalDistance r = Fin 0 /\ r_visitedNodes r = [i].
Proof.
  intros Hin st. unfold findOptimalPickingPath.
  destruct (findLocationIndex st startLocation) as [i|] eqn:Ei.
  2: { destruct (findLocationIndex_known st startLocation Hin) as (j & Hj & _).
       congruence. }
  exists i. cbn [map mapM visitAll t_visited length].
  rewrite size_singleton. cbn. eexists.
  split; [|split; [reflexivity|by repeat split]].
  unfold findLocationIndex in Ei.
  apply findIndex_Some in Ei as (x & Hx & Hp).
  apply same_location in Hp. by subst.
Qed.

(** C8. On an initialized planner, [findOptimalPickingPath] throws its
    error exactly when the start or one of the destinations is not a
    location of the graph (equal in aisle, shelf and position to one of
    them); otherwise it returns a result. In both cases it leaves the
    state of the planner as it found it. *)
Theorem findOptimalPickingPath_throws_iff_unknown
    (locs : list Location.t) (st0 : state)
    (startLocation : Location.t) (destinationLocations : list Location.t) :
  let st := initializeWarehouseGraph locs st0 in
  let out := findOptimalPickingPath startLocation destinationLocations st in
  let known :=
    In startLocation locs /\
    forall d, In d destinationLocations -> In d locs in
  (out.1 = Throw (Error "Invalid location specified") <-> ~ known) /\
  (known -> exists r, out.1 = Ok r) /\
  out.2 = st.
Proof.
  intros st out known.
  assert (Hstate : out.2 = st).
  { unfold out, findOptimalPickingPath.
    destruct (findLocationIndex st startLocation); [|done].
    by destruct (mapM _ _). }
  assert (Hknown : known -> exists r, out.1 = Ok r).
  { intros [Hs Hd]. unfold out, findOptimalPickingPath.
    destruct (findLocationIndex_known st startLocation Hs) as (s & -> & Hlt).
    destruct (destIndices_known st destinationLocations Hd)
      as (indices & -> & Hall). cbn [fst].
    destruct (visitAll_returns st indices (S (length indices))
                {| t_path := [s]; t_visited := {[s]}; t_visitedNodes := [s];
                   t_totalDistance := Fin 0; t_currentLocation := s;
                   t_comparisons := 0 |}) as [t' Ht'].
    - unfold st at 1. rewrite initialized_length. exact Hall.
    - cbn [t_visited]. rewrite size_singleton. lia.
    - rewrite Ht'. simpl. by eexists. }
  assert (Hunknown :
            ~ known -> out.1 = Throw (Error "Invalid location specified")).
  { intros Hnot. unfold out, findOptimalPickingPath.
    destruct (decide (startLocation ∈ locs)) as [Hs|Hs].
    - destruct (decide (Forall (fun d => d ∈ locs) destinationLocations))
        as [Hd|Hd].
      + destruct Hnot. split; [by apply list_elem_of_In|].
        intros d Hin. rewrite Forall_forall in Hd.
        by apply list_elem_of_In, Hd, list_elem_of_In.
      + apply not_Forall_Exists in Hd; [|intros x; apply _].
        apply Exists_exists in Hd as (d & Hin & Hout).
        rewrite (destIndices_unknown st destinationLocations d).
        * by destruct (findLocationIndex st startLocation).
        * by apply list_elem_of_In.
        * intros H. by apply Hout, list_elem_of_In.
    - rewrite findLocationIndex_unknown; [done|].
      intros H. by apply Hs, list_elem_of_In. }
  split; [|by split]. split; [|done].
  intros Hthrow Hk. destruct (Hknown Hk) as [r Hr]. congruence.
Qed.

Lemma findOptimalPickingPath_throws_iff_unknown_witness :
  (findOptimalPickingPath A11 [B21; A12]
     (initializeWarehouseGraph [A11; A12; B21] initial)).1
  = Ok {| r_path := [0; 1; 2]%nat; totalDistance := Fin 19;
          r_visitedNodes := [0; 0; 1; 1; 0; 2]%nat;
          performance :=
            {| AlgorithmPerformance.algorithm := "Dijkstra's Algorithm";
               AlgorithmPerformance.operation := "Shortest Path Finding";
               AlgorithmPerformance.dataSize := 3;
               AlgorithmPerformance.comparisons := Some 4%nat;
               AlgorithmPerformance.swaps := None |} |}.
Proof.
  destruct (findOptimalPickingPath_throws_iff_unknown [A11; A12; B21] initial
              A11 [B21; A12]) as (_ & H & _).
  destruct H as [r Hr].
  - split; [by left|]. intros d [<-|[<-|[]]]; simpl; tauto.
  - reflexivity.
Defined.

End DijkstraRunFacts.

(** ** Dijkstra on a matrix of lengths *)

Module DijkstraSearchFacts.
Import Js DijkstraPathFinder RouteSpec DijkstraInv NumInv ListFacts
  DijkstraFacts DijkstraRunFacts Samples.

(** *** Lengths and distances *)

Lemma distance_length (a : NumZ.t) : distance_value a -> length_value a.
Proof. intros [->|(z & -> & Hz & _)]; [by left|right; by exists z]. Qed.

Lemma of_Z_distance (z : Z) : 0 <= z -> distance_value (NumZ.of_Z z).
Proof.
  intros Hz. pose proof (NumZFacts.nearest_sign z Hz) as Hr.
  assert (H : 0 < 2 ^ 1024) by (apply Z.pow_pos_nonneg; lia).
  destruct (NumZFacts.of_Z_cases z) as [[-> _]|[[_ Hc]|[-> _]]];
    [by left|lia|].
  right. eexists. split; [done|]. split; [done|].
  apply NumZFacts.nearest_double.
Qed.

Lemma add_distance (a w : NumZ.t) :
  distance_value a -> length_value w -> distance_value (NumZ.add a w).
Proof.
  intros [->|(x & -> & Hx & _)] [->|(z & -> & Hz)]; cbn [NumZ.add];
    try by left.
  apply of_Z_distance. lia.
Qed.

(** Going on makes a walk no shorter. *)
Lemma add_extensive (a w : NumZ.t) :
  distance_value a -> length_value w -> NumZ.lt (NumZ.add a w) a = false.
Proof.
  intros [->|(x & -> & Hx & Hd)] [->|(z & -> & Hz)]; cbn [NumZ.add];
    try done.
  pose proof (NumZFacts.nearest_add_ge x z Hd Hz) as Hge.
  assert (H : 0 < 2 ^ 1024) by (apply Z.pow_pos_nonneg; lia).
  destruct (NumZFacts.of_Z_cases (x + z)) as [[-> _]|[[_ Hc]|[-> _]]];
    [done|lia|].
  simpl. apply Z.ltb_ge. done.
Qed.

Lemma lt_Infinity_l (c : NumZ.t) : NumZ.lt PInf c = false.
Proof. by destruct c. Qed.

(** A shorter way to a node gives a way no longer through it. *)
Lemma add_mono (a b w : NumZ.t) :
  distance_value a -> distance_value b -> length_value w ->
  NumZ.lt b a = false ->
  NumZ.lt (NumZ.add b w) (NumZ.add a w) = false.
Proof.
  intros [->|(x & -> & Hx & _)] [->|(y & -> & Hy & _)] [->|(z & -> & Hz)]
    Hxy; cbn [NumZ.add]; try apply lt_Infinity_l; try done.
  cbn [NumZ.lt] in Hxy. apply Z.ltb_ge in Hxy.
  pose proof (NumZFacts.nearest_mono (x + z) (y + z) ltac:(lia)) as Hm.
  pose proof (NumZFacts.nearest_sign (x + z) ltac:(lia)) as Hs.
  assert (H : 0 < 2 ^ 1024) by (apply Z.pow_pos_nonneg; lia).
  destruct (NumZFacts.of_Z_cases (x + z)) as [[-> Ha]|[[_ Ha]|[-> Ha]]];
    destruct (NumZFacts.of_Z_cases (y + z)) as [[-> Hb]|[[_ Hb]|[-> Hb]]];
    try done; try lia.
  simpl. apply Z.ltb_ge. done.
Qed.

Lemma le_trans (a b c : NumZ.t) :
  distance_value a -> distance_value b -> distance_value c ->
  NumZ.lt b a = false -> NumZ.lt c b = false -> NumZ.lt c a = false.
Proof.
  intros [->|(x & -> & _)] [->|(y & -> & _)] [->|(z & -> & _)]; simpl;
    try done.
  rewrite !Z.ltb_ge. lia.
Qed.

Lemma lt_le_trans (a b c : NumZ.t) :
  distance_value a -> distance_value b -> distance_value c ->
  NumZ.lt a b = true -> NumZ.lt c b = false -> NumZ.lt c a = false.
Proof.
  intros [->|(x & -> & _)] [->|(y & -> & _)] [->|(z & -> & _)]; simpl;
    try done.
  rewrite Z.ltb_lt, !Z.ltb_ge. lia.
Qed.

Lemma le_refl (a : NumZ.t) : distance_value a -> NumZ.lt a a = false.
Proof. intros [->|(x & -> & _)]; simpl; [done|]. apply Z.ltb_irrefl. Qed.

Lemma finite_lt (a : NumZ.t) :
  distance_value a -> NumZ.lt a PInf = true -> exists z, a = Fin z.
Proof. intros [->|(z & -> & _)]; [done|]. by exists z. Qed.

Lemma infinite_le (a : NumZ.t) :
  distance_value a -> NumZ.lt a PInf = false -> a = PInf.
Proof. by intros [->|(z & -> & _)]. Qed.

(** *** The scan finds a nearest unvisited node *)

Lemma min_step_least (s : search) (seen : list nat) (acc : NumZ.t * option nat)
    (j : nat) :
  (forall v d, distances s !! v = Some d -> distance_value d) ->
  distance_value acc.1 ->
  (forall j' dj, In j' seen -> visited s !! j' = Some false ->
     distances s !! j' = Some dj -> NumZ.lt dj acc.1 = false) ->
  distance_value (min_step s acc j).1 /\
  (forall j' dj, In j' (seen ++ [j]) -> visited s !! j' = Some false ->
     distances s !! j' = Some dj -> NumZ.lt dj (min_step s acc j).1 = false).
Proof.
  intros Hval Hacc Hseen. unfold min_step.
  destruct (visited s !! j) as [[|]|] eqn:Ev;
    destruct (distances s !! j) as [d|] eqn:Ed;
    try (split; [done|]; intros j' dj Hin Hv Hd;
         apply in_app_iff in Hin as [Hin|[<-|[]]];
         [by eapply Hseen|congruence]).
  pose proof (Hval _ _ Ed) as Hd.
  destruct (NumZ.lt d acc.1) eqn:El; simpl.
  - split; [done|]. intros j' dj Hin Hv Hdj.
    apply in_app_iff in Hin as [Hin|[<-|[]]].
    + eapply (lt_le_trans d acc.1 dj); eauto.
    + assert (dj = d) as -> by congruence. by apply le_refl.
  - split; [done|]. intros j' dj Hin Hv Hdj.
    apply in_app_iff in Hin as [Hin|[<-|[]]]; [by eapply Hseen|].
    congruence.
Qed.

Lemma min_fold_least (s : search) (js : list nat) :
  (forall v d, distances s !! v = Some d -> distance_value d) ->
  forall seen acc,
  distance_value acc.1 ->
  (forall j' dj, In j' seen -> visited s !! j' = Some false ->
     distances s !! j' = Some dj -> NumZ.lt dj acc.1 = false) ->
  forall j' dj, In j' (seen ++ js) -> visited s !! j' = Some false ->
    distances s !! j' = Some dj ->
    NumZ.lt dj (fold_left (min_step s) js acc).1 = false.
Proof.
  intros Hval. induction js as [|j js IH]; intros seen acc Hacc Hseen; simpl.
  - rewrite app_nil_r. exact Hseen.
  - destruct (min_step_least s seen acc j Hval Hacc Hseen) as [Hacc' Hseen'].
    intros j' dj Hin. apply (IH (seen ++ [j])); try done.
    by rewrite <- app_assoc.
Qed.

(** The node that the scan finds is unvisited, has a distance, and no
    unvisited node has a smaller one. *)
Lemma findMin_least (n : nat) (s : search) (c : nat) :
  (forall v d, distances s !! v = Some d -> distance_value d) ->
  findMin n s = Some c ->
  forall j dj dc, (j < n)%nat -> visited s !! j = Some false ->
    distances s !! j = Some dj -> distances s !! c = Some dc ->
    NumZ.lt dj dc = false.
Proof.
  intros Hval Hmin j dj dc Hj Hv Hdj Hdc.
  pose proof (min_fold_least s (seq 0 n) Hval [] (PInf, None)) as Hleast.
  pose proof (min_scanned_fold s (seq 0 n) [] (PInf, None)) as Hs.
  unfold findMin in Hmin. unfold min_scanned in Hs at 2.
  rewrite Hmin in Hs. destruct Hs as (_ & _ & Hacc & _); [simpl; by split|].
  assert (dc = (fold_left (min_step s) (seq 0 n) (PInf, None)).1) as ->
    by congruence.
  apply (Hleast ltac:(by left) ltac:(by intros ? ? []) j); try done.
  apply in_seq. lia.
Qed.

(** *** The invariant of the main loop *)

Section Search.
Variables (n : nat) (g : list (list NumZ.t)) (start : nat).
Hypothesis g_lengths : lengths n g.
Hypothesis start_inside : (start < n)%nat.

Local Abbreviation searching := (DijkstraInv.searching g start).
Local Abbreviation relaxed := (DijkstraInv.relaxed g).

Lemma entry_length i j w :
  entry g i j = Some w -> length_value w /\ (i < n)%nat /\ (j < n)%nat.
Proof.
  intros H. destruct g_lengths as [Hsq Hl]. split; [by eapply Hl|].
  by eapply entry_lt.
Qed.

Lemma searching_start :
  searching (s0 n start) /\ relaxed (s0 n start) None 0.
Proof.
  split; [split|]; unfold s0; simpl.
  - split.
    + apply list_lookup_insert_eq. by rewrite length_replicate.
    + by apply lookup_replicate_2.
  - intros v d Hd. destruct (decide (v = start)) as [->|Hne].
    + rewrite list_lookup_insert_eq in Hd by by rewrite length_replicate.
      injection Hd as <-. right. exists 0. split_and!; done.
    + rewrite list_lookup_insert_ne in Hd by done.
      apply lookup_replicate in Hd as [-> _]. by left.
  - intros u du Hu. by apply lookup_replicate in Hu as [? _].
  - intros v u Hp. by apply lookup_replicate in Hp as [? _].
  - intros v Hp. apply lookup_replicate in Hp as [_ Hv].
    destruct (decide (v = start)) as [->|Hne]; [by left|right].
    rewrite list_lookup_insert_ne by done. by apply lookup_replicate_2.
  - intros u v du dv Hu. by apply lookup_replicate in Hu as [? _].
  - intros u v du dv w Hu. by apply lookup_replicate in Hu as [? _].
Qed.

Lemma visit_searching (s : search) (c : nat) :
  well_formed n s ->
  searching s -> relaxed s None 0 -> findMin n s = Some c ->
  searching (visit c s) /\ relaxed (visit c s) (Some c) 0 /\
  farthest (visit c s) c /\ visited (visit c s) !! c = Some true.
Proof.
  intros Hwf Hs Hr Hmin.
  pose proof (findMin_least n s c (sr_values _ _ _ Hs) Hmin) as Hleast.
  apply findMin_Some in Hmin as (Hcn & Hcv & dc & Hdc & Hfin).
  assert (Hold : forall u, u <> c -> visited (visit c s) !! u = visited s !! u).
  { intros u Hu. simpl. by rewrite list_lookup_insert_ne. }
  assert (Hnew : visited (visit c s) !! c = Some true).
  { simpl. apply list_lookup_insert_eq. by eapply lookup_lt_Some. }
  split; [split|split; [|split]]; simpl.
  - apply Hs.
  - apply Hs.
  - intros u du Hu Hdu. destruct (decide (u = c)) as [->|Hne].
    + by assert (du = dc) as -> by congruence.
    + rewrite list_lookup_insert_ne in Hu by done. by eapply (sr_visited _ _ _ Hs).
  - intros v u Hp. destruct (sr_tree _ _ _ Hs v u Hp) as [Hu H].
    split; [|done]. destruct (decide (u = c)) as [->|Hne].
    + apply list_lookup_insert_eq. by eapply lookup_lt_Some.
    + by rewrite list_lookup_insert_ne.
  - apply Hs.
  - intros u v du dv Hu Hv Hdu Hdv.
    assert (Hvc : v <> c).
    { intros ->. rewrite list_lookup_insert_eq in Hv; [done|].
      by eapply lookup_lt_Some. }
    rewrite list_lookup_insert_ne in Hv by done.
    destruct (decide (u = c)) as [->|Hne].
    + assert (du = dc) as -> by congruence.
      apply (Hleast v dv dc); try done. apply lookup_lt_Some in Hv.
      by rewrite (wf_visited _ _ Hwf) in Hv.
    + rewrite list_lookup_insert_ne in Hu by done.
      by eapply (sr_order _ _ _ Hs).
  - intros u v du dv w Hu Hc Hdu Hdv He.
    destruct (decide (u = c)) as [->|Hne]; [specialize (Hc eq_refl); lia|].
    rewrite Hold in Hu by done. by eapply Hr.
  - intros u du dc' Hu Hdu Hdc'. simpl in Hdu, Hdc'.
    assert (dc' = dc) as -> by congruence.
    destruct (decide (u = c)) as [->|Hne].
    + assert (du = dc) as -> by congruence.
      apply le_refl. by eapply (sr_values _ _ _ Hs).
    + rewrite Hold in Hu by done.
      by eapply (sr_order _ _ _ Hs).
  - exact Hnew.
Qed.

Lemma relaxed_next (s : search) (c k : nat) :
  well_formed n s -> searching s -> relaxed s (Some c) k -> farthest s c ->
  (forall dc dk w, visited s !! k = Some false ->
     distances s !! c = Some dc -> distances s !! k = Some dk ->
     entry g c k = Some w -> NumZ.lt (NumZ.add dc w) dk = false) ->
  relaxed s (Some c) (S k).
Proof.
  intros Hwf Hs Hr Hf Hk u v du dv w Hu Hv Hdu Hdv He.
  pose proof (sr_values _ _ _ Hs) as Hval.
  destruct (decide (u = c /\ v = k)) as [[-> ->]|Hne].
  - destruct (visited s !! k) as [[|]|] eqn:Ek.
    + apply (le_trans dv du); eauto.
      * apply add_distance; eauto. by eapply entry_length.
      * apply add_extensive; eauto. by eapply entry_length.
    + by apply Hk.
    + apply lookup_ge_None in Ek. apply lookup_lt_Some in Hdv.
      rewrite (wf_visited _ _ Hwf) in Ek.
      rewrite (wf_distances _ _ Hwf) in Hdv. lia.
  - apply (Hr u v du dv w); try done. intros Hc.
    specialize (Hv Hc). injection Hc as ->.
    destruct (decide (v = k)) as [->|]; [tauto|lia].
Qed.

Lemma relax_step_searching (s : search) (c k : nat) :
  well_formed n s -> searching s -> relaxed s (Some c) k -> farthest s c ->
  visited s !! c = Some true ->
  searching (relax_step g c s k) /\
  relaxed (relax_step g c s k) (Some c) (S k) /\
  farthest (relax_step g c s k) c.
Proof.
  intros Hwf Hs Hr Hf Hc.
  pose proof (sr_values _ _ _ Hs) as Hval.
  assert (Keep : (forall dc dk w, visited s !! k = Some false ->
     distances s !! c = Some dc -> distances s !! k = Some dk ->
     entry g c k = Some w -> NumZ.lt (NumZ.add dc w) dk = false) ->
     searching s /\ relaxed s (Some c) (S k) /\ farthest s c).
  { intros H. split_and!; try done. by apply relaxed_next. }
  unfold relax_step. change (g !! c ≫= (.!! k)) with (entry g c k).
  destruct (visited s !! k) as [[|]|] eqn:Ek;
    try (apply Keep; intros; congruence).
  destruct (entry g c k) as [edge|] eqn:Ee;
    [|apply Keep; intros; congruence].
  destruct (distances s !! c) as [dc|] eqn:Edc;
    [|apply Keep; intros; congruence].
  destruct (distances s !! k) as [dn|] eqn:Edn;
    [|apply Keep; intros; congruence].
  destruct (entry_length _ _ _ Ee) as (Hedge & Hcn & Hkn).
  pose proof (Hval _ _ Edc) as Hdc. pose proof (Hval _ _ Edn) as Hdn.
  destruct (NumZ.isnt_Infinity edge) eqn:Ei.
  2: { apply Keep. intros dc' dk w _ Hc' Hk' Hw.
       assert (dc' = dc) as -> by congruence.
       assert (w = edge) as -> by congruence.
       destruct Hedge as [->|(z & -> & _)]; [|done].
       destruct Hdc as [->|(x & -> & _)]; simpl; apply lt_Infinity_l. }
  destruct (NumZ.lt (NumZ.add dc edge) dn) eqn:El.
  2: { apply Keep. intros dc' dk w _ Hc' Hk' Hw.
       assert (dc' = dc) as -> by congruence.
       assert (w = edge) as -> by congruence.
       by assert (dk = dn) as -> by congruence. }
  destruct Hedge as [->|(w & -> & Hw)]; [done|].
  assert (Hnd : distance_value (NumZ.add dc (Fin w))).
  { apply add_distance; [done|]. right. by exists w. }
  assert (Hck : k <> c) by (intros ->; congruence).
  assert (Hks : k <> start).
  { intros ->. destruct (sr_start _ _ _ Hs) as [H0 _].
    assert (dn = Fin 0) as -> by congruence.
    destruct Hnd as [E|(x & E & Hx & _)]; rewrite E in El; simpl in El;
      [done|]. apply Z.ltb_lt in El. lia. }
  assert (Hext : NumZ.lt (NumZ.add dc (Fin w)) dc = false).
  { apply add_extensive; [done|]. right. by exists w. }
  split; [split|split]; simpl.
  - rewrite !list_lookup_insert_ne by done. apply Hs.
  - intros v d Hd. destruct (decide (v = k)) as [->|Hne].
    + rewrite list_lookup_insert_eq in Hd by by eapply lookup_lt_Some.
      by injection Hd as <-.
    + rewrite list_lookup_insert_ne in Hd by done. by eapply Hval.
  - intros u du Hu Hdu.
    assert (u <> k) by (intros ->; congruence).
    rewrite list_lookup_insert_ne in Hdu by done.
    by eapply (sr_visited _ _ _ Hs).
  - intros v u Hp. destruct (decide (v = k)) as [->|Hne].
    + rewrite list_lookup_insert_eq in Hp.
      2: { rewrite (wf_previous _ _ Hwf). done. }
      injection Hp as <-. split; [done|]. exists dc, w.
      rewrite list_lookup_insert_ne by done.
      rewrite list_lookup_insert_eq by by eapply lookup_lt_Some.
      split_and!; try done. by eapply lt_below_Infinity.
    + rewrite list_lookup_insert_ne in Hp by done.
      destruct (sr_tree _ _ _ Hs v u Hp) as [Hu (du & w' & H1 & H2 & H3 & H4)].
      split; [done|]. exists du, w'.
      assert (u <> k) by (intros ->; congruence).
      rewrite !list_lookup_insert_ne by done. done.
  - intros v Hp. destruct (decide (v = k)) as [->|Hne].
    + rewrite list_lookup_insert_eq in Hp; [done|].
      by rewrite (wf_previous _ _ Hwf).
    + rewrite list_lookup_insert_ne in Hp by done.
      rewrite list_lookup_insert_ne by done. by apply (sr_root _ _ _ Hs).
  - intros u v du dv Hu Hv Hdu Hdv.
    assert (u <> k) by (intros ->; congruence).
    rewrite list_lookup_insert_ne in Hdu by done.
    destruct (decide (v = k)) as [->|Hne].
    + rewrite list_lookup_insert_eq in Hdv by by eapply lookup_lt_Some.
      injection Hdv as <-.
      apply (le_trans du dc); eauto.
    + rewrite list_lookup_insert_ne in Hdv by done.
      by eapply (sr_order _ _ _ Hs).
  - intros u v du dv w' Hu Hv Hdu Hdv He. simpl in *.
    assert (u <> k) by (intros ->; congruence).
    rewrite list_lookup_insert_ne in Hdu by done.
    destruct (decide (v = k)) as [->|Hne].
    + rewrite list_lookup_insert_eq in Hdv by by eapply lookup_lt_Some.
      injection Hdv as <-.
      destruct (decide (u = c)) as [->|Huc].
      * assert (du = dc) as -> by congruence.
        assert (w' = Fin w) as -> by congruence. by apply le_refl.
      * assert (Hold : NumZ.lt (NumZ.add du w') dn = false).
        { apply (Hr u k du dn w'); try done. by intros [= ->]. }
        apply (lt_le_trans _ dn); try done.
        apply add_distance; eauto. by eapply entry_length.
    + rewrite list_lookup_insert_ne in Hdv by done.
      apply (Hr u v du dv w'); try done. intros Hcu.
      specialize (Hv Hcu). lia.
  - intros u du dc' Hu Hdu Hdc'. simpl in *.
    assert (u <> k) by (intros ->; congruence).
    rewrite list_lookup_insert_ne in Hdu, Hdc' by done.
    by eapply Hf.
Qed.

Lemma relax_fold_searching (c : nat) : forall m k s,
  well_formed n s -> searching s -> relaxed s (Some c) k -> farthest s c ->
  visited s !! c = Some true ->
  searching (fold_left (relax_step g c) (seq k m) s) /\
  relaxed (fold_left (relax_step g c) (seq k m) s) (Some c) (k + m).
Proof.
  induction m as [|m IH]; intros k s Hwf Hs Hr Hf Hc; simpl.
  - by rewrite Nat.add_0_r.
  - destruct (relax_step_searching s c k Hwf Hs Hr Hf Hc) as (Hs' & Hr' & Hf').
    destruct (relax_step_visited g c s k) as [Hv _].
    replace (k + S m)%nat with (S k + m)%nat by lia.
    apply IH; try done.
    + by apply relax_step_well_formed.
    + by rewrite Hv.
Qed.

Lemma relaxed_all (s : search) (c : nat) :
  well_formed n s -> relaxed s (Some c) n -> relaxed s None 0.
Proof.
  intros Hwf Hr u v du dv w Hu _ Hdu Hdv He.
  apply (Hr u v du dv w); try done. intros _.
  apply lookup_lt_Some in Hdv. by rewrite (wf_distances _ _ Hwf) in Hdv.
Qed.

Lemma unvisited_pos (s : search) (e : nat) :
  visited s !! e = Some false -> (0 < unvisited s)%nat.
Proof.
  unfold unvisited. generalize (visited s) as l.
  intros l. revert e. induction l as [|b l IH]; intros [|e] H; simpl in *;
    try done.
  - injection H as ->. simpl. lia.
  - specialize (IH e H). destruct (negb b); simpl; lia.
Qed.

Lemma unvisited_visit (s : search) (c : nat) :
  visited s !! c = Some false ->
  S (unvisited (visit c s)) = unvisited s.
Proof.
  unfold unvisited. simpl. generalize (visited s) as l.
  intros l. revert c. induction l as [|b l IH]; intros [|c] H; simpl in *;
    try done.
  - by injection H as ->.
  - specialize (IH c H). destruct (negb b); simpl; lia.
Qed.

(** The loop ends at a state whose arrays are those of a state of the
    search in which [end_] is a nearest unvisited node. *)
Lemma main_loop_searching (end_ : nat) (iters : nat) : forall s,
  well_formed n s -> searching s -> relaxed s None 0 ->
  visited s !! end_ = Some false -> (unvisited s <= iters)%nat ->
  exists sh,
    well_formed n sh /\ searching sh /\ relaxed sh None 0 /\
    visited sh !! end_ = Some false /\
    distances (main_loop iters g n end_ s) = distances sh /\
    previous (main_loop iters g n end_ s) = previous sh /\
    forall v dv de, visited sh !! v = Some false ->
      distances sh !! v = Some dv -> distances sh !! end_ = Some de ->
      NumZ.lt dv de = false.
Proof.
  induction iters as [|iters IH]; intros s Hwf Hs Hr He Hn.
  - apply unvisited_pos in He. lia.
  - simpl. destruct (findMin n s) as [c|] eqn:Emin.
    + destruct (visit_searching s c Hwf Hs Hr Emin) as (Hs1 & Hr1 & Hf1 & Hc1).
      pose proof (findMin_least n s c (sr_values _ _ _ Hs) Emin) as Hleast.
      apply findMin_Some in Emin as (Hcn & Hcv & dc & Hdc & Hfin).
      pose proof (visit_well_formed n s c Hwf Hcv) as Hwf1.
      destruct (Nat.eqb_spec c end_) as [->|Hne].
      * exists s. split_and!; try done. intros v dv de Hv Hdv Hde.
        apply (Hleast v dv de); try done.
        apply lookup_lt_Some in Hv. by rewrite (wf_visited _ _ Hwf) in Hv.
      * destruct (relax_fold_well_formed n g c (seq 0 n) _ Hwf1 Hc1)
          as (Hwf2 & Hv2 & _).
        destruct (relax_fold_searching c n 0 _ Hwf1 Hs1 Hr1 Hf1 Hc1)
          as (Hs2 & Hr2).
        apply IH; try done.
        -- by eapply relaxed_all.
        -- rewrite Hv2. simpl. by rewrite list_lookup_insert_ne.
        -- pose proof (unvisited_visit s c Hcv) as Hlt.
           unfold unvisited in *. rewrite Hv2. lia.
    + exists s. split_and!; try done. intros v dv de Hv Hdv Hde.
      assert (Hvn : (v < n)%nat).
      { apply lookup_lt_Some in Hv. by rewrite (wf_visited _ _ Hwf) in Hv. }
      pose proof (findMin_None n s v dv Emin Hvn Hv Hdv) as Hinf.
      apply infinite_le in Hinf as ->; [|by eapply (sr_values _ _ _ Hs)].
      apply lt_Infinity_l.
Qed.

(** *** No walk is shorter than the distance found *)

Lemma cost_from_grows : forall rest acc x,
  distance_value acc ->
  cost_from g acc x rest = NaN \/
  (distance_value (cost_from g acc x rest) /\
   NumZ.lt (cost_from g acc x rest) acc = false).
Proof.
  induction rest as [|y rest IH]; intros acc x Hacc; simpl.
  - right. split; [done|]. by apply le_refl.
  - destruct (entry g x y) as [w|] eqn:Ee; [|by left].
    destruct (entry_length _ _ _ Ee) as (Hw & _).
    destruct (IH (NumZ.add acc w) y) as [H|[Hv Hle]]; [by apply add_distance|by left|].
    right. split; [done|].
    apply (le_trans acc (NumZ.add acc w)); try done.
    + by apply add_distance.
    + by apply add_extensive.
Qed.

Lemma lt_NaN (d : NumZ.t) : NumZ.lt NaN d = false.
Proof. done. Qed.

Lemma walk_bound (s : search) (end_ : nat) (de : NumZ.t) :
  well_formed n s -> searching s -> relaxed s None 0 ->
  distances s !! end_ = Some de ->
  (forall v dv, visited s !! v = Some false ->
     distances s !! v = Some dv -> NumZ.lt dv de = false) ->
  forall rest x acc dx,
    distances s !! x = Some dx -> distance_value acc ->
    NumZ.lt acc dx = false -> last (x :: rest) = Some end_ ->
    NumZ.lt (cost_from g acc x rest) de = false.
Proof.
  intros Hwf Hs Hr Hde Hmin.
  pose proof (sr_values _ _ _ Hs) as Hval.
  induction rest as [|y rest IH]; intros x acc dx Hdx Hacc Hle Hlast.
  - simpl in *. injection Hlast as ->. by assert (dx = de) as -> by congruence.
  - cbn [cost_from]. destruct (entry g x y) as [w|] eqn:Ee; [|done].
    destruct (entry_length _ _ _ Ee) as (Hw & Hxn & Hyn).
    destruct (visited_defined n s x Hwf Hxn) as [Hvx|Hvx].
    + destruct (distances s !! y) as [dy|] eqn:Edy.
      2: { apply lookup_ge_None in Edy.
           rewrite (wf_distances _ _ Hwf) in Edy. lia. }
      apply (IH y (NumZ.add acc w) dy); try done.
      * by apply add_distance.
      * apply (le_trans dy (NumZ.add dx w)); eauto.
        -- apply add_distance; eauto.
        -- by apply add_distance.
        -- by apply (Hr x y dx dy w).
        -- apply add_mono; eauto.
    + destruct (cost_from_grows rest (NumZ.add acc w) y) as [->|[Hv Hge]];
        [by apply add_distance|done|].
      apply (le_trans de acc); eauto.
      * apply (le_trans de dx); eauto.
      * apply (le_trans acc (NumZ.add acc w)); try done.
        -- by apply add_distance.
        -- by apply add_extensive.
Qed.

(** *** The path returned costs the distance returned *)

Lemma cost_from_snoc : forall rest acc x y z w,
  last (x :: rest) = Some z -> entry g z y = Some w ->
  cost_from g acc x (rest ++ [y]) = NumZ.add (cost_from g acc x rest) w.
Proof.
  induction rest as [|y0 rest IH]; intros acc x y z w Hl He.
  - simpl in *. injection Hl as ->. by rewrite He.
  - cbn [app cost_from]. destruct (entry g x y0) as [w0|]; [|done].
    apply (IH _ y0 y z w); [|done]. by rewrite last_cons_cons in Hl.
Qed.

Lemma reconstruct_walk (s : search) :
  well_formed n s -> searching s ->
  forall fuel cur acc p,
    reconstruct fuel (previous s) cur acc = Ok p ->
    forall d, distances s !! cur = Some d -> NumZ.lt d PInf = true ->
    exists chain,
      p = chain ++ acc /\ connects start cur chain /\
      walk_cost g chain = d /\ Forall (fun v => (v < n)%nat) chain.
Proof.
  intros Hwf Hs. destruct g_lengths as [[Hlen _] _].
  induction fuel as [|fuel IH]; intros cur acc p Hp d Hd Hfin; [done|].
  simpl in Hp. destruct (previous s !! cur) as [[u|]|] eqn:Ep; [| |done].
  - destruct (sr_tree _ _ _ Hs cur u Ep)
      as (Hu & du & w & Hdu & He & Hdc & _).
    pose proof (sr_visited _ _ _ Hs u du Hu Hdu) as Hfu.
    destruct (IH u (cur :: acc) p Hp du Hdu Hfu)
      as (chain & -> & [Hh Hl] & Hcost & Hin).
    exists (chain ++ [cur]). split; [by rewrite <- app_assoc|].
    split; [|split].
    + split; [|by rewrite last_snoc].
      destruct chain; [done|]. done.
    + destruct chain as [|x rest]; [done|]. simpl in Hh. injection Hh as ->.
      cbn [app walk_cost] in *. case_decide as Hx.
      2: { rewrite <- Hcost in Hfu. done. }
      rewrite (cost_from_snoc rest _ start cur u (Fin w) Hl He).
      rewrite Hcost. congruence.
    + apply Forall_app. split; [done|]. apply Forall_singleton.
      apply lookup_lt_Some in Ep. by rewrite (wf_previous _ _ Hwf) in Ep.
  - injection Hp as <-. exists [cur]. split; [done|].
    destruct (sr_root _ _ _ Hs cur Ep) as [->|Hinf].
    2: { assert (d = PInf) as -> by congruence. done. }
    split; [done|]. split.
    + simpl. rewrite decide_True by lia.
      destruct (sr_start _ _ _ Hs) as [H0 _]. congruence.
    + by apply Forall_singleton.
Qed.

Lemma reconstruct_unreached (s : search) (cur : nat) (fuel : nat) :
  well_formed n s -> searching s -> (cur < n)%nat ->
  distances s !! cur = Some PInf ->
  reconstruct (S fuel) (previous s) cur [] = Ok [cur].
Proof.
  intros Hwf Hs Hc Hd. simpl.
  destruct (previous s !! cur) as [[u|]|] eqn:Ep; [|done|].
  - destruct (sr_tree _ _ _ Hs cur u Ep) as (_ & du & w & _ & _ & Hdc & Hfin).
    rewrite Hd in Hdc. injection Hdc as Hdc. by rewrite <- Hdc in Hfin.
  - apply lookup_ge_None in Ep. rewrite (wf_previous _ _ Hwf) in Ep. lia.
Qed.

End Search.

(** *** The primitive on a matrix of lengths *)

Lemma start_well_formed (n start : nat) : well_formed n (s0 n start).
Proof.
  split; simpl; rewrite ?length_insert, ?length_replicate; try done.
  exists (fun _ => 0%nat). split; [|split]; simpl; try done.
  - intros x p Hp. by apply lookup_replicate in Hp as [? _].
  - intros x Hx. by apply lookup_replicate in Hx as [? _].
Qed.

Lemma unvisited_start (n start : nat) : unvisited (s0 n start) = n.
Proof.
  unfold unvisited. simpl. induction n as [|n IH]; simpl; [done|].
  by rewrite IH.
Qed.

(** On a matrix of lengths the primitive returns the least cost of a walk
    from [start] to [end_], and a walk of that cost when there is one. *)
Lemma dijkstra_least (st : state) (start end_ : nat) :
  lengths (length (graph st)) (graph st) ->
  (start < length (graph st))%nat -> (end_ < length (graph st))%nat ->
  exists r,
    dijkstra st start end_ = Ok r /\
    distance_value (distance r) /\
    least_cost (graph st) start end_ (distance r) /\
    (distance r = PInf -> path r = [end_]) /\
    (distance r <> PInf ->
       connects start end_ (path r) /\
       walk_cost (graph st) (path r) = distance r /\
       Forall (fun v => (v < length (graph st))%nat) (path r)).
Proof.
  intros Hg Hstart Hend. set (g := graph st) in *. set (n := length g) in *.
  destruct (searching_start n g start Hstart) as [Hs0 Hr0].
  pose proof (start_well_formed n start) as Hwf0.
  destruct (main_loop_searching n g start Hg Hstart end_ n (s0 n start)
              Hwf0 Hs0 Hr0)
    as (sh & Hwf & Hs & Hr & Hev & Hd & Hp & Hmin).
  { simpl. by apply lookup_replicate_2. }
  { by rewrite unvisited_start. }
  destruct (distances sh !! end_) as [de|] eqn:Ede.
  2: { apply lookup_ge_None in Ede. rewrite (wf_distances _ _ Hwf) in Ede.
       lia. }
  pose proof (sr_values _ _ _ Hs _ _ Ede) as Hde.
  assert (Hbound : forall p, connects start end_ p ->
                             NumZ.lt (walk_cost g p) de = false).
  { intros [|x rest] [Hh Hl]; [done|]. simpl in Hh. injection Hh as ->.
    cbn [walk_cost]. case_decide; [|done].
    destruct (sr_start _ _ _ Hs) as [H0 _].
    apply (walk_bound n g start Hg Hstart sh end_ de Hwf Hs Hr Ede)
      with (dx := Fin 0); try done.
    - intros v dv Hv Hdv. by apply (Hmin v dv de).
    - right. exists 0. split_and!; done. }
  unfold dijkstra. fold g n (s0 n start). rewrite Hd, Hp, Ede.
  destruct de as [z| | |] eqn:Ez.
  - destruct (dijkstra_returns st start end_ Hend) as [r Hret].
    unfold dijkstra in Hret. fold g n (s0 n start) in Hret.
    rewrite Hd, Hp, Ede in Hret.
    destruct (reconstruct (S n) (previous sh) end_ []) as [p|e] eqn:Erec;
      [clear Hret|done].
    destruct (reconstruct_walk n g start Hg Hstart sh Hwf Hs _ _ _ _ Erec
                (Fin z) Ede eq_refl) as (chain & -> & Hc & Hcost & Hin).
    rewrite app_nil_r in *. simpl. eexists. split; [done|]. simpl.
    split; [done|]. split; [split; [done|right; by exists chain]|].
    split; [done|]. intros _. done.
  - rewrite (reconstruct_unreached n g start Hstart sh end_ n Hwf Hs Hend
               Ede).
    simpl. eexists. split; [done|]. simpl.
    split; [done|]. split; [split; [done|by left]|]. split; done.
  - by destruct Hde as [?|(? & ? & _)].
  - by destruct Hde as [?|(? & ? & _)].
Qed.

End DijkstraSearchFacts.

(** ** Dijkstra on a matrix of distances *)

Module DijkstraMetricFacts.
Import Js DijkstraPathFinder RouteSpec DijkstraInv ListFacts DijkstraFacts
  DijkstraRunFacts DijkstraSearchFacts Samples.

Section Metric.
(** A complete graph whose lengths [d] obey the triangle inequality and
    are small enough for the sum of two of them to be exact. *)
Variables (n : nat) (g : list (list NumZ.t)) (d : nat -> nat -> Z).
Hypothesis g_length : length g = n.
Hypothesis g_entry :
  forall i j, (i < n)%nat -> (j < n)%nat -> entry g i j = Some (Fin (d i j)).
Hypothesis g_inside :
  forall i j v, entry g i j = Some v -> (i < n)%nat /\ (j < n)%nat.
Hypothesis d_diagonal : forall i, (i < n)%nat -> d i i = 0.
Hypothesis d_triangle :
  forall i j k, (i < n)%nat -> (j < n)%nat -> (k < n)%nat ->
                d i k <= d i j + d j k.
Hypothesis d_small :
  forall i j, (i < n)%nat -> (j < n)%nat -> 0 <= d i j <= 2 ^ 52.

Variables (start end_ : nat).
Hypothesis start_inside : (start < n)%nat.
Hypothesis end_inside : (end_ < n)%nat.

Local Abbreviation s0 := (DijkstraInv.s0 n start).
Local Abbreviation relaxing := (DijkstraInv.relaxing n d start).
Local Abbreviation settled := (DijkstraInv.settled n d start).

Lemma add_lengths i j k l :
  (i < n)%nat -> (j < n)%nat -> (k < n)%nat -> (l < n)%nat ->
  NumZ.add (Fin (d i j)) (Fin (d k l)) = Fin (d i j + d k l).
Proof.
  intros Hi Hj Hk Hl. apply NumZFacts.add_small.
  pose proof (d_small i j Hi Hj). pose proof (d_small k l Hk Hl).
  change (2 ^ 53) with (2 ^ 52 + 2 ^ 52). lia.
Qed.

Lemma first_minimum : findMin n s0 = Some start.
Proof.
  destruct (findMin n s0) as [c|] eqn:E.
  - apply findMin_Some in E as (Hc & _ & dc & Hd & Hlt). simpl in Hd.
    destruct (decide (c = start)) as [->|Hne]; [done|].
    rewrite list_lookup_insert_ne in Hd by done.
    apply lookup_replicate in Hd as [-> _]. done.
  - assert (NumZ.lt (Fin 0) PInf = false); [|done].
    eapply (findMin_None n s0 start); eauto; simpl.
    + by apply lookup_replicate_2.
    + apply list_lookup_insert_eq. by rewrite length_replicate.
Qed.

Lemma relaxing_step k s :
  (k < n)%nat -> relaxing k s -> relaxing (S k) (relax_step g start s k).
Proof.
  intros Hk (Hv & Hl & Hld & Hlp & Hj). unfold relax_step. rewrite Hv.
  destruct (decide (k = start)) as [->|Hne].
  - rewrite list_lookup_insert_eq by by rewrite length_replicate.
    split; [done|]. split; [done|]. split; [done|]. split; [done|].
    intros j Hjn. destruct (Hj j Hjn) as [-> ->].
    split; f_equal; repeat case_decide; try done; lia.
  - rewrite list_lookup_insert_ne by done.
    rewrite lookup_replicate_2 by done.
    fold (entry g start k). rewrite g_entry by done.
    destruct (Hj start start_inside) as [-> _].
    destruct (Hj k Hk) as [-> _].
    rewrite decide_True by done. rewrite decide_False by done.
    rewrite decide_False by lia. cbv zeta.
    rewrite (NumZFacts.add_small 0 (d start k)).
    2: { pose proof (d_small start k start_inside Hk).
         change (2 ^ 53) with (2 ^ 52 + 2 ^ 52). lia. }
    simpl. unfold DijkstraInv.relaxing. simpl.
    split; [done|]. split; [done|]. rewrite !length_insert.
    split; [done|]. split; [done|].
    intros j Hjn. destruct (Hj j Hjn) as [Hdj Hpj].
    destruct (decide (j = k)) as [->|Hjk].
    + rewrite !list_lookup_insert_eq by lia.
      rewrite decide_False by done. rewrite decide_True by lia.
      by rewrite decide_True by lia.
    + rewrite !list_lookup_insert_ne by done. rewrite Hdj, Hpj.
      split; f_equal; repeat case_decide; try done; lia.
Qed.

Lemma relaxing_fold k : forall s,
  (k <= n)%nat -> relaxing 0 s ->
  relaxing k (fold_left (relax_step g start) (seq 0 k) s).
Proof.
  induction k as [|k IH]; intros s Hk Hs; [done|].
  rewrite seq_S, fold_left_app. cbn [fold_left]. simpl.
  apply relaxing_step; [lia|]. apply IH; [lia|done].
Qed.

Lemma settled_relax_step c s nb :
  settled s -> relax_step g c s nb = s.
Proof.
  intros Hs. unfold relax_step.
  destruct (visited s !! nb) as [[|]|]; try done.
  fold (entry g c nb).
  destruct (entry g c nb) as [edge|] eqn:Ee; [|done].
  destruct (g_inside _ _ _ Ee) as [Hc Hnb].
  rewrite g_entry in Ee by done. injection Ee as <-.
  rewrite !Hs by done. cbv zeta. rewrite add_lengths by done. simpl.
  destruct (Z.ltb_spec (d start c + d c nb) (d start nb)); [|done].
  pose proof (d_triangle start c nb start_inside Hc Hnb). lia.
Qed.

Lemma settled_relax_fold c nbs : forall s,
  settled s -> fold_left (relax_step g c) nbs s = s.
Proof.
  induction nbs as [|nb nbs IH]; intros s Hs; simpl; [done|].
  rewrite settled_relax_step by done. by apply IH.
Qed.

Lemma settled_main_loop iters : forall s,
  settled s ->
  distances (main_loop iters g n end_ s) = distances s /\
  previous (main_loop iters g n end_ s) = previous s.
Proof.
  induction iters as [|iters IH]; intros s Hs; simpl; [done|].
  destruct (findMin n s) as [c|]; [|done].
  destruct (c =? end_)%nat; [done|].
  rewrite settled_relax_fold by done. by apply (IH (visit c s)).
Qed.


Lemma relaxing_start : relaxing 0 (visit start s0).
Proof.
  unfold DijkstraInv.relaxing.
  cbn [visit DijkstraInv.s0 distances previous visited visitedNodes].
  rewrite length_insert, !length_replicate.
  split; [done|]. split; [done|]. split; [done|]. split; [done|].
  intros j Hj. split.
  - destruct (decide (j = start)) as [->|Hne].
    + by rewrite list_lookup_insert_eq by by rewrite length_replicate.
    + rewrite list_lookup_insert_ne by done.
      rewrite lookup_replicate_2 by done. by rewrite decide_False by lia.
  - rewrite lookup_replicate_2 by done. by rewrite decide_False by lia.
Qed.

Lemma main_loop_first (iters : nat) :
  main_loop (S iters) g n end_ s0 =
  if (start =? end_)%nat then visit start s0
  else main_loop iters g n end_
         (fold_left (relax_step g start) (seq 0 n) (visit start s0)).
Proof. simpl. by rewrite first_minimum. Qed.

Lemma reconstruct_one fuel (prev : list (option nat)) e :
  prev !! e = Some None -> reconstruct (S fuel) prev e [] = Ok [e].
Proof. intros H. simpl. by rewrite H. Qed.

Lemma reconstruct_two fuel (prev : list (option nat)) s e :
  prev !! e = Some (Some s) -> prev !! s = Some None ->
  reconstruct (S (S fuel)) prev e [] = Ok [s; e].
Proof. intros H1 H2. simpl. by rewrite H1, H2. Qed.

(** On such a graph the primitive returns the direct edge. *)
Lemma dijkstra_direct (locs : list Location.t) :
  exists r,
    dijkstra {| graph := g; locations := locs |} start end_ = Ok r /\
    path r = (if decide (start = end_) then [end_] else [start; end_]) /\
    distance r = Fin (d start end_).
Proof.
  unfold dijkstra. cbn [graph]. rewrite g_length. fold s0.
  assert (exists m, n = S m) as [m En] by (exists (n - 1)%nat; lia).
  replace (main_loop n g n end_ s0) with (main_loop (S m) g n end_ s0)
    by by rewrite En.
  rewrite main_loop_first.
  destruct (Nat.eqb_spec start end_) as [Heq|Hne].
  - rewrite decide_True by done.
    rewrite reconstruct_one.
    2: { cbn [visit previous s0]. apply lookup_replicate_2.
         exact end_inside. }
    cbn [visit distances s0]. rewrite <- Heq.
    rewrite list_lookup_insert_eq by by rewrite length_replicate.
    eexists. split; [done|]. split; [done|]. simpl.
    by rewrite d_diagonal.
  - rewrite decide_False by done.
    pose proof (relaxing_fold n _ (Nat.le_refl n) relaxing_start)
      as (Hv & Hl & Hld & Hlp & Hj).
    set (s2 := fold_left (relax_step g start) (seq 0 n) (visit start s0)) in *.
    assert (Hs2 : settled s2).
    { intros j Hjn. destruct (Hj j Hjn) as [-> _]. f_equal.
      destruct (decide (j = start)) as [->|?].
      - by rewrite d_diagonal.
      - by rewrite decide_True. }
    destruct (settled_main_loop m s2 Hs2) as [-> ->].
    assert (exists m', n = S m') as [m' En'] by (exists (n - 1)%nat; lia).
    replace (reconstruct (S n) (previous s2) end_ [])
      with (reconstruct (S (S m')) (previous s2) end_ [])
      by by rewrite En'.
    rewrite (reconstruct_two _ _ start).
    + rewrite Hs2 by done. eexists. split; [done|]. by split.
    + destruct (Hj end_ end_inside) as [_ ->].
      rewrite decide_True; [done|]. split; [congruence|done].
    + destruct (Hj start start_inside) as [_ ->].
      rewrite decide_False; [done|tauto].
Qed.

Lemma walk_length_cons (graph : list (list NumZ.t)) x y rest :
  walk_length graph (x :: y :: rest) =
  match entry graph x y, walk_length graph (y :: rest) with
  | Some (Fin w), Some total => Some (w + total)
  | _, _ => None
  end.
Proof. done. Qed.

(** No walk is shorter than the direct edge. *)
Lemma walk_at_least_direct (p : list nat) : forall x total,
  head p = Some x -> last p = Some end_ ->
  walk_length g p = Some total -> (x < n)%nat /\ d x end_ <= total.
Proof.
  induction p as [|y p IH]; intros x total Hh Hl Hw; [done|].
  injection Hh as ->. destruct p as [|z p].
  - simpl in *. injection Hl as ->.
    case_decide; [|done]. injection Hw as <-.
    split; [lia|]. rewrite d_diagonal by lia. lia.
  - rewrite walk_length_cons in Hw. revert Hw.
    destruct (entry g x z) as [[w| | |]|] eqn:Ee; try done.
    destruct (walk_length g (z :: p)) as [rest|] eqn:Er; [|done].
    intros [= <-].
    destruct (g_inside _ _ _ Ee) as [Hx Hz].
    rewrite g_entry in Ee by done. injection Ee as <-.
    destruct (IH z rest) as [_ Hrest]; [done| |done|].
    { rewrite last_cons_cons in Hl. done. }
    split; [done|].
    pose proof (d_triangle x z end_ Hx Hz end_inside). lia.
Qed.

Lemma direct_is_shortest : shortest g start end_ (d start end_).
Proof.
  split.
  - destruct (decide (start = end_)) as [<-|Hne].
    + exists [start]. split; [by split|]. simpl.
      rewrite decide_True by lia. by rewrite d_diagonal.
    + exists [start; end_]. split; [by split|]. simpl.
      rewrite g_entry by done. rewrite decide_True by lia.
      f_equal. lia.
  - intros p d' [Hh Hl] Hw.
    by destruct (walk_at_least_direct p start d' Hh Hl Hw).
Qed.

(** Floyd-Warshall finds nothing to improve. *)
Lemma relax_via_fixed k i j : relax_via k i g j = g.
Proof.
  unfold relax_via.
  destruct (entry g i k) as [ik|] eqn:E1; [|done].
  destruct (entry g k j) as [kj|] eqn:E2; [|done].
  destruct (entry g i j) as [ij|] eqn:E3; [|done].
  destruct (g_inside _ _ _ E1) as [Hi Hk].
  destruct (g_inside _ _ _ E2) as [_ Hj].
  rewrite g_entry in E1, E2, E3 by done.
  injection E1 as <-. injection E2 as <-. injection E3 as <-.
  rewrite add_lengths by done. simpl.
  destruct (Z.ltb_spec (d i k + d k j) (d i j)); [|done].
  pose proof (d_triangle i k j Hi Hk Hj). lia.
Qed.

Lemma floydWarshall_fixed : floydWarshall g = g.
Proof.
  unfold floydWarshall.
  apply fold_left_fixed. intros k.
  apply fold_left_fixed. intros i.
  apply fold_left_fixed. intros j.
  apply relax_via_fixed.
Qed.

End Metric.


(** *** Initialized graphs are such graphs *)

Lemma metric_defined loc1 loc2 :
  has_aisle loc1 -> has_aisle loc2 -> exists m, metric loc1 loc2 = Some m.
Proof.
  unfold has_aisle, metric, aisle_index.
  destruct (Location.aisle loc1), (Location.aisle loc2); try done.
  intros _ _. by eexists.
Qed.

Lemma metric_triangle loc1 loc2 loc3 m12 m23 m13 :
  metric loc1 loc2 = Some m12 -> metric loc2 loc3 = Some m23 ->
  metric loc1 loc3 = Some m13 -> m13 <= m12 + m23.
Proof.
  unfold metric, aisle_index.
  destruct (Location.aisle loc1), (Location.aisle loc2),
    (Location.aisle loc3); simpl; try done.
  intros [= <-] [= <-] [= <-]. lia.
Qed.

Lemma metric_small loc1 loc2 m :
  small loc1 -> small loc2 -> metric loc1 loc2 = Some m -> 0 <= m <= 2 ^ 52.
Proof.
  unfold small, metric, aisle_index.
  destruct (Location.aisle loc1) as [|c1 ?], (Location.aisle loc2) as [|c2 ?];
    try (simpl; done).
  intros [Hs1 Hp1] [Hs2 Hp2] Hm. simpl in Hm. injection Hm as <-.
  pose proof (nat_ascii_bounded c1). pose proof (nat_ascii_bounded c2).
  change (2 ^ 52) with (16 * 2 ^ 48).
  assert (2 ^ 8 < 2 ^ 48) by (apply Z.pow_lt_mono_r; lia).
  change (2 ^ 8) with 256 in *. lia.
Qed.

Lemma abs_of_Z (z : Z) : length_value (NumZ.abs (NumZ.of_Z z)).
Proof.
  destruct (NumZFacts.of_Z_cases z) as [[-> _]|[[-> _]|[-> _]]];
    simpl; try by left.
  right. eexists. split; [done|]. lia.
Qed.

Lemma mul_length (a : NumZ.t) (k : Z) :
  length_value a -> 0 < k -> length_value (NumZ.mul a (Fin k)).
Proof.
  intros [->|(z & -> & Hz)] Hk; cbn [NumZ.mul].
  - destruct (Z.eqb_spec k 0); [lia|].
    destruct (Z.ltb_spec 0 k); [by left|lia].
  - apply distance_length, of_Z_distance. lia.
Qed.

Lemma add_length (a b : NumZ.t) :
  length_value a -> length_value b -> length_value (NumZ.add a b).
Proof.
  intros [->|(x & -> & Hx)] [->|(y & -> & Hy)]; cbn [NumZ.add];
    try by left.
  apply distance_length, of_Z_distance. lia.
Qed.

(** Whatever the coordinates, the length between two locations of the
    data model is a length: a number that is not negative, or
    [Infinity]. *)
Lemma calculateDistance_length loc1 loc2 :
  has_aisle loc1 -> has_aisle loc2 ->
  length_value (calculateDistance loc1 loc2).
Proof.
  unfold has_aisle, calculateDistance.
  destruct (Location.aisle loc1) as [|c1 ?], (Location.aisle loc2) as [|c2 ?];
    try done.
  intros _ _. cbn [JsString.charCodeAt0].
  assert (Hsub : forall x y, length_value
                   (NumZ.abs (NumZ.sub (Fin x) (Fin y)))).
  { intros x y. apply abs_of_Z. }
  assert (Haisle : forall x, exists a, NumZ.sub (Fin (Z.of_nat (nat_of_ascii x)))
                                         (Fin 64) = Fin a).
  { intros x. pose proof (nat_ascii_bounded x).
    assert (2 ^ 8 < 2 ^ 53) by (apply Z.pow_lt_mono_r; lia).
    change (2 ^ 8) with 256 in *.
    eexists. apply NumZFacts.sub_small. lia. }
  destruct (Haisle c1) as [a1 ->]. destruct (Haisle c2) as [a2 ->].
  repeat apply add_length; apply mul_length; try lia; apply Hsub.
Qed.

Section Initialized.
Variables (locs : list Location.t) (st0 : state).
Hypothesis locs_valid : Forall has_aisle locs.

Let st := initializeWarehouseGraph locs st0.
Let n := length locs.

Lemma located i :
  (i < n)%nat -> exists loc, locs !! i = Some loc /\ has_aisle loc.
Proof.
  intros Hi. destruct (lookup_lt_is_Some_2 locs i Hi) as [loc Hloc].
  exists loc. split; [done|]. rewrite Forall_forall in locs_valid.
  by eapply locs_valid, list_elem_of_lookup_2.
Qed.

Lemma initialized_inside i j v :
  entry (graph st) i j = Some v -> (i < n)%nat /\ (j < n)%nat.
Proof.
  destruct (initialized_graph locs st0) as [Hsq _]. by apply entry_lt.
Qed.

(** The matrix of an initialized planner is a matrix of lengths. *)
Lemma initialized_lengths : lengths n (graph st).
Proof.
  destruct (initialized_graph locs st0) as [Hsq He]. split; [done|].
  intros i j w Hw. destruct (initialized_inside _ _ _ Hw) as [Hi Hj].
  unfold st in Hw. rewrite He in Hw by done. injection Hw as <-.
  case_decide; [right; by exists 0|].
  destruct (located i Hi) as (loc1 & H1 & V1).
  destruct (located j Hj) as (loc2 & H2 & V2).
  unfold distance_at. rewrite H1, H2. by apply calculateDistance_length.
Qed.

Lemma metric_at_diagonal i : (i < n)%nat -> metric_at locs i i = 0.
Proof.
  intros Hi. destruct (located i Hi) as (loc & H & V).
  destruct (metric_defined loc loc V V) as [m Hm].
  unfold metric_at. rewrite H, Hm. simpl. by eapply metric_same.
Qed.

Lemma metric_at_triangle i j k :
  (i < n)%nat -> (j < n)%nat -> (k < n)%nat ->
  metric_at locs i k <= metric_at locs i j + metric_at locs j k.
Proof.
  intros Hi Hj Hk.
  destruct (located i Hi) as (loc1 & H1 & V1).
  destruct (located j Hj) as (loc2 & H2 & V2).
  destruct (located k Hk) as (loc3 & H3 & V3).
  destruct (metric_defined loc1 loc2 V1 V2) as [m12 Hm12].
  destruct (metric_defined loc2 loc3 V2 V3) as [m23 Hm23].
  destruct (metric_defined loc1 loc3 V1 V3) as [m13 Hm13].
  unfold metric_at. rewrite H1, H2, H3, Hm12, Hm23, Hm13. simpl.
  by eapply metric_triangle.
Qed.

Hypothesis locs_small : Forall small locs.

Lemma located_small i loc : locs !! i = Some loc -> small loc.
Proof.
  intros H. rewrite Forall_forall in locs_small.
  by eapply locs_small, list_elem_of_lookup_2.
Qed.

Lemma metric_at_small i j :
  (i < n)%nat -> (j < n)%nat -> 0 <= metric_at locs i j <= 2 ^ 52.
Proof.
  intros Hi Hj.
  destruct (located i Hi) as (loc1 & H1 & V1).
  destruct (located j Hj) as (loc2 & H2 & V2).
  destruct (metric_defined loc1 loc2 V1 V2) as [m Hm].
  unfold metric_at. rewrite H1, H2, Hm. simpl.
  apply (metric_small loc1 loc2 m); [| |done].
  - by apply (located_small i).
  - by apply (located_small j).
Qed.

Lemma initialized_entry i j :
  (i < n)%nat -> (j < n)%nat ->
  entry (graph st) i j = Some (Fin (metric_at locs i j)).
Proof.
  intros Hi Hj. destruct (initialized_graph locs st0) as [_ He].
  unfold st. rewrite He by done. f_equal.
  pose proof (metric_at_small i j Hi Hj) as Hsmall. revert Hsmall.
  destruct (located i Hi) as (loc1 & H1 & V1).
  destruct (located j Hj) as (loc2 & H2 & V2).
  destruct (metric_defined loc1 loc2 V1 V2) as [m Hm].
  unfold metric_at, distance_at. rewrite H1, H2, Hm. simpl. intros Hsmall.
  case_decide as Hij.
  - subst j. assert (loc2 = loc1) as -> by congruence.
    by rewrite (metric_same _ _ Hm).
  - apply calculateDistance_metric; [done|].
    change (2 ^ 53) with (2 ^ 52 + 2 ^ 52). lia.
Qed.

End Initialized.

(** *** The distance returned *)




End DijkstraMetricFacts.

(** ** The knapsack optimizer *)

Module KnapsackFacts.
Import Js InventoryItem KnapsackOptimization KnapsackSpec KnapsackInv Samples.

(** *** Selections and their totals *)

Lemma total_value_app s t :
  (total_value (s ++ t) == total_value s + total_value t)%Q.
Proof.
  induction s as [|x s IH]; simpl; [lra|]. rewrite IH. lra.
Qed.

Lemma total_weight_app s t :
  (total_weight (s ++ t) == total_weight s + total_weight t)%Q.
Proof.
  induction s as [|x s IH]; simpl; [lra|]. rewrite IH. lra.
Qed.

Lemma total_rounded_app s t :
  total_rounded (s ++ t) = total_rounded s + total_rounded t.
Proof. induction s as [|x s IH]; simpl; lia. Qed.

Lemma rounded_positive it : (0 < weight it)%Q -> 1 <= rounded it.
Proof.
  intros H. unfold rounded.
  pose proof (Qle_ceiling (weight it)) as Hc.
  assert (0 < inject_Z (Qceiling (weight it)))%Q as Hpos by lra.
  change 0%Q with (inject_Z 0) in Hpos. rewrite <- Zlt_Qlt in Hpos. lia.
Qed.

Lemma total_rounded_nonneg s :
  Forall (fun it => (0 < weight it)%Q) s -> 0 <= total_rounded s.
Proof.
  induction 1 as [|x s Hx _ IH]; simpl; [lia|].
  pose proof (rounded_positive x Hx). lia.
Qed.

(** With positive weights only the empty selection weighs nothing. *)
Lemma total_rounded_zero s :
  Forall (fun it => (0 < weight it)%Q) s -> total_rounded s <= 0 -> s = [].
Proof.
  intros Hall. destruct Hall as [|x s Hx Hs]; [done|]. simpl.
  pose proof (rounded_positive x Hx).
  pose proof (total_rounded_nonneg s Hs). lia.
Qed.

Lemma subsets_sublist l s : In s (subsets l) <-> sublist s l.
Proof.
  revert s. induction l as [|x l IH]; intros s; simpl.
  - split.
    + intros [<-|[]]. constructor.
    + intros H. apply sublist_nil_r in H. by left.
  - rewrite in_app_iff, in_map_iff. split.
    + intros [(s' & <- & Hs')|Hs].
      * apply sublist_skip. by apply IH.
      * apply sublist_cons. by apply IH.
    + intros H. apply sublist_cons_r in H as [H|(s' & -> & H)].
      * right. by apply IH.
      * left. exists s'. split; [done|]. by apply IH.
Qed.

Lemma Qmax_spec a b :
  (a <= Qmax a b)%Q /\ (b <= Qmax a b)%Q /\
  (Qmax a b == a \/ Qmax a b == b)%Q.
Proof.
  unfold Qmax. destruct (Qle_bool a b) eqn:E.
  - apply Qle_bool_iff in E. split; [done|]. split; [lra|]. right. lra.
  - apply not_true_iff_false in E. rewrite Qle_bool_iff in E.
    split; [lra|]. split; [lra|]. left. lra.
Qed.

Lemma maximum_spec (l : list Q) :
  let m := fold_right Qmax 0%Q l in
  (0 <= m)%Q /\ (forall q, In q l -> (q <= m)%Q) /\
  (m == 0 \/ exists q, In q l /\ m == q)%Q.
Proof.
  induction l as [|a l (H0 & Hub & Hin)]; simpl.
  - split; [lra|]. split; [done|]. left. lra.
  - destruct (Qmax_spec a (fold_right Qmax 0%Q l)) as (Ha & Hm & Hc).
    split; [lra|]. split.
    + intros q [<-|Hq]; [done|]. specialize (Hub q Hq). lra.
    + destruct Hc as [Hc|Hc].
      * right. exists a. split; [by left|done].
      * destruct Hin as [Hz|(q & Hq & Hmq)].
        -- left. lra.
        -- right. exists q. split; [by right|lra].
Qed.

(** Brute force computes the optimum. *)
Lemma bruteForce_optimum items capacity :
  0 <= capacity -> optimum items capacity (bruteForce items capacity).
Proof.
  intros Hcap. unfold bruteForce.
  set (values := map total_value
                   (List.filter (feasible capacity) (subsets items))).
  destruct (maximum_spec values) as (H0 & Hub & Hin).
  assert (Hval : forall q, In q values <->
            exists s, sublist s items /\ total_rounded s <= capacity /\
                      q = total_value s).
  { intros q. unfold values. rewrite in_map_iff. split.
    - intros (s & <- & Hs). apply List.filter_In in Hs as [Hs Hf].
      exists s. split; [by apply subsets_sublist|].
      split; [by apply Z.leb_le|done].
    - intros (s & Hs & Hf & ->). exists s. split; [done|].
      apply List.filter_In. split; [by apply subsets_sublist|].
      by apply Z.leb_le. }
  split.
  - destruct Hin as [Hz|(q & Hq & Hmq)].
    + exists []. split; [apply sublist_nil_l|]. simpl. split; [done|lra].
    + apply Hval in Hq as (s & Hs & Hf & ->). exists s.
      split; [done|]. split; [done|lra].
  - intros s Hs Hf. apply Hub. apply Hval. by exists s.
Qed.

Lemma optimum_unique l w q1 q2 :
  optimum l w q1 -> optimum l w q2 -> (q1 == q2)%Q.
Proof.
  intros [(s1 & Hs1 & Hf1 & Hq1) Hub1] [(s2 & Hs2 & Hf2 & Hq2) Hub2].
  specialize (Hub1 s2 Hs2 Hf2). specialize (Hub2 s1 Hs1 Hf1). lra.
Qed.


(** *** The recurrence of the optimum *)

Lemma sublist_positive s l :
  sublist s l -> positive_weights l -> positive_weights s.
Proof.
  unfold positive_weights. rewrite !Forall_forall. intros Hs Hl x Hx.
  apply Hl. by eapply elem_of_sublist.
Qed.

Lemma sublist_snoc (s l : list InventoryItem.t) x :
  sublist s (l ++ [x]) <->
  sublist s l \/ exists s', s = s' ++ [x] /\ sublist s' l.
Proof.
  rewrite sublist_app_r. split.
  - intros (s1 & s2 & -> & H1 & H2).
    apply sublist_cons_r in H2 as [H2|(s' & -> & H2)];
      apply sublist_nil_r in H2 as ->.
    + left. by rewrite app_nil_r.
    + right. by exists s1.
  - intros [H|(s' & -> & H)].
    + exists s, []. rewrite app_nil_r. split; [done|]. split; [done|].
      apply sublist_nil_l.
    + exists s', [x]. by repeat split.
Qed.

Lemma optimum_zero l : positive_weights l -> optimum l 0 0.
Proof.
  intros Hl. split.
  - exists []. split; [apply sublist_nil_l|]. simpl. split; [done|lra].
  - intros s Hs Hw.
    rewrite (total_rounded_zero s); [simpl; lra| |done].
    by eapply sublist_positive.
Qed.

Lemma optimum_nil w : 0 <= w -> optimum [] w 0.
Proof.
  intros Hw. split.
  - exists []. split; [done|]. simpl. split; [done|lra].
  - intros s Hs _. apply sublist_nil_r in Hs as ->. simpl. lra.
Qed.

Lemma optimum_skip l x w q :
  positive_weights l -> w < rounded x ->
  optimum l w q -> optimum (l ++ [x]) w q.
Proof.
  intros Hl Hx [(s & Hs & Hw & Hq) Hub]. split.
  - exists s. split; [|done]. apply sublist_snoc. by left.
  - intros t Ht Hwt. apply sublist_snoc in Ht as [Ht|(t' & -> & Ht)];
      [by apply Hub|].
    rewrite total_rounded_app in Hwt. simpl in Hwt.
    pose proof (total_rounded_nonneg t' (sublist_positive _ _ Ht Hl)). lia.
Qed.

Lemma optimum_take l x w a b :
  rounded x <= w ->
  optimum l (w - rounded x) a -> optimum l w b ->
  optimum (l ++ [x]) w (Qmax (value x + a) b).
Proof.
  intros Hx [(sa & Hsa & Hwa & Hqa) Huba] [(sb & Hsb & Hwb & Hqb) Hubb].
  destruct (Qmax_spec (value x + a) b) as (Hm1 & Hm2 & Hm).
  split.
  - destruct Hm as [Hm|Hm].
    + exists (sa ++ [x]). split; [|split].
      * apply sublist_snoc. right. by exists sa.
      * rewrite total_rounded_app. simpl. lia.
      * rewrite total_value_app. simpl. lra.
    + exists sb. split; [|split; [done|lra]].
      apply sublist_snoc. by left.
  - intros t Ht Hwt. apply sublist_snoc in Ht as [Ht|(t' & -> & Ht)].
    + specialize (Hubb t Ht Hwt). lra.
    + rewrite total_rounded_app in Hwt. simpl in Hwt.
      assert (Hfit : total_rounded t' <= w - rounded x) by lia.
      specialize (Huba t' Ht Hfit).
      rewrite total_value_app. simpl. lra.
Qed.

Lemma optimum_proper l w q q' :
  (q == q')%Q -> optimum l w q -> optimum l w q'.
Proof.
  intros Heq [(s & Hs & Hw & Hq) Hub]. split.
  - exists s. split; [done|]. split; [done|lra].
  - intros t Ht Hwt. specialize (Hub t Ht Hwt). lra.
Qed.

(** *** The table *)

Lemma setCell_shaped rows capacity dp i w v :
  shaped rows capacity dp -> shaped rows capacity (setCell dp i w v).
Proof.
  intros [Hl Hr]. unfold setCell.
  destruct (dp !! i) as [row|] eqn:E; [|done]. split.
  - by rewrite length_insert.
  - apply Forall_insert; [done|]. rewrite length_insert.
    rewrite Forall_forall in Hr. by eapply Hr, list_elem_of_lookup_2.
Qed.

Lemma cell_setCell rows capacity dp i w v k u :
  shaped rows capacity dp -> (i < rows)%nat -> 0 <= w <= capacity ->
  cell (setCell dp i w v) k u =
  if decide (k = i /\ u = w) then Some v else cell dp k u.
Proof.
  intros [Hl Hr] Hi Hw. unfold cell, setCell.
  destruct (dp !! i) as [row|] eqn:E.
  2: { apply lookup_ge_None in E. lia. }
  assert (Hrow : length row = Z.to_nat (capacity + 1)).
  { rewrite Forall_forall in Hr. by eapply Hr, list_elem_of_lookup_2. }
  destruct (Z.ltb_spec u 0) as [Hu|Hu].
  { rewrite decide_False; [done|lia]. }
  destruct (decide (k = i)) as [->|Hki].
  - rewrite list_lookup_insert_eq by lia. simpl.
    destruct (decide (u = w)) as [->|Huw].
    + rewrite list_lookup_insert_eq by lia. by rewrite decide_True.
    + rewrite list_lookup_insert_ne by lia. rewrite E. simpl.
      rewrite decide_False; [done|tauto].
  - rewrite list_lookup_insert_ne by done. rewrite decide_False; [done|tauto].
Qed.

Lemma cell_initial rows capacity k u :
  (k < rows)%nat -> 0 <= u <= capacity ->
  cell (replicate rows (replicate (Z.to_nat (capacity + 1)) (Fin 0%Q))) k u
  = Some (Fin 0%Q).
Proof.
  intros Hk Hu. unfold cell.
  destruct (Z.ltb_spec u 0); [lia|].
  rewrite lookup_replicate_2 by done. simpl.
  apply lookup_replicate_2. lia.
Qed.

Lemma shaped_initial rows capacity :
  shaped rows capacity
    (replicate rows (replicate (Z.to_nat (capacity + 1)) (Fin 0%Q))).
Proof.
  split; [by rewrite length_replicate|].
  apply Forall_forall. intros row Hrow.
  apply elem_of_replicate in Hrow as [-> _]. by rewrite length_replicate.
Qed.


(** *** Filling the table *)

Lemma fillCell_fit i x (dp : table) c w a b :
  ceilWeight x <= w ->
  cell dp (i - 1) (w - ceilWeight x) = Some (Fin a) ->
  cell dp (i - 1) w = Some (Fin b) ->
  fillCell i x (dp, c) w
  = (setCell dp i w (Fin (Qmax (value x + a) b)), S c).
Proof.
  intros Hfit Ha Hb. unfold fillCell.
  rewrite (proj2 (Z.leb_le _ _) Hfit), Ha, Hb. simpl.
  unfold Qmax. by destruct (Qle_bool _ _).
Qed.

Lemma fillCell_nofit i x (dp : table) c w b :
  w < ceilWeight x ->
  cell dp (i - 1) w = Some (Fin b) ->
  fillCell i x (dp, c) w = (setCell dp i w (Fin b), S c).
Proof.
  intros Hfit Hb. unfold fillCell.
  rewrite (proj2 (Z.leb_gt _ _) Hfit), Hb. done.
Qed.

Section Fill.
Variables (items : list InventoryItem.t) (capacity : Z).
Hypothesis items_positive : positive_weights items.
Hypothesis capacity_nonneg : 0 <= capacity.

Let n := length items.

Local Abbreviation row_done := (KnapsackInv.row_done items capacity).

Lemma take_positive k : positive_weights (take k items).
Proof. eapply sublist_positive; [apply sublist_take|done]. Qed.

(** The loop over [w] for row [S i'], its first [m] iterations. *)
Lemma fill_row (i' : nat) (x : InventoryItem.t) (dp : table) (c : nat) :
  items !! i' = Some x ->
  shaped (n + 1) capacity dp ->
  row_done dp i' ->
  cell dp (S i') 0 = Some (Fin 0%Q) ->
  forall m : nat, Z.of_nat m <= capacity ->
    let out := fold_left (fillCell (S i') x) (map Z.of_nat (seq 1 m)) (dp, c) in
    shaped (n + 1) capacity out.1 /\
    (forall k u, k <> S i' -> cell out.1 k u = cell dp k u) /\
    cell out.1 (S i') 0 = Some (Fin 0%Q) /\
    (forall w, 1 <= w <= Z.of_nat m ->
       exists q, cell out.1 (S i') w = Some (Fin q) /\
                 optimum (take (S i') items) w q) /\
    out.2 = (c + m)%nat.
Proof.
  intros Hx Hshape Hprev Hzero.
  assert (Hi : (S i' < n + 1)%nat).
  { apply lookup_lt_Some in Hx. unfold n. lia. }
  induction m as [|m IH]; intros Hm; cbv zeta.
  - simpl. split; [done|]. split; [done|]. split; [done|].
    split; [intros w Hw; lia|lia].
  - rewrite seq_S, map_app, fold_left_app. cbn [map fold_left].
    destruct IH as (Hsh & Hother & Hz & Hrow & Hc); [lia|].
    destruct (fold_left (fillCell (S i') x) (map Z.of_nat (seq 1 m)) (dp, c))
      as [dp1 c1] eqn:Efold. simpl in Hsh, Hother, Hz, Hrow, Hc.
    set (w := Z.of_nat (1 + m)).
    assert (Hw : 1 <= w <= capacity) by (unfold w; lia).
    destruct (Hprev w) as (b & Hb & Ob); [lia|].
    assert (Hround : 1 <= ceilWeight x).
    { apply rounded_positive. pose proof items_positive as Hp.
      unfold positive_weights in Hp. rewrite Forall_forall in Hp.
      by eapply Hp, list_elem_of_lookup_2. }
    assert (Htake : take (S i') items = take i' items ++ [x])
      by by apply take_S_r.
    assert (Hpred : (S i' - 1)%nat = i') by lia.
    assert (Hb1 : cell dp1 (S i' - 1) w = Some (Fin b)).
    { rewrite Hpred, Hother by lia. done. }
    destruct (Z.le_gt_cases (ceilWeight x) w) as [Hfit|Hnofit].
    + destruct (Hprev (w - ceilWeight x)) as (a & Ha & Oa); [lia|].
      assert (Ha1 : cell dp1 (S i' - 1) (w - ceilWeight x) = Some (Fin a)).
      { rewrite Hpred, Hother by lia. done. }
      rewrite (fillCell_fit _ _ _ _ _ a b Hfit Ha1 Hb1). cbn [fst snd].
      split; [by apply setCell_shaped|]. split; [|split; [|split]].
      * intros k u Hk. rewrite (cell_setCell (n + 1) capacity) by (done || lia).
        rewrite decide_False by tauto. by apply Hother.
      * rewrite (cell_setCell (n + 1) capacity) by (done || lia).
        rewrite decide_False by lia. done.
      * intros u Hu. rewrite (cell_setCell (n + 1) capacity) by (done || lia).
        case_decide as Hd.
        -- destruct Hd as [_ ->]. eexists. split; [reflexivity|].
           rewrite Htake. exact (optimum_take _ x w a b Hfit Oa Ob).
        -- apply Hrow. unfold w in *. lia.
      * lia.
    + rewrite (fillCell_nofit _ _ _ _ _ b Hnofit Hb1). cbn [fst snd].
      split; [by apply setCell_shaped|]. split; [|split; [|split]].
      * intros k u Hk. rewrite (cell_setCell (n + 1) capacity) by (done || lia).
        rewrite decide_False by tauto. by apply Hother.
      * rewrite (cell_setCell (n + 1) capacity) by (done || lia).
        rewrite decide_False by lia. done.
      * intros u Hu. rewrite (cell_setCell (n + 1) capacity) by (done || lia).
        case_decide as Hd.
        -- destruct Hd as [_ ->]. eexists. split; [reflexivity|].
           rewrite Htake.
           exact (optimum_skip _ x w b (take_positive i') Hnofit Ob).
        -- apply Hrow. unfold w in *. lia.
      * lia.
Qed.


(** The loop over [i], from any point of its progress. *)
Lemma fill_rows (rest : list InventoryItem.t) :
  forall (done_ : list InventoryItem.t) (dp : table) (c : nat),
  items = done_ ++ rest ->
  shaped (n + 1) capacity dp ->
  (forall k, (k <= length done_)%nat -> row_done dp k) ->
  (forall k, (length done_ < k <= n)%nat -> cell dp k 0 = Some (Fin 0%Q)) ->
  let out := fill rest (S (length done_)) capacity (dp, c) in
  shaped (n + 1) capacity out.1 /\
  forall k, (k <= n)%nat -> row_done out.1 k.
Proof.
  induction rest as [|x rest IH]; intros done_ dp c Hsplit Hshape Hdone Hfresh;
    cbv zeta.
  - simpl. split; [done|]. intros k Hk. apply Hdone.
    unfold n in Hk. rewrite Hsplit, length_app in Hk. simpl in Hk. lia.
  - cbn [fill].
    assert (Hx : items !! length done_ = Some x).
    { rewrite Hsplit. by rewrite list_lookup_middle. }
    assert (Hlen : (length done_ < n)%nat).
    { apply lookup_lt_Some in Hx. done. }
    assert (Hzero : cell dp (S (length done_)) 0 = Some (Fin 0%Q))
      by (apply Hfresh; lia).
    assert (Hcap : Z.of_nat (Z.to_nat capacity) <= capacity) by lia.
    destruct (fill_row (length done_) x dp c Hx Hshape
                (Hdone _ (Nat.le_refl _)) Hzero (Z.to_nat capacity) Hcap)
      as (Hsh & Hother & Hz & Hrow & _).
    fold (widths capacity) in Hsh, Hother, Hz, Hrow.
    destruct (fold_left (fillCell (S (length done_)) x) (widths capacity)
                (dp, c)) as [dp1 c1].
    cbn [fst snd] in Hsh, Hother, Hz, Hrow.
    replace (S (S (length done_))) with (S (length (done_ ++ [x])))
      by (rewrite length_app; simpl; lia).
    apply IH.
    + by rewrite <- app_assoc.
    + done.
    + intros k Hk. rewrite length_app in Hk. simpl in Hk.
      destruct (decide (k = S (length done_))) as [->|Hne].
      * intros w Hw. destruct (decide (w = 0)) as [->|Hw0].
        -- exists 0%Q. split; [done|]. apply optimum_zero, take_positive.
        -- apply Hrow. lia.
      * intros w Hw. rewrite Hother by done. apply Hdone; [lia|done].
    + intros k Hk. rewrite length_app in Hk. simpl in Hk.
      rewrite Hother by lia. apply Hfresh. lia.
Qed.

(** The filled table holds the optimum of all the items at the full
    capacity. *)
Lemma fill_optimum :
  let dp0 := replicate (n + 1)
               (replicate (Z.to_nat (capacity + 1)) (Fin 0%Q)) in
  exists q, cell (fill items 1 capacity (dp0, 0%nat)).1 n capacity
            = Some (Fin q) /\
            optimum items capacity q.
Proof.
  intros dp0.
  destruct (fill_rows items [] dp0 0%nat) as [_ Hrows].
  - done.
  - apply shaped_initial.
  - intros k Hk w Hw. simpl in Hk. assert (k = 0%nat) as -> by lia.
    exists 0%Q. split; [apply cell_initial; lia|].
    simpl. apply optimum_nil. lia.
  - intros k Hk. apply cell_initial; lia.
  - simpl in Hrows. destruct (Hrows n (Nat.le_refl n) capacity) as (q & Hq & Oq);
      [lia|].
    exists q. split; [done|]. unfold n in Oq. by rewrite firstn_all in Oq.
Qed.

End Fill.

(** *** Backtracking *)

Lemma backtrack_selects (dp : table) (items : list InventoryItem.t) (i : nat) :
  forall (w : Z) (tr : trace),
  (i <= length items)%nat ->
  exists tr' chosen,
    backtrack dp items i w tr = Ok tr' /\
    sublist chosen (take i items) /\
    selected tr' = selected tr ++ rev chosen /\
    (totalWeight tr' == totalWeight tr + total_weight chosen)%Q.
Proof.
  induction i as [|i IH]; intros w tr Hi; simpl.
  - exists tr, []. split; [done|]. split; [done|]. simpl.
    rewrite app_nil_r. split; [done|lra].
  - assert (exists x, items !! i = Some x) as [x Hx]
      by (apply lookup_lt_is_Some_2; lia).
    rewrite (take_S_r _ _ _ Hx).
    destruct (0 <? w).
    2: { exists tr, []. split; [done|]. split; [apply sublist_nil_l|]. simpl.
         rewrite app_nil_r. split; [done|lra]. }
    destruct (differs (cell dp (S i) w) (cell dp i w)).
    + rewrite Hx.
      edestruct (IH (w - ceilWeight x)) as (tr' & chosen & -> & Hs & Hsel & Hw);
        [lia|].
      exists tr', (chosen ++ [x]). split; [done|]. split; [|split].
      * by apply sublist_app.
      * rewrite Hsel. simpl. rewrite rev_app_distr. simpl.
        by rewrite <- app_assoc.
      * rewrite Hw. simpl. rewrite total_weight_app. simpl. lra.
    + edestruct (IH w) as (tr' & chosen & -> & Hs & Hsel & Hw); [lia|].
      exists tr', chosen. split; [done|]. split; [|done].
      by apply sublist_inserts_r.
Qed.


Lemma ceilWeight_rounds_up it :
  (inject_Z (ceilWeight it) - 1 < weight it)%Q /\
  (weight it <= inject_Z (ceilWeight it))%Q.
Proof.
  unfold ceilWeight. split; [|apply Qle_ceiling].
  pose proof (Qceiling_lt (weight it)) as H.
  assert (Hm : (inject_Z (Qceiling (weight it) - 1)
                == inject_Z (Qceiling (weight it)) - 1)%Q).
  { unfold Z.sub. rewrite inject_Z_plus, inject_Z_opp. reflexivity. }
  lra.
Qed.

(** A row of [capacity + 1] cells can be made. *)
Lemma array_length_ok (capacity : Z) :
  -1 <= capacity < 4294967295 ->
  (capacity + 1 <? 0) || (4294967295 <? capacity + 1) = false.
Proof.
  intros H. destruct (Z.ltb_spec (capacity + 1) 0); [lia|].
  destruct (Z.ltb_spec 4294967295 (capacity + 1)); [lia|done].
Qed.

Lemma optimizeValue_no_items (capacity : Z) :
  0 <= capacity < 4294967295 ->
  exists r,
    optimizeValue [] capacity = Ok r /\
    selectedItems r = [] /\
    totalValue r = Some (Fin 0%Q) /\
    res_totalWeight r = 0%Q.
Proof.
  intros Hcap. unfold optimizeValue. rewrite array_length_ok by lia.
  cbn [length fill backtrack]. eexists. split; [reflexivity|].
  cbn [selectedItems totalValue res_totalWeight selected totalWeight rev].
  split; [done|]. split; [|done].
  apply (cell_initial 1 capacity); lia.
Qed.




End KnapsackFacts.

(** ** Empty inputs *)

Module EmptyInputFacts.
Import Js InventoryItem Samples.

(** C9. On an empty input every engine returns an empty or zero result
    and raises nothing: both sorts return the empty list; both searches
    return no result; the allocator returns no allocation and no
    unallocated item; the knapsack optimizer, for a capacity that is a
    non-negative integer and leaves [capacity + 1] a length that an array
    can have, returns no item, value zero and weight zero;
    and the route planner, for a known start and no destination, returns
    the path that holds the start alone, of length zero. *)
Theorem empty_inputs_give_empty_results
    (String_of_number : Q -> string) (field : key) (term : string)
    (history : list (list InventoryItem.t))
    (availableSpaces : list WarehouseSpace.t) (capacity : Z)
    (locs : list Location.t) (st0 : DijkstraPathFinder.state)
    (startLocation : Location.t) :
  0 <= capacity < 4294967295 ->
  In startLocation locs ->
  MergeSort.sortedItems (MergeSort.sort [] field) = [] /\
  (exists r, QuickSort.sort [] field = Ok r /\ QuickSort.sortedItems r = []) /\
  BinarySearch.results (BinarySearch.search String_of_number [] term field)
  = [] /\
  HashMapSearch.results
    (HashMapSearch.search
       (HashMapSearch.buildHashMap String_of_number []
          (HashMapInv.built String_of_number history))
       term field) = [] /\
  (GreedyBestFit.res_allocations
     (GreedyBestFit.allocateSpace [] availableSpaces) = [] /\
   GreedyBestFit.res_unallocated
     (GreedyBestFit.allocateSpace [] availableSpaces) = [] /\
   GreedyBestFit.res_store
     (GreedyBestFit.allocateSpace [] availableSpaces) = availableSpaces) /\
  (exists r,
     KnapsackOptimization.optimizeValue [] capacity = Ok r /\
     KnapsackOptimization.selectedItems r = [] /\
     KnapsackOptimization.totalValue r = Some (Fin 0%Q) /\
     KnapsackOptimization.res_totalWeight r = 0%Q) /\
  (exists i r,
     locs !! i = Some startLocation /\
     (DijkstraPathFinder.findOptimalPickingPath startLocation []
        (DijkstraPathFinder.initializeWarehouseGraph locs st0)).1 = Ok r /\
     DijkstraPathFinder.r_path r = [i] /\
     DijkstraPathFinder.totalDistance r = Fin 0 /\
     DijkstraPathFinder.r_visitedNodes r = [i]).
Proof.
  intros Hcap Hstart.
  split; [reflexivity|].
  split; [eexists; split; reflexivity|].
  split; [reflexivity|].
  split; [apply HashMapSearchFacts.search_empty_collection|].
  split; [by repeat split|].
  split; [by apply KnapsackFacts.optimizeValue_no_items|].
  by apply DijkstraRunFacts.findOptimalPickingPath_no_destinations.
Qed.

Lemma empty_inputs_give_empty_results_witness :
  exists r,
    (DijkstraPathFinder.findOptimalPickingPath A12 []
       (DijkstraPathFinder.initializeWarehouseGraph [A11; A12; B21]
          DijkstraPathFinder.initial)).1 = Ok r /\
    DijkstraPathFinder.r_path r = [1%nat] /\
    DijkstraPathFinder.totalDistance r = Fin 0.
Proof.
  destruct (empty_inputs_give_empty_results (fun _ => EmptyString) k_name
              "mouse" [] [] 10 [A11; A12; B21] DijkstraPathFinder.initial A12)
    as (_ & _ & _ & _ & _ & _ & i & r & Hi & Hr & Hp & Hd & _).
  - lia.
  - simpl. tauto.
  - exists r. split; [exact Hr|]. revert Hr Hp. vm_compute.
    intros [= <-]. by split.
Defined.

End EmptyInputFacts.

(** * Further properties of the engines *)

(** ** Quicksort *)

Module QuickSortFacts.
Import Js InventoryItem SortSpec ListFacts MergeSortFacts QuickSort.

(** *** Cells and swaps *)

Lemma at_app_length (l1 l2 : list InventoryItem.t) (x : InventoryItem.t) :
  at_ (l1 ++ x :: l2) (Z.of_nat (length l1)) = Some x.
Proof.
  unfold at_. destruct (Z.ltb_spec (Z.of_nat (length l1)) 0); [lia|].
  rewrite Nat2Z.id. by rewrite list_lookup_middle.
Qed.

Lemma swap_same (arr : list InventoryItem.t) (i : Z) : swap arr i i = arr.
Proof.
  unfold swap, at_. destruct (i <? 0); [done|].
  destruct (arr !! Z.to_nat i) as [x|] eqn:E; [|done].
  rewrite list_insert_insert_eq. by apply list_insert_id.
Qed.

Lemma insert_at_length {A} (l1 l2 : list A) (y x : A) :
  <[length l1 := x]> (l1 ++ y :: l2) = l1 ++ x :: l2.
Proof. rewrite insert_app_r_alt by done. by rewrite Nat.sub_diag. Qed.

Lemma swap_apart (l1 l2 l3 : list InventoryItem.t) (b x : InventoryItem.t) :
  swap (l1 ++ b :: l2 ++ x :: l3) (Z.of_nat (length l1))
       (Z.of_nat (length l1 + 1 + length l2))
  = l1 ++ x :: l2 ++ b :: l3.
Proof.
  assert (Hj : (length l1 + 1 + length l2)%nat = length (l1 ++ b :: l2))
    by (rewrite length_app; simpl; lia).
  assert (Hj' : (length l1 + 1 + length l2)%nat = length (l1 ++ x :: l2))
    by (rewrite length_app; simpl; lia).
  unfold swap. rewrite at_app_length.
  assert (at_ (l1 ++ b :: l2 ++ x :: l3)
              (Z.of_nat (length l1 + 1 + length l2)) = Some x) as ->.
  { replace (l1 ++ b :: l2 ++ x :: l3) with ((l1 ++ b :: l2) ++ x :: l3)
      by (by rewrite <- app_assoc).
    rewrite Hj. apply at_app_length. }
  rewrite !Nat2Z.id, insert_at_length.
  replace (l1 ++ x :: l2 ++ x :: l3) with ((l1 ++ x :: l2) ++ x :: l3)
    by (by rewrite <- app_assoc).
  rewrite Hj', insert_at_length. by rewrite <- app_assoc.
Qed.

(** *** The loop of [partition] *)

Ltac same_list := rewrite <- ?app_assoc; simpl; rewrite <- ?app_assoc; done.
Ltac same_index := rewrite ?length_app; simpl; lia.

Lemma valueAt_app (l1 l2 : list InventoryItem.t) (x : InventoryItem.t)
    (k : key) :
  valueAt (l1 ++ x :: l2) (Z.of_nat (length l1)) k = Ok (getValue x k).
Proof. unfold valueAt. by rewrite at_app_length. Qed.

(** The array is [pre ++ A ++ B ++ C ++ post]: [A] holds the items found
    not above the pivot, [B] the items found above it, [C] the items
    still to come; [i] is the last index of [A] and [j] the first of
    [C]. *)
Lemma partition_loop_spec (k : key) (pivot : jsval)
    (pre post : list InventoryItem.t) :
  forall (C A B : list InventoryItem.t) (st : state),
  Forall (fun x => le (getValue x k) pivot = true) A ->
  Forall (fun x => le (getValue x k) pivot = false) B ->
  exists A' B' st',
    partition_loop (length C) (pre ++ A ++ B ++ C ++ post) pivot
      (Z.of_nat (length pre + length A) - 1)
      (Z.of_nat (length pre + length A + length B)) k st
    = Ok (pre ++ A' ++ B' ++ post,
          Z.of_nat (length pre + length A') - 1, st') /\
    A' ++ B' ≡ₚ A ++ B ++ C /\
    Forall (fun x => le (getValue x k) pivot = true) A' /\
    Forall (fun x => le (getValue x k) pivot = false) B' /\
    comparisons st' = (comparisons st + length C)%nat.
Proof.
  induction C as [|x C IH]; intros A B st HA HB.
  - exists A, B, st. simpl. rewrite app_nil_r. split_and!; try done; lia.
  - cbn [partition_loop length].
    replace (pre ++ A ++ B ++ (x :: C) ++ post)
      with ((pre ++ A ++ B) ++ x :: (C ++ post)) by same_list.
    replace (length pre + length A + length B)%nat
      with (length (pre ++ A ++ B)) by same_index.
    rewrite valueAt_app. cbn [mbind res_bind Js.bind].
    destruct (le (getValue x k) pivot) eqn:Hx.
    + destruct B as [|b B].
      * replace (Z.of_nat (length pre + length A) - 1 + 1)
          with (Z.of_nat (length (pre ++ A ++ []))) by same_index.
        rewrite swap_same, Z.eqb_refl.
        destruct (IH (A ++ [x]) [] (count_comparison st))
          as (A' & B' & st' & Hrun & Hperm & HA' & HB' & Hc);
          [by apply Forall_app; split; [|apply Forall_singleton]|done|].
        exists A', B', st'. split_and!; try done.
        -- rewrite <- Hrun. f_equal; [same_list|same_index|same_index].
        -- rewrite Hperm. simpl. rewrite <- app_assoc. simpl. done.
        -- rewrite Hc. simpl. lia.
      * replace (Z.of_nat (length pre + length A) - 1 + 1)
          with (Z.of_nat (length (pre ++ A))) by same_index.
        replace ((pre ++ A ++ b :: B) ++ x :: C ++ post)
          with ((pre ++ A) ++ b :: B ++ x :: (C ++ post)) by same_list.
        replace (length (pre ++ A ++ b :: B))
          with (length (pre ++ A) + 1 + length B)%nat by same_index.
        rewrite swap_apart.
        destruct (Z.eqb_spec (Z.of_nat (length (pre ++ A)))
                    (Z.of_nat (length (pre ++ A) + 1 + length B)));
          [lia|].
        destruct (IH (A ++ [x]) (B ++ [b]) (count_swap (count_comparison st)))
          as (A' & B' & st' & Hrun & Hperm & HA' & HB' & Hc).
        { by apply Forall_app; split; [|apply Forall_singleton]. }
        { apply Forall_cons in HB as [Hb HB].
          by apply Forall_app; split; [|apply Forall_singleton]. }
        exists A', B', st'. split_and!; try done.
        -- rewrite <- Hrun. f_equal; [same_list|same_index|same_index].
        -- rewrite Hperm. rewrite <- !app_assoc. apply Permutation_app_head.
           simpl. rewrite <- (Permutation_middle B C b).
           rewrite <- (Permutation_middle B C x). apply perm_swap.
        -- rewrite Hc. simpl. lia.
    + destruct (IH A (B ++ [x]) (count_comparison st))
        as (A' & B' & st' & Hrun & Hperm & HA' & HB' & Hc);
        [done|by apply Forall_app; split; [|apply Forall_singleton]|].
      exists A', B', st'. split_and!; try done.
      * rewrite <- Hrun. f_equal; [same_list|same_index].
      * rewrite Hperm. by rewrite <- !app_assoc.
      * rewrite Hc. simpl. lia.
Qed.

(** [partition] on the range [seg ++ [pv]] that follows [pre]: the
    pivot [pv] ends between the items not above it and the items above
    it. *)
Lemma partition_spec (k : key) (pre seg post : list InventoryItem.t)
    (pv : InventoryItem.t) (st : state) :
  exists small large st',
    partition (pre ++ seg ++ pv :: post) (Z.of_nat (length pre))
      (Z.of_nat (length pre + length seg)) k st
    = Ok (pre ++ small ++ pv :: large ++ post,
          Z.of_nat (length pre + length small), st') /\
    small ++ large ≡ₚ seg /\
    Forall (fun x => key_leb k x pv = true) small /\
    Forall (fun x => key_leb k x pv = false) large /\
    comparisons st' = (comparisons st + length seg)%nat.
Proof.
  unfold partition.
  replace (pre ++ seg ++ pv :: post) with ((pre ++ seg) ++ pv :: post)
    by same_list.
  replace (length pre + length seg)%nat with (length (pre ++ seg))
    by same_index.
  rewrite valueAt_app. cbn [mbind res_bind Js.bind].
  destruct (partition_loop_spec k (getValue pv k) pre (pv :: post) seg [] [] st)
    as (A & B & st' & Hrun & Hperm & HA & HB & Hc); [done|done|].
  simpl in Hperm.
  replace (Z.to_nat (Z.of_nat (length (pre ++ seg)) - Z.of_nat (length pre)))
    with (length seg) by same_index.
  simpl in Hrun. rewrite !Nat.add_0_r in Hrun.
  rewrite <- (app_assoc pre seg).
  rewrite Hrun. cbn [mbind res_bind Js.bind].
  pose proof (Permutation_length Hperm) as Hlen. rewrite length_app in Hlen.
  destruct B as [|b B].
  - exists A, [], st'.
    replace (Z.of_nat (length pre + length A) - 1 + 1)
      with (Z.of_nat (length (pre ++ seg))) by (simpl in Hlen; same_index).
    rewrite swap_same, Z.eqb_refl. split_and!; try done.
    f_equal. f_equal. f_equal. simpl in Hlen. same_index.
  - exists A, (B ++ [b]), (count_swap st').
    replace (Z.of_nat (length pre + length A) - 1 + 1)
      with (Z.of_nat (length (pre ++ A))) by same_index.
    replace (pre ++ A ++ (b :: B) ++ pv :: post)
      with ((pre ++ A) ++ b :: B ++ pv :: post) by same_list.
    replace (length (pre ++ seg))
      with (length (pre ++ A) + 1 + length B)%nat
      by (simpl in Hlen; same_index).
    rewrite swap_apart.
    destruct (Z.eqb_spec (Z.of_nat (length (pre ++ A)))
                (Z.of_nat (length (pre ++ A) + 1 + length B))); [lia|].
    split_and!; try done.
    + replace ((pre ++ A) ++ pv :: B ++ b :: post)
        with (pre ++ A ++ pv :: (B ++ [b]) ++ post) by same_list.
      by replace (length (pre ++ A)) with (length pre + length A)%nat
        by same_index.
    + rewrite <- Hperm. apply Permutation_app_head.
      symmetry. apply Permutation_cons_append.
    + apply Forall_cons in HB as [Hb HB].
      by apply Forall_app; split; [|apply Forall_singleton].
Qed.

(** *** The recursion *)

Lemma sorted_app {A} (R : A -> A -> Prop) (l1 l2 : list A) :
  StronglySorted R l1 -> StronglySorted R l2 ->
  (forall x y, In x l1 -> In y l2 -> R x y) ->
  StronglySorted R (l1 ++ l2).
Proof.
  induction 1 as [|a l1 S1 IH Hall]; intros S2 Hcross; simpl; [done|].
  constructor.
  - apply IH; [done|]. intros x y Hx Hy. apply Hcross; [by right|done].
  - apply Forall_app. split; [done|].
    apply Forall_forall. intros y Hy. apply Hcross; [by left|].
    by apply list_elem_of_In.
Qed.

Lemma quickSort_short (fuel : nat) (arr : list InventoryItem.t) (low high : Z)
    (k : key) (st : state) :
  high <= low -> quickSort fuel arr low high k st = Ok (arr, st).
Proof.
  intros H. destruct fuel; simpl; destruct (Z.ltb_spec low high); done || lia.
Qed.

(** [quickSort] on the range [seg] that follows [pre]: with a budget of
    nested calls that covers the length of the range, it returns, and
    the range comes back sorted, the rest of the array untouched; it
    makes at most [m (m - 1) / 2] comparisons on a range of [m] items. *)
Lemma quickSort_spec (k : key) :
  forall (fuel : nat) (pre seg post : list InventoryItem.t) (st : state),
  (length seg <= fuel + 1)%nat ->
  exists seg' st',
    quickSort fuel (pre ++ seg ++ post) (Z.of_nat (length pre))
      (Z.of_nat (length pre + length seg) - 1) k st
    = Ok (pre ++ seg' ++ post, st') /\
    seg' ≡ₚ seg /\
    StronglySorted (fun a b => key_leb k a b = true) seg' /\
    (comparisons st <= comparisons st')%nat /\
    (2 * (comparisons st' - comparisons st)
     <= length seg * (length seg - 1))%nat.
Proof.
  induction fuel as [|fuel IH]; intros pre seg post st Hfuel.
  - exists seg, st. rewrite quickSort_short by lia.
    split_and!; try done; try lia. apply short_sorted. lia.
  - destruct (decide (length seg <= 1)%nat) as [Hshort|Hlong].
    { exists seg, st. rewrite quickSort_short by lia.
      split_and!; try done; try lia. by apply short_sorted. }
    destruct seg as [|pv seg0 _] using rev_ind; [simpl in Hlong; lia|].
    rewrite length_app in Hfuel, Hlong. simpl in Hfuel, Hlong.
    cbn [quickSort].
    destruct (Z.ltb_spec (Z.of_nat (length pre))
                (Z.of_nat (length pre + length (seg0 ++ [pv])) - 1))
      as [_|Hge]; [|rewrite length_app in Hge; simpl in Hge; lia].
    destruct (partition_spec k pre seg0 post pv st)
      as (small & large & st1 & Hpart & Hperm & Hsmall & Hlarge & Hc1).
    replace (pre ++ (seg0 ++ [pv]) ++ post) with (pre ++ seg0 ++ pv :: post)
      by same_list.
    replace (Z.of_nat (length pre + length (seg0 ++ [pv])) - 1)
      with (Z.of_nat (length pre + length seg0)) by same_index.
    rewrite Hpart. cbn [mbind res_bind Js.bind].
    pose proof (Permutation_length Hperm) as Hlen.
    rewrite length_app in Hlen.
    destruct (IH pre small (pv :: large ++ post) st1)
      as (small' & st2 & Hrun1 & Hperm1 & Hsorted1 & Hmono1 & Hc2); [lia|].
    rewrite Hrun1. cbn [mbind res_bind Js.bind].
    pose proof (Permutation_length Hperm1) as Hlen1.
    destruct (IH (pre ++ small' ++ [pv]) large post st2)
      as (large' & st3 & Hrun2 & Hperm2 & Hsorted2 & Hmono2 & Hc3); [lia|].
    replace (pre ++ small' ++ pv :: large ++ post)
      with ((pre ++ small' ++ [pv]) ++ large ++ post) by same_list.
    replace (Z.of_nat (length pre + length small) + 1)
      with (Z.of_nat (length (pre ++ small' ++ [pv]))) by same_index.
    replace (Z.of_nat (length pre + length seg0))
      with (Z.of_nat (length (pre ++ small' ++ [pv]) + length large) - 1)
      by same_index.
    rewrite Hrun2.
    exists (small' ++ pv :: large'), st3. split_and!.
    + f_equal. f_equal. same_list.
    + rewrite Hperm1, Hperm2, <- Hperm.
      rewrite <- app_assoc. apply Permutation_app_head.
      apply Permutation_cons_append.
    + apply sorted_app; [done| |].
      * constructor; [done|]. apply Forall_forall. intros y Hy.
        rewrite Hperm2 in Hy. rewrite Forall_forall in Hlarge.
        specialize (Hlarge y Hy).
        destruct (key_leb_total k pv y); [done|congruence].
      * intros x y Hx Hy.
        assert (Hxpv : key_leb k x pv = true).
        { rewrite Forall_forall in Hsmall. apply Hsmall.
          rewrite <- Hperm1. by apply list_elem_of_In. }
        destruct Hy as [<-|Hy]; [done|].
        eapply key_leb_trans; [exact Hxpv|].
        apply list_elem_of_In in Hy. rewrite Hperm2 in Hy.
        rewrite Forall_forall in Hlarge. specialize (Hlarge y Hy).
        destruct (key_leb_total k pv y); [done|congruence].
    + lia.
    + rewrite length_app. simpl.
      apply Permutation_length in Hperm2. nia.
Qed.

(** The whole array. *)
Lemma sort_spec (items : list InventoryItem.t) (k : key) :
  exists sorted st,
    quickSort (length items) items 0 (Z.of_nat (length items) - 1) k
      {| comparisons := 0; swaps := 0 |} = Ok (sorted, st) /\
    sorted ≡ₚ items /\
    StronglySorted (fun a b => key_leb k a b = true) sorted /\
    (2 * comparisons st <= length items * (length items - 1))%nat.
Proof.
  destruct (quickSort_spec k (length items) [] items []
              {| comparisons := 0; swaps := 0 |})
    as (sorted & st & Hrun & Hperm & Hsorted & _ & Hc); [lia|].
  simpl in Hrun, Hc. rewrite !app_nil_r in Hrun. rewrite Nat.sub_0_r in Hc.
  by exists sorted, st.
Qed.

(** [QuickSort.sort] sorts. For every list of items and every key it
    returns (no cell outside the array is read, and the recursion ends),
    and the list it returns is a rearrangement of the input in
    non-decreasing order of the key, strings compared after lowercasing
    and numbers by value. *)
Theorem quickSort_sort_sorted_permutation
    (items : list InventoryItem.t) (sortBy : key) :
  exists r,
    QuickSort.sort items sortBy = Ok r /\
    Permutation (sortedItems r) items /\
    StronglySorted (ordered_by sortBy) (sortedItems r).
Proof.
  destruct (sort_spec items sortBy) as (sorted & st & Hrun & Hperm & Hs & _).
  unfold QuickSort.sort. rewrite Hrun. cbn [mbind res_bind Js.bind].
  eexists. split; [reflexivity|]. cbn [sortedItems]. split; [done|].
  clear -Hs. induction Hs as [|a l S IH Hall]; constructor; [done|].
  eapply Forall_impl; [exact Hall|]. intros b. apply key_leb_ordered_by.
Qed.

(** Quicksort is quadratic at worst: on [n] items [QuickSort.sort]
    reports [n] as the data size and at most [n (n - 1) / 2]
    comparisons. *)
Theorem quickSort_sort_comparisons_bound
    (items : list InventoryItem.t) (sortBy : key) :
  exists r c,
    QuickSort.sort items sortBy = Ok r /\
    AlgorithmPerformance.dataSize (performance r) = length items /\
    AlgorithmPerformance.comparisons (performance r) = Some c /\
    (2 * c <= length items * (length items - 1))%nat.
Proof.
  destruct (sort_spec items sortBy) as (sorted & st & Hrun & _ & _ & Hc).
  unfold QuickSort.sort. rewrite Hrun. cbn [mbind res_bind Js.bind].
  eexists. exists (comparisons st). by split.
Qed.

End QuickSortFacts.

(** ** Merge sort: the counters *)

Module MergeSortCountFacts.
Import InventoryItem SortSpec SortCount ListFacts MergeSortFacts MergeSort.

Lemma merge_loop_counts (k : key) (l : list InventoryItem.t) :
  forall (r res : list InventoryItem.t) (st : state),
  adds_at_most (length l + length r - 1) st (merge_loop res l r k st).2.
Proof.
  unfold adds_at_most.
  induction l as [|a l IHl]; intros r.
  - intros res st. simp merge_loop. destruct r; simpl; lia.
  - induction r as [|b r IHr]; intros res st.
    + simp merge_loop. simpl. lia.
    + simp merge_loop. simpl.
      destruct (le (getValue a k) (getValue b k)); simpl.
      * specialize (IHl (b :: r) (res ++ [a]) (count_comparison st)).
        simpl in IHl. lia.
      * specialize (IHr (res ++ [b]) (count_swap (count_comparison st))).
        simpl in IHr. lia.
Qed.

Lemma log2_up_half (n : nat) :
  (2 <= n)%nat -> (Nat.log2_up (n - n / 2) < Nat.log2_up n)%nat.
Proof.
  intros Hn.
  assert (Hpos : (0 < Nat.log2_up n)%nat) by (apply Nat.log2_up_pos; lia).
  destruct (Nat.log2_up n) as [|L] eqn:E; [lia|].
  apply Nat.lt_succ_r. apply Nat.log2_up_le_pow2.
  - assert (n / 2 < n)%nat by (apply Nat.div_lt; lia). lia.
  - destruct (Nat.log2_log2_up_spec n) as [_ Hup]; [lia|].
    rewrite E, Nat.pow_succ_r' in Hup.
    pose proof (Nat.div_mod_eq n 2) as Hdm.
    pose proof (Nat.mod_upper_bound n 2). lia.
Qed.

Lemma mergeSort_counts (k : key) (arr : list InventoryItem.t) :
  forall st,
  adds_at_most (length arr * Nat.log2_up (length arr)) st
    (mergeSort arr k st).2.
Proof.
  induction arr as [arr IH] using (induction_ltof1 _ (@length _)).
  unfold ltof in IH. intros st.
  rewrite (MergeSortFacts.mergeSort_unfold arr k st).
  destruct (decide (length arr <= 1)%nat) as [Hshort|Hlong].
  { unfold adds_at_most. simpl. lia. }
  cbv zeta. unfold merge.
  set (mid := (length arr / 2)%nat).
  assert (Hmid1 : (mid < length arr)%nat) by (apply Nat.div_lt; lia).
  assert (Hmid2 : (0 < mid)%nat) by (apply Nat.div_str_pos; lia).
  set (lefts := mergeSort (take mid arr) k st).
  set (rights := mergeSort (drop mid arr) k lefts.2).
  pose proof (IH (take mid arr) ltac:(rewrite length_take; lia) st) as Hl.
  pose proof (IH (drop mid arr) ltac:(rewrite length_drop; lia) lefts.2)
    as Hr.
  fold lefts in Hl. fold rights in Hr.
  pose proof (merge_loop_counts k lefts.1 rights.1 [] rights.2) as Hm.
  destruct (mergeSort_spec k (take mid arr) st) as (Pl & _).
  destruct (mergeSort_spec k (drop mid arr) lefts.2) as (Pr & _).
  fold lefts in Pl. fold rights in Pr.
  apply Permutation_length in Pl, Pr.
  rewrite Pl, Pr in Hm.
  rewrite length_take, length_drop in *.
  replace (mid `min` length arr)%nat with mid in * by lia.
  pose proof (log2_up_half (length arr) ltac:(lia)) as Hhalf.
  fold mid in Hhalf.
  assert (Hlow : (Nat.log2_up mid <= Nat.log2_up (length arr - mid))%nat).
  { apply Nat.log2_up_le_mono. unfold mid.
    pose proof (Nat.div_mod_eq (length arr) 2). lia. }
  unfold adds_at_most in *.
  set (L := Nat.log2_up (length arr)) in *.
  assert (mid * Nat.log2_up mid <= mid * (L - 1))%nat
    by (apply Nat.mul_le_mono_l; lia).
  assert ((length arr - mid) * Nat.log2_up (length arr - mid)
          <= (length arr - mid) * (L - 1))%nat
    by (apply Nat.mul_le_mono_l; lia).
  assert (mid * (L - 1) + (length arr - mid) * (L - 1) + length arr
          = length arr * L)%nat by nia.
  lia.
Qed.

(** Merge sort stays within [n log n]: on [n] items [MergeSort.sort]
    reports [n] as the data size, at most [n * ceil (log2 n)]
    comparisons, and no more swaps than comparisons. *)
Theorem mergeSort_sort_comparisons_bound
    (items : list InventoryItem.t) (sortBy : key) :
  let report := performance (MergeSort.sort items sortBy) in
  AlgorithmPerformance.dataSize report = length items /\
  exists c s,
    AlgorithmPerformance.comparisons report = Some c /\
    AlgorithmPerformance.swaps report = Some s /\
    (c <= length items * Nat.log2_up (length items))%nat /\
    (s <= c)%nat.
Proof.
  cbv zeta. cbn [MergeSort.sort performance AlgorithmPerformance.dataSize
                 AlgorithmPerformance.comparisons AlgorithmPerformance.swaps].
  split; [done|]. eexists. eexists. split; [done|]. split; [done|].
  pose proof (mergeSort_counts sortBy items {| comparisons := 0; swaps := 0 |})
    as (Hc & Hs & Hsc).
  simpl in Hc, Hs, Hsc. lia.
Qed.

End MergeSortCountFacts.

(** ** The two searches *)

Module SearchFacts.
Import InventoryItem SortSpec SearchSpec HashMapInv SearchScan ListFacts
  MergeSortFacts HashMapSearchFacts Samples.

(** *** Lists *)

Lemma filter_perm {A} (f : A -> bool) (l l' : list A) :
  l ≡ₚ l' -> List.filter f l ≡ₚ List.filter f l'.
Proof.
  induction 1 as [|x l l' _ IH|x y l|l l' l'' _ IH1 _ IH2]; simpl.
  - done.
  - destruct (f x); [by apply perm_skip|done].
  - destruct (f x), (f y); try done. apply perm_swap.
  - by rewrite IH1.
Qed.

Lemma filter_sorted {A} (R : A -> A -> Prop) (f : A -> bool) (l : list A) :
  StronglySorted R l -> StronglySorted R (List.filter f l).
Proof.
  induction 1 as [|a l S IH Hall]; simpl; [constructor|].
  destruct (f a); [|done]. constructor; [done|].
  apply Forall_forall. intros y Hy.
  apply list_elem_of_In, List.filter_In in Hy as [Hy _].
  rewrite Forall_forall in Hall. by apply Hall, list_elem_of_In.
Qed.

Lemma sorted_impl {A} (R R' : A -> A -> Prop) (l : list A) :
  (forall a b, R a b -> R' a b) -> StronglySorted R l -> StronglySorted R' l.
Proof.
  intros HR. induction 1 as [|a l S IH Hall]; constructor; [done|].
  eapply Forall_impl; [exact Hall|]. apply HR.
Qed.

(** *** The order on strings *)

Lemma string_ltb_leb (s t : string) : String.ltb s t = negb (String.leb t s).
Proof.
  unfold String.ltb, String.leb. rewrite (String.compare_antisym s t).
  by destruct (String.compare t s).
Qed.

Lemma string_leb_total (s t : string) :
  String.leb s t = true \/ String.leb t s = true.
Proof.
  unfold String.leb. rewrite (String.compare_antisym s t).
  destruct (String.compare t s); auto.
Qed.

Lemma prefix_includes (s t : string) :
  String.prefix t s = true -> JsString.includes s t = true.
Proof. intros H. destruct s; simpl in *; by rewrite H. Qed.

Lemma includes_empty (s : string) : JsString.includes s EmptyString = true.
Proof. by destruct s. Qed.

Section WithPrinter.
Variable String_of_number : Q -> string.

Local Abbreviation field_text :=
  (BinarySearch.getValue String_of_number).
Local Abbreviation compare := (BinarySearch.compare String_of_number).
Local Abbreviation hit := (SearchScan.contains_term String_of_number).

(** *** The scan of [BinarySearch.search] *)

Lemma scan_order_leb field a b :
  cmp_leb (compare field) a b
  = String.leb (field_text a field) (field_text b field).
Proof.
  unfold cmp_leb, BinarySearch.compare. cbv zeta.
  rewrite !string_ltb_leb.
  pose proof (string_leb_total (field_text a field) (field_text b field))
    as Htotal.
  destruct (String.leb (field_text a field) (field_text b field)),
    (String.leb (field_text b field) (field_text a field)); try done.
  by destruct Htotal.
Qed.

Lemma scan_fold term field (l : list InventoryItem.t) :
  forall acc n,
  fold_left (BinarySearch.scan_step String_of_number
               (JsString.toLowerCase term) field) l (acc, n)
  = (acc ++ List.filter (hit term field) l, (n + length l)%nat).
Proof.
  induction l as [|x l IH]; intros acc n; simpl.
  - rewrite app_nil_r. f_equal. lia.
  - fold (hit term field x). destruct (hit term field x).
    + rewrite IH. rewrite <- app_assoc. simpl. f_equal. lia.
    + rewrite IH. f_equal. lia.
Qed.

Lemma search_results items term field :
  BinarySearch.results
    (BinarySearch.search String_of_number items term field)
  = List.filter (hit term field) (JsArray.sort (compare field) items).
Proof.
  unfold BinarySearch.search. cbv zeta. cbn [BinarySearch.results].
  by rewrite scan_fold.
Qed.

(** [BinarySearch.search] is a linear scan for substrings. It returns the
    items whose field, lowercased, contains the lowercased term anywhere,
    each as often as it occurs in the input, in the order of the field
    values as raw strings; it reports one comparison per item, whatever
    the term; and an empty term returns every item. *)
Theorem binarySearch_finds_substring_matches
    (items : list InventoryItem.t) (searchTerm : string) (searchBy : key) :
  let out := BinarySearch.search String_of_number items searchTerm searchBy in
  let found := BinarySearch.results out in
  Permutation found (List.filter (hit searchTerm searchBy) items) /\
  (forall it, In it found <->
              In it items /\ hit searchTerm searchBy it = true) /\
  StronglySorted
    (fun a b => String.leb (field_text a searchBy) (field_text b searchBy)
                = true) found /\
  AlgorithmPerformance.comparisons (BinarySearch.performance out)
  = Some (length items) /\
  Permutation
    (BinarySearch.results
       (BinarySearch.search String_of_number items EmptyString searchBy))
    items.
Proof.
  cbv zeta. rewrite !search_results.
  assert (Hperm : JsArray.sort (compare searchBy) items ≡ₚ items)
    by apply sort_perm.
  split_and!.
  - by apply filter_perm.
  - intros it. rewrite List.filter_In.
    split; intros [Hin Hhit]; (split; [|done]); apply list_elem_of_In;
      apply list_elem_of_In in Hin; by rewrite ?Hperm in *.
  - apply filter_sorted.
    assert (Hs : StronglySorted
                   (fun a b => cmp_leb (compare searchBy) a b = true)
                   (JsArray.sort (compare searchBy) items)).
    { apply (sort_sorted (compare searchBy) (fun _ => True)).
      - intros a b _ _. rewrite !scan_order_leb. apply string_leb_total.
      - intros a b c _ _ _. rewrite !scan_order_leb. apply string_leb_trans.
      - by apply Forall_forall. }
    eapply sorted_impl; [|exact Hs]. intros a b H. by rewrite <- scan_order_leb.
  - unfold BinarySearch.search. cbv zeta.
    cbn [BinarySearch.performance AlgorithmPerformance.comparisons].
    rewrite scan_fold. simpl. f_equal. by apply Permutation_length.
  - rewrite <- Hperm at 2.
    rewrite (List.filter_ext _ (fun _ => true)).
    + clear. induction (JsArray.sort _ _) as [|x l IH]; simpl; [done|].
      by apply perm_skip.
    + intros it. unfold SearchScan.contains_term. simpl. apply includes_empty.
Qed.

(** Whatever the prefix index finds, the scan finds too: after
    [buildHashMap] on a collection, every result of [HashMapSearch.search]
    on an indexed field is among the results of [BinarySearch.search] on
    the same collection, term and field. *)
Theorem hashMap_results_among_binarySearch_results
    (items : list InventoryItem.t) (hm : HashMapSearch.state)
    (term : string) (field : key) (r : InventoryItem.t) :
  In field HashMapSearch.fields ->
  In r (HashMapSearch.results
          (HashMapSearch.search
             (HashMapSearch.buildHashMap String_of_number items hm)
             term field)) ->
  In r (BinarySearch.results
          (BinarySearch.search String_of_number items term field)).
Proof.
  intros Hfield Hr. rewrite search_built in Hr by done.
  apply fold_push_new_In in Hr as [[]|Hr].
  apply List.filter_In in Hr as [Hin Hreg].
  rewrite search_results. apply List.filter_In. split.
  - apply list_elem_of_In. rewrite sort_perm. by apply list_elem_of_In.
  - unfold HashMapInv.registers in Hreg.
    apply andb_true_iff in Hreg as [_ Hprefix].
    by apply prefix_includes.
Qed.

End WithPrinter.

Lemma hashMap_results_among_binarySearch_results_witness :
  In (sample_item "GameMouse" 2 0.3 50)
     (BinarySearch.results
        (BinarySearch.search (fun _ => EmptyString)
           [sample_item "Keyboard" 1 1 20; sample_item "GameMouse" 2 0.3 50]
           "game" k_name)).
Proof.
  apply (hashMap_results_among_binarySearch_results (fun _ => EmptyString)
           _ HashMapSearch.empty).
  - simpl. tauto.
  - vm_compute. by left.
Defined.

End SearchFacts.

(** ** The allocator: where the items and the quantities go *)

Module GreedyAccountFacts.
Import InventoryItem GreedyBestFit GreedySpec GreedyInv GreedyAccount
  NumInv SortSpec ListFacts GreedyBestFitFacts Samples.

(** The run of the allocator, as the relation [serves_all]. *)
Lemma allocateSpace_runs (items : list InventoryItem.t)
    (availableSpaces : list WarehouseSpace.t) :
  serves_all {| store := availableSpaces;
                spaces := candidates availableSpaces;
                allocations := []; unallocated := [] |}
             (sortedItems items) (run items availableSpaces).
Proof. apply run_serves_all, candidates_NoDup. Qed.

(** *** Every item is placed once *)

Lemma serves_places st it st' :
  serves st it st' ->
  map item (allocations st') ++ unallocated st'
  ≡ₚ it :: (map item (allocations st) ++ unallocated st).
Proof.
  intros [r space _ _|_]; simpl.
  - rewrite map_app. simpl. rewrite <- app_assoc. simpl.
    by rewrite <- Permutation_middle.
  - rewrite app_assoc. by rewrite <- Permutation_cons_append.
Qed.

Lemma serves_all_places st ranked st' :
  serves_all st ranked st' ->
  map item (allocations st') ++ unallocated st'
  ≡ₚ ranked ++ (map item (allocations st) ++ unallocated st).
Proof.
  induction 1 as [|st st' st'' it rest H1 _ IH]; [done|].
  rewrite IH, (serves_places _ _ _ H1). simpl.
  by rewrite <- Permutation_middle.
Qed.

(** Every item handed to [allocateSpace] comes back exactly once, either
    in an allocation or in [unallocated]: the items of the allocations
    followed by the unallocated items are a rearrangement of the input. *)
Theorem allocateSpace_places_each_item_once
    (items : list InventoryItem.t) (availableSpaces : list WarehouseSpace.t) :
  let out := allocateSpace items availableSpaces in
  Permutation (map item (res_allocations out) ++ res_unallocated out) items /\
  (length (res_allocations out) + length (res_unallocated out)
   = length items)%nat.
Proof.
  cbv zeta. cbn [allocateSpace res_allocations res_unallocated].
  pose proof (serves_all_places _ _ _ (allocateSpace_runs items availableSpaces))
    as Hp.
  cbn [allocations unallocated map app] in Hp. rewrite app_nil_r in Hp.
  assert (Hperm : map item (allocations (run items availableSpaces)) ++
                  unallocated (run items availableSpaces) ≡ₚ items).
  { rewrite Hp. apply sort_perm. }
  split; [exact Hperm|].
  apply Permutation_length in Hperm.
  by rewrite length_app, length_map in Hperm.
Qed.


(** *** Where the quantities go *)

Lemma allocated_to_app r (allocs : list SpaceAllocation) a :
  allocated_to r (allocs ++ [a]) =
  allocated_to r allocs +
  (if (allocatedSpace a =? r)%nat then quantity (item a) else 0).
Proof.
  induction allocs as [|b allocs IH]; simpl.
  - destruct (_ =? _)%nat; lia.
  - rewrite IH. destruct (allocatedSpace b =? r)%nat; lia.
Qed.

Lemma filled_by_zero space : filled_by 0 space space.
Proof. unfold filled_by. split_and!; try done; lia. Qed.

Lemma filled_by_occupy taken before space it :
  safe space -> 0 <= quantity it <= WarehouseSpace.available space ->
  filled_by taken before space ->
  filled_by (taken + quantity it) before (occupy space it).
Proof.
  intros Hsafe Hq Hf.
  destruct (occupy_safe space it Hsafe Hq) as (_ & Ho & Ha).
  destruct Hf as (H1 & H2 & H3 & H4 & H5 & H6 & H7).
  unfold filled_by. rewrite Ho, Ha, H6, H7. unfold occupy. simpl.
  split_and!; try done; lia.
Qed.

Lemma accounted_start store0 :
  accounted store0 {| store := store0; spaces := candidates store0;
                      allocations := []; unallocated := [] |}.
Proof.
  split; simpl; try done.
  intros r before Hr. exists before. split; [done|apply filled_by_zero].
Qed.

Lemma serves_accounted store0 st it st' :
  0 <= quantity it -> Forall safe (store st) ->
  serves st it st' -> accounted store0 st -> accounted store0 st'.
Proof.
  intros Hq Hsafe [r space Hbest Hs|_] [Hlen Hfill Hpool Hun Hrefs];
    [|by split].
  pose proof (best_fit_In _ _ _ _ Hbest) as Hin.
  destruct (best_fit_fits _ _ _ _ Hbest) as (space' & Hs' & Hfit).
  assert (space' = space) as -> by congruence.
  assert (Hspace : safe space).
  { rewrite Forall_forall in Hsafe. apply Hsafe.
    by eapply list_elem_of_lookup_2. }
  split; simpl.
  - by rewrite length_insert.
  - intros r' before Hr'. rewrite allocated_to_app. simpl.
    destruct (Hfill r' before Hr') as (after & Ha & Hf).
    destruct (Nat.eqb_spec r r') as [<-|Hne].
    + assert (after = space) as -> by congruence.
      exists (occupy space it). split; [|by apply filled_by_occupy].
      apply list_lookup_insert_eq. by eapply lookup_lt_Some.
    + exists after. rewrite Z.add_0_r.
      split; [|done]. by rewrite list_lookup_insert_ne.
  - intros r'. destruct (_ =? 0); [|by apply Hpool].
    intros Hf. apply List.filter_In in Hf as [Hf _]. by apply Hpool.
  - intros r' Hr'. rewrite list_lookup_insert_ne; [by apply Hun|].
    intros ->. apply Hr'. by apply Hpool.
  - intros a Ha. apply in_app_iff in Ha as [Ha|[<-|[]]]; [by apply Hrefs|].
    simpl. by apply Hpool.
Qed.

Lemma serves_all_accounted store0 st ranked st' :
  serves_all st ranked st' ->
  (forall it, In it ranked -> 0 <= quantity it) ->
  Forall safe (store st) -> accounted store0 st -> accounted store0 st'.
Proof.
  induction 1 as [|st st' st'' it rest H1 _ IH]; intros Hq Hsafe Hacc;
    [done|].
  apply IH.
  - intros x Hx. apply Hq. by right.
  - eapply serves_safe; [apply Hq; by left|done|done].
  - eapply serves_accounted; eauto. apply Hq. by left.
Qed.

(** The quantities are accounted for, as long as the counts are safe
    integers. When every space unit starts with [available = capacity -
    occupied], neither count negative and a capacity of 2^53 at most, and
    no item has a negative quantity, then after [allocateSpace] every
    space unit of the call is still there with the same identity, place
    and capacity; its [occupied] has grown, and its [available] has
    shrunk, by the total quantity of the items allocated to it. A space
    unit that had no room at the call is left as it was, and every
    allocation names a space unit that had room. *)
Theorem allocateSpace_accounts_for_quantities
    (items : list InventoryItem.t) (availableSpaces : list WarehouseSpace.t) :
  Forall (fun space =>
            WarehouseSpace.available space
            = WarehouseSpace.capacity space - WarehouseSpace.occupied space /\
            0 <= WarehouseSpace.available space /\
            0 <= WarehouseSpace.occupied space /\
            WarehouseSpace.capacity space <= 2 ^ 53) availableSpaces ->
  (forall it, In it items -> 0 <= quantity it) ->
  let out := allocateSpace items availableSpaces in
  length (res_store out) = length availableSpaces /\
  (forall r before, availableSpaces !! r = Some before ->
     exists after,
       res_store out !! r = Some after /\
       filled_by (allocated_to r (res_allocations out)) before after) /\
  (forall r before, availableSpaces !! r = Some before ->
     WarehouseSpace.available before <= 0 ->
     res_store out !! r = Some before) /\
  (forall a, In a (res_allocations out) ->
     exists before, availableSpaces !! allocatedSpace a = Some before /\
                    0 < WarehouseSpace.available before).
Proof.
  intros Hinit Hq. cbv zeta. cbn [allocateSpace res_allocations res_store].
  assert (Hsafe : Forall safe availableSpaces).
  { eapply Forall_impl; [exact Hinit|]. unfold safe, consistent.
    intros space. simpl. lia. }
  assert (Hranked : forall it, In it (sortedItems items) -> 0 <= quantity it).
  { intros it Hit. apply Hq. unfold sortedItems in Hit.
    eapply Permutation_in; [apply sort_perm|done]. }
  pose proof (serves_all_accounted availableSpaces _ _ _
                (allocateSpace_runs items availableSpaces) Hranked Hsafe
                (accounted_start availableSpaces))
    as [Hlen Hfill Hpool Hun Hrefs].
  split_and!; try done.
  - intros r before Hr Hav. rewrite Hun; [done|].
    intros Hc. apply candidates_spec in Hc as (space & Hs & Hpos).
    assert (space = before) as -> by congruence. lia.
  - intros a Ha. by apply candidates_spec, Hrefs.
Qed.


(** Two items and two space units: the unit that takes the item of
    quantity 5 has 5 more occupied and 5 less available. *)
Lemma allocateSpace_accounts_for_quantities_witness :
  exists after,
    res_store
      (allocateSpace [sample_item "a" 5 1 10; sample_item "b" 8 2 10]
         [sample_space "s1" 6 0; sample_space "s2" 10 5]) !! 1%nat
    = Some after /\
    WarehouseSpace.occupied after = 10 /\ WarehouseSpace.available after = 0.
Proof.
  destruct (allocateSpace_accounts_for_quantities
              [sample_item "a" 5 1 10; sample_item "b" 8 2 10]
              [sample_space "s1" 6 0; sample_space "s2" 10 5])
    as (_ & Hfill & _).
  - repeat constructor; simpl; lia.
  - intros it [<-|[<-|[]]]; simpl; lia.
  - destruct (Hfill 1%nat (sample_space "s2" 10 5) eq_refl)
      as (after & Hafter & Hf).
    exists after. split; [exact Hafter|].
    destruct Hf as (_ & _ & _ & _ & _ & Ho & Ha).
    rewrite Ho, Ha. by vm_compute.
Defined.


(** *** The pool, and the items that stay out *)

Lemma pool_live_start (store0 : list WarehouseSpace.t) :
  pool_live {| store := store0; spaces := candidates store0;
               allocations := []; unallocated := [] |}.
Proof. intros r. apply candidates_spec. Qed.

Lemma serves_pool_live st it st' :
  serves st it st' -> pool_live st -> pool_live st'.
Proof.
  intros [r space Hbest Hs|_] Hlive; [|done].
  pose proof (best_fit_In _ _ _ _ Hbest) as Hin.
  destruct (best_fit_fits _ _ _ _ Hbest) as (space' & Hs' & Hq).
  assert (space' = space) as -> by congruence.
  assert (Hr : (r < length (store st))%nat) by (by eapply lookup_lt_Some).
  intros r'. simpl. destruct (decide (r' = r)) as [->|Hne].
  - rewrite list_lookup_insert_eq by done.
    pose proof (NumZFacts.nearest_sign
                  (WarehouseSpace.available space - quantity it)
                  ltac:(lia)) as Hsign.
    destruct (Z.eqb_spec
                (NumZ.nearest (WarehouseSpace.available space - quantity it))
                0) as [Hz|Hnz].
    + split.
      * intros Hf. apply List.filter_In in Hf as [_ Hf].
        by rewrite Nat.eqb_refl in Hf.
      * intros (after & [= <-] & Hpos). simpl in Hpos. lia.
    + split; [|done]. intros _. eexists. split; [done|]. simpl. lia.
  - rewrite list_lookup_insert_ne by done. rewrite <- (Hlive r').
    destruct (_ =? 0); [|done]. rewrite List.filter_In.
    destruct (Nat.eqb_spec r' r); [done|]. simpl. tauto.
Qed.

(** What is available stays a double. *)
Lemma serves_doubles st it st' :
  serves st it st' ->
  Forall (fun space => double (WarehouseSpace.available space)) (store st) ->
  Forall (fun space => double (WarehouseSpace.available space)) (store st').
Proof.
  intros [r space Hbest Hs|_] Hall; simpl; [|done].
  apply Forall_insert; [done|]. simpl. apply NumZFacts.nearest_double.
Qed.

Lemma serves_all_unallocated (st : state) (ranked : list InventoryItem.t)
    (st' : state) :
  serves_all st ranked st' ->
  Forall (fun it => 0 <= quantity it) ranked ->
  pool_live st ->
  Forall (fun space => double (WarehouseSpace.available space)) (store st) ->
  (forall it, In it (unallocated st) -> 0 < quantity it ->
              fits_nowhere (store st) it) ->
  forall it, In it (unallocated st') -> 0 < quantity it ->
             fits_nowhere (store st') it.
Proof.
  induction 1 as [|st st' st'' x rest H1 _ IH]; intros Hq Hlive Hdbl Hout;
    [done|].
  apply Forall_cons in Hq as [Hx Hrest].
  apply IH; [done|by eapply serves_pool_live|by eapply serves_doubles|].
  clear IH.
  destruct H1 as [r space Hbest Hs|Hnone]; simpl.
  - intros it Hit Hpos. specialize (Hout it Hit Hpos).
    unfold fits_nowhere in *. rewrite Forall_forall in Hout.
    apply Forall_insert; [by apply Forall_forall|]. simpl.
    assert (WarehouseSpace.available space < quantity it)
      by (apply Hout; by eapply list_elem_of_lookup_2).
    assert (Hd : double (WarehouseSpace.available space)).
    { rewrite Forall_forall in Hdbl. apply Hdbl.
      by eapply list_elem_of_lookup_2. }
    pose proof (NumZFacts.nearest_sub_le _ (quantity x) Hd Hx). lia.
  - intros it Hit Hpos. apply in_app_iff in Hit as [Hit|[<-|[]]];
      [by apply Hout|].
    apply Forall_forall. intros space Hspace.
    apply list_elem_of_lookup in Hspace as [r Hr].
    destruct (Z.lt_ge_cases (WarehouseSpace.available space) (quantity x))
      as [|Hge]; [done|].
    exfalso. apply (Hnone r).
    + apply Hlive. exists space. split; [done|lia].
    + exists space. split; [done|lia].
Qed.

(** An item is left unallocated only when it fits nowhere. When no
    quantity is negative, an item of positive quantity that
    [allocateSpace] returns in [unallocated] is larger than what any
    space unit has available after the call. What the space units have
    available at the call are numbers of the program: doubles. *)
Theorem allocateSpace_unallocated_fits_nowhere
    (items : list InventoryItem.t) (availableSpaces : list WarehouseSpace.t) :
  Forall (fun space => double (WarehouseSpace.available space))
         availableSpaces ->
  (forall it, In it items -> 0 <= quantity it) ->
  let out := allocateSpace items availableSpaces in
  forall it, In it (res_unallocated out) -> 0 < quantity it ->
    Forall (fun space => WarehouseSpace.available space < quantity it)
           (res_store out).
Proof.
  intros Hdbl Hq. cbv zeta. cbn [allocateSpace res_unallocated res_store].
  apply (serves_all_unallocated _ _ _ (allocateSpace_runs items availableSpaces)).
  - apply Forall_forall. intros it Hit. apply Hq.
    apply list_elem_of_In. revert Hit. apply elem_of_Permutation_proper.
    symmetry. apply sort_perm.
  - apply pool_live_start.
  - exact Hdbl.
  - intros it [].
Qed.

(** Two items and two space units: the denser item takes the unit it
    fills, and the other item, left out, is larger than what remains
    anywhere. *)
Lemma allocateSpace_unallocated_fits_nowhere_witness :
  Forall (fun space => WarehouseSpace.available space < 8)
    (res_store
       (allocateSpace [sample_item "a" 5 1 10; sample_item "b" 8 2 10]
          [sample_space "s1" 6 0; sample_space "s2" 10 5])).
Proof.
  apply (allocateSpace_unallocated_fits_nowhere
           [sample_item "a" 5 1 10; sample_item "b" 8 2 10]
           [sample_space "s1" 6 0; sample_space "s2" 10 5])
    with (it := sample_item "b" 8 2 10).
  - repeat constructor; by vm_compute.
  - intros it [<-|[<-|[]]]; simpl; lia.
  - vm_compute. by left.
  - simpl. lia.
Defined.


(** *** The efficiency of an allocation *)

Lemma efficiency_percentage (q capacity : Z) :
  0 <= q <= capacity -> 0 < capacity ->
  percentage (NumQ.mulQ (NumQ.div (inject_Z q) (inject_Z capacity)) 100).
Proof.
  intros Hq Hc. unfold NumQ.div.
  assert (H0 : (0 < inject_Z capacity)%Q)
    by (change 0%Q with (inject_Z 0); by rewrite <- Zlt_Qlt).
  assert (H1 : (0 <= inject_Z q)%Q)
    by (change 0%Q with (inject_Z 0); rewrite <- Zle_Qle; lia).
  assert (H2 : (inject_Z q <= inject_Z capacity)%Q)
    by (rewrite <- Zle_Qle; lia).
  destruct (Qeq_bool (inject_Z capacity) 0) eqn:E.
  { apply Qeq_bool_iff in E. lra. }
  simpl. eexists. split; [done|].
  assert (0 <= inject_Z q / inject_Z capacity)%Q
    by (apply Qle_shift_div_l; [done|lra]).
  assert (inject_Z q / inject_Z capacity <= 1)%Q
    by (apply Qle_shift_div_r; [done|lra]).
  lra.
Qed.

Lemma serves_all_percentages (st : state) (ranked : list InventoryItem.t)
    (st' : state) :
  serves_all st ranked st' ->
  Forall (fun it => 0 <= quantity it) ranked ->
  pool_live st -> Forall within (store st) ->
  Forall (fun a => percentage (efficiency a)) (allocations st) ->
  Forall (fun a => percentage (efficiency a)) (allocations st').
Proof.
  induction 1 as [|st st' st'' x rest H1 _ IH];
    intros Hq Hlive Hwithin Hall; [done|].
  apply Forall_cons in Hq as [Hx Hrest].
  apply IH; [done|by eapply serves_pool_live| |]; clear IH.
  - destruct H1 as [r space Hbest Hs|_]; simpl; [|done].
    destruct (best_fit_fits _ _ _ _ Hbest) as (space' & Hs' & Hfit).
    assert (space' = space) as -> by congruence.
    apply Forall_insert; [done|].
    rewrite Forall_forall in Hwithin.
    destruct (Hwithin space) as (H1 & H2 & H3);
      [by eapply list_elem_of_lookup_2|].
    unfold within, occupy. simpl.
    pose proof (NumZFacts.nearest_sub_le _ (quantity x) H1 Hx).
    pose proof (NumZFacts.nearest_sign
                  (WarehouseSpace.available space - quantity x) ltac:(lia)).
    split; [apply NumZFacts.nearest_double|lia].
  - destruct H1 as [r space Hbest Hs|_]; simpl; [|done].
    apply Forall_app. split; [done|]. apply Forall_singleton. simpl.
    destruct (best_fit_fits _ _ _ _ Hbest) as (space' & Hs' & Hfit).
    assert (space' = space) as -> by congruence.
    rewrite Forall_forall in Hwithin.
    destruct (Hwithin space) as (H1 & H2 & H3);
      [by eapply list_elem_of_lookup_2|].
    assert (0 < WarehouseSpace.available space).
    { destruct (proj1 (Hlive r) (best_fit_In _ _ _ _ Hbest))
        as (space' & Hs'' & Hpos).
      by assert (space' = space) as -> by congruence. }
    apply efficiency_percentage; lia.
Qed.

(** The efficiency of an allocation is a percentage. When the space
    units start with sound counts ([occupied + available = capacity],
    neither negative, and what is available a number of the program: a
    double) and no quantity is negative, every allocation that
    [allocateSpace] returns has an [efficiency] between 0 and 100. *)
Theorem allocateSpace_efficiency_is_a_percentage
    (items : list InventoryItem.t) (availableSpaces : list WarehouseSpace.t) :
  Forall (fun space =>
            WarehouseSpace.occupied space + WarehouseSpace.available space
            = WarehouseSpace.capacity space /\
            0 <= WarehouseSpace.available space /\
            0 <= WarehouseSpace.occupied space) availableSpaces ->
  Forall (fun space => double (WarehouseSpace.available space))
         availableSpaces ->
  (forall it, In it items -> 0 <= quantity it) ->
  Forall (fun a => exists e, efficiency a = Js.Fin e /\ (0 <= e <= 100)%Q)
         (res_allocations (allocateSpace items availableSpaces)).
Proof.
  intros Hsound Hdbl Hq. cbn [allocateSpace res_allocations].
  apply (serves_all_percentages _ _ _
           (allocateSpace_runs items availableSpaces)); simpl; try done.
  - apply Forall_forall. intros it Hit. apply Hq.
    apply list_elem_of_In. revert Hit. apply elem_of_Permutation_proper.
    symmetry. apply sort_perm.
  - apply pool_live_start.
  - rewrite Forall_forall in *. intros space Hspace.
    destruct (Hsound space Hspace) as (H1 & H2 & H3).
    split; [by apply Hdbl|lia].
Qed.

Lemma allocateSpace_efficiency_is_a_percentage_witness :
  Forall (fun a => exists e, efficiency a = Js.Fin e /\ (0 <= e <= 100)%Q)
         (res_allocations
            (allocateSpace [sample_item "a" 5 1 10; sample_item "b" 8 2 10]
               [sample_space "s1" 6 0; sample_space "s2" 10 5])).
Proof.
  apply allocateSpace_efficiency_is_a_percentage.
  - repeat constructor; simpl; lia.
  - repeat constructor; by vm_compute.
  - intros it [<-|[<-|[]]]; simpl; lia.
Defined.

End GreedyAccountFacts.

(** ** The knapsack optimizer: what it selects, and its edge capacities *)

Module KnapsackSelectionFacts.
Import Js InventoryItem KnapsackOptimization KnapsackSpec KnapsackInv
  KnapsackFacts Samples.

(** Every row of the filled table holds optima, not the last cell only. *)
Lemma fill_all_rows (items : list InventoryItem.t) (capacity : Z) :
  positive_weights items -> 0 <= capacity ->
  forall k, (k <= length items)%nat ->
    row_done items capacity
      (fill items 1 capacity
         (replicate (length items + 1)
            (replicate (Z.to_nat (capacity + 1)) (Fin 0%Q)), 0%nat)).1 k.
Proof.
  intros Hpos Hcap.
  destruct (fill_rows items capacity Hpos Hcap items []
              (replicate (length items + 1)
                 (replicate (Z.to_nat (capacity + 1)) (Fin 0%Q))) 0%nat)
    as [_ Hrows]; [done|apply shaped_initial| | |exact Hrows].
  - intros k Hk w Hw. simpl in Hk. assert (k = 0%nat) as -> by lia.
    exists 0%Q. split; [apply cell_initial; lia|].
    simpl. apply optimum_nil. lia.
  - intros k Hk. apply cell_initial; lia.
Qed.

(** More room and more items to choose from never lower the optimum. *)
Lemma optimum_mono (l l' : list InventoryItem.t) (w w' : Z) (q q' : Q) :
  sublist l l' -> w <= w' ->
  optimum l w q -> optimum l' w' q' -> (q <= q')%Q.
Proof.
  intros Hl Hw [(s & Hs & Hsw & Hq) _] [_ Hub].
  specialize (Hub s (transitivity Hs Hl) ltac:(lia)). lra.
Qed.

Lemma total_weight_rounded (s : list InventoryItem.t) :
  (total_weight s <= inject_Z (total_rounded s))%Q.
Proof.
  induction s as [|x s IH]; simpl; [done|].
  rewrite inject_Z_plus.
  pose proof (ceilWeight_rounds_up x) as [_ Hx]. unfold ceilWeight in Hx.
  unfold rounded. lra.
Qed.

(** The backtracking loop on a table whose rows hold optima: what it
    picks between row [i] and row 0 is a best selection of the first [i]
    items for the capacity [w] it starts with. *)
Lemma backtrack_optimal (items : list InventoryItem.t) (capacity : Z)
    (dp : table) :
  positive_weights items ->
  (forall k, (k <= length items)%nat -> row_done items capacity dp k) ->
  forall (i : nat) (w : Z) (tr : trace),
  (i <= length items)%nat -> 0 <= w <= capacity ->
  exists tr' chosen,
    backtrack dp items i w tr = Ok tr' /\
    selected tr' = selected tr ++ rev chosen /\
    (totalWeight tr' == totalWeight tr + total_weight chosen)%Q /\
    sublist chosen (take i items) /\
    total_rounded chosen <= w /\
    optimum (take i items) w (total_value chosen) /\
    (steps tr <= steps tr' <= steps tr + i)%nat.
Proof.
  intros Hpos Hrows. induction i as [|i IH]; intros w tr Hi Hw.
  - exists tr, []. simpl. rewrite app_nil_r.
    split_and!; try done; try lra; try lia. apply optimum_nil. lia.
  - cbn [backtrack].
    destruct (Z.ltb_spec 0 w) as [Hpos_w|Hzero].
    2: { assert (w = 0) as -> by lia. exists tr, []. simpl.
         rewrite app_nil_r.
         split_and!; try done; try lra; try lia; try apply sublist_nil_l.
         apply optimum_zero. by apply take_positive. }
    assert (exists x, items !! i = Some x) as [x Hx]
      by (apply lookup_lt_is_Some_2; lia).
    rewrite (take_S_r _ _ _ Hx).
    destruct (Hrows (S i) Hi w Hw) as (q & Hq & Oq).
    destruct (Hrows i ltac:(lia) w Hw) as (q' & Hq' & Oq').
    rewrite (take_S_r _ _ _ Hx) in Oq.
    rewrite Hq, Hq'. cbn [differs NumQ.strict_ne].
    destruct (Qeq_bool q q') eqn:Eq; cbn [negb].
    + (* the cell did not change: the item stays out *)
      apply Qeq_bool_iff in Eq.
      destruct (IH w {| selected := selected tr; totalWeight := totalWeight tr;
                        steps := S (steps tr) |} ltac:(lia) Hw)
        as (tr' & chosen & -> & Hsel & Hwt & Hsub & Hr & Oc & Hst).
      cbn [selected totalWeight steps] in Hsel, Hwt, Hst.
      exists tr', chosen. split_and!; try done; try lia.
      * by apply sublist_inserts_r.
      * apply optimum_proper with (q := q); [|done].
        rewrite Eq. eapply optimum_unique; [exact Oq'|exact Oc].
    + (* the cell changed: the item is in *)
      apply Qeq_bool_neq in Eq. rewrite Hx. cbn [selected totalWeight steps].
      assert (Hfit : rounded x <= w).
      { destruct (Z.le_gt_cases (rounded x) w) as [|Hgt]; [done|].
        exfalso. apply Eq. eapply optimum_unique; [exact Oq|].
        apply optimum_skip; [by apply take_positive|lia|done]. }
      pose proof (rounded_positive x) as Hrx.
      assert (Hwx : (0 < weight x)%Q).
      { pose proof Hpos as Hp. unfold positive_weights in Hp.
        rewrite Forall_forall in Hp. apply Hp.
        by eapply list_elem_of_lookup_2. }
      specialize (Hrx Hwx).
      destruct (Hrows i ltac:(lia) (w - rounded x) ltac:(lia))
        as (a & Ha & Oa).
      pose proof (optimum_take _ x w a q' Hfit Oa Oq') as Ot.
      pose proof (optimum_unique _ _ _ _ Oq Ot) as Hq_max.
      destruct (Qmax_spec (value x + a) q') as (_ & _ & [Hm|Hm]);
        [|exfalso; apply Eq; lra].
      destruct (IH (w - ceilWeight x)
                  {| selected := selected tr ++ [x];
                     totalWeight := (totalWeight tr + weight x)%Q;
                     steps := S (steps tr) |} ltac:(lia))
        as (tr' & chosen & -> & Hsel & Hwt & Hsub & Hr & Oc & Hst).
      { unfold ceilWeight. fold (rounded x). lia. }
      cbn [selected totalWeight steps] in Hsel, Hwt, Hst.
      unfold ceilWeight in Hr, Oc. fold (rounded x) in Hr, Oc.
      pose proof (optimum_unique _ _ _ _ Oa Oc) as Ha_c.
      exists tr', (chosen ++ [x]). split_and!; try lia.
      * done.
      * rewrite Hsel, rev_app_distr. simpl. by rewrite <- app_assoc.
      * rewrite Hwt, total_weight_app. simpl. lra.
      * by apply sublist_app.
      * rewrite total_rounded_app. simpl. lia.
      * apply optimum_proper with (q := q); [|done].
        rewrite total_value_app. simpl. lra.
Qed.

(** With nothing to scan ([capacity] is 0 or -1) the table stays as it
    was created. *)
Lemma fill_no_widths (items : list InventoryItem.t) (capacity : Z) :
  capacity <= 0 -> forall i acc, fill items i capacity acc = acc.
Proof.
  intros Hcap. induction items as [|x items IH]; intros i acc; [done|].
  cbn [fill]. unfold widths. replace (Z.to_nat capacity) with 0%nat by lia.
  simpl. apply IH.
Qed.

(** The run of [optimizeValue] on items of positive weight. *)
Lemma optimizeValue_optimal (items : list InventoryItem.t) (capacity : Z) :
  positive_weights items -> 0 <= capacity < 4294967295 ->
  exists r v,
    optimizeValue items capacity = Ok r /\
    totalValue r = Some (Fin v) /\
    optimum items capacity v /\
    sublist (selectedItems r) items /\
    (total_value (selectedItems r) == v)%Q /\
    total_rounded (selectedItems r) <= capacity /\
    (res_totalWeight r == total_weight (selectedItems r))%Q.
Proof.
  intros Hpos [Hcap Hmax]. unfold optimizeValue.
  rewrite array_length_ok by lia.
  pose proof (fill_all_rows items capacity Hpos Hcap) as Hrows.
  destruct (fill items 1 capacity _) as [dp c]. cbn [fst] in Hrows.
  destruct (backtrack_optimal items capacity dp Hpos Hrows (length items)
              capacity {| selected := []; totalWeight := 0%Q; steps := 0 |}
              (Nat.le_refl _) ltac:(lia))
    as (tr & chosen & -> & Hsel & Hwt & Hsub & Hr & Oc & _).
  simpl in Hsel, Hwt. rewrite firstn_all in Hsub, Oc.
  destruct (Hrows (length items) (Nat.le_refl _) capacity ltac:(lia))
    as (q & Hq & Oq).
  rewrite firstn_all in Oq.
  eexists. exists q. split; [reflexivity|].
  cbn [selectedItems totalValue res_totalWeight].
  rewrite Hsel, rev_involutive. split_and!; try done.
  - eapply optimum_unique; [exact Oc|exact Oq].
  - rewrite Hwt. lra.
Qed.



(** The capacities at the edge. For every list of items: a capacity
    below -1 or above 2^32 - 2 makes [optimizeValue] throw a [RangeError]
    (the row length [capacity + 1] is negative, or more than an array can
    have) and every other capacity gives a result; capacity 0 selects
    nothing, with value and weight 0 and no comparison made; capacity -1
    selects nothing either, and its [totalValue] is [undefined]. *)
Theorem optimizeValue_edge_capacities
    (items : list InventoryItem.t) (capacity : Z) :
  (optimizeValue items capacity = Throw (RangeError "Invalid array length")
   <-> capacity < -1 \/ 4294967294 < capacity) /\
  ((exists r, optimizeValue items capacity = Ok r /\
              sublist (selectedItems r) items /\
              AlgorithmPerformance.dataSize (performance r) = length items)
   <-> -1 <= capacity <= 4294967294) /\
  optimizeValue items 0 =
    Ok {| selectedItems := []; totalValue := Some (Fin 0%Q);
          res_totalWeight := 0%Q;
          performance :=
            {| AlgorithmPerformance.algorithm := "0/1 Knapsack";
               AlgorithmPerformance.operation := "Value Optimization";
               AlgorithmPerformance.dataSize := length items;
               AlgorithmPerformance.comparisons := Some 0%nat;
               AlgorithmPerformance.swaps := None |} |} /\
  optimizeValue items (-1) =
    Ok {| selectedItems := []; totalValue := None;
          res_totalWeight := 0%Q;
          performance :=
            {| AlgorithmPerformance.algorithm := "0/1 Knapsack";
               AlgorithmPerformance.operation := "Value Optimization";
               AlgorithmPerformance.dataSize := length items;
               AlgorithmPerformance.comparisons := Some 0%nat;
               AlgorithmPerformance.swaps := None |} |}.
Proof.
  assert (Hok : -1 <= capacity <= 4294967294 ->
            exists r, optimizeValue items capacity = Ok r /\
              sublist (selectedItems r) items /\
              AlgorithmPerformance.dataSize (performance r) = length items).
  { intros Hcap. unfold optimizeValue. rewrite array_length_ok by lia.
    destruct (fill items 1 capacity _) as [dp c].
    destruct (backtrack_selects dp items (length items) capacity
                {| selected := []; totalWeight := 0%Q; steps := 0 |}
                (Nat.le_refl _)) as (tr & chosen & -> & Hs & Hsel & _).
    simpl in Hsel. rewrite firstn_all in Hs.
    eexists. split; [reflexivity|]. cbn [selectedItems performance].
    rewrite Hsel, rev_involutive. done. }
  assert (Hthrow : capacity < -1 \/ 4294967294 < capacity ->
            optimizeValue items capacity
            = Throw (RangeError "Invalid array length")).
  { intros Hcap. unfold optimizeValue.
    destruct (Z.ltb_spec (capacity + 1) 0) as [_|?]; [done|].
    destruct (Z.ltb_spec 4294967295 (capacity + 1)) as [_|?]; [done|lia]. }
  split_and!.
  - split; [|done]. intros Ht.
    destruct (Z.lt_ge_cases capacity (-1)) as [|Hge]; [by left|].
    destruct (Z.lt_ge_cases 4294967294 capacity) as [|Hle]; [by right|].
    destruct (Hok ltac:(lia)) as (r & Hr & _). congruence.
  - split; [|done]. intros (r & Hr & _).
    destruct (Z.lt_ge_cases capacity (-1)) as [Hlt|].
    { rewrite (Hthrow (or_introl Hlt)) in Hr. discriminate. }
    destruct (Z.lt_ge_cases 4294967294 capacity) as [Hgt|]; [|lia].
    rewrite (Hthrow (or_intror Hgt)) in Hr. discriminate.
  - unfold optimizeValue. rewrite array_length_ok by lia.
    rewrite fill_no_widths by lia.
    rewrite (cell_initial (length items + 1) 0) by lia.
    by destruct (length items).
  - unfold optimizeValue. rewrite array_length_ok by lia.
    rewrite fill_no_widths by lia.
    by destruct (length items).
Qed.

(** More capacity, or more items to choose from, never lowers the value
    that [optimizeValue] reports, and that value is never negative. The
    capacities are those for which a row of the table can be made. *)
Theorem optimizeValue_monotone
    (items items' : list InventoryItem.t) (capacity capacity' : Z) :
  Forall (fun it => (0 < weight it)%Q) items' ->
  sublist items items' ->
  0 <= capacity <= capacity' ->
  capacity' < 4294967295 ->
  exists r r' v v',
    optimizeValue items capacity = Ok r /\
    optimizeValue items' capacity' = Ok r' /\
    totalValue r = Some (Fin v) /\
    totalValue r' = Some (Fin v') /\
    (0 <= v <= v')%Q.
Proof.
  intros Hpos Hsub Hcap Hmax.
  assert (Hpos0 : positive_weights items)
    by (by eapply sublist_positive).
  destruct (optimizeValue_optimal items capacity Hpos0 ltac:(lia))
    as (r & v & Hr & Hv & Ov & _).
  destruct (optimizeValue_optimal items' capacity' Hpos ltac:(lia))
    as (r' & v' & Hr' & Hv' & Ov' & _).
  exists r, r', v, v'. split_and!; try done.
  - destruct Ov as [_ Hub]. apply (Hub []); [apply sublist_nil_l|simpl; lia].
  - eapply optimum_mono; [exact Hsub| |exact Ov|exact Ov']. lia.
Qed.

Lemma optimizeValue_monotone_witness :
  exists r r' v v',
    optimizeValue [sample_item "b" 1 2.7 4] 3 = Ok r /\
    optimizeValue [sample_item "a" 1 1.5 3; sample_item "b" 1 2.7 4] 5
    = Ok r' /\
    totalValue r = Some (Fin v) /\
    totalValue r' = Some (Fin v') /\
    (0 <= v <= v')%Q.
Proof.
  apply optimizeValue_monotone.
  - repeat constructor.
  - apply sublist_cons. reflexivity.
  - lia.
  - lia.
Defined.

(** *** The count of comparisons *)

Lemma fillCell_count i x (ws : list Z) : forall (acc : table * nat),
  (fold_left (fillCell i x) ws acc).2 = (acc.2 + length ws)%nat.
Proof.
  induction ws as [|w ws IH]; intros [dp c]; simpl; [lia|].
  rewrite IH. unfold fillCell. destruct (ceilWeight x <=? w); simpl; lia.
Qed.

Lemma fill_count (items : list InventoryItem.t) (capacity : Z) :
  forall (i : nat) (acc : table * nat),
  (fill items i capacity acc).2
  = (acc.2 + length items * Z.to_nat capacity)%nat.
Proof.
  induction items as [|x items IH]; intros i acc; simpl; [lia|].
  rewrite IH, fillCell_count. unfold widths.
  rewrite length_map, length_seq. lia.
Qed.

Lemma backtrack_steps (dp : table) (items : list InventoryItem.t) (i : nat) :
  forall (w : Z) (tr tr' : trace),
  backtrack dp items i w tr = Ok tr' ->
  (steps tr <= steps tr' <= steps tr + i)%nat.
Proof.
  induction i as [|i IH]; intros w tr tr'; simpl.
  - intros [= <-]. lia.
  - destruct (0 <? w); [|intros [= <-]; lia].
    destruct (differs _ _).
    + destruct (items !! i) as [x|]; [|done].
      intros H. apply IH in H. simpl in H. lia.
    + intros H. apply IH in H. simpl in H. lia.
Qed.

(** The work is the size of the table. For every list of [n] items and
    every capacity for which it does not throw, [optimizeValue] reports
    one comparison per cell of the rows of the items ([n] times the
    capacity) and, for the backtracking, at most [n] more. *)
Theorem optimizeValue_comparisons_count
    (items : list InventoryItem.t) (capacity : Z) :
  optimizeValue items capacity = Throw (RangeError "Invalid array length") \/
  exists r back,
    optimizeValue items capacity = Ok r /\
    AlgorithmPerformance.comparisons (performance r)
    = Some (length items * Z.to_nat capacity + back)%nat /\
    (back <= length items)%nat.
Proof.
  unfold optimizeValue.
  destruct ((capacity + 1 <? 0) || (4294967295 <? capacity + 1));
    [by left|]. right.
  pose proof (fill_count items capacity 1
                (replicate (length items + 1)
                   (replicate (Z.to_nat (capacity + 1)) (Fin 0%Q)), 0%nat))
    as Hfill.
  destruct (fill items 1 capacity _) as [dp c]. simpl in Hfill. subst c.
  destruct (backtrack_selects dp items (length items) capacity
              {| selected := []; totalWeight := 0%Q; steps := 0 |}
              (Nat.le_refl _)) as (tr & chosen & Hrun & _).
  pose proof (backtrack_steps _ _ _ _ _ _ Hrun) as Hsteps. simpl in Hsteps.
  rewrite Hrun. cbn [mbind res_bind Js.bind].
  eexists. exists (steps tr). split; [done|]. split; [done|lia].
Qed.

End KnapsackSelectionFacts.

(** ** Looking locations up *)

Module LocationLookupFacts.
Import Js DijkstraPathFinder RouteSpec DijkstraInv DijkstraFacts
  DijkstraRunFacts Samples.

Lemma findIndex_first {A} (p : A -> bool) (l : list A) (i : nat) :
  findIndex p l = Some i ->
  forall j y, (j < i)%nat -> l !! j = Some y -> p y = false.
Proof.
  revert i. induction l as [|x l IH]; intros i; simpl; [done|].
  destruct (p x) eqn:E.
  - intros [= <-] j y Hj. lia.
  - destruct (findIndex p l) as [k|]; [|done]. simpl. intros [= <-].
    intros [|j] y Hj; simpl; [by intros [= <-]|].
    apply (IH k eq_refl). lia.
Qed.

(** The two lookups of the planner invert each other. After
    [initializeWarehouseGraph], [getAllLocations] is the list that was
    given; the index that [findLocationIndex] finds for a location is the
    first one at which [getLocationByIndex] returns that location; a
    location that [getLocationByIndex] returns at some index is found at
    that index or before it; and [getLocationByIndex] returns [null]
    exactly for the indices below 0 or from the number of locations on. *)
Theorem getLocationByIndex_inverts_findLocationIndex
    (locs : list Location.t) (st0 : state) :
  let st := initializeWarehouseGraph locs st0 in
  getAllLocations st = locs /\
  (forall location i, findLocationIndex st location = Some i ->
     getLocationByIndex st (Z.of_nat i) = Some location /\
     forall j, (j < i)%nat ->
               getLocationByIndex st (Z.of_nat j) <> Some location) /\
  (forall index location, getLocationByIndex st index = Some location ->
     exists i, findLocationIndex st location = Some i /\
               Z.of_nat i <= index) /\
  (forall index, getLocationByIndex st index = None <->
                 index < 0 \/ Z.of_nat (length locs) <= index).
Proof.
  intros st.
  assert (Hat : forall i : nat,
            getLocationByIndex st (Z.of_nat i) = locs !! i).
  { intros i. unfold getLocationByIndex.
    destruct (Z.ltb_spec (Z.of_nat i) 0); [lia|]. by rewrite Nat2Z.id. }
  split_and!.
  - done.
  - intros location i Hi. unfold findLocationIndex in Hi. split.
    + rewrite Hat. apply findIndex_Some in Hi as (x & Hx & Hp).
      apply same_location in Hp. by subst.
    + intros j Hj. rewrite Hat. intros Hloc.
      pose proof (findIndex_first _ _ _ Hi j location Hj Hloc) as Hp.
      assert (location = location) as Heq by done.
      apply same_location in Heq. congruence.
  - intros index location. unfold getLocationByIndex.
    destruct (Z.ltb_spec index 0) as [|Hge]; [done|]. intros Hloc.
    destruct (findLocationIndex st location) as [i|] eqn:Ei.
    + exists i. split; [done|].
      destruct (Z.le_gt_cases (Z.of_nat i) index) as [|Hgt]; [done|].
      exfalso. unfold findLocationIndex in Ei.
      pose proof (findIndex_first _ _ _ Ei (Z.to_nat index) location
                    ltac:(lia) Hloc) as Hp.
      assert (location = location) as Heq by done.
      apply same_location in Heq. congruence.
    + exfalso. unfold findLocationIndex in Ei.
      rewrite findIndex_None in Ei.
      assert (location = location) as Heq by done.
      apply same_location in Heq.
      rewrite Ei in Heq; [done|].
      apply list_elem_of_In. by eapply list_elem_of_lookup_2.
  - intros index. unfold getLocationByIndex.
    destruct (Z.ltb_spec index 0) as [Hneg|Hge].
    + split; [by left|done].
    + rewrite lookup_ge_None. cbn [st initializeWarehouseGraph locations].
      lia.
Qed.

End LocationLookupFacts.

(** ** The picking route *)

Module RouteTourFacts.
Import Js DijkstraPathFinder RouteSpec DijkstraInv RouteTour ListFacts
  DijkstraFacts DijkstraRunFacts DijkstraSearchFacts DijkstraMetricFacts
  Samples.

(** *** Walks that grow at the end *)

Lemma walk_length_snoc (g : list (list NumZ.t)) (p : list nat) :
  forall (a b : nat) (total w : Z),
  last p = Some a -> walk_length g p = Some total ->
  entry g a b = Some (Fin w) -> (b < length g)%nat ->
  walk_length g (p ++ [b]) = Some (total + w).
Proof.
  induction p as [|x p IH]; intros a b total w Hlast Hwalk Hedge Hb; [done|].
  destruct p as [|y p].
  - simpl in Hlast. injection Hlast as ->.
    simpl in Hwalk. destruct (decide (a < length g)%nat); [|done].
    injection Hwalk as <-.
    change ([a] ++ [b]) with (a :: [b]). rewrite walk_length_cons, Hedge.
    simpl. rewrite decide_True by done. f_equal. lia.
  - change ((x :: y :: p) ++ [b]) with (x :: y :: (p ++ [b])).
    rewrite walk_length_cons in Hwalk. rewrite walk_length_cons.
    destruct (entry g x y) as [[e| | |]|]; try done.
    destruct (walk_length g (y :: p)) as [rest|] eqn:Er; [|done].
    injection Hwalk as <-.
    change (y :: p ++ [b]) with ((y :: p) ++ [b]).
    rewrite (IH a b rest w); try done. f_equal. lia.
Qed.

Lemma walk_cost_snoc (g : list (list NumZ.t)) (p : list nat) (a b : nat)
    (w : NumZ.t) :
  last p = Some a -> entry g a b = Some w ->
  walk_cost g (p ++ [b]) = NumZ.add (walk_cost g p) w.
Proof.
  destruct p as [|x rest]; [done|]. intros Hlast Hedge.
  cbn [app walk_cost]. case_decide; [|done].
  by apply (cost_from_snoc g rest (Fin 0) x b a w).
Qed.

Lemma walk_length_nonneg (g : list (list NumZ.t)) :
  (forall i j w, entry g i j = Some (Fin w) -> 0 <= w) ->
  forall p total, walk_length g p = Some total -> 0 <= total.
Proof.
  intros Hg. induction p as [|x p IH]; intros total Hw; [done|].
  destruct p as [|y p].
  - simpl in Hw. case_decide; [|done]. injection Hw as <-. lia.
  - rewrite walk_length_cons in Hw.
    destruct (entry g x y) as [[w| | |]|] eqn:Ee; try done.
    destruct (walk_length g (y :: p)) as [rest|] eqn:Er; [|done].
    injection Hw as <-. specialize (IH rest eq_refl).
    pose proof (Hg _ _ _ Ee). lia.
Qed.

(** A walk whose length is a safe integer costs its length: no sum on
    the way is rounded. *)
Lemma walk_cost_exact (g : list (list NumZ.t)) :
  (forall i j w, entry g i j = Some (Fin w) -> 0 <= w) ->
  forall p total,
    walk_length g p = Some total -> total <= 2 ^ 53 ->
    walk_cost g p = Fin total.
Proof.
  intros Hg.
  assert (H : forall rest x acc total,
            0 <= acc -> walk_length g (x :: rest) = Some total ->
            acc + total <= 2 ^ 53 ->
            cost_from g (Fin acc) x rest = Fin (acc + total)).
  { induction rest as [|y rest IH]; intros x acc total Hacc Hw Hle.
    - simpl in Hw. case_decide; [|done]. injection Hw as <-.
      simpl. f_equal. lia.
    - rewrite walk_length_cons in Hw. cbn [cost_from].
      destruct (entry g x y) as [[w| | |]|] eqn:Ee; try done.
      destruct (walk_length g (y :: rest)) as [t'|] eqn:Er; [|done].
      injection Hw as <-.
      pose proof (Hg _ _ _ Ee) as Hw.
      pose proof (walk_length_nonneg g Hg _ _ Er) as Ht.
      rewrite NumZFacts.add_small by lia.
      rewrite (IH y (acc + w) t') by (done || lia). f_equal. lia. }
  intros [|x rest] total Hw Hle; [done|]. cbn [walk_cost].
  rewrite decide_True.
  - rewrite (H rest x 0 total) by (done || lia). done.
  - destruct rest as [|y rest].
    + simpl in Hw. by case_decide.
    + rewrite walk_length_cons in Hw.
      destruct (entry g x y) as [w|] eqn:Ee; [|done].
      unfold entry in Ee. destruct (g !! x) eqn:Ex; [|done].
      by eapply lookup_lt_Some.
Qed.

Lemma nearest_first_snoc (m : nat -> nat -> Z) (dests : list nat)
    (rest : list nat) :
  forall (seen : list nat) (current b c : nat),
  nearest_first m dests seen current rest ->
  last (current :: rest) = Some c ->
  In b dests -> ~ In b (seen ++ current :: rest) ->
  (forall d, In d dests -> ~ In d (seen ++ current :: rest) ->
             m c b <= m c d) ->
  nearest_first m dests seen current (rest ++ [b]).
Proof.
  induction rest as [|b0 rest IH]; intros seen current b c Hnf Hlast Hb Hnew Hmin.
  - simpl in Hlast. injection Hlast as ->. simpl.
    split_and!; try done.
    + intros H. apply Hnew. apply in_app_iff. destruct H as [->|H];
        [right; by left|by left].
    + intros d Hd Hout. apply Hmin; [done|]. intros H. apply Hout.
      apply in_app_iff in H as [H|[->|[]]]; [by right|by left].
  - destruct Hnf as (H1 & H2 & H3 & Hnf). simpl. split_and!; try done.
    apply (IH (current :: seen) b0 b c); try done.
    + intros H. apply Hnew. apply in_app_iff.
      destruct H as [->|H]; [right; by left|].
      apply in_app_iff in H as [H|H]; [by left|right; by right].
    + intros d Hd Hout. apply Hmin; [done|]. intros H. apply Hout.
      apply in_app_iff in H as [H|[->|H]].
      * right. apply in_app_iff. by left.
      * by left.
      * right. apply in_app_iff. by right.
Qed.

Lemma nearest_first_In (m : nat -> nat -> Z) (dests rest : list nat) :
  forall seen current,
  nearest_first m dests seen current rest ->
  forall b, In b rest -> In b dests.
Proof.
  induction rest as [|b0 rest IH]; intros seen current Hnf b Hb; [done|].
  destruct Hnf as (H1 & _ & _ & Hnf). destruct Hb as [<-|Hb]; [done|].
  by eapply IH.
Qed.

(** *** The loops of [findOptimalPickingPath] on a graph of direct edges *)

Section Tour.
(** A planner whose matrix holds the lengths [m] and on which the
    primitive returns the direct edge. *)
Variables (st : state) (n : nat) (m : nat -> nat -> Z).
Hypothesis graph_length : length (graph st) = n.
Hypothesis graph_entry :
  forall a b, (a < n)%nat -> (b < n)%nat ->
              entry (graph st) a b = Some (Fin (m a b)).
Hypothesis dijkstra_edge :
  forall a b, (a < n)%nat -> (b < n)%nat ->
  exists r, dijkstra st a b = Ok r /\
            path r = (if decide (a = b) then [b] else [a; b]) /\
            distance r = Fin (m a b).

Lemma findNearest_scanned (current : nat) (visited_ : gset nat)
    (dests : list nat) :
  (current < n)%nat ->
  forall (seen : list nat) (nearest : option nat) (distance_ : NumZ.t)
         (comparisons : nat),
  Forall (fun d => d < n)%nat dests ->
  nearest_scanned m current visited_ seen nearest distance_ ->
  exists nearest' distance',
    findNearest st current visited_ dests nearest distance_ comparisons
    = Ok (nearest', distance', (comparisons + length dests)%nat) /\
    nearest_scanned m current visited_ (seen ++ dests) nearest' distance'.
Proof.
  intros Hcur.
  induction dests as [|d dests IH];
    intros seen nearest distance_ comparisons Hall Hacc.
  - exists nearest, distance_. simpl. rewrite app_nil_r, Nat.add_0_r. done.
  - apply Forall_cons in Hall as [Hd Hall]. cbn [findNearest].
    replace (seen ++ d :: dests) with ((seen ++ [d]) ++ dests)
      by (by rewrite <- app_assoc).
    replace (comparisons + length (d :: dests))%nat
      with (S comparisons + length dests)%nat by (simpl; lia).
    destruct (decide (d ∈ visited_)) as [Hin|Hout].
    + apply IH; [done|].
      destruct nearest as [x|]; simpl in *.
      * destruct Hacc as (Hx & Hv & Hdist & Hmin). split_and!; try done.
        -- apply in_app_iff. by left.
        -- intros d' Hd' Hout'. apply in_app_iff in Hd' as [Hd'|[<-|[]]];
             [by apply Hmin|done].
      * destruct Hacc as [Hdist Hvis]. split; [done|].
        intros d' Hd'. apply in_app_iff in Hd' as [Hd'|[<-|[]]];
          [by apply Hvis|done].
    + destruct (dijkstra_edge current d Hcur Hd) as (r & -> & _ & Hr).
      cbn [mbind res_bind Js.bind]. rewrite Hr.
      destruct nearest as [x|]; simpl in Hacc.
      * destruct Hacc as (Hx & Hv & -> & Hmin). cbn [NumZ.lt].
        destruct (Z.ltb_spec (m current d) (m current x)) as [Hlt|Hge].
        -- apply IH; [done|]. simpl. split_and!; try done.
           ++ apply in_app_iff. right. by left.
           ++ intros d' Hd' Hout'. apply in_app_iff in Hd' as [Hd'|[<-|[]]];
                [|lia].
              specialize (Hmin d' Hd' Hout'). lia.
        -- apply IH; [done|]. simpl. split_and!; try done.
           ++ apply in_app_iff. by left.
           ++ intros d' Hd' Hout'. apply in_app_iff in Hd' as [Hd'|[<-|[]]];
                [by apply Hmin|done].
      * destruct Hacc as [-> Hvis]. cbn [NumZ.lt].
        apply IH; [done|]. simpl. split_and!; try done.
        -- apply in_app_iff. right. by left.
        -- intros d' Hd' Hout'. apply in_app_iff in Hd' as [Hd'|[<-|[]]];
             [|lia].
           by specialize (Hvis d' Hd').
Qed.

(** Once the set of visited nodes is larger than the list of
    destinations, every destination is in it. *)
Lemma touring_complete (s : nat) (dests : list nat) (t : tour) :
  touring (graph st) m s dests t ->
  (length dests < size (t_visited t))%nat ->
  forall d, In d dests -> d ∈ t_visited t.
Proof.
  intros (stops & total & _ & _ & Hvis & Hsize & Hnd & Hnf & _) Hlt d Hd.
  apply Hvis. right.
  apply (List.NoDup_length_incl (l := stops) (l' := dests)); try done.
  - by apply List.NoDup_cons_iff in Hnd as [_ Hnd].
  - rewrite Hsize in Hlt. simpl in Hlt. lia.
  - intros b Hb. by eapply nearest_first_In.
Qed.

Lemma visitAll_tour (s : nat) (dests : list nat) :
  (s < n)%nat -> Forall (fun d => d < n)%nat dests ->
  forall (fuel : nat) (t : tour),
  touring (graph st) m s dests t ->
  (length dests + 1 <= fuel + size (t_visited t))%nat ->
  exists t',
    visitAll fuel st dests t = Ok t' /\
    touring (graph st) m s dests t' /\
    forall d, In d dests -> d ∈ t_visited t'.
Proof.
  intros Hs Hall. induction fuel as [|fuel IH]; intros t Ht Hfuel;
    cbn [visitAll].
  - destruct (Nat.leb_spec (size (t_visited t)) (length dests)); [lia|].
    exists t. split_and!; try done. by apply (touring_complete s).
  - destruct (Nat.leb_spec (size (t_visited t)) (length dests)) as [Hle|Hgt].
    2: { exists t. split_and!; try done. by apply (touring_complete s). }
    pose proof Ht as (stops & total & Hpath & Hlast & Hvis & Hsize & Hnd
                      & Hnf & Htotal & Hwalk).
    assert (Hcur_in : In (t_currentLocation t) (s :: stops)).
    { apply list_elem_of_In. apply last_Some_elem_of. exact Hlast. }
    assert (Hcur : (t_currentLocation t < n)%nat).
    { destruct Hcur_in as [<-|Hin]; [done|].
      rewrite Forall_forall in Hall. apply Hall, list_elem_of_In.
      by eapply nearest_first_In. }
    destruct (findNearest_scanned (t_currentLocation t) (t_visited t) dests
                Hcur [] None PInf (t_comparisons t) Hall)
      as (nearest & dist & -> & Hacc); [by split|].
    cbn [mbind res_bind Js.bind app] in *.
    destruct nearest as [x|]; simpl in Hacc.
    2: { destruct Hacc as [_ Hdone]. eexists. split; [done|].
         split; [|exact Hdone].
         exists stops, total. by split_and!. }
    destruct Hacc as (Hx & Hnew & -> & Hmin).
    assert (Hxn : (x < n)%nat).
    { rewrite Forall_forall in Hall. by apply Hall, list_elem_of_In. }
    destruct (dijkstra_edge (t_currentLocation t) x Hcur Hxn)
      as (r & -> & Hrpath & Hrdist).
    cbn [mbind res_bind Js.bind].
    assert (Hne : t_currentLocation t <> x).
    { intros <-. apply Hnew. by apply Hvis. }
    rewrite decide_False in Hrpath by done.
    rewrite Hrpath, Hrdist, Hpath, Htotal. cbn [tail].
    apply IH.
    + exists (stops ++ [x]), (total + m (t_currentLocation t) x).
      cbn [t_path t_currentLocation t_visited t_totalDistance].
      assert (Hout : ~ In x (s :: stops)) by (intros H; by apply Hnew, Hvis).
      split_and!; try done.
      * change (s :: stops ++ [x]) with ((s :: stops) ++ [x]).
        by rewrite last_snoc.
      * intros y. rewrite elem_of_union, elem_of_singleton, Hvis.
        change (s :: stops ++ [x]) with ((s :: stops) ++ [x]).
        rewrite in_app_iff.
        split; [intros [->|H]; [right; by left|by left]|].
        intros [H|[->|[]]]; [by right|by left].
      * rewrite size_union by set_solver. rewrite size_singleton, Hsize.
        simpl. rewrite length_app. simpl. lia.
      * change (s :: stops ++ [x]) with ((s :: stops) ++ [x]).
        apply NoDup_ListNoDup, NoDup_app. split_and!.
        -- by apply NoDup_ListNoDup.
        -- intros y Hy Hy'. apply list_elem_of_In in Hy.
           apply list_elem_of_singleton in Hy'. by subst.
        -- apply NoDup_singleton.
      * apply (nearest_first_snoc m dests stops [] s x (t_currentLocation t));
          try done.
        intros d Hd Hd'. apply Hmin; [done|]. intros H. apply Hd'.
        by apply Hvis.
      * change (s :: stops ++ [x]) with ((s :: stops) ++ [x]).
        symmetry. apply (walk_cost_snoc _ _ (t_currentLocation t)); [done|].
        by apply graph_entry.
      * change (s :: stops ++ [x]) with ((s :: stops) ++ [x]).
        eapply walk_length_snoc; try done.
        -- by apply graph_entry.
        -- by rewrite graph_length.
    + cbn [t_visited]. rewrite size_union by set_solver.
      rewrite size_singleton. lia.
Qed.

End Tour.

(** *** The route on an initialized planner *)

Lemma nearest_first_split (m : nat -> nat -> Z) (dests : list nat)
    (pre : list nat) :
  forall (seen : list nat) (current : nat) (rest : list nat)
         (a b : nat) (post : list nat),
  nearest_first m dests seen current rest ->
  current :: rest = pre ++ a :: b :: post ->
  forall d, In d dests -> ~ In d (seen ++ pre ++ [a]) -> m a b <= m a d.
Proof.
  induction pre as [|p pre IH]; intros seen current rest a b post Hnf Heq d Hd Hout.
  - simpl in Heq. injection Heq as -> ->.
    destruct Hnf as (_ & _ & Hmin & _). apply Hmin; [done|].
    intros H. apply Hout. apply in_app_iff. destruct H as [->|H];
      [right; by left|by left].
  - simpl in Heq. injection Heq as -> ->.
    destruct (pre ++ a :: b :: post) as [|b0 rest] eqn:E;
      [by destruct pre|].
    destruct Hnf as (_ & _ & _ & Hnf).
    apply (IH (p :: seen) b0 rest a b post Hnf); [by rewrite E|done|].
    intros H. apply Hout. apply in_app_iff in H as [[->|H]|H].
    + apply in_app_iff. right. by left.
    + apply in_app_iff. by left.
    + apply in_app_iff. right. by right.
Qed.

Lemma destIndices_located (st : state) (dests : list Location.t)
    (indices : list nat) :
  mapM (fun index => index) (map (findLocationIndex st) dests) = Some indices ->
  (forall d, In d dests ->
     exists i, In i indices /\ findLocationIndex st d = Some i) /\
  (forall i, In i indices ->
     exists d, In d dests /\ findLocationIndex st d = Some i).
Proof.
  intros Hm. apply mapM_Some_1 in Hm. apply Forall2_fmap_l in Hm.
  induction Hm as [|d i dests indices Hdi _ IH]; [by split|].
  destruct IH as [IH1 IH2]. split.
  - intros d' [<-|Hd'].
    + exists i. split; [by left|done].
    + destruct (IH1 d' Hd') as (j & Hj & Hf). exists j. split; [by right|done].
  - intros i' [<-|Hi'].
    + exists d. split; [by left|done].
    + destruct (IH2 i' Hi') as (d' & Hd' & Hf). exists d'.
      split; [by right|done].
Qed.

Lemma findLocationIndex_located (st : state) (location : Location.t)
    (i : nat) :
  findLocationIndex st location = Some i -> locations st !! i = Some location.
Proof.
  unfold findLocationIndex. intros H.
  apply findIndex_Some in H as (x & Hx & Hp).
  apply same_location in Hp. by subst.
Qed.

(** The run of [findOptimalPickingPath] on an initialized planner whose
    locations all have an aisle letter and small coordinates. *)
Lemma findOptimalPickingPath_tour
    (locs : list Location.t) (st0 : state)
    (startLocation : Location.t) (destinationLocations : list Location.t) :
  Forall has_aisle locs -> Forall small locs ->
  In startLocation locs ->
  (forall d, In d destinationLocations -> In d locs) ->
  let st := initializeWarehouseGraph locs st0 in
  exists r s indices stops total,
    (findOptimalPickingPath startLocation destinationLocations st).1 = Ok r /\
    findLocationIndex st startLocation = Some s /\
    mapM (fun index => index)
      (map (findLocationIndex st) destinationLocations) = Some indices /\
    r_path r = s :: stops /\
    List.NoDup (s :: stops) /\
    nearest_first (metric_at locs) indices [] s stops /\
    (forall d, In d indices -> In d (s :: stops)) /\
    totalDistance r = walk_cost (graph st) (s :: stops) /\
    walk_length (graph st) (s :: stops) = Some total.
Proof.
  intros Hvalid Hsmall Hstart Hdests st.
  set (n := length locs). set (m := metric_at locs).
  assert (Hlen : length (graph st) = n) by apply initialized_length.
  pose proof (initialized_entry locs st0 Hvalid Hsmall) as Hentry.
  assert (Hdij : forall a b, (a < n)%nat -> (b < n)%nat ->
            exists r, dijkstra st a b = Ok r /\
              path r = (if decide (a = b) then [b] else [a; b]) /\
              distance r = Fin (m a b)).
  { intros a b Ha Hb.
    apply (dijkstra_direct n (graph st) m Hlen Hentry
             (initialized_inside locs st0) (metric_at_diagonal locs Hvalid)
             (metric_at_triangle locs Hvalid)
             (metric_at_small locs Hvalid Hsmall) a b Ha Hb locs). }
  unfold findOptimalPickingPath.
  destruct (findLocationIndex_known st startLocation Hstart) as (s & Hs & Hlt).
  destruct (destIndices_known st destinationLocations Hdests)
    as (indices & Hi & Hall).
  rewrite Hs, Hi. cbn [fst].
  destruct (visitAll_tour st n m Hlen Hentry Hdij s indices Hlt Hall
              (S (length indices))
              {| t_path := [s]; t_visited := {[s]}; t_visitedNodes := [s];
                 t_totalDistance := Fin 0; t_currentLocation := s;
                 t_comparisons := 0 |})
    as (t' & -> & (stops & total & Hpath & _ & Hvis & _ & Hnd & Hnf
                   & Htotal & Hwalk) & Hdone).
  - exists [], 0. cbn [t_path t_visited t_totalDistance t_currentLocation].
    split_and!; try done.
    + intros x. rewrite elem_of_singleton. simpl.
      split; [intros ->; by left|by intros [->|[]]].
    + by rewrite size_singleton.
    + apply NoDup_ListNoDup, NoDup_singleton.
    + cbn [walk_cost cost_from]. rewrite Hlen. by rewrite decide_True.
    + cbn [walk_length]. rewrite Hlen. by rewrite decide_True.
  - cbn [t_visited]. rewrite size_singleton. lia.
  - cbn [mbind res_bind Js.bind]. eexists. exists s, indices, stops, total.
    cbn [r_path totalDistance]. split_and!; try done.
    intros d Hd. by apply Hvis, Hdone.
Qed.

(** The route covers the order. On an initialized planner whose
    locations have an aisle letter and coordinates small enough for the
    lengths to be exact (2^48 at most), for a start and destinations that
    are locations of the graph, [findOptimalPickingPath] returns a path
    of node indices that begins at the start, passes no node twice, holds
    the node of every destination and no node besides the start and the
    destinations; the [totalDistance] it reports is the cost of that path
    in the graph, its lengths added from the start on and each sum
    rounded to a double, which is the length of the path as long as that
    length is a safe integer. *)
Theorem findOptimalPickingPath_visits_every_destination
    (locs : list Location.t) (st0 : state)
    (startLocation : Location.t) (destinationLocations : list Location.t) :
  Forall has_aisle locs -> Forall small locs ->
  In startLocation locs ->
  (forall d, In d destinationLocations -> In d locs) ->
  let st := initializeWarehouseGraph locs st0 in
  exists r total,
    (findOptimalPickingPath startLocation destinationLocations st).1 = Ok r /\
    (exists s, head (r_path r) = Some s /\ locs !! s = Some startLocation) /\
    List.NoDup (r_path r) /\
    (forall d, In d destinationLocations ->
       exists i, In i (r_path r) /\ locs !! i = Some d) /\
    (forall i, In i (r_path r) ->
       exists loc, locs !! i = Some loc /\
                   (loc = startLocation \/ In loc destinationLocations)) /\
    totalDistance r = walk_cost (graph st) (r_path r) /\
    walk_length (graph st) (r_path r) = Some total /\
    (total <= 2 ^ 53 -> totalDistance r = Fin total).
Proof.
  intros Hvalid Hsmall Hstart Hdests st.
  destruct (findOptimalPickingPath_tour locs st0 startLocation
              destinationLocations Hvalid Hsmall Hstart Hdests)
    as (r & s & indices & stops & total & Hr & Hs & Hi & Hpath & Hnd & Hnf
        & Hcover & Htotal & Hwalk).
  fold st in Hr, Hs, Hi, Hwalk, Htotal.
  destruct (destIndices_located st _ _ Hi) as [Hto Hfrom].
  apply findLocationIndex_located in Hs. cbn [st locations] in Hs.
  exists r, total. rewrite Hpath.
  split; [done|]. split; [by exists s|]. split; [done|]. split.
  { intros d Hd. destruct (Hto d Hd) as (i & Hin & Hf).
    exists i. split; [by apply Hcover|].
    by apply findLocationIndex_located in Hf. }
  split.
  { intros i [<-|Hin]; [exists startLocation; by split; [|left]|].
    destruct (Hfrom i) as (d & Hd & Hf); [by eapply nearest_first_In|].
    exists d. split; [|by right]. by apply findLocationIndex_located in Hf. }
  split; [done|]. split; [done|].
  intros Hle. rewrite Htotal. apply walk_cost_exact; try done.
  intros i j w Hw.
  destruct (initialized_lengths locs st0 Hvalid) as [_ Hlv].
  destruct (Hlv i j (Fin w) Hw) as [?|(z & [= <-] & Hz)]; done.
Qed.

Lemma findOptimalPickingPath_visits_every_destination_witness :
  exists r total,
    (findOptimalPickingPath A11 [B21; A12; B21]
       (initializeWarehouseGraph [A11; A12; B21] initial)).1 = Ok r /\
    (exists s, head (r_path r) = Some s /\ [A11; A12; B21] !! s = Some A11) /\
    List.NoDup (r_path r) /\
    (forall d, In d [B21; A12; B21] ->
       exists i, In i (r_path r) /\ [A11; A12; B21] !! i = Some d) /\
    (forall i, In i (r_path r) ->
       exists loc, [A11; A12; B21] !! i = Some loc /\
                   (loc = A11 \/ In loc [B21; A12; B21])) /\
    totalDistance r
    = walk_cost (graph (initializeWarehouseGraph [A11; A12; B21] initial))
        (r_path r) /\
    walk_length (graph (initializeWarehouseGraph [A11; A12; B21] initial))
      (r_path r) = Some total /\
    (total <= 2 ^ 53 -> totalDistance r = Fin total).
Proof.
  apply findOptimalPickingPath_visits_every_destination.
  - repeat constructor; discriminate.
  - repeat constructor; by vm_compute.
  - simpl. tauto.
  - intros d [<-|[<-|[<-|[]]]]; simpl; tauto.
Defined.

(** The route goes to the nearest destination next, where the lengths
    are exact (coordinates of 2^48 at most). In the path that
    [findOptimalPickingPath] returns, the step from a node [a] to the
    next node [b] is never longer than the edge from [a] to the node of
    a destination that the path has not reached by [a]. *)
Theorem findOptimalPickingPath_goes_to_the_nearest
    (locs : list Location.t) (st0 : state)
    (startLocation : Location.t) (destinationLocations : list Location.t) :
  Forall has_aisle locs -> Forall small locs ->
  In startLocation locs ->
  (forall d, In d destinationLocations -> In d locs) ->
  let st := initializeWarehouseGraph locs st0 in
  exists r,
    (findOptimalPickingPath startLocation destinationLocations st).1 = Ok r /\
    forall (pre : list nat) (a b : nat) (post : list nat),
    r_path r = pre ++ a :: b :: post ->
    forall (d : Location.t) (j : nat),
    In d destinationLocations -> findLocationIndex st d = Some j ->
    ~ In j (pre ++ [a]) ->
    exists x y, entry (graph st) a b = Some (Fin x) /\
                entry (graph st) a j = Some (Fin y) /\ x <= y.
Proof.
  intros Hvalid Hsmall Hstart Hdests st.
  destruct (findOptimalPickingPath_tour locs st0 startLocation
              destinationLocations Hvalid Hsmall Hstart Hdests)
    as (r & s & indices & stops & total & Hr & Hs & Hi & Hpath & Hnd & Hnf
        & Hcover & Htotal & Hwalk).
  fold st in Hr, Hs, Hi, Hwalk.
  destruct (destIndices_located st _ _ Hi) as [Hto Hfrom].
  exists r. split; [done|]. intros pre a b post Hsplit d j Hd Hj Hout.
  rewrite Hpath in Hsplit.
  assert (Hj_in : In j indices).
  { destruct (Hto d Hd) as (i & Hin & Hf). congruence. }
  pose proof (nearest_first_split _ _ pre [] s stops a b post Hnf Hsplit j
                Hj_in Hout) as Hle.
  assert (Hbound : forall i, In i (s :: stops) -> (i < length locs)%nat).
  { intros i [<-|Hin].
    - apply findLocationIndex_located in Hs. by eapply lookup_lt_Some.
    - destruct (Hfrom i) as (d' & _ & Hf); [by eapply nearest_first_In|].
      apply findLocationIndex_located in Hf. by eapply lookup_lt_Some. }
  assert (Ha : (a < length locs)%nat).
  { apply Hbound. rewrite Hsplit. apply in_app_iff. right. by left. }
  assert (Hb : (b < length locs)%nat).
  { apply Hbound. rewrite Hsplit. apply in_app_iff. right. right. by left. }
  assert (Hjn : (j < length locs)%nat).
  { apply findLocationIndex_located in Hj. by eapply lookup_lt_Some. }
  exists (metric_at locs a b), (metric_at locs a j).
  split_and!; try done; by apply initialized_entry.
Qed.

Lemma findOptimalPickingPath_goes_to_the_nearest_witness :
  exists r,
    (findOptimalPickingPath A11 [B21; A12]
       (initializeWarehouseGraph [A11; A12; B21] initial)).1 = Ok r /\
    forall (pre : list nat) (a b : nat) (post : list nat),
    r_path r = pre ++ a :: b :: post ->
    forall (d : Location.t) (j : nat),
    In d [B21; A12] ->
    findLocationIndex (initializeWarehouseGraph [A11; A12; B21] initial) d
    = Some j ->
    ~ In j (pre ++ [a]) ->
    exists x y,
      entry (graph (initializeWarehouseGraph [A11; A12; B21] initial)) a b
      = Some (Fin x) /\
      entry (graph (initializeWarehouseGraph [A11; A12; B21] initial)) a j
      = Some (Fin y) /\ x <= y.
Proof.
  apply findOptimalPickingPath_goes_to_the_nearest.
  - repeat constructor; discriminate.
  - repeat constructor; by vm_compute.
  - simpl. tauto.
  - intros d [<-|[<-|[]]]; simpl; tauto.
Defined.

(** Far from the origin the route is no such tour. From the first place
    of [far_row] the way to the third is shortest, as the planner adds it
    up, through the second, which is no destination; the route passes it,
    and from there goes on over an edge of length 40 while the
    destination it has not reached is 20 away. *)
Lemma findOptimalPickingPath_detours_far_away :
  let st := initializeWarehouseGraph far_row initial in
  Forall has_aisle far_row /\
  entry (graph st) 1 2 = Some (Fin 40) /\
  entry (graph st) 1 3 = Some (Fin 20) /\
  exists r,
    (findOptimalPickingPath (place 0 0)
       [place 53030899677346520 0; place 53030899677346512 10] st).1 = Ok r /\
    r_path r = [0; 1; 2; 3]%nat.
Proof.
  cbv zeta. split; [repeat constructor; discriminate|].
  split; [by vm_compute|]. split; [by vm_compute|].
  eexists. split; [by vm_compute|]. done.
Qed.

End RouteTourFacts.

(** ** The selection of items *)

Module SelectionFacts.
Import InventoryItem Selection.

Lemma includes_In (ids : list string) (x : string) :
  includes ids x = true <-> In x ids.
Proof.
  unfold includes. rewrite existsb_exists. split.
  - intros (y & Hy & E). apply String.eqb_eq in E. by subst.
  - intros H. exists x. split; [done|]. apply String.eqb_refl.
Qed.

Lemma includes_false (ids : list string) (x : string) :
  includes ids x = false <-> ~ In x ids.
Proof. rewrite <- includes_In. by destruct (includes ids x). Qed.

Lemma filter_other_In (itemId x : string) (l : list string) :
  In x (List.filter (fun id => negb (String.eqb id itemId)) l)
  <-> In x l /\ x <> itemId.
Proof.
  rewrite List.filter_In, negb_true_iff. split; intros [H1 H2]; split;
    try done.
  - intros ->. by rewrite String.eqb_refl in H2.
  - by apply String.eqb_neq.
Qed.

Lemma filter_other_fresh (itemId : string) (l : list string) :
  ~ In itemId l ->
  List.filter (fun id => negb (String.eqb id itemId)) l = l.
Proof.
  induction l as [|y l IH]; intros Hout; simpl; [done|].
  destruct (String.eqb_spec y itemId) as [->|Hne]; simpl.
  - destruct Hout. by left.
  - rewrite IH; [done|]. intros H. apply Hout. by right.
Qed.

Lemma selected_In (inventory : list InventoryItem.t) (ids : list string)
    (item : InventoryItem.t) :
  In item (selected inventory ids) <-> In item inventory /\ In (id item) ids.
Proof. unfold selected. by rewrite List.filter_In, includes_In. Qed.

Lemma selected_all (inventory : list InventoryItem.t) :
  selected inventory (selectAllItems inventory) = inventory.
Proof.
  unfold selected, selectAllItems.
  induction inventory as [|x l IH]; simpl; [done|].
  rewrite String.eqb_refl. simpl. f_equal.
  rewrite <- IH at 2. apply List.filter_ext_in. intros y Hy.
  unfold includes. simpl. destruct (String.eqb (id y) (id x)); [|done].
  simpl. symmetry. apply includes_In, in_map_iff. by exists y.
Qed.

(** Toggling flips one item and nothing else. [toggleItemSelection]
    changes whether [itemId] is selected and leaves every other id as it
    was; it keeps a selection free of repeats; applied twice to an id
    that was not selected it gives the selection back, and applied twice
    to a selected id it moves that id to the end. With "Select All" the
    items handed to the engines are the whole inventory, and in general
    they are the items of the inventory whose id is selected. *)
Theorem toggleItemSelection_flips_one_item
    (itemId : string) (prev : list string)
    (inventory : list InventoryItem.t) :
  let next := toggleItemSelection itemId prev in
  (In itemId next <-> ~ In itemId prev) /\
  (forall other, other <> itemId -> (In other next <-> In other prev)) /\
  (List.NoDup prev -> List.NoDup next) /\
  (~ In itemId prev -> toggleItemSelection itemId next = prev) /\
  (In itemId prev -> List.NoDup prev ->
   toggleItemSelection itemId next
   = List.filter (fun id => negb (String.eqb id itemId)) prev ++ [itemId]) /\
  selected inventory (selectAllItems inventory) = inventory /\
  (forall item, In item (selected inventory prev) <->
                In item inventory /\ In (id item) prev).
Proof.
  cbv zeta. unfold toggleItemSelection.
  destruct (includes prev itemId) eqn:E.
  - apply includes_In in E. split_and!.
    + rewrite filter_other_In. tauto.
    + intros other Hne. rewrite filter_other_In. tauto.
    + apply List.NoDup_filter.
    + tauto.
    + intros _ Hnd.
      assert (Hout : ~ In itemId
                (List.filter (fun id => negb (String.eqb id itemId)) prev))
        by (rewrite filter_other_In; tauto).
      apply includes_false in Hout. by rewrite Hout.
    + apply selected_all.
    + intros item. apply selected_In.
  - apply includes_false in E. split_and!.
    + rewrite in_app_iff. simpl. tauto.
    + intros other Hne. rewrite in_app_iff. simpl.
      split; [intros [H|[H|[]]]; [done|by subst]|tauto].
    + intros Hnd. apply NoDup_ListNoDup, NoDup_app. split_and!.
      * by apply NoDup_ListNoDup.
      * intros y Hy Hy'. apply list_elem_of_singleton in Hy'. subst.
        by apply E, list_elem_of_In.
      * apply NoDup_singleton.
    + intros _.
      assert (Hin : includes (prev ++ [itemId]) itemId = true).
      { apply includes_In, in_app_iff. right. by left. }
      rewrite Hin, List.filter_app. simpl. rewrite String.eqb_refl. simpl.
      rewrite app_nil_r. by apply filter_other_fresh.
    + tauto.
    + apply selected_all.
    + intros item. apply selected_In.
Qed.

End SelectionFacts.

(** ** The space optimization view *)

Module SpaceOptimizationFacts.
Import InventoryItem GreedyBestFit GreedySpec GreedyAccount GreedyBestFitFacts
  GreedyAccountFacts SpaceOptimization SpaceTotals Samples.

Lemma filter_twice {A} (f : A -> bool) (l : list A) :
  List.filter f (List.filter f l) = List.filter f l.
Proof.
  induction l as [|x l IH]; simpl; [done|].
  destruct (f x) eqn:E; simpl; [|done]. by rewrite E, IH.
Qed.

(** The call of the component is the run of the allocator on the space
    units of the hook. *)
Lemma allocate_run (items : list InventoryItem.t)
    (warehouseSpaces : list WarehouseSpace.t) :
  allocate items warehouseSpaces = run items warehouseSpaces.
Proof. unfold allocate, run, candidates. cbv zeta. by rewrite filter_twice. Qed.

Lemma total_insert (f : WarehouseSpace.t -> Z) (l : list WarehouseSpace.t) :
  forall (r : nat) (x y : WarehouseSpace.t),
  l !! r = Some x ->
  total f (<[r := y]> l) = total f l - f x + f y.
Proof.
  induction l as [|a l IH]; intros [|r] x y Hr; try done; simpl in *.
  - injection Hr as ->. lia.
  - rewrite (IH r x y Hr). lia.
Qed.

Lemma total_le (f f' : WarehouseSpace.t -> Z) (l : list WarehouseSpace.t) :
  Forall (fun space => f space <= f' space) l -> total f l <= total f' l.
Proof. induction 1; simpl; lia. Qed.

(** A total that is a safe integer is added up exactly. *)
Lemma sum_exact (f : WarehouseSpace.t -> Z) (l : list WarehouseSpace.t) :
  Forall (fun space => 0 <= f space) l -> total f l <= 2 ^ 53 ->
  SpaceOptimization.sum f l = total f l.
Proof.
  unfold SpaceOptimization.sum. intros Hpos Hle.
  assert (H : forall z, 0 <= z -> z + total f l <= 2 ^ 53 ->
            fold_left (fun sum space => NumZ.nearest (sum + f space)) l z
            = z + total f l).
  { clear Hle. induction Hpos as [|x l Hx Hl IH]; intros z Hz Hle; simpl in *;
      [lia|].
    assert (Ht : 0 <= total f l).
    { clear IH Hle. induction Hl; simpl; lia. }
    rewrite NumZFacts.nearest_small by lia.
    rewrite IH by lia. lia. }
  by rewrite H by lia.
Qed.

Lemma placed_app (allocs : list SpaceAllocation) a :
  placed (allocs ++ [a]) = placed allocs + quantity (item a).
Proof. induction allocs as [|b allocs IH]; simpl; lia. Qed.

Lemma placed_nonneg (allocs : list SpaceAllocation) :
  (forall a, In a allocs -> 0 <= quantity (item a)) -> 0 <= placed allocs.
Proof.
  induction allocs as [|a l IH]; intros Hall; simpl; [lia|].
  pose proof (Hall a ltac:(by left)).
  assert (0 <= placed l) by (apply IH; intros; apply Hall; by right). lia.
Qed.

Lemma serves_totals_moved store0 st it st' :
  0 <= quantity it -> Forall safe (store st) ->
  serves st it st' -> totals_moved store0 st -> totals_moved store0 st'.
Proof.
  intros Hq Hsafe [r space Hbest Hs|_] (Hc & Ho & Ha); [|done].
  destruct (best_fit_fits _ _ _ _ Hbest) as (space' & Hs' & Hfit).
  assert (space' = space) as -> by congruence.
  assert (Hspace : safe space).
  { rewrite Forall_forall in Hsafe. apply Hsafe.
    by eapply list_elem_of_lookup_2. }
  destruct (occupy_safe space it Hspace ltac:(done)) as (_ & Hocc & Hav).
  unfold totals_moved. simpl.
  rewrite !(total_insert _ _ r space) by done. rewrite placed_app.
  rewrite Hocc, Hav. simpl. lia.
Qed.

Lemma serves_all_totals_moved store0 st ranked st' :
  serves_all st ranked st' ->
  (forall it, In it ranked -> 0 <= quantity it) ->
  Forall safe (store st) -> totals_moved store0 st ->
  totals_moved store0 st'.
Proof.
  induction 1 as [|st st' st'' it rest H1 _ IH]; intros Hq Hsafe Hacc;
    [done|].
  apply IH.
  - intros x Hx. apply Hq. by right.
  - eapply serves_safe; [apply Hq; by left|done|done].
  - eapply serves_totals_moved; eauto. apply Hq. by left.
Qed.

(** The totals of safe space units whose capacities add up to a safe
    integer are exact. *)
Lemma spaceStats_exact (l : list WarehouseSpace.t) :
  Forall safe l -> total WarehouseSpace.capacity l <= 2 ^ 53 ->
  SpaceOptimization.sum WarehouseSpace.capacity l
  = total WarehouseSpace.capacity l /\
  SpaceOptimization.sum WarehouseSpace.occupied l
  = total WarehouseSpace.occupied l /\
  SpaceOptimization.sum WarehouseSpace.available l
  = total WarehouseSpace.available l.
Proof.
  intros Hsafe Hle. unfold safe, consistent in Hsafe. split_and!.
  - apply sum_exact; [|done]. eapply Forall_impl; [exact Hsafe|].
    intros space. simpl. lia.
  - apply sum_exact.
    + eapply Forall_impl; [exact Hsafe|]. intros space. simpl. lia.
    + etrans; [|exact Hle]. apply total_le.
      eapply Forall_impl; [exact Hsafe|]. intros space. simpl. lia.
  - apply sum_exact.
    + eapply Forall_impl; [exact Hsafe|]. intros space. simpl. lia.
    + etrans; [|exact Hle]. apply total_le.
      eapply Forall_impl; [exact Hsafe|]. intros space. simpl. lia.
Qed.

Lemma utilization_grows (occupied occupied' capacity : Z) :
  occupied <= occupied' ->
  ((if 0 <? capacity
    then inject_Z occupied / inject_Z capacity * 100 else 0)
   <= (if 0 <? capacity
       then inject_Z occupied' / inject_Z capacity * 100 else 0))%Q.
Proof.
  intros Hle. destruct (Z.ltb_spec 0 capacity) as [Hpos|_]; [|lra].
  assert (H0 : (0 < inject_Z capacity)%Q)
    by (change 0%Q with (inject_Z 0); by rewrite <- Zlt_Qlt).
  assert (H1 : (inject_Z occupied <= inject_Z occupied')%Q)
    by (by rewrite <- Zle_Qle).
  assert (inject_Z occupied / inject_Z capacity
          <= inject_Z occupied' / inject_Z capacity)%Q.
  { unfold Qdiv. apply Qmult_le_compat_r; [done|].
    apply Qlt_le_weak, Qinv_lt_0_compat. done. }
  lra.
Qed.

(** A greedy run moves stock into the space units of the hook, as long
    as the counts are safe integers. When the algorithm is the greedy
    one and something is selected, every space unit has [available =
    capacity - occupied] with neither count negative, the capacities add
    up to 2^53 at most and no item of the inventory has a negative
    quantity, [runOptimization] leaves space units whose total capacity
    is what it was, whose total occupied has grown, and whose total
    available has shrunk, by the quantity of the allocations it shows;
    the utilization shown does not go down; and the allocations and the
    unallocated items it shows are the selected items of the inventory,
    each once. *)
Theorem runOptimization_greedy_moves_stock
    (inventory : list InventoryItem.t)
    (warehouseSpaces : list WarehouseSpace.t) (v : view) :
  algorithm v = greedy ->
  selectedItems v <> [] ->
  Forall (fun space =>
            WarehouseSpace.available space
            = WarehouseSpace.capacity space - WarehouseSpace.occupied space /\
            0 <= WarehouseSpace.available space /\
            0 <= WarehouseSpace.occupied space) warehouseSpaces ->
  total WarehouseSpace.capacity warehouseSpaces <= 2 ^ 53 ->
  (forall it, In it inventory -> 0 <= quantity it) ->
  let out := runOptimization inventory warehouseSpaces v in
  let before := spaceStats warehouseSpaces in
  let after := spaceStats out.1 in
  let moved := placed (SpaceOptimization.allocations out.2) in
  totalCapacity after = totalCapacity before /\
  totalOccupied after = totalOccupied before + moved /\
  totalAvailable after = totalAvailable before - moved /\
  0 <= moved /\ (utilization before <= utilization after)%Q /\
  Permutation
    (map item (SpaceOptimization.allocations out.2) ++ unallocatedItems out.2)
    (Selection.selected inventory (selectedItems v)).
Proof.
  intros Halg Hsel Hinit Hcap Hq. cbv zeta. unfold runOptimization.
  destruct (Nat.eqb_spec (length (selectedItems v)) 0) as [Hz|_].
  { destruct (selectedItems v); [done|simpl in Hz; lia]. }
  rewrite Halg, allocate_run.
  cbn [fst snd SpaceOptimization.allocations unallocatedItems spaceStats
       totalCapacity totalOccupied totalAvailable utilization].
  set (items := Selection.selected inventory (selectedItems v)).
  assert (Hsafe : Forall safe warehouseSpaces).
  { assert (Hmax : forall l, Forall (fun space =>
                     0 <= WarehouseSpace.capacity space) l ->
                   forall space, In space l ->
                   WarehouseSpace.capacity space
                   <= total WarehouseSpace.capacity l).
    { induction 1 as [|x l Hx Hl IH]; intros space; simpl; [done|].
      assert (0 <= total WarehouseSpace.capacity l)
        by (clear IH; induction Hl; simpl; lia).
      intros [<-|Hin]; [lia|]. specialize (IH space Hin). lia. }
    apply Forall_forall. intros space Hspace.
    rewrite Forall_forall in Hinit.
    destruct (Hinit space Hspace) as (H1 & H2 & H3).
    unfold safe, consistent. split_and!; try lia.
    etrans; [|exact Hcap]. apply Hmax; [|by apply list_elem_of_In].
    apply Forall_forall. intros x Hx.
    destruct (Hinit x Hx) as (? & ? & ?). lia. }
  assert (Hranked : forall it, In it (sortedItems items) -> 0 <= quantity it).
  { intros it Hit. unfold sortedItems in Hit.
    assert (Hin : In it items)
      by (eapply Permutation_in; [apply ListFacts.sort_perm|done]).
    unfold items in Hin. apply SelectionFacts.selected_In in Hin as [Hin _].
    by apply Hq. }
  pose proof (serves_all_totals_moved warehouseSpaces _ _ _
                (allocateSpace_runs items warehouseSpaces) Hranked Hsafe)
    as (Hc & Ho & Ha).
  { unfold totals_moved. simpl. lia. }
  pose proof (serves_all_safe _ _ _ Hranked
                (allocateSpace_runs items warehouseSpaces) Hsafe) as Hsafe'.
  cbn [store] in Hsafe'.
  destruct (spaceStats_exact warehouseSpaces Hsafe Hcap) as (E1 & E2 & E3).
  destruct (spaceStats_exact _ Hsafe' ltac:(by rewrite Hc))
    as (E1' & E2' & E3').
  rewrite E1, E2, E3, E1', E2', E3', Hc, Ho, Ha.
  assert (Hmoved : 0 <= placed (GreedyBestFit.allocations
                                  (run items warehouseSpaces))).
  { assert (Hall : forall a, In a (GreedyBestFit.allocations
                                     (run items warehouseSpaces)) ->
                             0 <= quantity (item a)).
    { intros a Ha'.
      pose proof (serves_all_places _ _ _
                    (allocateSpace_runs items warehouseSpaces)) as Hp.
      cbn [GreedyBestFit.allocations unallocated map app] in Hp.
      rewrite app_nil_r in Hp.
      assert (Hin : In (item a) (sortedItems items)).
      { eapply Permutation_in; [exact Hp|]. apply in_app_iff. left.
        by apply in_map. }
      unfold sortedItems in Hin.
      assert (Hin' : In (item a) items)
        by (eapply Permutation_in; [apply ListFacts.sort_perm|done]).
      unfold items in Hin'.
      apply SelectionFacts.selected_In in Hin' as [Hin' _]. by apply Hq. }
    by apply placed_nonneg. }
  split_and!; try done.
  - apply utilization_grows. lia.
  - pose proof (serves_all_places _ _ _
                  (allocateSpace_runs items warehouseSpaces)) as Hp.
    cbn [GreedyBestFit.allocations unallocated map app] in Hp.
    rewrite app_nil_r in Hp. rewrite Hp. apply ListFacts.sort_perm.
Qed.

Lemma runOptimization_greedy_moves_stock_witness :
  let inventory := [sample_item "a" 5 1 10; sample_item "b" 8 2 10] in
  let warehouseSpaces := [sample_space "s1" 6 0; sample_space "s2" 10 5] in
  let v := {| algorithm := greedy; selectedItems := ["b"; "a"];
              SpaceOptimization.allocations := []; unallocatedItems := [];
              knapsackResult := None; performance := None;
              capacity := 1000 |} in
  let out := runOptimization inventory warehouseSpaces v in
  let before := spaceStats warehouseSpaces in
  let after := spaceStats out.1 in
  let moved := placed (SpaceOptimization.allocations out.2) in
  totalCapacity after = totalCapacity before /\
  totalOccupied after = totalOccupied before + moved /\
  totalAvailable after = totalAvailable before - moved /\
  0 <= moved /\ (utilization before <= utilization after)%Q /\
  Permutation
    (map item (SpaceOptimization.allocations out.2) ++ unallocatedItems out.2)
    (Selection.selected inventory (selectedItems v)).
Proof.
  cbv zeta. apply runOptimization_greedy_moves_stock.
  - done.
  - done.
  - repeat constructor; simpl; lia.
  - vm_compute. discriminate.
  - intros it [<-|[<-|[]]]; simpl; lia.
Defined.

End SpaceOptimizationFacts.

(** ** The data hook *)

Module HookFacts.
Import InventoryItem useWarehouseData HookCalls Samples.

Lemma take_take_le {A} (n m : nat) (l : list A) :
  (n <= m)%nat -> take n (take m l) = take n l.
Proof. intros H. rewrite take_take. f_equal. lia. Qed.

Lemma perform_activities (st : state) (op : call) :
  activities (perform st op) = activities st \/
  exists new, activities (perform st op) = new :: take 49 (activities st).
Proof.
  destruct op as [c item|c item|c itemId|space|c type description]; simpl;
    try (right; by eexists); try by left.
  unfold deleteInventoryItem. cbv zeta. destruct (List.find _ _).
  - right. by eexists.
  - by left.
Qed.

(** The activity log holds the newest fifty. Whatever calls of the hook
    are made, the log is new entries, at most one for each call, on top
    of the beginning of what it was; and it has at most fifty entries,
    or as many as it had if those were more. *)
Theorem hook_calls_keep_the_newest_fifty_activities
    (calls : list call) (st : state) :
  let st' := fold_left perform calls st in
  exists (news : list Activity.t) (kept : nat),
    activities st' = news ++ take kept (activities st) /\
    (length news <= length calls)%nat /\
    (length (activities st') <= Nat.max 50 (length (activities st)))%nat.
Proof.
  cbv zeta. induction calls as [|op calls IH] using rev_ind.
  - exists [], (length (activities st)). simpl.
    rewrite firstn_all. split_and!; [done|lia|lia].
  - rewrite fold_left_app. simpl.
    destruct IH as (news & kept & Heq & Hn & Hlen).
    set (st1 := fold_left perform calls st) in *.
    rewrite length_app. simpl.
    destruct (perform_activities st1 op) as [->|[new ->]].
    + exists news, kept. split_and!; [done|lia|lia].
    + exists (new :: take 49 news), (Nat.min (49 - length news) kept).
      split_and!.
      * rewrite Heq, take_app, take_take. simpl. do 3 f_equal.
      * simpl. rewrite length_take. lia.
      * simpl. rewrite length_take. lia.
Qed.

Lemma map_replace_ids (updatedItem : InventoryItem.t)
    (l : list InventoryItem.t) :
  map id (map (fun item => if String.eqb (id item) (id updatedItem)
                           then updatedItem else item) l)
  = map id l.
Proof.
  induction l as [|x l IH]; simpl; [done|]. rewrite IH. f_equal.
  destruct (String.eqb_spec (id x) (id updatedItem)); congruence.
Qed.

(** An update goes by id. [updateInventoryItem] keeps the ids of the
    inventory and their order; afterwards every item with the id of the
    updated item is the updated item, and the other items are there as
    before; when no item has that id the inventory is as it was, and
    the update is logged all the same; a second update with the same
    item changes nothing in the inventory. *)
Theorem updateInventoryItem_replaces_by_id
    (c c' : clock) (updatedItem : InventoryItem.t) (st : state) :
  let st' := updateInventoryItem c updatedItem st in
  map id (inventory st') = map id (inventory st) /\
  (forall item, In item (inventory st') -> id item = id updatedItem ->
                item = updatedItem) /\
  (forall item, id item <> id updatedItem ->
                (In item (inventory st') <-> In item (inventory st))) /\
  (~ In (id updatedItem) (map id (inventory st)) ->
   inventory st' = inventory st) /\
  head (activities st')
  = Some (entry c Activity.update ("Updated item: " ++ name updatedItem)) /\
  inventory (updateInventoryItem c' updatedItem st') = inventory st' /\
  warehouseSpaces st' = warehouseSpaces st.
Proof.
  cbv zeta. simpl. split_and!; try done.
  - apply map_replace_ids.
  - intros item Hin Hid. apply in_map_iff in Hin as (x & Hx & _).
    destruct (String.eqb_spec (id x) (id updatedItem)); congruence.
  - intros item Hid. rewrite in_map_iff. split.
    + intros (x & Hx & Hin).
      destruct (String.eqb_spec (id x) (id updatedItem)); congruence.
    + intros Hin. exists item. split; [|done].
      by destruct (String.eqb_spec (id item) (id updatedItem)).
  - intros Hout. induction (inventory st) as [|x l IH]; simpl; [done|].
    simpl in Hout.
    destruct (String.eqb_spec (id x) (id updatedItem)) as [E|_]; [tauto|].
    f_equal. apply IH. tauto.
  - rewrite map_map. apply map_ext. intros x.
    destruct (String.eqb_spec (id x) (id updatedItem)) as [E|E].
    + by rewrite String.eqb_refl.
    + by destruct (String.eqb_spec (id x) (id updatedItem)).
Qed.

Lemma filter_keeps_all {A} (f : A -> bool) (l : list A) :
  (forall x, In x l -> f x = true) -> List.filter f l = l.
Proof.
  induction l as [|x l IH]; simpl; intros H; [done|].
  rewrite (H x) by tauto. f_equal. apply IH. intros; apply H; tauto.
Qed.

Lemma filter_sublist {A} (f : A -> bool) (l : list A) :
  sublist (List.filter f l) l.
Proof.
  induction l as [|x l IH]; simpl; [constructor|].
  destruct (f x); by constructor.
Qed.

Lemma find_id (itemId : string) (l : list InventoryItem.t) :
  match List.find (fun i => String.eqb (id i) itemId) l with
  | Some item => In item l /\ id item = itemId
  | None => ~ In itemId (map id l)
  end.
Proof.
  destruct (List.find _ l) as [item|] eqn:E.
  - apply find_some in E as [Hin Hid]. by apply String.eqb_eq in Hid.
  - intros Hin. apply in_map_iff in Hin as (x & Hx & Hin).
    apply (find_none _ _ E) in Hin. apply String.eqb_neq in Hin. done.
Qed.

Lemma filter_out_length (itemId : string) (l : list InventoryItem.t) :
  In itemId (map id l) ->
  (length (List.filter (fun item => negb (String.eqb (id item) itemId)) l)
   < length l)%nat.
Proof.
  induction l as [|x l IH]; simpl; [done|].
  destruct (String.eqb_spec (id x) itemId) as [E|E]; simpl.
  - intros _. pose proof (filter_length_le
      (fun item => negb (String.eqb (id item) itemId)) l). lia.
  - intros [?|Hin]; [done|]. specialize (IH Hin). lia.
Qed.

Lemma deleteInventoryItem_inventory (c : clock) (itemId : string)
    (rendered : list InventoryItem.t) (st : state) :
  inventory (deleteInventoryItem c itemId rendered st)
  = List.filter (fun item => negb (String.eqb (id item) itemId))
      (inventory st).
Proof. unfold deleteInventoryItem. cbv zeta. by destruct (List.find _ _). Qed.

Lemma filter_out_fresh (itemId : string) (l : list InventoryItem.t) :
  ~ In itemId (map id l) ->
  List.filter (fun item => negb (String.eqb (id item) itemId)) l = l.
Proof.
  intros Hout. apply filter_keeps_all. intros x Hx.
  destruct (String.eqb_spec (id x) itemId) as [<-|]; [|done].
  exfalso. apply Hout, in_map_iff. by exists x.
Qed.

Lemma filter_out_gone (itemId : string) (l : list InventoryItem.t) :
  ~ In itemId
      (map id (List.filter (fun item => negb (String.eqb (id item) itemId))
                 l)).
Proof.
  intros Hin. apply in_map_iff in Hin as (x & Hx & Hin).
  apply filter_In in Hin as [_ Hin].
  destruct (String.eqb_spec (id x) itemId); [done|congruence].
Qed.

(** A deletion goes by id, and its log entry by the render. A call of
    [deleteInventoryItem] is the callback of one render: it removes from
    the inventory of the state the items of the id, leaving the others
    in their order, and the inventory gets shorter when an item had the
    id; it logs the deletion of the first item of that id in [rendered],
    the inventory of its render, and logs nothing when [rendered] has no
    such item, whatever it removes. A second call of the same callback
    removes nothing more and still logs a deletion; the callback of the
    next render, which sees the inventory without the id, changes
    nothing at all. *)
Theorem deleteInventoryItem_removes_by_id
    (c c' : clock) (itemId : string) (rendered : list InventoryItem.t)
    (st : state) :
  let st' := deleteInventoryItem c itemId rendered st in
  (forall item, In item (inventory st') <->
                In item (inventory st) /\ id item <> itemId) /\
  sublist (inventory st') (inventory st) /\
  warehouseSpaces st' = warehouseSpaces st /\
  (~ In itemId (map id (inventory st)) -> inventory st' = inventory st) /\
  (In itemId (map id (inventory st)) ->
   (length (inventory st') < length (inventory st))%nat) /\
  (~ In itemId (map id rendered) -> activities st' = activities st) /\
  (In itemId (map id rendered) ->
   exists item,
     List.find (fun i => String.eqb (id i) itemId) rendered = Some item /\
     In item rendered /\ id item = itemId /\
     activities st'
     = entry c Activity.delete ("Deleted item: " ++ name item)
       :: take 49 (activities st) /\
     activities (deleteInventoryItem c' itemId rendered st')
     = entry c' Activity.delete ("Deleted item: " ++ name item)
       :: take 49 (activities st')) /\
  inventory (deleteInventoryItem c' itemId rendered st') = inventory st' /\
  deleteInventoryItem c' itemId (inventory st') st' = st'.
Proof.
  cbv zeta.
  pose proof (deleteInventoryItem_inventory c itemId rendered st) as Hinv.
  pose proof (find_id itemId rendered) as Hf.
  split_and!.
  - intros item. rewrite Hinv, filter_In.
    destruct (String.eqb_spec (id item) itemId); simpl; intuition congruence.
  - rewrite Hinv. apply filter_sublist.
  - unfold deleteInventoryItem. cbv zeta. by destruct (List.find _ _).
  - intros Hout. rewrite Hinv. by apply filter_out_fresh.
  - intros Hin. rewrite Hinv. by apply filter_out_length.
  - intros Hout. unfold deleteInventoryItem. cbv zeta.
    destruct (List.find _ _) as [item|]; [|done].
    destruct Hf as [Hin <-]. exfalso. apply Hout, in_map_iff. by exists item.
  - intros Hin. unfold deleteInventoryItem. cbv zeta.
    destruct (List.find _ _) as [item|]; [|done].
    exists item. destruct Hf as [Hitem Hid]. by split_and!.
  - rewrite !deleteInventoryItem_inventory.
    apply filter_out_fresh, filter_out_gone.
  - unfold deleteInventoryItem at 1. cbv zeta.
    pose proof (find_id itemId
                  (inventory (deleteInventoryItem c itemId rendered st)))
      as Hf'.
    clear Hf. revert Hf'. destruct (List.find _ _) as [item|]; intros Hf'.
    + destruct Hf' as [Hin <-]. exfalso.
      apply (filter_out_gone (id item) (inventory st)).
      rewrite <- Hinv. apply in_map_iff. by exists item.
    + rewrite filter_out_fresh by done.
      by destruct (deleteInventoryItem c itemId rendered st).
Qed.

(** Adding an item and deleting it again. When no item of the inventory
    has the id of the new item, [addInventoryItem] followed by
    [deleteInventoryItem] of that id leaves the inventory and the space
    units as they were. The deletion called from the render that shows
    the new item leaves the log two entries longer at its head, the
    deletion over the addition, over the 48 newest of before; the
    deletion called from a render that does not show the id, such as the
    one the addition was called from, logs nothing: the log has the
    addition alone at its head. *)
Theorem addInventoryItem_then_delete_restores_inventory
    (c1 c2 : clock) (item : InventoryItem.t) (rendered : list InventoryItem.t)
    (st : state) :
  ~ In (id item) (map id (inventory st)) ->
  let st1 := addInventoryItem c1 item st in
  let added :=
    entry c1 Activity.add
      ("Added item: " ++ name item ++ " (" ++
       JsTemplate.of_integer (quantity item) ++ " units)") in
  inventory st1 = inventory st ++ [item] /\
  (let st2 := deleteInventoryItem c2 (id item) (inventory st1) st1 in
   inventory st2 = inventory st /\
   warehouseSpaces st2 = warehouseSpaces st /\
   activities st2
   = entry c2 Activity.delete ("Deleted item: " ++ name item)
     :: added :: take 48 (activities st)) /\
  (~ In (id item) (map id rendered) ->
   let st2 := deleteInventoryItem c2 (id item) rendered st1 in
   inventory st2 = inventory st /\
   warehouseSpaces st2 = warehouseSpaces st /\
   activities st2 = added :: take 49 (activities st)).
Proof.
  intros Hfresh. cbv zeta. split; [done|].
  assert (Hkeep : List.filter
                    (fun i => negb (String.eqb (id i) (id item)))
                    (inventory st ++ [item]) = inventory st).
  { rewrite List.filter_app, filter_out_fresh by done. simpl.
    rewrite String.eqb_refl. simpl. by rewrite app_nil_r. }
  assert (Hfind : List.find (fun i => String.eqb (id i) (id item))
                    (inventory st ++ [item]) = Some item).
  { clear Hkeep. induction (inventory st) as [|x l IH]; simpl.
    - by rewrite String.eqb_refl.
    - simpl in Hfresh.
      destruct (String.eqb_spec (id x) (id item)) as [E|_]; [tauto|].
      apply IH. tauto. }
  split.
  - unfold deleteInventoryItem, addInventoryItem. cbv zeta.
    cbn [inventory addActivity warehouseSpaces activities]. rewrite Hfind.
    cbn [inventory addActivity warehouseSpaces activities].
    rewrite Hkeep. split_and!; try done.
    unfold entry. change (take 49 (?x :: ?l)) with (x :: take 48 l).
    do 2 f_equal. by rewrite take_take_le by lia.
  - intros Hout. unfold deleteInventoryItem, addInventoryItem. cbv zeta.
    pose proof (find_id (id item) rendered) as Hf.
    destruct (List.find _ rendered) as [x|].
    { destruct Hf as [Hin Hid]. exfalso. apply Hout, in_map_iff.
      by exists x. }
    cbn [inventory addActivity warehouseSpaces activities].
    by rewrite Hkeep.
Qed.

Lemma addInventoryItem_then_delete_restores_inventory_witness :
  let c1 := {| now := "1700000000000"; iso := "2023-11-14T22:13:20.000Z" |} in
  let c2 := {| now := "1700000000500"; iso := "2023-11-14T22:13:20.500Z" |} in
  let item := sample_item "b" 8 2 10 in
  let st := {| inventory := [sample_item "a" 5 1 10];
               warehouseSpaces := [sample_space "s1" 6 0];
               activities := [] |} in
  let st1 := addInventoryItem c1 item st in
  let added :=
    entry c1 Activity.add
      ("Added item: " ++ name item ++ " (" ++
       JsTemplate.of_integer (quantity item) ++ " units)") in
  activities (deleteInventoryItem c2 (id item) (inventory st1) st1)
  = [entry c2 Activity.delete ("Deleted item: " ++ name item); added] /\
  activities (deleteInventoryItem c2 (id item) (inventory st) st1) = [added].
Proof.
  cbv zeta.
  destruct (addInventoryItem_then_delete_restores_inventory
              {| now := "1700000000000"; iso := "2023-11-14T22:13:20.000Z" |}
              {| now := "1700000000500"; iso := "2023-11-14T22:13:20.500Z" |}
              (sample_item "b" 8 2 10) [sample_item "a" 5 1 10]
              {| inventory := [sample_item "a" 5 1 10];
                 warehouseSpaces := [sample_space "s1" 6 0];
                 activities := [] |})
    as (_ & (_ & _ & Hshown) & Hstale).
  - simpl. intros [H|[]]. discriminate.
  - split; [exact Hshown|]. apply Hstale.
    simpl. intros [H|[]]. discriminate.
Defined.

End HookFacts.

(** ** The route optimization view *)

Module RouteKeyFacts.
Import InventoryItem Js DijkstraPathFinder RouteSpec DijkstraInv RouteTour
  DijkstraRunFacts RouteTourFacts RouteOptimization RouteKeys JsTemplate
  Samples.

Lemma hyphen_free_cons (c : ascii) (s : string) :
  hyphen_free (String c s) <-> c <> "-"%char /\ hyphen_free s.
Proof. unfold hyphen_free. simpl. intuition congruence. Qed.

(** A string splits at its first hyphen in one way. *)
Lemma split_at_hyphen (a : string) :
  forall (a' r r' : string),
  hyphen_free a -> hyphen_free a' ->
  (a ++ String "-" r = a' ++ String "-" r')%string -> a = a' /\ r = r'.
Proof.
  induction a as [|c a IH]; intros [|c' a'] r r' Ha Ha'; simpl; intros E.
  - by injection E.
  - injection E as E _. apply hyphen_free_cons in Ha' as [Hc _]. congruence.
  - injection E as E _. apply hyphen_free_cons in Ha as [Hc _]. congruence.
  - injection E as -> E. apply hyphen_free_cons in Ha as [_ Ha].
    apply hyphen_free_cons in Ha' as [_ Ha'].
    destruct (IH a' r r' Ha Ha' E) as [-> ->]. done.
Qed.

Lemma digits_hyphen_free (d : Decimal.uint) :
  hyphen_free (NilEmpty.string_of_uint d).
Proof.
  induction d; simpl;
    try (apply hyphen_free_cons; split; [discriminate|done]).
  unfold hyphen_free. simpl. tauto.
Qed.

Lemma numeral_hyphen_free (d : Decimal.uint) :
  hyphen_free (NilZero.string_of_uint d) /\
  NilZero.string_of_uint d <> EmptyString.
Proof.
  split.
  - destruct d; try apply digits_hyphen_free.
    apply hyphen_free_cons. split; [discriminate|]. unfold hyphen_free.
    simpl. tauto.
  - by destruct d.
Qed.

(** The print of an integer is a numeral, after a minus sign or not. *)
Lemma of_integer_shape (n : Z) :
  exists body : string,
    hyphen_free body /\ body <> EmptyString /\
    (of_integer n = body \/ of_integer n = String "-" body).
Proof.
  unfold of_integer. destruct n as [|p|p]; simpl.
  - exists "0"%string. split_and!; [|done|by left].
    apply (numeral_hyphen_free (Decimal.D0 Decimal.Nil)).
  - exists (NilZero.string_of_uint (Pos.to_uint p)).
    destruct (numeral_hyphen_free (Pos.to_uint p)). split_and!; try done.
    by left.
  - exists (NilZero.string_of_uint (Pos.to_uint p)).
    destruct (numeral_hyphen_free (Pos.to_uint p)). split_and!; try done.
    by right.
Qed.

Lemma of_integer_inj (n m : Z) : of_integer n = of_integer m -> n = m.
Proof.
  unfold of_integer. intros E.
  assert (H : forall z, NilZero.int_of_string
                          (NilZero.string_of_int (Z.to_int z))
                        = Some (Z.to_int z)).
  { intros z. apply NilZero.isi; destruct z; simpl; try discriminate.
    - intros [= H]. by apply DecimalPos.Unsigned.to_uint_nonnil in H.
    - intros [= H]. by apply DecimalPos.Unsigned.to_uint_nonnil in H. }
  pose proof (H n) as Hn. rewrite E, H in Hn. injection Hn as Hn.
  by rewrite <- (DecimalZ.of_to n), <- (DecimalZ.of_to m), Hn.
Qed.

Lemma of_integer_opp (n : Z) :
  0 < n -> of_integer (- n) = String "-" (of_integer n).
Proof. by destruct n. Qed.

(** Two printed integers, each before a hyphen, are read back in one
    way. *)
Lemma split_after_integer (n n' : Z) (r r' : string) :
  (of_integer n ++ String "-" r = of_integer n' ++ String "-" r')%string ->
  n = n' /\ r = r'.
Proof.
  destruct (of_integer_shape n) as (b & Hb & Hne & Hn).
  destruct (of_integer_shape n') as (b' & Hb' & Hne' & Hn').
  intros E.
  assert (Hsplit : of_integer n = of_integer n' /\ r = r').
  { destruct Hn as [Hn|Hn], Hn' as [Hn'|Hn']; rewrite Hn, Hn' in *.
    - by apply split_at_hyphen.
    - destruct b as [|c b]; [done|]. simpl in E. injection E as E _.
      apply hyphen_free_cons in Hb as [Hc _]. congruence.
    - destruct b' as [|c b']; [done|]. simpl in E. injection E as E _.
      apply hyphen_free_cons in Hb' as [Hc _]. congruence.
    - simpl in E. injection E as E.
      destruct (split_at_hyphen b b' r r' Hb Hb' E) as [-> ->]. done. }
  destruct Hsplit as [Hi ->]. split; [|done]. by apply of_integer_inj.
Qed.

Lemma locationKey_inj (l l' : Location.t) :
  hyphen_free (Location.aisle l) -> hyphen_free (Location.aisle l') ->
  locationKey l = locationKey l' -> l = l'.
Proof.
  intros Ha Ha'. unfold locationKey. simpl. intros E.
  apply split_at_hyphen in E as [Haisle E]; [|done|done].
  apply split_after_integer in E as [Hshelf E].
  apply of_integer_inj in E.
  destruct l, l'; simpl in *. congruence.
Qed.

(** The key tells locations apart when the aisles have no hyphen: two
    locations with such aisles that differ have different keys. *)
Theorem locationKey_separates_plain_aisles (l l' : Location.t) :
  hyphen_free (Location.aisle l) -> hyphen_free (Location.aisle l') ->
  l <> l' -> locationKey l <> locationKey l'.
Proof. intros Ha Ha' Hne E. by apply Hne, locationKey_inj. Qed.

Lemma locationKey_separates_plain_aisles_witness :
  locationKey A11 <> locationKey B21.
Proof.
  apply locationKey_separates_plain_aisles.
  - unfold hyphen_free. simpl. intros [H|[]]. discriminate.
  - unfold hyphen_free. simpl. intros [H|[]]. discriminate.
  - discriminate.
Defined.

(** *** The [Map] of the locations *)

Section Keyed.
Context {V : Type}.
Variable key : V -> string.
Variable L : list V.

Local Abbreviation keyed := (RouteKeys.keyed key L).

Local Abbreviation put :=
  (fun (m : JsMap.t V) (entry : string * V) => JsMap.set entry.1 entry.2 m).

Lemma set_In (k : string) (v : V) (m : JsMap.t V) :
  forall e, In e (JsMap.set k v m) -> e = (k, v) \/ In e m.
Proof.
  induction m as [|[k' v'] m IH]; simpl; intros e.
  - intros [<-|[]]. by left.
  - destruct (String.eqb_spec k' k) as [->|_]; simpl.
    + intros [<-|H]; [by left|by right; right].
    + intros [<-|H]; [by right; left|].
      destruct (IH e H); [by left|by right; right].
Qed.

Lemma set_keys (k : string) (v : V) (m : JsMap.t V) :
  forall k', In k' (map fst (JsMap.set k v m)) <->
             k' = k \/ In k' (map fst m).
Proof.
  induction m as [|[k0 v0] m IH]; simpl; intros k'.
  - intuition.
  - destruct (String.eqb_spec k0 k) as [->|_]; simpl.
    + intuition.
    + rewrite IH. intuition.
Qed.

Lemma set_NoDup (k : string) (v : V) (m : JsMap.t V) :
  List.NoDup (map fst m) -> List.NoDup (map fst (JsMap.set k v m)).
Proof.
  induction m as [|[k0 v0] m IH]; simpl; intros Hnd.
  - constructor; [tauto|constructor].
  - destruct (String.eqb_spec k0 k) as [->|Hne]; simpl; [done|].
    apply List.NoDup_cons_iff in Hnd as [Hout Hnd].
    apply List.NoDup_cons_iff. split; [|by apply IH].
    rewrite set_keys. intuition.
Qed.

Lemma set_In_new (k : string) (v : V) (m : JsMap.t V) :
  In (k, v) (JsMap.set k v m).
Proof.
  induction m as [|[k0 v0] m IH]; simpl; [by left|].
  destruct (String.eqb_spec k0 k) as [->|_]; simpl; [by left|by right].
Qed.

Lemma set_In_other (k : string) (v : V) (m : JsMap.t V) (e : string * V) :
  In e m -> e.1 <> k -> In e (JsMap.set k v m).
Proof.
  induction m as [|[k0 v0] m IH]; simpl; [done|].
  intros [<-|Hin] Hne.
  - destruct (String.eqb_spec k0 k) as [->|_]; [done|by left].
  - destruct (String.eqb_spec k0 k) as [->|_]; right; [done|by apply IH].
Qed.

Lemma fold_set_keyed (l : list V) :
  forall m, incl l L -> keyed m ->
            keyed (fold_left put (map (fun x => (key x, x)) l) m).
Proof.
  induction l as [|a l IH]; intros m Hl [Hnd Hm]; simpl; [done|].
  apply IH; [intros x Hx; apply Hl; by right|]. split.
  - by apply set_NoDup.
  - intros k v Hin. apply set_In in Hin as [[= -> ->]|Hin].
    + split; [done|]. apply Hl. by left.
    + by apply Hm.
Qed.

Lemma fold_set_keys (l : list V) :
  forall m k,
  In k (map fst (fold_left put (map (fun x => (key x, x)) l) m)) <->
  In k (map key l) \/ In k (map fst m).
Proof.
  induction l as [|a l IH]; intros m k; simpl; [tauto|].
  rewrite IH, set_keys. intuition.
Qed.

Lemma fold_set_complete (l : list V) :
  (forall x y, In x L -> In y L -> key x = key y -> x = y) ->
  forall m, incl l L -> keyed m ->
  forall x, In x l \/ In (key x, x) m ->
            In (key x, x) (fold_left put (map (fun x => (key x, x)) l) m).
Proof.
  intros Hinj. induction l as [|a l IH]; intros m Hl Hm x; simpl.
  - tauto.
  - intros H. apply IH.
    + intros y Hy. apply Hl. by right.
    + apply (fold_set_keyed [a] m); [|done].
      intros y [<-|[]]. apply Hl. by left.
    + destruct H as [[<-|H]|H]; [right; apply set_In_new|by left|].
      right. destruct (String.eqb_spec (key x) (key a)) as [E|E].
      * apply Hinj in E as ->; [apply set_In_new| |apply Hl; by left].
        by destruct (proj2 Hm _ _ H).
      * by apply set_In_other.
Qed.

Lemma keyed_values (m : JsMap.t V) :
  keyed m -> map fst m = map key (JsMap.values m).
Proof.
  intros [_ Hm]. unfold JsMap.values. rewrite map_map.
  apply map_ext_in. intros [k v] Hin. by apply Hm in Hin as [-> _].
Qed.

End Keyed.

Lemma uniqueLocations_keyed (inventory : list InventoryItem.t) :
  keyed locationKey (map location inventory)
    (JsMap.of_entries
       (map (fun item => (locationKey (location item), location item))
            inventory)).
Proof.
  rewrite <- (map_map location (fun x => (locationKey x, x))).
  apply fold_set_keyed; [apply incl_refl|]. split; [constructor|done].
Qed.

Lemma uniqueLocations_keys_NoDup (inventory : list InventoryItem.t) :
  List.NoDup (map locationKey (uniqueLocations inventory)).
Proof.
  unfold uniqueLocations.
  rewrite <- (keyed_values locationKey (map location inventory))
    by apply uniqueLocations_keyed.
  apply uniqueLocations_keyed.
Qed.

Lemma uniqueLocations_In (inventory : list InventoryItem.t)
    (loc : Location.t) :
  In loc (uniqueLocations inventory) ->
  exists item, In item inventory /\ location item = loc.
Proof.
  unfold uniqueLocations, JsMap.values. rewrite in_map_iff.
  intros ([k v] & <- & Hin).
  apply (uniqueLocations_keyed inventory) in Hin as [_ H].
  apply in_map_iff in H as (item & <- & H). by exists item.
Qed.

Lemma uniqueLocations_keys (inventory : list InventoryItem.t)
    (item : InventoryItem.t) :
  In item inventory ->
  exists loc, In loc (uniqueLocations inventory) /\
              locationKey loc = locationKey (location item).
Proof.
  intros Hin.
  assert (H : In (locationKey (location item))
                 (map locationKey (uniqueLocations inventory))).
  { unfold uniqueLocations.
    rewrite <- (keyed_values locationKey (map location inventory))
      by apply uniqueLocations_keyed.
    unfold JsMap.of_entries.
    rewrite <- (map_map location (fun x => (locationKey x, x))).
    apply fold_set_keys. left. apply in_map, in_map. done. }
  apply in_map_iff in H as (loc & E & H). by exists loc.
Qed.

Lemma uniqueLocations_complete (inventory : list InventoryItem.t) :
  Forall (fun item => hyphen_free (Location.aisle (location item)))
    inventory ->
  forall item, In item inventory ->
               In (location item) (uniqueLocations inventory).
Proof.
  intros Hplain item Hin. unfold uniqueLocations, JsMap.values.
  apply in_map_iff. exists (locationKey (location item), location item).
  split; [done|]. unfold JsMap.of_entries.
  rewrite <- (map_map location (fun x => (locationKey x, x))).
  apply (fold_set_complete locationKey (map location inventory)).
  - intros x y Hx Hy. rewrite Forall_forall in Hplain.
    apply in_map_iff in Hx as (ix & <- & Hx).
    apply in_map_iff in Hy as (iy & <- & Hy).
    apply locationKey_inj; apply Hplain; by apply list_elem_of_In.
  - apply incl_refl.
  - split; [constructor|done].
  - left. by apply in_map.
Qed.

Lemma append_assoc (a b c : string) :
  ((a ++ b) ++ c = a ++ (b ++ c))%string.
Proof.
  induction a as [|x a IH]; [done|].
  change (String x ((a ++ b) ++ c) = String x (a ++ (b ++ c)))%string.
  by rewrite IH.
Qed.

(** The graph gets one location for each key. The locations that the
    view hands to the planner have different keys, hence are distinct,
    and each is the location of an item; every item has a location of
    its key among them; when no aisle of the inventory has a hyphen,
    every item has its own location among them. A hyphen can make two
    locations share a key: an item in aisle [a-] on shelf [n] and one
    after it in aisle [a] on shelf [-n], at the same position, leave the
    location of the second alone. *)
Theorem uniqueLocations_one_location_per_key
    (inventory : list InventoryItem.t) :
  List.NoDup (map locationKey (uniqueLocations inventory)) /\
  List.NoDup (uniqueLocations inventory) /\
  (forall loc, In loc (uniqueLocations inventory) ->
     exists item, In item inventory /\ location item = loc) /\
  (forall item, In item inventory ->
     exists loc, In loc (uniqueLocations inventory) /\
                 locationKey loc = locationKey (location item)) /\
  (Forall (fun item => hyphen_free (Location.aisle (location item)))
     inventory ->
   forall item, In item inventory ->
                In (location item) (uniqueLocations inventory)) /\
  (forall (a : string) (n p : Z) (first second : InventoryItem.t),
     0 < n ->
     location first = {| Location.aisle := a ++ "-"; Location.shelf := n;
                         Location.position := p |} ->
     location second = {| Location.aisle := a; Location.shelf := - n;
                          Location.position := p |} ->
     uniqueLocations [first; second] = [location second]).
Proof.
  split_and!.
  - apply uniqueLocations_keys_NoDup.
  - eapply NoDup_map_inv, uniqueLocations_keys_NoDup.
  - apply uniqueLocations_In.
  - apply uniqueLocations_keys.
  - apply uniqueLocations_complete.
  - intros a n p first second Hn Hfirst Hsecond.
    unfold uniqueLocations, JsMap.of_entries. simpl.
    assert (E : locationKey (location first)
                = locationKey (location second)).
    { rewrite Hfirst, Hsecond. unfold locationKey.
      cbn [Location.aisle Location.shelf Location.position].
      rewrite (of_integer_opp n Hn), append_assoc. done. }
    rewrite E, String.eqb_refl. done.
Qed.

Lemma uniqueLocations_one_location_per_key_witness :
  In A12 (uniqueLocations
            [sample_item_at "a" A11; sample_item_at "b" A12;
             sample_item_at "c" A11]).
Proof.
  apply (uniqueLocations_one_location_per_key
           [sample_item_at "a" A11; sample_item_at "b" A12;
            sample_item_at "c" A11]
         ) with (item := sample_item_at "b" A12).
  - repeat constructor; unfold hyphen_free; simpl; intros [H|[]];
      discriminate.
  - simpl. tauto.
Defined.

(** *** The route from the view *)

Lemma initialize_locations (inventory : list InventoryItem.t) (st0 : state) :
  inventory <> [] ->
  initialize inventory st0
  = initializeWarehouseGraph (uniqueLocations inventory) st0.
Proof. by destruct inventory. Qed.

(** The route asked from the view. With an inventory that is not empty,
    whose aisles have a first letter and no hyphen and whose shelves and
    positions are small enough for the lengths to be exact (2^48 at
    most), and with something selected: [calculateOptimalRoute], after
    the graph was initialized from the inventory, leaves the result that
    was there when no item is at the start location (the planner throws
    and the view catches it); and when an item is there, it leaves a
    route that begins at the start, repeats no node, stops at the
    location of every selected item of the inventory and nowhere else,
    and whose total distance is the cost of its walk in the graph, the
    lengths added from the start on and each sum rounded to a double:
    the length of the walk, as long as that is a safe integer. *)
Theorem calculateOptimalRoute_after_initialize
    (inventory : list InventoryItem.t) (selectedItems : list string)
    (startLocation : Location.t) (st0 : state)
    (pathResult : option PathResult) :
  Forall plain_aisle inventory ->
  Forall (fun item => small (location item)) inventory ->
  inventory <> [] ->
  selectedItems <> [] ->
  let st := initialize inventory st0 in
  let out := calculateOptimalRoute inventory selectedItems startLocation st
               pathResult in
  ((forall item, In item inventory -> location item <> startLocation) ->
   out = pathResult) /\
  ((exists item, In item inventory /\ location item = startLocation) ->
   exists r total,
     out = Some r /\
     (exists s, head (r_path r) = Some s /\
                locations st !! s = Some startLocation) /\
     List.NoDup (r_path r) /\
     (forall item, In item inventory -> In (id item) selectedItems ->
        exists i, In i (r_path r) /\
                  locations st !! i = Some (location item)) /\
     (forall i, In i (r_path r) ->
        exists loc, locations st !! i = Some loc /\
          (loc = startLocation \/
           exists item, In item inventory /\ In (id item) selectedItems /\
                        location item = loc)) /\
     totalDistance r = walk_cost (graph st) (r_path r) /\
     walk_length (graph st) (r_path r) = Some total /\
     (total <= 2 ^ 53 -> totalDistance r = Fin total)).
Proof.
  intros Hplain Hsmall Hne Hsel. cbv zeta. rewrite (initialize_locations _ _ Hne).
  unfold calculateOptimalRoute.
  destruct (Nat.eqb_spec (length selectedItems) 0) as [Hz|_].
  { destruct selectedItems; [done|simpl in Hz; lia]. }
  cbv zeta.
  set (dests := map location (Selection.selected inventory selectedItems)).
  split.
  - intros Hnone. unfold findOptimalPickingPath. cbv zeta.
    rewrite findLocationIndex_unknown; [done|].
    cbn [locations initializeWarehouseGraph]. intros Hin.
    apply uniqueLocations_In in Hin as (item & Hin & E).
    by apply (Hnone item).
  - intros (at_start & Hat & <-).
    assert (Haisles : Forall (fun item =>
                        hyphen_free (Location.aisle (location item)))
                        inventory).
    { eapply Forall_impl; [exact Hplain|]. by intros item [_ H]. }
    destruct (findOptimalPickingPath_tour (uniqueLocations inventory) st0
                (location at_start) dests)
      as (r & s & indices & stops & total & Hr & Hs & Hi & Hpath & Hnd & Hnf
          & Hcover & Htotal & Hwalk).
    { apply Forall_forall. intros loc Hloc.
      apply list_elem_of_In, uniqueLocations_In in Hloc as (item & Hin & <-).
      rewrite Forall_forall in Hplain.
      by apply Hplain, list_elem_of_In. }
    { apply Forall_forall. intros loc Hloc.
      apply list_elem_of_In, uniqueLocations_In in Hloc as (item & Hin & <-).
      rewrite Forall_forall in Hsmall.
      by apply Hsmall, list_elem_of_In. }
    { by apply uniqueLocations_complete. }
    { intros d Hd. apply in_map_iff in Hd as (item & <- & Hd).
      apply SelectionFacts.selected_In in Hd as [Hd _].
      by apply uniqueLocations_complete. }
    set (st := initializeWarehouseGraph (uniqueLocations inventory) st0) in *.
    destruct (destIndices_located st _ _ Hi) as [Hto Hfrom].
    apply findLocationIndex_located in Hs.
    rewrite Hr. exists r, total. rewrite Hpath.
    split; [done|]. split; [by exists s|]. split; [done|]. split.
    { intros item Hin Hid.
      destruct (Hto (location item)) as (i & Hi' & Hf).
      { apply in_map, SelectionFacts.selected_In. by split. }
      exists i. split; [by apply Hcover|].
      by apply findLocationIndex_located in Hf. }
    split.
    { intros i [<-|Hin]; [exists (location at_start); by split; [|left]|].
      destruct (Hfrom i) as (d & Hd & Hf); [by eapply nearest_first_In|].
      exists d. split; [by apply findLocationIndex_located in Hf|].
      right. apply in_map_iff in Hd as (item & <- & Hd).
      apply SelectionFacts.selected_In in Hd as [Hd Hd'].
      by exists item. }
    split; [done|]. split; [done|].
    intros Hle. rewrite Htotal. apply walk_cost_exact; try done.
    intros i j w Hw.
    destruct (DijkstraMetricFacts.initialized_lengths
                (uniqueLocations inventory) st0)
      as [_ Hlv].
    { apply Forall_forall. intros loc Hloc.
      apply list_elem_of_In, uniqueLocations_In in Hloc as (item & Hin & <-).
      rewrite Forall_forall in Hplain.
      by apply Hplain, list_elem_of_In. }
    destruct (Hlv i j (Fin w) Hw) as [?|(z & [= <-] & Hz)]; done.
Qed.

Lemma calculateOptimalRoute_after_initialize_witness :
  let inventory := [sample_item_at "a" A11; sample_item_at "b" B21;
                    sample_item_at "c" A12] in
  let st := initialize inventory initial in
  let out := calculateOptimalRoute inventory ["c"; "b"] A11 st None in
  ((forall item, In item inventory -> location item <> A11) -> out = None) /\
  ((exists item, In item inventory /\ location item = A11) ->
   exists r total,
     out = Some r /\
     (exists s, head (r_path r) = Some s /\ locations st !! s = Some A11) /\
     List.NoDup (r_path r) /\
     (forall item, In item inventory -> In (id item) ["c"; "b"] ->
        exists i, In i (r_path r) /\
                  locations st !! i = Some (location item)) /\
     (forall i, In i (r_path r) ->
        exists loc, locations st !! i = Some loc /\
          (loc = A11 \/
           exists item, In item inventory /\ In (id item) ["c"; "b"] /\
                        location item = loc)) /\
     totalDistance r = walk_cost (graph st) (r_path r) /\
     walk_length (graph st) (r_path r) = Some total /\
     (total <= 2 ^ 53 -> totalDistance r = Fin total)).
Proof.
  cbv zeta. apply calculateOptimalRoute_after_initialize; [| |done|done].
  - repeat constructor; try discriminate;
      unfold hyphen_free; simpl; intros [H|[]]; discriminate.
  - repeat constructor; by vm_compute.
Defined.

End RouteKeyFacts.
